(** * QR-Generator: a shallow embedding of [src/qr.cc] and its properties

    The C++ class [QRCode] builds a QR symbol eagerly in its constructor.
    Every member function is embedded as a Rocq function that receives the
    fields it reads as arguments and returns the fields it writes.

    - [int] and [std::size_t] values are [Z]; conversions that can wrap
      are written out ([int_of_size_t], [uint32_of_size_t]).
    - [std::uint8_t] values are [Z] in [0, 256).
    - [std::vector<T>] is [list T]; [.at(i)] is [vat], which throws
      [std::out_of_range] outside the vector; unchecked accesses
      ([operator[]], iterator ranges, raw arrays) are [Undefined] there.
    - A [throw] is the outcome [Throw]; undefined behaviour is [Undefined]. *)

From Stdlib Require Import ZArith Lia String Ascii Bool.
From stdpp Require Import base tactics option numbers list.

Local Open Scope Z_scope.

(** ** Outcomes of a call *)

Inductive exn : Type :=
  | LogicError (what : string)
  | OutOfRange
  | LengthError.

Inductive outcome (A : Type) : Type :=
  | Ok (a : A)
  | Throw (e : exn)
  | Undefined.

Arguments Ok {A} a.
Arguments Throw {A} e.
Arguments Undefined {A}.

#[global] Instance outcome_ret : MRet outcome := fun _ a => Ok a.

#[global] Instance outcome_bind : MBind outcome := fun _ _ f m =>
  match m with
  | Ok a => f a
  | Throw e => Throw e
  | Undefined => Undefined
  end.

(** [v.at(i)]: [i] is converted to [std::size_t], so a negative [int] is
    out of range as well. *)
Definition vat {A} (v : list A) (i : Z) : outcome A :=
  if i <? 0 then Throw OutOfRange
  else match v !! Z.to_nat i with
       | Some a => Ok a
       | None => Throw OutOfRange
       end.

(** [v.at(i) = a]. *)
Definition vset {A} (v : list A) (i : Z) (a : A) : outcome (list A) :=
  _ ← vat v i; Ok (<[Z.to_nat i := a]> v).

(** Unchecked read of a raw array or [operator[]]. *)
Definition raw_at {A} (v : list A) (i : Z) : outcome A :=
  if i <? 0 then Undefined
  else match v !! Z.to_nat i with
       | Some a => Ok a
       | None => Undefined
       end.

(** A counted loop whose body may [return]: [None] continues with the
    next index, [Some r] leaves the function with [r]. *)
Fixpoint for_return {I R} (body : I → outcome (option R)) (idx : list I)
  : outcome (option R) :=
  match idx with
  | [] => Ok None
  | i :: idx' =>
      r ← body i;
      match r with
      | Some _ => Ok r
      | None => for_return body idx'
      end
  end.

(** A counted loop threading a state. *)
Fixpoint for_each {I S} (body : I → S → outcome S) (idx : list I) (s : S)
  : outcome S :=
  match idx with
  | [] => Ok s
  | i :: idx' => s' ← body i s; for_each body idx' s'
  end.

(** [for (i = lo; i < hi; ++i)] and [for (i = hi; i >= lo; --i)]. *)
Definition upto (lo hi : Z) : list Z := seqZ lo (hi - lo).
Definition downto (hi lo : Z) : list Z := reverse (seqZ lo (hi - lo + 1)).

(** Conversions between integer types (64-bit [std::size_t], 32-bit [int]). *)
Definition size_t_wrap (z : Z) : Z := z mod 2 ^ 64.
Definition uint32_of_size_t (z : Z) : Z := z mod 2 ^ 32.
Definition int_of_size_t (z : Z) : Z :=
  let r := z mod 2 ^ 32 in if r <? 2 ^ 31 then r else r - 2 ^ 32.

(** ** [qr.h]: error-correction levels and encodings *)

Inductive ErrCor : Type := kLow | kMedium | kQuartile | kHigh.

Definition ErrCor_to_int (e : ErrCor) : Z :=
  match e with kLow => 0 | kMedium => 1 | kQuartile => 2 | kHigh => 3 end.

Definition ErrCor_of_int (j : Z) : option ErrCor :=
  match j with
  | 0 => Some kLow | 1 => Some kMedium | 2 => Some kQuartile | 3 => Some kHigh
  | _ => None
  end.

Record Encoding : Type := mkEncoding {
  encoding_mode_ : Z;
  bits_per_char_0 : Z;   (* versions 1-9 *)
  bits_per_char_1 : Z;   (* versions 10-26 *)
  bits_per_char_2 : Z;   (* versions 27-40 *)
}.

Definition kNumeric_ : Encoding := mkEncoding 1 10 12 14.
Definition kAlpha_   : Encoding := mkEncoding 2 9 11 13.
Definition kByte_    : Encoding := mkEncoding 4 8 16 16.
Definition kEci_     : Encoding := mkEncoding 7 0 0 0.
Definition kKanji_   : Encoding := mkEncoding 8 8 10 12.

Definition getEncodingMode (e : Encoding) : Z := encoding_mode_ e.

Definition getBitsPerChar (e : Encoding) (ver : Z) : outcome Z :=
  if (0 <? ver) && (ver <? 10) then Ok (bits_per_char_0 e)
  else if (9 <? ver) && (ver <? 27) then Ok (bits_per_char_1 e)
  else if (26 <? ver) && (ver <? 41) then Ok (bits_per_char_2 e)
  else Throw (LogicError "Invalid version").

(** ** Static tables *)

Definition kAlphanumericChar_ : string :=
  "0123456789ABCDEFGHIJKLMNOPQRSTUVWXYZ $%*+-./:".

Definition kEC_codewords_per_block_ : list (list Z) :=
  [ [-1;  7; 10; 15; 20; 26; 18; 20; 24; 30; 18; 20; 24; 26; 30; 22; 24; 28; 30; 28; 28; 28; 28; 30; 30; 26; 28; 30; 30; 30; 30; 30; 30; 30; 30; 30; 30; 30; 30; 30; 30];
    [-1; 10; 16; 26; 18; 24; 16; 18; 22; 22; 26; 30; 22; 22; 24; 24; 28; 28; 26; 26; 26; 26; 28; 28; 28; 28; 28; 28; 28; 28; 28; 28; 28; 28; 28; 28; 28; 28; 28; 28; 28];
    [-1; 13; 22; 18; 26; 18; 24; 18; 22; 20; 24; 28; 26; 24; 20; 30; 24; 28; 28; 26; 30; 28; 30; 30; 30; 30; 28; 30; 30; 30; 30; 30; 30; 30; 30; 30; 30; 30; 30; 30; 30];
    [-1; 17; 28; 22; 16; 22; 28; 26; 26; 24; 28; 24; 28; 22; 24; 24; 30; 28; 28; 26; 28; 30; 24; 30; 30; 30; 30; 30; 30; 30; 30; 30; 30; 30; 30; 30; 30; 30; 30; 30; 30] ].

Definition kErr_corr_blocks_ : list (list Z) :=
  [ [-1; 1; 1; 1; 1; 1; 2; 2; 2; 2;  4;  4;  4;  4;  4;  6;  6;  6;  6;  7;  8;  8;  9;  9; 10; 12; 12; 12; 13; 14; 15; 16; 17; 18; 19; 19; 20; 21; 22; 24; 25];
    [-1; 1; 1; 1; 2; 2; 4; 4; 4; 5;  5;  5;  8;  9;  9; 10; 10; 11; 13; 14; 16; 17; 17; 18; 20; 21; 23; 25; 26; 28; 29; 31; 33; 35; 37; 38; 40; 43; 45; 47; 49];
    [-1; 1; 1; 2; 2; 4; 4; 6; 6; 8;  8;  8; 10; 12; 16; 12; 17; 16; 18; 21; 20; 23; 23; 25; 27; 29; 34; 34; 35; 38; 40; 43; 45; 48; 51; 53; 56; 59; 62; 65; 68];
    [-1; 1; 1; 2; 4; 4; 4; 5; 6; 8;  8; 11; 11; 16; 16; 18; 16; 19; 21; 25; 25; 25; 34; 30; 32; 35; 37; 40; 42; 45; 48; 51; 54; 57; 60; 63; 66; 70; 74; 77; 81] ].

(** [table[static_cast<int>(level)][version]] on a [std::int8_t[4][41]]. *)
Definition table_at (t : list (list Z)) (level : ErrCor) (version : Z) : outcome Z :=
  row ← raw_at t (ErrCor_to_int level); raw_at row version.

(** ** Capacity ([qr.cc] lines 100-197) *)

(** The [pow] calls work on small integers, which [double] holds exactly. *)
Definition getTotalModules (version : Z) : Z :=
  if version =? 1 then 21 * 21 - 3 * 8 * 8 - 2 * 15 - 1 - 2 * 5
  else
    let alignBlocks := Z.quot version 7 + 2 in
    (version * 4 + 17) ^ 2 - 3 * 8 * 8 - (alignBlocks ^ 2 - 3) * 5 * 5
    - 2 * (version * 4 + 1) + (alignBlocks - 2) * 5 * 2 - 2 * 15 - 1
    - (if 6 <? version then 2 * 3 * 6 else 0).

Definition getTotalCodewords (version : Z) (error_level : ErrCor) : outcome Z :=
  b ← table_at kErr_corr_blocks_ error_level version;
  e ← table_at kEC_codewords_per_block_ error_level version;
  Ok (Z.shiftr (getTotalModules version) 3 - b * e).

Definition numericCapacity (bits : Z) : Z :=
  Z.quot bits 10 * 3
  + (if 6 <? Z.rem bits 10 then 2 else if 3 <? Z.rem bits 10 then 1 else 0).

Definition alphanumbericCapacity (bits : Z) : Z :=
  Z.quot bits 11 * 2 + (if 5 <? Z.rem bits 11 then 1 else 0).

Definition byteCapacity (bits : Z) : Z := Z.shiftr bits 3.

Definition kanjiCapacity (bits : Z) : Z := Z.quot bits 13.

Definition getCapacity (kEncoding_ : Encoding) (version : Z) (error_level : ErrCor)
  : outcome Z :=
  data_codewords ← getTotalCodewords version error_level;
  bits_per_char ← getBitsPerChar kEncoding_ version;
  let available_bits := Z.shiftl data_codewords 3 - bits_per_char - 4 in
  let mode := getEncodingMode kEncoding_ in
  if mode =? 1 then Ok (numericCapacity available_bits)
  else if mode =? 2 then Ok (alphanumbericCapacity available_bits)
  else if mode =? 4 then Ok (byteCapacity available_bits)
  else if mode =? 7 then Ok (byteCapacity available_bits)
  else if mode =? 8 then Ok (kanjiCapacity available_bits)
  else Throw (LogicError "Invalid encoding mode.").

(** ** Version and level selection ([qr.cc] lines 136-148)

    The parameter [mode] is unused by the source as well. The result is the
    pair written to [version_] and [correctionLevel_]. *)
(** Lines 139-144: the body of the inner loop, for version [i] and
    level [j]. *)
Definition levelBody (kEncoding_ : Encoding) (length i j : Z)
  : outcome (option (Z * ErrCor)) :=
  match ErrCor_of_int j with
  | None => Undefined
  | Some lvl =>
      capacity ← getCapacity kEncoding_ i lvl;
      if length <=? capacity then Ok (Some (i, lvl)) else Ok None
  end.

Definition setVersionAndErrorLevel (kEncoding_ : Encoding)
    (mode length : Z) (min_err_cor : ErrCor) : outcome (Z * ErrCor) :=
  r ← for_return (fun i =>
         for_return (levelBody kEncoding_ length i)
           (downto (ErrCor_to_int kHigh) (ErrCor_to_int min_err_cor)))
       (upto 1 41);
  match r with
  | Some vl => Ok vl
  | None => Throw (LogicError "String too long!")
  end.

(** ** Classification ([qr.cc] lines 67-77 and 150-181) *)

(** Plain [char] is signed: codes from 128 on are negative. *)
Definition char_val (ch : ascii) : Z :=
  let n := Z.of_N (N_of_ascii ch) in if n <? 128 then n else n - 256.

Definition npos : Z := 2 ^ 64 - 1.

Fixpoint find_from (s : list ascii) (ch : ascii) (pos : Z) : Z :=
  match s with
  | [] => npos
  | c :: s' => if Ascii.eqb c ch then pos else find_from s' ch (pos + 1)
  end.

(** [str.find(ch)] *)
Definition string_find (str : string) (ch : ascii) : Z :=
  find_from (list_ascii_of_string str) ch 0.

Definition isNumeric (text : string) : bool :=
  forallb (fun ch => negb ((char_val ch <? char_val "0") || (char_val "9" <? char_val ch)))
          (list_ascii_of_string text).

Definition isAlphanumeric (text : string) : bool :=
  forallb (fun ch => negb (string_find kAlphanumericChar_ ch =? npos))
          (list_ascii_of_string text).

Definition isByte (text : string) : bool :=
  forallb (fun ch => negb ((char_val ch <? char_val " ") || (char_val "~" <? char_val ch)))
          (list_ascii_of_string text).

Definition isKanji (text : string) : bool := false.

(** The value of the pointer [kEncoding_] after the call: [None] when no
    branch assigned it, so that it still holds an indeterminate value. *)
Definition determineEncoding (text : string) : option Encoding :=
  if isNumeric text then Some kNumeric_
  else if isAlphanumeric text then Some kAlpha_
  else if isByte text then Some kByte_
  else if isKanji text then Some kKanji_
  else None.

(** ** Bit buffer ([qr.cc] lines 31-41) *)

Abbreviation BitBuffer := (list bool).

Definition appendBits (this : BitBuffer) (val len : Z) : outcome BitBuffer :=
  if (len <? 0) || (31 <? len) || negb (Z.shiftr val len =? 0)
  then Throw (LogicError "Out of range")
  else Ok (this ++ map (fun i => negb (Z.land (Z.shiftr val i) 1 =? 0))
                       (downto (len - 1) 0)).

Definition bsize {A} (v : list A) : Z := Z.of_nat (length v).

(** ** Segment encoder ([qr.cc] lines 390-477) *)

(** Lines 404-423: the Numeric branch. [numericBody] is one turn of the
    loop of lines 407-418, on the state [(group, max, buffer)]. *)
Definition numericBody (ch : ascii) (st : Z * Z * BitBuffer)
  : outcome (Z * Z * BitBuffer) :=
  let '(group, max, buffer) := st in
  if (char_val ch <? char_val "0") || (char_val "9" <? char_val ch)
  then Throw (LogicError "Numeric: Contains non numeric characters!")
  else
    let group := group * 10 + (char_val ch - char_val "0") in
    let max := max + 1 in
    if max =? 3
    then buffer ← appendBits buffer group 10; Ok (0, 0, buffer)
    else Ok (group, max, buffer).

(** Lines 420-423: the digits left over after the loop. *)
Definition numericTail (st : Z * Z * BitBuffer) : outcome BitBuffer :=
  let '(group, max, buffer) := st in
  if 0 <? max then appendBits buffer group (max * 3 + 1) else Ok buffer.

Definition encodeNumeric (text : string) (buffer : BitBuffer) : outcome BitBuffer :=
  st ← for_each numericBody (list_ascii_of_string text) (0, 0, buffer);
  numericTail st.

(** Lines 429-446: the Alphanumeric branch. [group * 45 + index] is
    computed in [std::size_t] and stored into an [int]. *)
Definition encodeAlphanumeric (text : string) (buffer : BitBuffer) : outcome BitBuffer :=
  '(group, max, buffer) ←
    for_each (fun ch '(group, max, buffer) =>
        let index := string_find kAlphanumericChar_ ch in
        let group := int_of_size_t (size_t_wrap (group * 45 + index)) in
        let max := max + 1 in
        if max =? 2
        then buffer ← appendBits buffer (uint32_of_size_t group) 11; Ok (0, 0, buffer)
        else Ok (group, max, buffer))
      (list_ascii_of_string text) (0, 0, buffer);
  if 0 <? max then appendBits buffer (uint32_of_size_t group) 6 else Ok buffer.

(** Lines 450-452: the Byte branch. *)
Definition encodeByte (text : string) (buffer : BitBuffer) : outcome BitBuffer :=
  for_each (fun ch buffer => appendBits buffer (uint32_of_size_t (char_val ch)) 8)
           (list_ascii_of_string text) buffer.

(** Lines 466-468: the padding loop. Every turn appends 8 bits, so
    [capacity - buffer.size()] turns are enough; see [padLoop_fuel]. *)
Fixpoint padLoop (fuel : nat) (capacity : Z) (byte : Z) (buffer : BitBuffer)
  : outcome BitBuffer :=
  if bsize buffer <? capacity then
    match fuel with
    | O => Ok buffer
    | S fuel' =>
        buffer ← appendBits buffer byte 8;
        padLoop fuel' capacity (Z.lxor byte (Z.lxor 0xEC 0x11)) buffer
    end
  else Ok buffer.

(** Lines 471-474: packing the bits into bytes. *)
Definition packBits (buffer : BitBuffer) : outcome (list Z) :=
  for_each (fun i codewords =>
      b ← vat buffer i;
      c ← vat codewords (Z.shiftr i 3);
      vset codewords (Z.shiftr i 3)
           (Z.lor c (Z.shiftl (if b : bool then 1 else 0) (7 - Z.land i 7))))
    (upto 0 (bsize buffer))
    (replicate (Z.to_nat (Z.quot (bsize buffer) 8)) 0).

(** Lines 460-476: terminator, padding and packing. *)
Definition terminateAndPack (version_ : Z) (correctionLevel_ : ErrCor)
    (buffer : BitBuffer) : outcome (list Z) :=
  total ← getTotalCodewords version_ correctionLevel_;
  let capacity := size_t_wrap (size_t_wrap total * 8) in
  buffer ← appendBits buffer 0
             (Z.min 4 (int_of_size_t (size_t_wrap (capacity - bsize buffer))));
  buffer ← appendBits buffer 0 (Z.rem (8 - Z.rem (bsize buffer) 8) 8);
  buffer ← padLoop (Z.to_nat (capacity - bsize buffer)) capacity 0xEC buffer;
  packBits buffer.

Definition encodeText (kEncoding_ : Encoding) (version_ : Z)
    (correctionLevel_ : ErrCor) (text : string) : outcome (list Z) :=
  let mode := getEncodingMode kEncoding_ in
  buffer ← appendBits [] (uint32_of_size_t mode) 4;
  bits_per_char ← getBitsPerChar kEncoding_ version_;
  buffer ← appendBits buffer
             (uint32_of_size_t (Z.of_nat (String.length text))) bits_per_char;
  buffer ← (if mode =? 1 then encodeNumeric text buffer
            else if mode =? 2 then encodeAlphanumeric text buffer
            else if mode =? 4 then encodeByte text buffer
            else Ok buffer);
  terminateAndPack version_ correctionLevel_ buffer.

(** ** Reed-Solomon arithmetic ([qr.cc] lines 539-627) *)

(** The pair of tables [(rsLog_, rsExp_)]. *)
Record RsTables : Type := mkTables { rsLog_ : list Z; rsExp_ : list Z }.

(** The member initialisers [rsLog_(256), rsExp_(256)]. *)
Definition initialTables : RsTables :=
  mkTables (replicate 256 0) (replicate 256 0).

Definition uint8 (z : Z) : Z := z mod 256.

Definition rsGenerateLogExp (t : RsTables) : outcome RsTables :=
  '(val, log, exp) ←
    for_each (fun exp '(val, rslog, rsexp) =>
        let val := if 127 <? val then Z.lxor (Z.shiftl val 1) 285
                   else Z.shiftl val 1 in
        rslog ← vset rslog val (uint8 (Z.rem exp 255));
        rsexp ← vset rsexp (Z.rem exp 255) (uint8 val);
        Ok (val, rslog, rsexp))
      (upto 1 256) (1, rsLog_ t, rsExp_ t);
  exp ← vset exp 255 1;
  Ok (mkTables log exp).

Section ReedSolomon.
Variable t : RsTables.

Definition reedSolomonMult (x y : Z) : outcome Z :=
  if negb (x =? 0) && negb (y =? 0)
  then lx ← vat (rsLog_ t) x; ly ← vat (rsLog_ t) y;
       vat (rsExp_ t) (Z.rem (lx + ly) 255)
  else Ok 0.

Definition reedSolomonDiv (x y : Z) : outcome Z :=
  lx ← vat (rsLog_ t) x; ly ← vat (rsLog_ t) y;
  vat (rsExp_ t) (Z.rem (lx + ly) 255).

(** An empty product would ask for a vector of [size_t(-1)] bytes. *)
Definition reedSolomonPolyMult (poly1 poly2 : list Z) : outcome (list Z) :=
  if bsize poly1 + bsize poly2 =? 0 then Throw LengthError
  else
    for_each (fun index coeffs =>
        coeff ← for_each (fun p1index coeff =>
                    let p2index := index - p1index in
                    if (p1index <? bsize poly1) && (p2index <? bsize poly2)
                    then a ← vat poly1 p1index; b ← vat poly2 p2index;
                         m ← reedSolomonMult a b; Ok (Z.lxor coeff m)
                    else Ok coeff)
                  (upto 0 (index + 1)) 0;
        vset coeffs index coeff)
      (upto 0 (bsize poly1 + bsize poly2 - 1))
      (replicate (Z.to_nat (bsize poly1 + bsize poly2 - 1)) 0).

(** [remainder.at(index) ^= subtr.at(index)] for every index. *)
Definition xorInto (remainder subtr : list Z) : outcome (list Z) :=
  for_each (fun index remainder =>
      r ← vat remainder index; s ← vat subtr index;
      vset remainder index (Z.lxor r s))
    (upto 0 (bsize remainder)) remainder.

(** [std::copy(src.begin(), src.end(), dst.begin())]: writing past the
    end of [dst] is undefined. *)
Definition copyInto (src dst : list Z) : outcome (list Z) :=
  if bsize dst <? bsize src then Undefined
  else Ok (src ++ drop (length src) dst).

(** One turn of the loop of [reedSolomonPolyDiv] (lines 589-612). *)
Definition polyDivStep (divisor remainder : list Z) : outcome (list Z) :=
  r0 ← raw_at remainder 0;
  if negb (r0 =? 0) then
    r0 ← vat remainder 0; d0 ← vat divisor 0;
    factor ← reedSolomonDiv r0 d0;
    let subtr := replicate (length remainder) 0 in
    product ← reedSolomonPolyMult divisor [factor];
    subtr ← copyInto product subtr;
    remainder ← xorInto remainder subtr;
    Ok (drop 1 remainder)
  else Ok (drop 1 remainder).

Fixpoint polyDivLoop (count : nat) (divisor remainder : list Z)
  : outcome (list Z) :=
  match count with
  | O => Ok remainder
  | S count' =>
      remainder ← polyDivStep divisor remainder;
      polyDivLoop count' divisor remainder
  end.

(** [quotientLenth] is a [std::size_t]: when the divisor is more than one
    longer than the dividend it wraps to a count above
    [dividend.size()], and turn [dividend.size()] reads [remainder[0]]
    of an empty vector. *)
Definition reedSolomonPolyDiv (dividend divisor : list Z) : outcome (list Z) :=
  let quotientLenth :=
    if bsize divisor <=? bsize dividend + 1
    then bsize dividend - bsize divisor + 1
    else bsize dividend + 1 in
  polyDivLoop (Z.to_nat quotientLenth) divisor dividend.

(** The loop index is a [std::size_t]: a negative [degree] converts to a
    bound above 256, where [rsExp_.at(i)] throws. *)
Definition rsGeneratePoly (degree : Z) : outcome (list Z) :=
  for_each (fun i lastPoly =>
      e ← vat (rsExp_ t) i;
      reedSolomonPolyMult lastPoly [1; e])
    (upto 0 (if degree <? 0 then 257 else degree)) [1].

(** Lines 479-491. *)
Definition generateEDC (data : list Z) (codewords : Z) : outcome (list Z) :=
  let degree := int_of_size_t (size_t_wrap (codewords - bsize data)) in
  if codewords <? 0 then Throw LengthError
  else
    messagePoly ← copyInto data (replicate (Z.to_nat codewords) 0);
    gen ← rsGeneratePoly degree;
    reedSolomonPolyDiv messagePoly gen.
End ReedSolomon.

(** ** Block split and interleave ([qr.cc] lines 493-535) *)

(** [std::vector<uint8_t>(data.cbegin() + j, data.cbegin() + k)] *)
Definition vrange (data : list Z) (j k : Z) : outcome (list Z) :=
  if (0 <=? j) && (j <=? k) && (k <=? bsize data)
  then Ok (take (Z.to_nat (k - j)) (drop (Z.to_nat j) data))
  else Undefined.

(** The values computed at lines 498-502. *)
Record BlockGeometry : Type := mkGeometry {
  num_blocks : Z;
  ECC_per_block : Z;
  total_codewords : Z;
  num_short_blocks : Z;
  short_block_len : Z;
}.

Definition blockGeometry (version_ : Z) (correctionLevel_ : ErrCor)
  : outcome BlockGeometry :=
  num_blocks ← table_at kErr_corr_blocks_ correctionLevel_ version_;
  ECC_per_block ← table_at kEC_codewords_per_block_ correctionLevel_ version_;
  let total_codewords := Z.shiftr (getTotalModules version_) 3 in
  if num_blocks =? 0 then Undefined
  else Ok (mkGeometry num_blocks ECC_per_block total_codewords
             (num_blocks - Z.rem total_codewords num_blocks)
             (Z.quot total_codewords num_blocks)).

(** Line 511: the data bytes of block [i], cut from offset [j]. *)
Definition cutBlock (g : BlockGeometry) (data : list Z) (i j : Z) : outcome (list Z) :=
  vrange data j (j + short_block_len g - ECC_per_block g
                 + (if i <? num_short_blocks g then 0 else 1)).

(** Lines 506-523. The loop state is [(j, split_blocks)]. *)
Definition splitBlocks (t : RsTables) (g : BlockGeometry) (data : list Z)
  : outcome (list (list Z)) :=
  '(j, split_blocks) ←
    for_each (fun i '(j, split_blocks) =>
        block ← cutBlock g data i j;
        let j := j + bsize block in
        edc ← generateEDC t block
                (short_block_len g + (if i <? num_short_blocks g then 0 else 1));
        let block := if i <? num_short_blocks g then block ++ [0] else block in
        let block := block ++ edc in
        Ok (j, split_blocks ++ [block]))
      (upto 0 (num_blocks g)) (0, []);
  Ok split_blocks.

(** Lines 526-532. *)
Definition interleave (g : BlockGeometry) (split_blocks : list (list Z))
  : outcome (list Z) :=
  first ← vat split_blocks 0;
  for_each (fun i EDC_interleave =>
      for_each (fun j EDC_interleave =>
          if negb (i =? short_block_len g - ECC_per_block g)
             || (num_short_blocks g <=? j)
          then blk ← vat split_blocks j; b ← vat blk i;
               Ok (EDC_interleave ++ [b])
          else Ok EDC_interleave)
        (upto 0 (bsize split_blocks)) EDC_interleave)
    (upto 0 (bsize first)) [].

(** Returns the generated tables and the interleaved codewords. *)
Definition addEDCInterleave (t : RsTables) (version_ : Z)
    (correctionLevel_ : ErrCor) (data : list Z) : outcome (RsTables * list Z) :=
  t ← rsGenerateLogExp t;
  g ← blockGeometry version_ correctionLevel_;
  split_blocks ← splitBlocks t g data;
  out ← interleave g split_blocks;
  Ok (t, out).

(** ** The module grid ([qr.cc] lines 199-387) *)

Abbreviation Matrix := (list (list bool)).

(** The two parallel matrices [blocks_] and [funcBlock_]. *)
Record Grid : Type := mkGrid { blocks_ : Matrix; funcBlock_ : Matrix }.

(** [m.at(y).at(x)] and [m.at(y).at(x) = b]. *)
Definition mat_at (m : Matrix) (y x : Z) : outcome bool :=
  row ← vat m y; vat row x.

Definition mat_set (m : Matrix) (y x : Z) (b : bool) : outcome Matrix :=
  row ← vat m y; row ← vset row x b; vset m y row.

(** Lines 54-55: a negative [size_] converts to a length no vector can
    have. *)
Definition emptyGrid (size_ : Z) : outcome Grid :=
  if size_ <? 0 then Throw LengthError
  else
    let m := replicate (Z.to_nat size_) (replicate (Z.to_nat size_) false) in
    Ok (mkGrid m m).

Definition setFuncBlocks (x y : Z) (isBlock : bool) (g : Grid) : outcome Grid :=
  b ← mat_set (blocks_ g) y x isBlock;
  f ← mat_set (funcBlock_ g) y x true;
  Ok (mkGrid b f).

Definition formatBits (errorCorrectionLevel : ErrCor) : Z :=
  match errorCorrectionLevel with
  | kLow => 1 | kMedium => 0 | kQuartile => 3 | kHigh => 2
  end.

Section Drawing.
Variables (version_ size_ : Z) (correctionLevel_ : ErrCor).

Definition setFinderBlocks (x y : Z) (g : Grid) : outcome Grid :=
  for_each (fun distance_y =>
    for_each (fun distance_x g =>
        let distance := Z.max (Z.abs distance_x) (Z.abs distance_y) in
        let block_x := x + distance_x in
        let block_y := y + distance_y in
        if (0 <=? block_x) && (block_x <? size_)
           && (0 <=? block_y) && (block_y <? size_)
        then setFuncBlocks block_x block_y
               (negb (distance =? 2) && negb (distance =? 4)) g
        else Ok g)
      (upto (-4) 5))
    (upto (-4) 5) g.

Definition setAlignmentBlocks (x y : Z) (g : Grid) : outcome Grid :=
  for_each (fun distance_y =>
    for_each (fun distance_x =>
        setFuncBlocks (x + distance_x) (y + distance_y)
          (negb (Z.max (Z.abs distance_x) (Z.abs distance_y) =? 1)))
      (upto (-2) 3))
    (upto (-2) 3) g.

(** [std::floor] and [std::ceil] receive integers and change nothing. *)
Definition determineAlignmentPos : outcome (list Z) :=
  if version_ =? 1 then Ok []
  else
    let intervals := Z.quot version_ 7 + 1 in
    let distance := 4 * version_ + 4 in
    if intervals =? 0 then Undefined
    else
      let step := Z.quot (Z.quot distance intervals) 2 * 2 in
      Ok (6 :: map (fun i => distance + 6 - (intervals - 1 - i) * step)
                   (upto 0 intervals)).

Definition drawAlignmentBlocks (g : Grid) : outcome Grid :=
  aligment_pattern ← determineAlignmentPos;
  let intervals := bsize aligment_pattern in
  for_each (fun i =>
    for_each (fun j g =>
        if negb (((i =? 0) && (j =? 0))
                 || ((i =? 0) && (j =? intervals - 1))
                 || ((i =? intervals - 1) && (j =? 0)))
        then x ← vat aligment_pattern i; y ← vat aligment_pattern j;
             setAlignmentBlocks x y g
        else Ok g)
      (upto 0 intervals))
    (upto 0 intervals) g.

Definition bit_of (bits i : Z) : bool := negb (Z.land (Z.shiftr bits i) 1 =? 0).

(** Lines 288-298: the 15 format bits. *)
Definition formatWord (mask : Z) : Z :=
  let data := Z.lor (Z.shiftl (formatBits correctionLevel_) 3) mask in
  let remainder :=
    fold_left (fun remainder _ =>
        Z.lxor (Z.shiftl remainder 1) (Z.shiftr remainder 9 * 0x537))
      (upto 0 10) data in
  Z.lxor (Z.lor (Z.shiftl data 10) remainder) 0x5412.

Definition drawFormat (mask : Z) (g : Grid) : outcome Grid :=
  let bits := formatWord mask in
  g ← for_each (fun i g =>
          if i <=? 5 then setFuncBlocks 8 i (bit_of bits i) g
          else if i =? 6 then Ok g
          else setFuncBlocks 8 i (bit_of bits (i - 1)) g)
        (upto 0 9) g;
  g ← setFuncBlocks 7 8 (bit_of bits 8) g;
  g ← for_each (fun i => setFuncBlocks (14 - i) 8 (bit_of bits i)) (upto 9 15) g;
  g ← for_each (fun i => setFuncBlocks (size_ - 1 - i) 8 (bit_of bits i)) (upto 0 8) g;
  g ← for_each (fun i => setFuncBlocks 8 (size_ - 15 + i) (bit_of bits i)) (upto 8 15) g;
  setFuncBlocks 8 (size_ - 8) true g.

(** Lines 340-349: the 18 version bits. *)
Definition versionWord : Z :=
  let remainder :=
    fold_left (fun remainder _ =>
        Z.lxor (Z.shiftl remainder 1) (Z.shiftr remainder 11 * 0x1F25))
      (upto 0 12) version_ in
  Z.lor (Z.shiftl version_ 12) remainder.

Definition drawVersion (g : Grid) : outcome Grid :=
  if version_ <? 7 then Ok g
  else
    let version_bits := versionWord in
    for_each (fun i g =>
        g ← setFuncBlocks (size_ - 11 + Z.rem i 3) (Z.quot i 3)
              (bit_of version_bits i) g;
        setFuncBlocks (Z.quot i 3) (size_ - 11 + Z.rem i 3)
          (bit_of version_bits i) g)
      (upto 0 18) g.

Definition drawPatterns (mask_ : Z) (g : Grid) : outcome Grid :=
  g ← for_each (fun i g =>
          g ← setFuncBlocks i 6 (Z.rem i 2 =? 0) g;
          setFuncBlocks 6 i (Z.rem i 2 =? 0) g)
        (upto 0 size_) g;
  g ← setFinderBlocks 3 3 g;
  g ← setFinderBlocks (size_ - 4) 3 g;
  g ← setFinderBlocks 3 (size_ - 4) g;
  g ← drawAlignmentBlocks g;
  g ← drawFormat mask_ g;
  drawVersion g.

(** Lines 268-280: one pair of columns. The state is [(blocks_, i)]. *)
Definition drawColumnPair (funcBlock : Matrix) (data_ : list Z) (right : Z)
    (st : Matrix * Z) : outcome (Matrix * Z) :=
  for_each (fun vert =>
    for_each (fun j '(blocks, i) =>
        let x := right - j in
        let up := Z.land (right + 1) 2 =? 0 in
        let y := if up then size_ - 1 - vert else vert in
        f ← mat_at funcBlock y x;
        if negb f && (i <? bsize data_ * 8)
        then d ← vat data_ (Z.shiftr i 3);
             blocks ← mat_set blocks y x
                        (negb (Z.land (Z.shiftr d (7 - Z.land i 7)) 1 =? 0));
             Ok (blocks, i + 1)
        else Ok (blocks, i))
      (upto 0 2))
    (upto 0 size_) st.

(** Lines 260-281: the loop over [right], which the body may move from
    6 to 5. [right] drops by at least 2 a turn, so [right] turns are
    enough; see [drawColumns_fuel]. *)
Fixpoint drawColumns (fuel : nat) (funcBlock : Matrix) (data_ : list Z)
    (right : Z) (st : Matrix * Z) : outcome (Matrix * Z) :=
  if 1 <=? right then
    match fuel with
    | O => Ok st
    | S fuel' =>
        let right := if right =? 6 then 5 else right in
        st ← drawColumnPair funcBlock data_ right st;
        drawColumns fuel' funcBlock data_ (right - 2) st
    end
  else Ok st.

Definition drawCodewords (data_ : list Z) (g : Grid) : outcome Grid :=
  '(blocks, _) ← drawColumns (Z.to_nat (size_ - 1)) (funcBlock_ g) data_
                    (size_ - 1) (blocks_ g, 0);
  Ok (mkGrid blocks (funcBlock_ g)).

(** Lines 369-381; [x] and [y] are [std::size_t]. *)
Definition maskSwap (mask x y : Z) : outcome bool :=
  match mask with
  | 0 => Ok ((x + y) mod 2 =? 0)
  | 1 => Ok (y mod 2 =? 0)
  | 2 => Ok (x mod 3 =? 0)
  | 3 => Ok ((x + y) mod 3 =? 0)
  | 4 => Ok ((x / 3 + y / 2) mod 2 =? 0)
  | 5 => Ok ((x * y) mod 2 + (x * y) mod 3 =? 0)
  | 6 => Ok (((x * y) mod 2 + (x * y) mod 3) mod 2 =? 0)
  | 7 => Ok (((x + y) mod 2 + (x * y) mod 3) mod 2 =? 0)
  | _ => Throw (LogicError "Invalid mask value.")
  end.

Definition mask (mask : Z) (g : Grid) : outcome Grid :=
  if (mask <? 0) || (7 <? mask) then Throw (LogicError "Invalid mask.")
  else
    let size := size_t_wrap size_ in
    blocks ← for_each (fun y =>
               for_each (fun x blocks =>
                   swap ← maskSwap mask x y;
                   b ← mat_at blocks y x;
                   f ← mat_at (funcBlock_ g) y x;
                   mat_set blocks y x (xorb b (swap && negb f)))
                 (upto 0 size))
               (upto 0 size) (blocks_ g);
    Ok (mkGrid blocks (funcBlock_ g)).
End Drawing.

(** ** The constructor ([qr.cc] lines 45-61) *)

(** The object. [kEncoding_] is a pointer: [None] stands for a pointer
    that was never assigned. *)
Record QRCode : Type := mkQRCode {
  version_ : Z;
  size_ : Z;
  mask_ : Z;
  plain_text_ : string;
  correctionLevel_ : ErrCor;
  grid_ : Grid;
  data_ : list Z;
  tables_ : RsTables;
  kEncoding_ : option Encoding;
}.

Definition set_version_ (v : Z) (q : QRCode) : QRCode :=
  mkQRCode v (size_ q) (mask_ q) (plain_text_ q) (correctionLevel_ q)
           (grid_ q) (data_ q) (tables_ q) (kEncoding_ q).
Definition set_size_ (v : Z) (q : QRCode) : QRCode :=
  mkQRCode (version_ q) v (mask_ q) (plain_text_ q) (correctionLevel_ q)
           (grid_ q) (data_ q) (tables_ q) (kEncoding_ q).
Definition set_mask_ (v : Z) (q : QRCode) : QRCode :=
  mkQRCode (version_ q) (size_ q) v (plain_text_ q) (correctionLevel_ q)
           (grid_ q) (data_ q) (tables_ q) (kEncoding_ q).
Definition set_correctionLevel_ (v : ErrCor) (q : QRCode) : QRCode :=
  mkQRCode (version_ q) (size_ q) (mask_ q) (plain_text_ q) v
           (grid_ q) (data_ q) (tables_ q) (kEncoding_ q).
Definition set_grid_ (v : Grid) (q : QRCode) : QRCode :=
  mkQRCode (version_ q) (size_ q) (mask_ q) (plain_text_ q) (correctionLevel_ q)
           v (data_ q) (tables_ q) (kEncoding_ q).
Definition set_data_ (v : list Z) (q : QRCode) : QRCode :=
  mkQRCode (version_ q) (size_ q) (mask_ q) (plain_text_ q) (correctionLevel_ q)
           (grid_ q) v (tables_ q) (kEncoding_ q).
Definition set_tables_ (v : RsTables) (q : QRCode) : QRCode :=
  mkQRCode (version_ q) (size_ q) (mask_ q) (plain_text_ q) (correctionLevel_ q)
           (grid_ q) (data_ q) v (kEncoding_ q).
Definition set_kEncoding_ (v : option Encoding) (q : QRCode) : QRCode :=
  mkQRCode (version_ q) (size_ q) (mask_ q) (plain_text_ q) (correctionLevel_ q)
           (grid_ q) (data_ q) (tables_ q) v.

(** [kEncoding_->...]: using a pointer that was never assigned is
    undefined. *)
Definition deref (q : QRCode) : outcome Encoding :=
  match kEncoding_ q with
  | Some e => Ok e
  | None => Undefined
  end.

(** The members without an initialiser ([version_], [size_], [mask_])
    start with whatever the storage holds. *)
Record Storage : Type := mkStorage {
  old_version : Z;
  old_size : Z;
  old_mask : Z;
}.

(** The object after the member initialisers
    [plain_text_(text), correctionLevel_(err), rsLog_(256), rsExp_(256)]. *)
Definition initialObject (mem : Storage) (text : string) (err : ErrCor) : QRCode :=
  mkQRCode (old_version mem) (old_size mem) (old_mask mem) text err
           (mkGrid [] []) [] initialTables None.

Definition construct (mem : Storage) (text : string) (err : ErrCor) (msk : Z)
  : outcome QRCode :=
  let this := initialObject mem text err in
  let msk := if (msk <? 0) || (7 <? msk) then 0 else msk in
  let this := set_mask_ msk this in
  let this := set_kEncoding_ (determineEncoding text) this in
  enc ← deref this;
  '(v, lvl) ← setVersionAndErrorLevel enc (getEncodingMode enc)
               (int_of_size_t (Z.of_nat (String.length text))) err;
  let this := set_correctionLevel_ lvl (set_version_ v this) in
  let this := set_size_ (4 * version_ this + 17) this in
  g ← emptyGrid (size_ this);
  let this := set_grid_ g this in
  g ← drawPatterns (version_ this) (size_ this) (correctionLevel_ this)
        (mask_ this) (grid_ this);
  let this := set_grid_ g this in
  enc ← deref this;
  d ← encodeText enc (version_ this) (correctionLevel_ this) text;
  let this := set_data_ d this in
  '(t, d) ← addEDCInterleave (tables_ this) (version_ this)
             (correctionLevel_ this) (data_ this);
  let this := set_data_ d (set_tables_ t this) in
  g ← drawCodewords (size_ this) (data_ this) (grid_ this);
  let this := set_grid_ g this in
  g ← mask (size_ this) msk (grid_ this);
  Ok (set_grid_ g this).

(** Accessors of [qr.h]. *)
Definition getVersion (q : QRCode) : Z := version_ q.
Definition getSize (q : QRCode) : Z := size_ q.
Definition getMask (q : QRCode) : Z := mask_ q.
Definition getText (q : QRCode) : string := plain_text_ q.
Definition getEncoding (q : QRCode) : outcome Z :=
  e ← deref q; Ok (getEncodingMode e).

(** * Specification-side definitions *)

(** ** Version selection: the order in which pairs are examined *)

(** The pair [(version, level)] is among those the search may examine. *)
Definition candidate (min_err_cor : ErrCor) (version : Z) (level : ErrCor) : Prop :=
  1 <= version <= 40 ∧ ErrCor_to_int min_err_cor <= ErrCor_to_int level.

(** [(v1, l1)] is examined before [(v2, l2)]: lower version first, and
    within a version the higher level first. *)
Definition examined_before (v1 : Z) (l1 : ErrCor) (v2 : Z) (l2 : ErrCor) : Prop :=
  v1 < v2 ∨ (v1 = v2 ∧ ErrCor_to_int l2 < ErrCor_to_int l1).

(** The capacity of the pair is at least [length]. *)
Definition fits (enc : Encoding) (length version : Z) (level : ErrCor) : Prop :=
  ∃ capacity, getCapacity enc version level = Ok capacity ∧ length <= capacity.

(** ** Classification, as the specification words it *)

(** The character is one of the 45 of the alphanumeric set. *)
Definition in_alphabet (ch : ascii) : Prop :=
  ch ∈ list_ascii_of_string kAlphanumericChar_.

(** The character code lies in [0x20, 0x7E]. *)
Definition printable (ch : ascii) : Prop :=
  0x20 <= Z.of_N (N_of_ascii ch) <= 0x7E.

(** The character is an ASCII digit. *)
Definition is_digit (ch : ascii) : Prop :=
  char_val "0" <= char_val ch <= char_val "9".

(** ** Numeric groups, as the specification words them *)

(** [width] bits of [value], most significant first. *)
Definition bitsBE (value width : Z) : list bool :=
  map (Z.testbit value) (downto (width - 1) 0).

(** Groups of three digits in 10 bits; a tail of two digits in 7 bits and
    of one digit in 4 bits. *)
Fixpoint numericGroups (digits : list Z) : list bool :=
  match digits with
  | a :: b :: c :: rest => bitsBE (a * 100 + b * 10 + c) 10 ++ numericGroups rest
  | [a; b] => bitsBE (a * 10 + b) 7
  | [a] => bitsBE a 4
  | [] => []
  end.

Definition digitsOf (text : string) : list Z :=
  map (fun ch => char_val ch - char_val "0") (list_ascii_of_string text).

(** The digits read since the last full group, as a number. *)
Definition pending_value (pend : list Z) : Z :=
  fold_left (fun group d => group * 10 + d) pend 0.

(** ** Polynomials: [p + r], aligned at the constant term *)

Definition polyAdd (p r : list Z) : list Z :=
  let n := Nat.max (length p) (length r) in
  let pad q := replicate (n - length q)%nat 0 ++ q in
  zip_with Z.lxor (pad p) (pad r).

(** ** Block split: the data blocks cut at line 511, in order *)

Definition dataBlocks (g : BlockGeometry) (data : list Z) : outcome (list (list Z)) :=
  '(j, blocks) ←
    for_each (fun i '(j, blocks) =>
        block ← cutBlock g data i j;
        Ok (j + bsize block, blocks ++ [block]))
      (upto 0 (num_blocks g)) (0, []);
  Ok blocks.

(** The number of data bytes of block [i] when the short blocks come
    first. *)
Definition blockLen (g : BlockGeometry) (i : Z) : Z :=
  short_block_len g - ECC_per_block g
  + (if i <? num_short_blocks g then 0 else 1).

(** The offset of block [i] in the data when the short blocks come
    first. *)
Definition blockOffset (g : BlockGeometry) (i : Z) : Z :=
  i * (short_block_len g - ECC_per_block g)
  + (Z.max i (num_short_blocks g) - num_short_blocks g).

(** The same when the short blocks come last. *)
Definition blockLenShortLast (g : BlockGeometry) (i : Z) : Z :=
  short_block_len g - ECC_per_block g
  + (if num_blocks g - num_short_blocks g <=? i then 0 else 1).

(** The split of [data] for [(version, level)] gives every block [i] the
    length [len g i]. *)
Definition split_lengths (len : BlockGeometry → Z → Z)
    (version : Z) (level : ErrCor) (data : list Z) : Prop :=
  ∃ g blocks,
    blockGeometry version level = Ok g
    ∧ dataBlocks g data = Ok blocks
    ∧ bsize blocks = num_blocks g
    ∧ ∀ (i : nat) block, blocks !! i = Some block →
        bsize block = len g (Z.of_nat i).

(** What the proof by evaluation checks for one [(version, level)]. *)
Definition geometry_ok (version : Z) (level : ErrCor) : bool :=
  match blockGeometry version level, getTotalCodewords version level with
  | Ok g, Ok n =>
      (0 <=? n) && (n <? 4096)
      && (1 <=? num_blocks g)
      && (0 <=? short_block_len g - ECC_per_block g)
      && (1 <=? num_short_blocks g) && (num_short_blocks g <=? num_blocks g)
      && (n =? num_blocks g * (short_block_len g - ECC_per_block g)
               + (num_blocks g - num_short_blocks g))
      && (num_short_blocks g
          =? num_blocks g - Z.rem (total_codewords g) (num_blocks g))
      && (short_block_len g =? Z.quot (total_codewords g) (num_blocks g))
  | _, _ => false
  end.

(** ** Timing cells outside the three 7x7 finders *)

Definition timing_range (size p : Z) : Prop := 7 <= p <= size - 8.

(** The cells reserved in [func] have in [blocks'] the value they have in
    [blocks]. *)
Definition keeps_reserved (func blocks blocks' : Matrix) : Prop :=
  ∀ y x, mat_at func y x = Ok true → mat_at blocks' y x = mat_at blocks y x.

(** Row 6 and column 6. *)
Definition same_lines (g g' : Grid) : Prop :=
  ∀ y x, y = 6 ∨ x = 6 →
    mat_at (blocks_ g') y x = mat_at (blocks_ g) y x
    ∧ mat_at (funcBlock_ g') y x = mat_at (funcBlock_ g) y x.

(** The cell holds the timing pattern and is reserved. *)
Definition timing_at (g : Grid) (y x p : Z) : Prop :=
  mat_at (blocks_ g) y x = Ok (p mod 2 =? 0)
  ∧ mat_at (funcBlock_ g) y x = Ok true.

(** Lines 241-251: the steps of [drawPatterns] before [drawFormat]. *)
Definition drawFixedPatterns (version size : Z) (g : Grid) : outcome Grid :=
  g ← for_each (fun i g =>
          g ← setFuncBlocks i 6 (Z.rem i 2 =? 0) g;
          setFuncBlocks 6 i (Z.rem i 2 =? 0) g)
        (upto 0 size) g;
  g ← setFinderBlocks size 3 3 g;
  g ← setFinderBlocks size (size - 4) 3 g;
  g ← setFinderBlocks size 3 (size - 4) g;
  drawAlignmentBlocks version g.

Definition cell_is (m : Matrix) (y x : Z) (b : bool) : bool :=
  match mat_at m y x with
  | Ok c => Bool.eqb c b
  | _ => false
  end.

Definition timing_cell_ok (g : Grid) (p : Z) : bool :=
  cell_is (blocks_ g) 6 p (p mod 2 =? 0)
  && cell_is (funcBlock_ g) 6 p true
  && cell_is (blocks_ g) p 6 (p mod 2 =? 0)
  && cell_is (funcBlock_ g) p 6 true.

(** What the proof by evaluation checks for one version. *)
Definition fixed_patterns_ok (version : Z) : bool :=
  let size := 4 * version + 17 in
  match emptyGrid size ≫= drawFixedPatterns version size with
  | Ok g => forallb (timing_cell_ok g) (upto 7 (size - 7))
  | _ => false
  end.

(** ** The constructor without the object *)

(** The mask index after the clamp of lines 47-49. *)
Definition clampMask (msk : Z) : Z :=
  if (msk <? 0) || (7 <? msk) then 0 else msk.

(** The constructor written on the values it computes; the storage the
    object starts from does not occur. *)
Definition constructSteps (text : string) (err : ErrCor) (msk : Z) : outcome QRCode :=
  match determineEncoding text with
  | None => Undefined
  | Some enc =>
      '(v, lvl) ← setVersionAndErrorLevel enc (getEncodingMode enc)
                   (int_of_size_t (Z.of_nat (String.length text))) err;
      g ← emptyGrid (4 * v + 17);
      g ← drawPatterns v (4 * v + 17) lvl (clampMask msk) g;
      d ← encodeText enc v lvl text;
      '(t, d) ← addEDCInterleave initialTables v lvl d;
      g ← drawCodewords (4 * v + 17) d g;
      g ← mask (4 * v + 17) (clampMask msk) g;
      Ok (mkQRCode v (4 * v + 17) (clampMask msk) text lvl g d t (Some enc))
  end.

(** ** Sample inputs *)

(** A text of one horizontal tab, which none of the three modes accepts. *)
Definition tabText : string := String (ascii_of_nat 9) EmptyString.

(** Two different contents of the storage the object is built in. *)
Definition zeroStorage : Storage := mkStorage 0 0 0.
Definition usedStorage : Storage := mkStorage 40 177 7.

(** [n] copies of [s], one after the other. *)
Fixpoint repeatText (n : nat) (s : string) : string :=
  match n with
  | O => EmptyString
  | S n' => append s (repeatText n' s)
  end.

(** Version, mode, size, mask index and level of a symbol. *)
Definition metadata (q : QRCode) : outcome (Z * Z * Z * Z * ErrCor) :=
  mode ← getEncoding q;
  Ok (getVersion q, mode, getSize q, getMask q, correctionLevel_ q).

(** ** Well-formed grids *)

Definition square {A} (size : Z) (m : list (list A)) : Prop :=
  bsize m = size ∧ Forall (fun row => bsize row = size) m.

Definition wf_grid (size : Z) (g : Grid) : Prop :=
  square size (blocks_ g) ∧ square size (funcBlock_ g).

(** ** Checks on the generated tables *)

(** [rsExp_[rsLog_[y]] == y], with the logarithm below 255. *)
Definition log_exp_inverse (t : RsTables) (y : Z) : bool :=
  match vat (rsLog_ t) y with
  | Ok ly =>
      (0 <=? ly) && (ly <? 255)
      && match vat (rsExp_ t) ly with
         | Ok e => e =? y
         | _ => false
         end
  | _ => false
  end.

(** A [std::uint8_t] value. *)
Definition is_byte (z : Z) : Prop := 0 <= z < 256.

(** Both tables have 256 entries, the logarithms lie below 255 and the
    powers are bytes. *)
Definition tables_ok (t : RsTables) : bool :=
  (bsize (rsLog_ t) =? 256) && (bsize (rsExp_ t) =? 256)
  && forallb (fun v => (0 <=? v) && (v <? 255)) (rsLog_ t)
  && forallb (fun v => (0 <=? v) && (v <? 256)) (rsExp_ t).

(** ** Boolean checks used by the proofs by evaluation *)

Definition is_Ok {A} (o : outcome A) : bool :=
  match o with Ok _ => true | _ => false end.

Definition supported : list Encoding := [kNumeric_; kAlpha_; kByte_].

Definition levels : list ErrCor := [kLow; kMedium; kQuartile; kHigh].

(** ** Reading a bit buffer back *)

(** The number a run of bits spells, most significant bit first. *)
Definition bitsValue (bits : list bool) : Z :=
  fold_left (fun acc (b : bool) => 2 * acc + (if b then 1 else 0)) bits 0.

(** The bits of a vector of bytes, every byte most significant bit
    first. *)
Definition bytesBits (bytes : list Z) : list bool :=
  concat (map (fun c => bitsBE c 8) bytes).

(** Bit [p] of a buffer, [false] past its end. *)
Definition bit_at (buffer : BitBuffer) (p : Z) : bool :=
  default false (buffer !! Z.to_nat p).

(** ** The Alphanumeric and Byte segments *)

(** Pairs of characters in 11 bits holding [45 * a + b]; one character
    left over in 6 bits. *)
Fixpoint alnumGroups (codes : list Z) : list bool :=
  match codes with
  | a :: b :: rest => bitsBE (a * 45 + b) 11 ++ alnumGroups rest
  | [a] => bitsBE a 6
  | [] => []
  end.

(** The positions of the characters in [kAlphanumericChar_]. *)
Definition alnumCodes (text : string) : list Z :=
  map (string_find kAlphanumericChar_) (list_ascii_of_string text).

(** The character codes, unsigned. *)
Definition byteCodes (text : string) : list Z :=
  map (fun ch => Z.of_N (N_of_ascii ch)) (list_ascii_of_string text).

(** The bits of the segment that [encodeText] appends for the text. *)
Definition segmentBits (enc : Encoding) (text : string) : list bool :=
  if getEncodingMode enc =? 1 then numericGroups (digitsOf text)
  else if getEncodingMode enc =? 2 then alnumGroups (alnumCodes text)
  else if getEncodingMode enc =? 4 then bytesBits (byteCodes text)
  else [].

(** [m] padding bytes, starting with [byte] and alternating as the loop
    of lines 466-468 does. *)
Fixpoint padding (m : nat) (byte : Z) : list Z :=
  match m with
  | O => []
  | S m' => byte :: padding m' (Z.lxor byte (Z.lxor 0xEC 0x11))
  end.

(** ** The encoded text *)

(** What the proof by evaluation checks for one encoding, version and
    level: the bits left for the segment are not negative, and the
    capacity fits the character count field. *)
Definition capacity_ok (enc : Encoding) (version : Z) (level : ErrCor) : bool :=
  match getTotalCodewords version level, getBitsPerChar enc version,
        getCapacity enc version level with
  | Ok n, Ok bpc, Ok c =>
      (0 <=? n) && (n <? 4096) && (0 <=? bpc) && (bpc <=? 16)
      && (0 <=? 8 * n - bpc - 4) && (c <? 2 ^ bpc)
  | _, _, _ => false
  end.

(** ** GF(256) on the generated tables *)

(** The product of two bytes, 0 where [reedSolomonMult] does not
    return. *)
Definition gmul (t : RsTables) (x y : Z) : Z :=
  match reedSolomonMult t x y with
  | Ok m => m
  | _ => 0
  end.

(** [rsLog_[rsExp_[k]] == k], with a non-zero power. *)
Definition exp_log_inverse (t : RsTables) (k : Z) : bool :=
  match vat (rsExp_ t) k with
  | Ok e =>
      (0 <? e) && (e <? 256)
      && match vat (rsLog_ t) e with
         | Ok l => l =? k
         | _ => false
         end
  | _ => false
  end.

(** The sum of the entries of [row] at the bits that are set in [y]. *)
Definition xorsel (row : list Z) (y : Z) : Z :=
  fold_right (fun '(i, m) acc => if Z.testbit y i then Z.lxor m acc else acc) 0
    (zip (upto 0 8) row).

(** The products of [x] with the powers of two. *)
Definition gmul_row (t : RsTables) (x : Z) : list Z :=
  map (fun i => gmul t x (2 ^ i)) (upto 0 8).

(** What the proof by evaluation checks for one [x]: the product with
    [y] is the sum of the products with the powers of two in [y]. *)
Definition gmul_linear (t : RsTables) (x : Z) : bool :=
  let row := gmul_row t x in
  forallb (fun y => gmul t x y =? xorsel row y) (upto 0 256).


(** ** Polynomials over GF(256) *)

(** Horner's rule at the point [a], from the value [u] on. *)
Definition horner (t : RsTables) (a u : Z) (p : list Z) : Z :=
  fold_left (fun acc c => Z.lxor (gmul t acc a) c) p u.

(** The value at [a] of a polynomial, highest coefficient first. *)
Definition peval (t : RsTables) (a : Z) (p : list Z) : Z := horner t a 0 p.

(** What the proof by evaluation checks for one degree: the generator
    polynomial has [degree + 1] byte coefficients, the first of them 1,
    and vanishes at [rsExp_[0 .. degree - 1]]. *)
Definition generator_ok (t : RsTables) (degree : Z) : bool :=
  match rsGeneratePoly t degree with
  | Ok (c :: g) =>
      (c =? 1) && (bsize g =? degree)
      && forallb (fun c => (0 <=? c) && (c <? 256)) g
      && forallb (fun i =>
           match vat (rsExp_ t) i with
           | Ok a => peval t a (c :: g) =? 0
           | _ => false
           end) (upto 0 degree)
  | _ => false
  end.

(** The 13 data codewords of "HELLO WORLD" at version 1, level Q. *)
Definition helloData : list Z :=
  [32; 91; 11; 120; 209; 114; 220; 77; 67; 64; 236; 17; 236].

(** ** Blocks with their error correction codewords *)

(** What the proof by evaluation checks for one [(version, level)]: a
    block has at most 30 error correction codewords, and the blocks make
    up the codewords of the symbol. *)
Definition ecc_ok (version : Z) (level : ErrCor) : bool :=
  match blockGeometry version level with
  | Ok g =>
      (1 <=? ECC_per_block g) && (ECC_per_block g <=? 30)
      && (total_codewords g =? Z.shiftr (getTotalModules version) 3)
      && (total_codewords g
          =? num_blocks g * short_block_len g
             + (num_blocks g - num_short_blocks g))
  | _ => false
  end.

(** Block [i] as line 520 leaves it: a short block gets a byte of
    padding after its data. *)
Definition padBlock (g : BlockGeometry) (i : Z) (block : list Z) : list Z :=
  if i <? num_short_blocks g then block ++ [0] else block.

(** ** The mask, cell by cell *)

(** The value that line 384 gives the cell [(x, y)] of the grid [g]. *)
Definition maskedCell (m : Z) (g : Grid) (y x : Z) : outcome bool :=
  swap ← maskSwap m x y;
  b ← mat_at (blocks_ g) y x;
  f ← mat_at (funcBlock_ g) y x;
  Ok (xorb b (swap && negb f)).

(** A grid of two rows with one reserved cell. *)
Definition sampleGrid : Grid :=
  mkGrid [[true; false]; [false; true]] [[false; false]; [true; false]].

(** ** Format and version information, cell by cell *)

(** What [drawFormat] and [drawVersion] write into a cell: a bit of the
    format word, the dark block, or a bit of the version word. *)
Inductive Info : Type :=
  | FormatBit (i : Z)
  | DarkBlock
  | VersionBit (i : Z).

(** [setFuncBlocks] for every entry [(x, y, info)] of a list, in order. *)
Definition drawCells (val : Info → bool) (cells : list (Z * Z * Info)) (g : Grid)
  : outcome Grid :=
  for_each (fun '(x, y, s) => setFuncBlocks x y (val s)) cells g.

(** The last entry of [cells] at the cell [(x, y)]. *)
Definition lastAt (cells : list (Z * Z * Info)) (y x : Z) : option Info :=
  fold_left (fun acc '(x', y', s) =>
               if (x' =? x) && (y' =? y) then Some s else acc) cells None.

(** The cells of [drawFormat] (lines 301-328), in the order in which it
    writes them. *)
Definition formatCells (size : Z) : list (Z * Z * Info) :=
  [(8, 0, FormatBit 0); (8, 1, FormatBit 1); (8, 2, FormatBit 2);
   (8, 3, FormatBit 3); (8, 4, FormatBit 4); (8, 5, FormatBit 5);
   (8, 7, FormatBit 6); (8, 8, FormatBit 7)]
  ++ [(7, 8, FormatBit 8)]
  ++ map (fun i => (14 - i, 8, FormatBit i)) (upto 9 15)
  ++ map (fun i => (size - 1 - i, 8, FormatBit i)) (upto 0 8)
  ++ map (fun i => (8, size - 15 + i, FormatBit i)) (upto 8 15)
  ++ [(8, size - 8, DarkBlock)].

(** The cells of [drawVersion] (lines 353-356). *)
Definition versionCells (version size : Z) : list (Z * Z * Info) :=
  if version <? 7 then []
  else flat_map (fun i =>
           [(size - 11 + Z.rem i 3, Z.quot i 3, VersionBit i);
            (Z.quot i 3, size - 11 + Z.rem i 3, VersionBit i)])
         (upto 0 18).

Definition infoCells (version size : Z) : list (Z * Z * Info) :=
  formatCells size ++ versionCells version size.

(** The value written for an entry. *)
Definition infoValue (version : Z) (level : ErrCor) (mask : Z) (s : Info) : bool :=
  match s with
  | FormatBit i => bit_of (formatWord level mask) i
  | DarkBlock => true
  | VersionBit i => bit_of (versionWord version) i
  end.

(** The entry lies inside the grid. *)
Definition cell_in (size : Z) (c : Z * Z * Info) : bool :=
  let '(x, y, _) := c in (0 <=? x) && (x <? size) && (0 <=? y) && (y <? size).

Definition info_eqb (a b : Info) : bool :=
  match a, b with
  | FormatBit i, FormatBit j => i =? j
  | DarkBlock, DarkBlock => true
  | VersionBit i, VersionBit j => i =? j
  | _, _ => false
  end.

(** The last entry of [cells] at the cell [(x, y)] is [s]. *)
Definition lastIs (cells : list (Z * Z * Info)) (y x : Z) (s : Info) : bool :=
  match lastAt cells y x with
  | Some s' => info_eqb s' s
  | None => false
  end.

(** The cells [(x, y)] of the two copies of format bit [i] and of version
    bit [i]. *)
Definition formatPos1 (i : Z) : Z * Z :=
  if i <? 6 then (8, i)
  else if i <? 8 then (8, i + 1)
  else if i =? 8 then (7, 8)
  else (14 - i, 8).

Definition formatPos2 (size i : Z) : Z * Z :=
  if i <? 8 then (size - 1 - i, 8) else (8, size - 15 + i).

Definition versionPos1 (size i : Z) : Z * Z :=
  (size - 11 + Z.rem i 3, Z.quot i 3).

Definition versionPos2 (size i : Z) : Z * Z :=
  (Z.quot i 3, size - 11 + Z.rem i 3).

Definition squareb (size : Z) (m : Matrix) : bool :=
  (bsize m =? size) && forallb (fun row => bsize row =? size) m.

Definition wf_gridb (size : Z) (g : Grid) : bool :=
  squareb size (blocks_ g) && squareb size (funcBlock_ g).

(** The finder with its separator, [dx] and [dy] counted from the corner
    of the symbol: dark at the distances 0, 1 and 3 from the centre. *)
Definition finderDark (dy dx : Z) : bool :=
  let d := Z.max (Z.abs (dx - 3)) (Z.abs (dy - 3)) in
  negb (d =? 2) && negb (d =? 4).

(** The alignment pattern, [dx] and [dy] counted from its centre. *)
Definition alignmentDark (dy dx : Z) : bool :=
  negb (Z.max (Z.abs dx) (Z.abs dy) =? 1).

(** No entry of [cells] is at the cell [(x, y)]. *)
Definition untouched (cells : list (Z * Z * Info)) (y x : Z) : bool :=
  match lastAt cells y x with
  | None => true
  | Some _ => false
  end.

(** The cell holds [dark], is reserved, and is no cell of the format or
    version information. *)
Definition fixed_cell_ok (g : Grid) (cells : list (Z * Z * Info)) (y x : Z)
    (dark : bool) : bool :=
  cell_is (blocks_ g) y x dark && cell_is (funcBlock_ g) y x true
  && untouched cells y x.

Definition finder_ok (g : Grid) (cells : list (Z * Z * Info)) (size : Z) : bool :=
  forallb (fun dy => forallb (fun dx =>
      fixed_cell_ok g cells dy dx (finderDark dy dx)
      && fixed_cell_ok g cells dy (size - 1 - dx) (finderDark dy dx)
      && fixed_cell_ok g cells (size - 1 - dy) dx (finderDark dy dx))
    (upto 0 8)) (upto 0 8).

(** The pairs of indices for which line 231 draws a pattern. *)
Definition alignmentDrawn (n i j : Z) : bool :=
  negb (((i =? 0) && (j =? 0))
        || ((i =? 0) && (j =? n - 1))
        || ((i =? n - 1) && (j =? 0))).

Definition alignment_ok (g : Grid) (cells : list (Z * Z * Info)) (version : Z)
  : bool :=
  match determineAlignmentPos version with
  | Ok pos =>
      forallb (fun i => forallb (fun j =>
          if alignmentDrawn (bsize pos) i j
          then match vat pos i, vat pos j with
               | Ok x, Ok y =>
                   forallb (fun dy => forallb (fun dx =>
                       fixed_cell_ok g cells (y + dy) (x + dx) (alignmentDark dy dx))
                     (upto (-2) 3)) (upto (-2) 3)
               | _, _ => false
               end
          else true)
        (upto 0 (bsize pos))) (upto 0 (bsize pos))
  | _ => false
  end.

(** The last write to every cell of the format and version information
    is the bit that belongs there. *)
Definition info_ok (cells : list (Z * Z * Info)) (version size : Z) : bool :=
  forallb (fun i =>
      let '(x1, y1) := formatPos1 i in
      let '(x2, y2) := formatPos2 size i in
      lastIs cells y1 x1 (FormatBit i) && lastIs cells y2 x2 (FormatBit i))
    (upto 0 15)
  && lastIs cells (size - 8) 8 DarkBlock
  && (if version <? 7 then true
      else forallb (fun i =>
               let '(x1, y1) := versionPos1 size i in
               let '(x2, y2) := versionPos2 size i in
               lastIs cells y1 x1 (VersionBit i) && lastIs cells y2 x2 (VersionBit i))
             (upto 0 18)).

(** The number of cells that are not reserved. *)
Definition count_free (m : Matrix) : Z :=
  fold_left (fun acc row =>
      fold_left (fun acc (b : bool) => if b then acc else acc + 1) row acc) m 0.

(** What the proof by evaluation checks for one version. *)
Definition patterns_ok (version : Z) : bool :=
  let size := 4 * version + 17 in
  let cells := infoCells version size in
  match emptyGrid size ≫= drawFixedPatterns version size with
  | Ok g1 =>
      wf_gridb size g1 && forallb (cell_in size) cells
      && finder_ok g1 cells size && alignment_ok g1 cells version
      && info_ok cells version size
      && match drawCells (fun _ => false) cells g1 with
         | Ok g2 => count_free (funcBlock_ g2) =? getTotalModules version
         | _ => false
         end
  | _ => false
  end.

(** ** Capacity across versions and levels *)

(** What the proof by evaluation checks for one encoding and version: a
    higher level never has the larger capacity. *)
Definition capacity_antitone (enc : Encoding) (version : Z) : bool :=
  match getCapacity enc version kLow, getCapacity enc version kMedium,
        getCapacity enc version kQuartile, getCapacity enc version kHigh with
  | Ok a, Ok b, Ok c, Ok d => (d <=? c) && (c <=? b) && (b <=? a)
  | _, _, _, _ => false
  end.

(** The next version has the larger capacity. *)
Definition capacity_grows (enc : Encoding) (version : Z) (level : ErrCor) : bool :=
  match getCapacity enc version level, getCapacity enc (version + 1) level with
  | Ok a, Ok b => a <? b
  | _, _ => false
  end.

(** ** The format and version words as codes *)

(** The number of positions below [n] at which [bit_of] tells the two
    words apart. *)
Definition differingBits (n a b : Z) : Z :=
  fold_left (fun d i => if xorb (bit_of a i) (bit_of b i) then d + 1 else d)
    (upto 0 n) 0.

Definition formatWord_ok (l : ErrCor) (m : Z) (l' : ErrCor) (m' : Z) : bool :=
  let w := formatWord l m in
  (0 <=? w) && (w <? 2 ^ 15)
  && (Z.shiftr (Z.lxor w 0x5412) 10 =? formatBits l * 8 + m)
  && (((ErrCor_to_int l =? ErrCor_to_int l') && (m =? m'))
      || (7 <=? differingBits 15 w (formatWord l' m'))).

Definition versionWord_ok (v v' : Z) : bool :=
  let w := versionWord v in
  (0 <=? w) && (w <? 2 ^ 18) && (Z.shiftr w 12 =? v)
  && ((v =? v') || (8 <=? differingBits 18 w (versionWord v'))).

(** ** The order in which the codewords are placed *)

(** Lines 270-278: what the loops of [drawCodewords] do at the cell
    [(y, x)], on the state [(blocks_, i)]. *)
Definition placeBit (funcBlock : Matrix) (data_ : list Z) (c : Z * Z)
    (st : Matrix * Z) : outcome (Matrix * Z) :=
  let '(blocks, i) := st in
  f ← mat_at funcBlock c.1 c.2;
  if negb f && (i <? bsize data_ * 8)
  then d ← vat data_ (Z.shiftr i 3);
       blocks ← mat_set blocks c.1 c.2
                  (negb (Z.land (Z.shiftr d (7 - Z.land i 7)) 1 =? 0));
       Ok (blocks, i + 1)
  else Ok (blocks, i).

(** The values that [right] takes in the loop of line 260, with the fuel
    of [drawColumns]. *)
Fixpoint columnPairs (fuel : nat) (right : Z) : list Z :=
  if 1 <=? right then
    match fuel with
    | O => []
    | S fuel' =>
        let right := if right =? 6 then 5 else right in
        right :: columnPairs fuel' (right - 2)
    end
  else [].

(** The cells [(y, x)] that lines 268-272 visit for one value of [right],
    in their order. *)
Definition pairCells (size right : Z) : list (Z * Z) :=
  flat_map (fun vert =>
      map (fun j =>
          (if Z.land (right + 1) 2 =? 0 then size - 1 - vert else vert, right - j))
        (upto 0 2))
    (upto 0 size).

(** All the cells that [drawCodewords] visits, in its order. *)
Definition zigzag (size : Z) : list (Z * Z) :=
  flat_map (pairCells size) (columnPairs (Z.to_nat (size - 1)) (size - 1)).

(** The cell is in the matrix and not reserved. *)
Definition isFree (funcBlock : Matrix) (c : Z * Z) : bool :=
  cell_is funcBlock c.1 c.2 false.

(** The cells that are not reserved, in the order of [drawCodewords]. *)
Definition freeCells (funcBlock : Matrix) (size : Z) : list (Z * Z) :=
  List.filter (isFree funcBlock) (zigzag size).

(** The number of cells of [cells] that are not reserved. *)
Definition countFree (funcBlock : Matrix) (cells : list (Z * Z)) : Z :=
  fold_left (fun n c => if isFree funcBlock c then n + 1 else n) cells 0.

(** No cell is dark without being reserved. *)
Definition blank_free (g : Grid) : bool :=
  forallb (fun '(brow, frow) =>
      forallb (fun '(b, f) => f || negb b) (zip brow frow))
    (zip (blocks_ g) (funcBlock_ g)).

(** What the proof by evaluation checks for one version: before the
    codewords are placed only reserved cells are dark, and the cells that
    [drawCodewords] visits and finds free are as many as
    [getTotalModules] says. *)
Definition placement_ok (version : Z) : bool :=
  let size := 4 * version + 17 in
  match emptyGrid size ≫= drawFixedPatterns version size with
  | Ok g1 =>
      match drawCells (fun _ => false) (infoCells version size) g1 with
      | Ok g2 =>
          blank_free g2
          && (countFree (funcBlock_ g2) (zigzag size) =? getTotalModules version)
      | _ => false
      end
  | _ => false
  end.

(** * Lemmas *)

(** ** The outcome monad *)

Lemma bind_Ok {A B} (m : outcome A) (f : A → outcome B) (b : B) :
  m ≫= f = Ok b ↔ ∃ a, m = Ok a ∧ f a = Ok b.
Proof.
  destruct m as [a| |]; simpl; split.
  - intros H. exists a. auto.
  - intros (a' & Ha & H). congruence.
  - discriminate.
  - intros (a' & Ha & _). discriminate.
  - discriminate.
  - intros (a' & Ha & _). discriminate.
Qed.

(** Splits every hypothesis of the form [m ≫= f = Ok b]. *)
Ltac inv_bind :=
  repeat match goal with
  | H : _ ≫= _ = Ok _ |- _ =>
      let a := fresh "a" in
      let Ha := fresh "Ha" in
      apply bind_Ok in H; destruct H as (a & Ha & H)
  | H : match ?a with (_, _) => _ end = Ok _ |- _ => destruct a
  | H : Ok _ = Ok _ |- _ => injection H as H
  end.

Lemma vat_Ok {A} (v : list A) (i : Z) (a : A) :
  vat v i = Ok a ↔ 0 <= i ∧ v !! Z.to_nat i = Some a.
Proof.
  unfold vat. destruct (Z.ltb_spec i 0).
  - split; [discriminate | lia].
  - destruct (v !! Z.to_nat i) eqn:E; split.
    + intros [= ->]. auto.
    + intros [_ [= ->]]. reflexivity.
    + discriminate.
    + intros [_ ?]. discriminate.
Qed.

Lemma vat_in_range {A} (v : list A) (i : Z) :
  0 <= i < bsize v → ∃ a, vat v i = Ok a.
Proof.
  intros Hi. unfold vat, bsize in *.
  destruct (Z.ltb_spec i 0); [lia|].
  destruct (lookup_lt_is_Some_2 v (Z.to_nat i)) as [a Ha]; [lia|].
  rewrite Ha. eauto.
Qed.

Lemma vat_out_of_range {A} (v : list A) (i : Z) :
  ¬ (0 <= i < bsize v) → vat v i = Throw OutOfRange.
Proof.
  intros Hi. unfold vat, bsize in *.
  destruct (Z.ltb_spec i 0); [reflexivity|].
  rewrite lookup_ge_None_2; [reflexivity | lia].
Qed.

Lemma vset_Ok {A} (v v' : list A) (i : Z) (a : A) :
  vset v i a = Ok v' ↔ 0 <= i < bsize v ∧ v' = <[Z.to_nat i := a]> v.
Proof.
  unfold vset. split.
  - intros H. inv_bind. apply vat_Ok in Ha as [? Hl].
    apply lookup_lt_Some in Hl. unfold bsize. split; [lia | congruence].
  - intros [Hi ->]. destruct (vat_in_range v i Hi) as [x ->]. reflexivity.
Qed.

Lemma vset_length {A} (v v' : list A) (i : Z) (a : A) :
  vset v i a = Ok v' → length v' = length v.
Proof. intros [_ ->]%vset_Ok. apply length_insert. Qed.

(** Reading after a write. *)
Lemma vat_vset {A} (v v' : list A) (i k : Z) (a : A) :
  vset v i a = Ok v' →
  vat v' k = if k =? i then Ok a else vat v k.
Proof.
  intros [Hi ->]%vset_Ok. destruct (Z.eqb_spec k i) as [->|Hne].
  - apply vat_Ok. split; [lia|]. apply list_lookup_insert_eq. unfold bsize in Hi. lia.
  - unfold vat. destruct (Z.ltb_spec k 0); [reflexivity|].
    rewrite list_lookup_insert_ne; [reflexivity | lia].
Qed.

(** ** Loops *)

(** A property kept by every turn of a loop is kept by the loop. *)
Lemma for_each_invariant {I S} (P : S → Prop) (body : I → S → outcome S)
    (idx : list I) (s s' : S) :
  (∀ i a b, i ∈ idx → P a → body i a = Ok b → P b) →
  P s → for_each body idx s = Ok s' → P s'.
Proof.
  revert s. induction idx as [|i idx IH]; intros s Hbody Hs H; simpl in H.
  - congruence.
  - inv_bind. apply (IH a).
    + intros i' x y Hi'. apply Hbody. by right.
    + eapply Hbody; [by left | exact Hs | exact Ha].
    + exact H.
Qed.

(** A loop whose turns all succeed under an invariant succeeds. *)
Lemma for_each_total {I S} (P : S → Prop) (Q : I → Prop)
    (body : I → S → outcome S) (idx : list I) (s : S) :
  (∀ i a, Q i → P a → ∃ b, body i a = Ok b ∧ P b) →
  Forall Q idx → P s → ∃ s', for_each body idx s = Ok s' ∧ P s'.
Proof.
  intros Hbody Hidx. revert s.
  induction Hidx as [|i idx Hi _ IH]; intros s Hs; simpl.
  - eauto.
  - destruct (Hbody i s Hi Hs) as (b & -> & Hb). simpl. auto.
Qed.

Lemma elem_of_upto (lo hi x : Z) : x ∈ upto lo hi ↔ lo <= x < hi.
Proof. unfold upto. rewrite elem_of_seqZ. lia. Qed.

Lemma elem_of_downto (hi lo x : Z) : x ∈ downto hi lo ↔ lo <= x <= hi.
Proof. unfold downto. rewrite elem_of_reverse, elem_of_seqZ. lia. Qed.

Lemma Forall_upto (P : Z → Prop) (lo hi : Z) :
  (∀ x, lo <= x < hi → P x) → Forall P (upto lo hi).
Proof. intros H. apply Forall_forall. intros x Hx%elem_of_upto. auto. Qed.

Lemma forallb_upto (f : Z → bool) (lo hi x : Z) :
  forallb f (upto lo hi) = true → lo <= x < hi → f x = true.
Proof.
  intros H Hx. apply Is_true_true, forallb_True in H.
  rewrite Forall_forall in H. apply Is_true_true, H, elem_of_upto, Hx.
Qed.

(** ** Ranges *)

Lemma upto_nil (lo hi : Z) : hi <= lo → upto lo hi = [].
Proof. intros H. unfold upto. apply seqZ_nil. lia. Qed.

Lemma upto_cons (lo hi : Z) : lo < hi → upto lo hi = lo :: upto (lo + 1) hi.
Proof.
  intros H. unfold upto. rewrite seqZ_cons by lia.
  f_equal. f_equal; lia.
Qed.

Lemma downto_nil (hi lo : Z) : hi < lo → downto hi lo = [].
Proof. intros H. unfold downto. rewrite seqZ_nil by lia. reflexivity. Qed.

Lemma downto_cons (hi lo : Z) : lo <= hi → downto hi lo = hi :: downto (hi - 1) lo.
Proof.
  intros H. unfold downto.
  replace (hi - lo + 1) with (Z.of_nat (S (Z.to_nat (hi - lo)))) by lia.
  rewrite seqZ_S, reverse_app. simpl.
  f_equal; [lia|]. f_equal. f_equal. lia.
Qed.

Lemma is_Ok_true {A} (o : outcome A) : is_Ok o = true → ∃ a, o = Ok a.
Proof. destruct o; [eauto | discriminate ..]. Qed.

(** ** Counted loops with an invariant that follows the index *)

Lemma for_each_upto_total {S} (P : Z → S → Prop) (body : Z → S → outcome S)
    (lo hi : Z) (s : S) :
  lo <= hi → P lo s →
  (∀ i a, lo <= i < hi → P i a → ∃ b, body i a = Ok b ∧ P (i + 1) b) →
  ∃ s', for_each body (upto lo hi) s = Ok s' ∧ P hi s'.
Proof.
  intros Hle. remember (Z.to_nat (hi - lo)) as n eqn:Hn. revert lo s Hle Hn.
  induction n as [|n IH]; intros lo s Hle Hn Hs Hbody.
  - rewrite upto_nil by lia. replace hi with lo by lia. simpl. eauto.
  - rewrite upto_cons by lia. simpl.
    destruct (Hbody lo s) as (b & -> & Hb); [lia | exact Hs |]. simpl.
    apply IH; [lia | lia | exact Hb |].
    intros i a Hi. apply Hbody. lia.
Qed.

Lemma for_each_upto_invariant {S} (P : Z → S → Prop) (body : Z → S → outcome S)
    (lo hi : Z) (s s' : S) :
  lo <= hi → P lo s →
  (∀ i a b, lo <= i < hi → P i a → body i a = Ok b → P (i + 1) b) →
  for_each body (upto lo hi) s = Ok s' → P hi s'.
Proof.
  intros Hle. remember (Z.to_nat (hi - lo)) as n eqn:Hn. revert lo s Hle Hn.
  induction n as [|n IH]; intros lo s Hle Hn Hs Hbody H.
  - rewrite upto_nil in H by lia. replace hi with lo by lia. simpl in H. congruence.
  - rewrite upto_cons in H by lia. simpl in H. inv_bind.
    apply (IH (lo + 1) a); [lia | lia | | | exact H].
    + apply (Hbody lo s); [lia | exact Hs | exact Ha].
    + intros i x y Hi. apply Hbody. lia.
Qed.

(** ** The constructor, step by step *)

Lemma construct_steps (mem : Storage) (text : string) (err : ErrCor) (msk : Z) :
  construct mem text err msk = constructSteps text err msk.
Proof.
  unfold construct, constructSteps, clampMask, deref, initialObject.
  cbn [set_mask_ set_kEncoding_ set_version_ set_correctionLevel_ set_size_
       set_grid_ set_data_ set_tables_
       version_ size_ mask_ plain_text_ correctionLevel_ grid_ data_ tables_
       kEncoding_].
  destruct (determineEncoding text) as [enc|]; [|reflexivity].
  cbn [mbind outcome_bind].
  destruct (setVersionAndErrorLevel _ _ _ _) as [[v lvl]| |]; [|reflexivity ..].
  cbn [mbind outcome_bind
       set_mask_ set_kEncoding_ set_version_ set_correctionLevel_ set_size_
       set_grid_ set_data_ set_tables_
       version_ size_ mask_ plain_text_ correctionLevel_ grid_ data_ tables_
       kEncoding_].
  destruct (emptyGrid _) as [g0| |]; [|reflexivity ..].
  cbn [mbind outcome_bind].
  destruct (drawPatterns _ _ _ _ _) as [g1| |]; [|reflexivity ..].
  cbn [mbind outcome_bind].
  destruct (encodeText _ _ _ _) as [d| |]; [|reflexivity ..].
  cbn [mbind outcome_bind].
  destruct (addEDCInterleave _ _ _ _) as [[t d']| |]; [|reflexivity ..].
  cbn [mbind outcome_bind].
  destruct (drawCodewords _ _ _) as [g2| |]; [|reflexivity ..].
  cbn [mbind outcome_bind].
  destruct (mask _ _ _) as [g3| |]; reflexivity.
Qed.

(** ** Classification *)

Lemma determineEncoding_cases (text : string) :
  determineEncoding text
  = if isNumeric text then Some kNumeric_
    else if isAlphanumeric text then Some kAlpha_
    else if isByte text then Some kByte_
    else None.
Proof. reflexivity. Qed.

Lemma find_from_npos (s : list ascii) (ch : ascii) (pos : Z) :
  0 <= pos → pos + bsize s < npos →
  (find_from s ch pos = npos ∧ ch ∉ s)
  ∨ (pos <= find_from s ch pos < npos ∧ ch ∈ s).
Proof.
  revert pos. induction s as [|c s IH]; intros pos Hpos Hlen;
    unfold bsize in Hlen; simpl length in Hlen; cbn [find_from].
  - left. split; [reflexivity | intros H; inversion H].
  - destruct (Ascii.eqb_spec c ch) as [->|Hne].
    + right. split; [lia | left].
    + destruct (IH (pos + 1)) as [[Hn Hnot]|[Hlt Hin]]; [lia | unfold bsize; lia | |].
      * left. split; [exact Hn|].
        intros Hin. apply elem_of_cons in Hin as [Heq|Hin]; [congruence | auto].
      * right. split; [lia | right; exact Hin].
Qed.

Lemma isAlphanumeric_alphabet (text : string) :
  isAlphanumeric text = true ↔ Forall in_alphabet (list_ascii_of_string text).
Proof.
  unfold isAlphanumeric. rewrite <- Is_true_true, forallb_True.
  apply Forall_iff. intros ch. unfold in_alphabet, string_find.
  rewrite Is_true_true, negb_true_iff, Z.eqb_neq.
  destruct (find_from_npos (list_ascii_of_string kAlphanumericChar_) ch 0)
    as [[Hn Hnot]|[Hlt Hin]]; [lia | vm_compute; reflexivity | |].
  - split; [congruence | intros Hin; contradiction].
  - split; [intros _; exact Hin | lia].
Qed.

Lemma isNumeric_iff (text : string) :
  isNumeric text = true ↔ Forall is_digit (list_ascii_of_string text).
Proof.
  unfold isNumeric. rewrite <- Is_true_true, forallb_True.
  apply Forall_iff. intros ch. unfold is_digit.
  rewrite Is_true_true, negb_true_iff, orb_false_iff. lia.
Qed.

Lemma isByte_printable (text : string) :
  isByte text = true ↔ Forall printable (list_ascii_of_string text).
Proof.
  unfold isByte. rewrite <- Is_true_true, forallb_True.
  apply Forall_iff. intros ch. unfold printable, char_val.
  change (Z.of_N (N_of_ascii " ")) with 32. change (Z.of_N (N_of_ascii "~")) with 126.
  change (32 <? 128) with true. change (126 <? 128) with true. cbv iota.
  rewrite Is_true_true, negb_true_iff, orb_false_iff.
  pose proof (N_ascii_bounded ch).
  destruct (Z.ltb_spec (Z.of_N (N_of_ascii ch)) 128); lia.
Qed.

(** The classification of a text: Numeric when
    every character is a digit, otherwise Alphanumeric when every
    character is in the 45-character set, otherwise Byte when every
    character is in [0x20, 0x7E]; otherwise [kEncoding_] stays
    unassigned. *)
Lemma determineEncoding_spec (text : string) :
  let chars := list_ascii_of_string text in
  (Forall is_digit chars → determineEncoding text = Some kNumeric_)
  ∧ (¬ Forall is_digit chars → Forall in_alphabet chars →
     determineEncoding text = Some kAlpha_)
  ∧ (¬ Forall is_digit chars → ¬ Forall in_alphabet chars →
     Forall printable chars → determineEncoding text = Some kByte_)
  ∧ (¬ Forall is_digit chars → ¬ Forall in_alphabet chars →
     ¬ Forall printable chars → determineEncoding text = None).
Proof.
  intros chars. unfold chars. rewrite determineEncoding_cases.
  rewrite <- isNumeric_iff, <- isAlphanumeric_alphabet, <- isByte_printable.
  destruct (isNumeric text), (isAlphanumeric text), (isByte text);
    repeat split; intros; congruence.
Qed.

(** C6. A text of one tab character is neither Numeric, Alphanumeric nor
    Byte. [determineEncoding] then returns without assigning
    [kEncoding_] and without throwing, and the constructor goes on to use
    the unassigned pointer: no error is raised. *)
Theorem construct_unclassified_text (mem : Storage) (err : ErrCor) (msk : Z) :
  determineEncoding tabText = None
  ∧ construct mem tabText err msk = Undefined.
Proof. split; reflexivity. Qed.


(** ** Version selection *)

Lemma ErrCor_of_to_int (l : ErrCor) : ErrCor_of_int (ErrCor_to_int l) = Some l.
Proof. destruct l; reflexivity. Qed.

Lemma ErrCor_of_int_Some (j : Z) (l : ErrCor) :
  ErrCor_of_int j = Some l → ErrCor_to_int l = j.
Proof.
  destruct j as [|p|p]; simpl; try discriminate.
  - intros [= <-]. reflexivity.
  - destruct p as [[]|[]|]; simpl; try discriminate; intros [= <-]; reflexivity.
Qed.

Lemma ErrCor_of_int_range (j : Z) : 0 <= j <= 3 → ∃ l, ErrCor_of_int j = Some l.
Proof.
  intros H.
  assert (j = 0 ∨ j = 1 ∨ j = 2 ∨ j = 3) as [->|[->|[->| ->]]] by lia;
    simpl; eauto.
Qed.

Lemma determineEncoding_supported (text : string) (enc : Encoding) :
  determineEncoding text = Some enc → enc ∈ supported.
Proof.
  unfold determineEncoding, supported, isKanji.
  destruct (isNumeric text); [intros [= <-]; repeat constructor|].
  destruct (isAlphanumeric text); [intros [= <-]; repeat constructor|].
  destruct (isByte text); [intros [= <-]; repeat constructor|].
  discriminate.
Qed.

(** The capacity is defined for the three supported encodings on every
    version from 1 to 40. *)
Lemma getCapacity_total (enc : Encoding) (v : Z) (l : ErrCor) :
  enc ∈ supported → 1 <= v <= 40 → ∃ c, getCapacity enc v l = Ok c.
Proof.
  intros Henc Hv. apply is_Ok_true.
  assert (Hall : forallb (fun e => forallb (fun v => forallb (fun l =>
            is_Ok (getCapacity e v l)) levels) (upto 1 41)) supported = true)
    by (vm_compute; reflexivity).
  apply Is_true_true, forallb_True in Hall. rewrite Forall_forall in Hall.
  apply Hall in Henc. apply Is_true_true in Henc.
  apply (forallb_upto _ 1 41 v) in Henc; [|lia].
  apply Is_true_true, forallb_True in Henc. rewrite Forall_forall in Henc.
  apply Is_true_true, Henc. unfold levels. destruct l; repeat constructor.
Qed.

Section Selection.
Variables (enc : Encoding) (length : Z) (min_err_cor : ErrCor).
Hypothesis Henc : enc ∈ supported.

Lemma not_fits (v : Z) (l : ErrCor) (c : Z) :
  getCapacity enc v l = Ok c → ¬ length <= c → ¬ fits enc length v l.
Proof. intros Hc Hlt (c' & Hc' & Hle). rewrite Hc in Hc'. injection Hc' as <-. lia. Qed.

(** The levels from [hi] down to the requested minimum, for a version
    [v]: the loop stops at the highest level that fits. *)
Lemma levelLoop_spec (v hi : Z) :
  1 <= v <= 40 → hi <= 3 →
  ∃ o, for_return (levelBody enc length v) (downto hi (ErrCor_to_int min_err_cor)) = Ok o
       ∧ match o with
         | Some (v', l) =>
             v' = v ∧ ErrCor_to_int min_err_cor <= ErrCor_to_int l <= hi
             ∧ fits enc length v l
             ∧ ∀ l', ErrCor_to_int l < ErrCor_to_int l' <= hi →
                     ¬ fits enc length v l'
         | None =>
             ∀ l', ErrCor_to_int min_err_cor <= ErrCor_to_int l' <= hi →
                   ¬ fits enc length v l'
         end.
Proof using Henc.
  intros Hv. remember (Z.to_nat (hi + 1)) as n eqn:Hn. revert hi Hn.
  induction n as [|n IH]; intros hi Hn Hhi.
  - rewrite downto_nil by (destruct min_err_cor; simpl; lia).
    exists None. split; [reflexivity|]. intros l' Hl'.
    destruct min_err_cor, l'; simpl in *; lia.
  - destruct (Z.lt_ge_cases hi (ErrCor_to_int min_err_cor)) as [Hlt|Hge].
    + rewrite downto_nil by lia. exists None. split; [reflexivity|]. intros; lia.
    + rewrite downto_cons by lia. simpl.
      destruct (ErrCor_of_int_range hi) as [lh Hlh];
        [destruct min_err_cor; simpl in *; lia|].
      pose proof (ErrCor_of_int_Some _ _ Hlh) as Hhl.
      destruct (getCapacity_total enc v lh Henc Hv) as [c Hc].
      assert (Hbody : levelBody enc length v hi
                      = Ok (if length <=? c then Some (v, lh) else None)).
      { unfold levelBody. rewrite Hlh, Hc. simpl. destruct (length <=? c); reflexivity. }
      rewrite Hbody. clear Hbody. simpl.
      destruct (Z.leb_spec length c) as [Hfit|Hno]; simpl.
      * exists (Some (v, lh)). split; [reflexivity|].
        split; [reflexivity|]. split; [lia|]. split; [exists c; auto|].
        intros; lia.
      * destruct (IH (hi - 1)) as (o & Ho & Hspec); [lia | lia |].
        exists o. split; [exact Ho|]. destruct o as [[v' l]|].
        -- destruct Hspec as (-> & Hl & Hf & Hmin).
           split; [reflexivity|]. split; [lia|]. split; [exact Hf|].
           intros l' Hl'.
           destruct (Z.eq_dec (ErrCor_to_int l') hi) as [Heq|Hne].
           ++ assert (l' = lh) as ->.
              { rewrite <- Heq, ErrCor_of_to_int in Hlh. congruence. }
              apply (not_fits _ _ c Hc). lia.
           ++ apply Hmin. lia.
        -- intros l' Hl'.
           destruct (Z.eq_dec (ErrCor_to_int l') hi) as [Heq|Hne].
           ++ assert (l' = lh) as ->.
              { rewrite <- Heq, ErrCor_of_to_int in Hlh. congruence. }
              apply (not_fits _ _ c Hc). lia.
           ++ apply Hspec. lia.
Qed.

(** The versions from [lo] up to 40. *)
Lemma versionLoop_spec (lo : Z) :
  1 <= lo →
  ∃ o, for_return
         (fun i => for_return (levelBody enc length i)
                     (downto (ErrCor_to_int kHigh) (ErrCor_to_int min_err_cor)))
         (upto lo 41) = Ok o
       ∧ match o with
         | Some (v, l) =>
             lo <= v <= 40
             ∧ ErrCor_to_int min_err_cor <= ErrCor_to_int l
             ∧ fits enc length v l
             ∧ ∀ v' l', lo <= v' <= 40 →
                 ErrCor_to_int min_err_cor <= ErrCor_to_int l' →
                 examined_before v' l' v l → ¬ fits enc length v' l'
         | None =>
             ∀ v' l', lo <= v' <= 40 →
               ErrCor_to_int min_err_cor <= ErrCor_to_int l' →
               ¬ fits enc length v' l'
         end.
Proof using Henc.
  intros Hlo. remember (Z.to_nat (41 - lo)) as n eqn:Hn. revert lo Hlo Hn.
  induction n as [|n IH]; intros lo Hlo Hn.
  - rewrite upto_nil by lia. exists None. split; [reflexivity|]. intros; lia.
  - rewrite upto_cons by lia. simpl.
    destruct (levelLoop_spec lo 3) as (o & Ho & Hspec); [lia | lia |].
    change (ErrCor_to_int kHigh) with 3. rewrite Ho. simpl.
    assert (Hlvl : ∀ l' : ErrCor, ErrCor_to_int l' <= 3) by (intros []; simpl; lia).
    destruct o as [[v l]|].
    + destruct Hspec as (-> & Hl & Hf & Hmin).
      exists (Some (lo, l)). split; [reflexivity|].
      split; [lia|]. split; [lia|]. split; [exact Hf|].
      intros v' l' Hv' Hl' [Hlt|[-> Hlt]]; [lia|].
      apply Hmin. specialize (Hlvl l'). lia.
    + destruct (IH (lo + 1)) as (o & Ho' & Hspec'); [lia | lia |].
      exists o. split; [exact Ho'|]. destruct o as [[v l]|].
      * destruct Hspec' as (Hv & Hl & Hf & Hmin).
        split; [lia|]. split; [exact Hl|]. split; [exact Hf|].
        intros v' l' Hv' Hl' Hbefore.
        destruct (Z.eq_dec v' lo) as [->|Hne].
        -- apply Hspec. specialize (Hlvl l'). lia.
        -- apply Hmin; [lia | exact Hl' | exact Hbefore].
      * intros v' l' Hv' Hl'.
        destruct (Z.eq_dec v' lo) as [->|Hne].
        -- apply Hspec. specialize (Hlvl l'). lia.
        -- apply Hspec'; [lia | exact Hl'].
Qed.
End Selection.

(** The selection on its own: first fit in the order of examination, or
    the exception. *)
Lemma selection_first_fit (enc : Encoding) (mode length : Z) (min_err_cor : ErrCor) :
  enc ∈ supported →
  (∃ v l,
      setVersionAndErrorLevel enc mode length min_err_cor = Ok (v, l)
      ∧ candidate min_err_cor v l
      ∧ fits enc length v l
      ∧ ∀ v' l', candidate min_err_cor v' l' →
                 examined_before v' l' v l → ¬ fits enc length v' l')
  ∨ (setVersionAndErrorLevel enc mode length min_err_cor
       = Throw (LogicError "String too long!")
     ∧ ∀ v l, candidate min_err_cor v l → ¬ fits enc length v l).
Proof.
  intros Henc.
  destruct (versionLoop_spec enc length min_err_cor Henc 1) as (o & Ho & Hspec); [lia|].
  unfold setVersionAndErrorLevel.
  rewrite Ho. simpl. destruct o as [[v l]|].
  - left. exists v, l. destruct Hspec as (Hv & Hl & Hf & Hmin).
    split; [reflexivity|]. split; [split; assumption|]. split; [exact Hf|].
    intros v' l' [Hv' Hl']. apply Hmin; assumption.
  - right. split; [reflexivity|].
    intros v l [Hv Hl]. apply Hspec; assumption.
Qed.

Lemma setVersionAndErrorLevel_range (enc : Encoding) (mode length : Z)
    (min_err_cor : ErrCor) (v : Z) (l : ErrCor) :
  enc ∈ supported →
  setVersionAndErrorLevel enc mode length min_err_cor = Ok (v, l) →
  1 <= v <= 40.
Proof.
  intros Henc H.
  destruct (versionLoop_spec enc length min_err_cor Henc 1) as (o & Ho & Hspec); [lia|].
  unfold setVersionAndErrorLevel in H. rewrite Ho in H. simpl in H.
  destruct o as [[v' l']|]; [|discriminate H].
  injection H as -> ->. lia.
Qed.

Lemma constructSteps_selected (text : string) (err : ErrCor) (msk : Z)
    (enc : Encoding) (v : Z) (l : ErrCor) (q : QRCode) :
  determineEncoding text = Some enc →
  setVersionAndErrorLevel enc (getEncodingMode enc)
    (int_of_size_t (Z.of_nat (String.length text))) err = Ok (v, l) →
  constructSteps text err msk = Ok q →
  version_ q = v ∧ correctionLevel_ q = l ∧ kEncoding_ q = Some enc.
Proof.
  unfold constructSteps. intros -> Hsel H. rewrite Hsel in H.
  cbn [mbind outcome_bind] in H. inv_bind. subst q. repeat split.
Qed.

Lemma constructSteps_too_long (text : string) (err : ErrCor) (msk : Z)
    (enc : Encoding) (e : exn) :
  determineEncoding text = Some enc →
  setVersionAndErrorLevel enc (getEncodingMode enc)
    (int_of_size_t (Z.of_nat (String.length text))) err = Throw e →
  constructSteps text err msk = Throw e.
Proof. unfold constructSteps. intros -> ->. reflexivity. Qed.

Lemma int_of_size_t_small (z : Z) : 0 <= z < 2 ^ 31 → int_of_size_t z = z.
Proof.
  intros Hz. unfold int_of_size_t. rewrite Z.mod_small by lia.
  destruct (Z.ltb_spec z (2 ^ 31)); lia.
Qed.

(** The selection on the length that it receives. For a text that
    classifies to a supported mode and a minimum level, let [length] be
    the text length as the constructor passes it (converted to [int],
    which changes nothing below 2^31 characters). The search examines
    versions 1 to 40 in increasing order and, within a version, the levels
    from High down to the minimum. Either it selects the first pair whose
    capacity is at least [length], and a constructed symbol has that
    version and level; or no pair of the range fits and the construction
    throws. *)
Theorem setVersionAndErrorLevel_first_fit
    (mem : Storage) (text : string) (enc : Encoding) (min_err_cor : ErrCor)
    (msk : Z) :
  determineEncoding text = Some enc →
  let length := int_of_size_t (Z.of_nat (String.length text)) in
  (Z.of_nat (String.length text) < 2 ^ 31 →
   length = Z.of_nat (String.length text))
  ∧ ((∃ v l,
        setVersionAndErrorLevel enc (getEncodingMode enc) length min_err_cor
        = Ok (v, l)
        ∧ candidate min_err_cor v l
        ∧ fits enc length v l
        ∧ (∀ v' l', candidate min_err_cor v' l' →
                    examined_before v' l' v l → ¬ fits enc length v' l')
        ∧ ∀ q, construct mem text min_err_cor msk = Ok q →
               getVersion q = v ∧ correctionLevel_ q = l)
     ∨ ((∀ v l, candidate min_err_cor v l → ¬ fits enc length v l)
        ∧ construct mem text min_err_cor msk
          = Throw (LogicError "String too long!"))).
Proof.
  intros Henc length. split.
  { intros Hlen. apply int_of_size_t_small. lia. }
  rewrite construct_steps.
  destruct (selection_first_fit enc (getEncodingMode enc) length min_err_cor
              (determineEncoding_supported text enc Henc))
    as [(v & l & Hsel & Hc & Hf & Hmin)|[Hthrow Hnone]].
  - left. exists v, l. split; [exact Hsel|]. split; [exact Hc|].
    split; [exact Hf|]. split; [exact Hmin|]. intros q Hq.
    destruct (constructSteps_selected text min_err_cor msk enc v l q Henc Hsel Hq)
      as (Hv & Hl & _).
    split; assumption.
  - right. split; [exact Hnone|].
    apply (constructSteps_too_long text min_err_cor msk enc _ Henc Hthrow).
Qed.

Lemma setVersionAndErrorLevel_first_fit_witness :
  ∃ q, construct zeroStorage "HELLO WORLD" kQuartile 0 = Ok q
       ∧ getVersion q = 1 ∧ correctionLevel_ q = kQuartile
       ∧ fits kAlpha_ 11 1 kQuartile ∧ ¬ fits kAlpha_ 11 1 kHigh.
Proof.
  destruct (construct zeroStorage "HELLO WORLD" kQuartile 0) as [q| |] eqn:H;
    [| vm_compute in H; discriminate H ..].
  exists q. split; [reflexivity|].
  destruct (setVersionAndErrorLevel_first_fit zeroStorage "HELLO WORLD" kAlpha_
              kQuartile 0 ltac:(reflexivity))
    as [_ [(v & l & Hsel & Hc & Hf & Hmin & Hq)|[_ Hthrow]]].
  - vm_compute in Hsel. injection Hsel as <- <-.
    destruct (Hq q H) as [Hv Hl].
    split; [exact Hv|]. split; [exact Hl|]. split; [exact Hf|].
    apply Hmin; [split; simpl; lia | right; simpl; lia].
  - rewrite H in Hthrow. discriminate Hthrow.
Defined.

(** ** Bit buffer *)

Lemma bit_test (val i : Z) :
  0 <= i → negb (Z.land (Z.shiftr val i) 1 =? 0) = Z.testbit val i.
Proof.
  intros Hi.
  replace (Z.testbit val i) with (Z.testbit (Z.shiftr val i) 0)
    by (rewrite Z.shiftr_spec by lia; f_equal; lia).
  change 1 with (Z.ones 1). rewrite Z.land_ones by lia.
  rewrite <- Z.bit0_mod. destruct (Z.testbit (Z.shiftr val i) 0); reflexivity.
Qed.

Lemma appendBits_Ok (buffer : BitBuffer) (val len : Z) :
  0 <= len <= 31 → 0 <= val < 2 ^ len →
  appendBits buffer val len = Ok (buffer ++ bitsBE val len).
Proof.
  intros Hlen Hval. unfold appendBits, bitsBE.
  destruct (Z.ltb_spec len 0); [lia|]. destruct (Z.ltb_spec 31 len); [lia|].
  rewrite Z.shiftr_div_pow2, Z.div_small by lia. simpl.
  f_equal. f_equal. apply map_ext_in. intros i Hi. apply bit_test.
  apply list_elem_of_In, elem_of_downto in Hi. lia.
Qed.

(** ** Numeric segment *)

Lemma isNumeric_digits (text : string) :
  isNumeric text = true → Forall is_digit (list_ascii_of_string text).
Proof.
  unfold isNumeric. intros H. apply Is_true_true, forallb_True in H.
  eapply Forall_impl; [exact H|]. intros ch Hch. apply Is_true_true in Hch.
  unfold is_digit. apply negb_true_iff, orb_false_iff in Hch. lia.
Qed.

Lemma digit_value (ch : ascii) :
  is_digit ch → 0 <= char_val ch - char_val "0" <= 9.
Proof. unfold is_digit. change (char_val "0") with 48. change (char_val "9") with 57. lia. Qed.

(** One turn of the loop on a digit. *)
Lemma numericBody_digit (ch : ascii) (group max : Z) (buffer : BitBuffer) :
  is_digit ch →
  numericBody ch (group, max, buffer)
  = if max + 1 =? 3
    then buffer ← appendBits buffer (group * 10 + (char_val ch - char_val "0")) 10;
         Ok (0, 0, buffer)
    else Ok (group * 10 + (char_val ch - char_val "0"), max + 1, buffer).
Proof.
  unfold is_digit, numericBody. intros Hch.
  destruct (Z.ltb_spec (char_val ch) (char_val "0")); [lia|].
  destruct (Z.ltb_spec (char_val "9") (char_val ch)); [lia|]. reflexivity.
Qed.

Lemma numeric_loop (chars : list ascii) (pend : list Z) (buffer : BitBuffer) :
  Forall is_digit chars →
  Forall (fun d => 0 <= d <= 9) pend → (length pend < 3)%nat →
  for_each numericBody chars (pending_value pend, bsize pend, buffer)
    ≫= numericTail
  = Ok (buffer ++ numericGroups
                    (pend ++ map (fun ch => char_val ch - char_val "0") chars)).
Proof.
  intros Hchars. revert pend buffer.
  induction Hchars as [|ch chars Hch _ IH]; intros pend buffer Hpend Hlen.
  - simpl. rewrite app_nil_r.
    destruct pend as [|a [|b [|c pend]]]; [| | |simpl in Hlen; lia].
    + simpl. rewrite app_nil_r. reflexivity.
    + apply Forall_cons in Hpend as [Ha _].
      change (appendBits buffer (0 * 10 + a) 4 = Ok (buffer ++ bitsBE a 4)).
      rewrite appendBits_Ok by lia. reflexivity.
    + apply Forall_cons in Hpend as [Ha Hb]. apply Forall_cons in Hb as [Hb _].
      change (appendBits buffer ((0 * 10 + a) * 10 + b) 7
              = Ok (buffer ++ bitsBE (a * 10 + b) 7)).
      rewrite appendBits_Ok by lia.
      replace ((0 * 10 + a) * 10 + b) with (a * 10 + b) by lia. reflexivity.
  - pose proof (digit_value ch Hch) as Hd.
    cbn [for_each map]. rewrite (numericBody_digit _ _ _ _ Hch).
    set (d := char_val ch - char_val "0") in *.
    destruct pend as [|a [|b [|c pend]]]; [| | |simpl in Hlen; lia].
    + apply (IH [d] buffer); [repeat constructor; lia | simpl; lia].
    + apply Forall_cons in Hpend as [Ha _].
      apply (IH [a; d] buffer); [repeat constructor; lia | simpl; lia].
    + apply Forall_cons in Hpend as [Ha Hb]. apply Forall_cons in Hb as [Hb _].
      change (bsize [a; b] + 1 =? 3) with true. cbv iota.
      change (pending_value [a; b]) with ((0 * 10 + a) * 10 + b).
      rewrite appendBits_Ok by lia.
      replace (((0 * 10 + a) * 10 + b) * 10 + d) with (a * 100 + b * 10 + d) by lia.
      etransitivity; [apply (IH [] _); [constructor | simpl; lia]|].
      rewrite <- app_assoc. reflexivity.
Qed.

(** C5. For a Numeric-mode input, the segment encoder appends the digits
    in groups of three, each in 10 bits holding the decimal value of the
    group; two digits left over take 7 bits and one digit takes 4 bits.
    In [encodeText] these bits follow the mode indicator and the character
    count, and go on to the terminator and the padding. *)
Theorem encodeNumeric_groups (text : string) :
  isNumeric text = true →
  (∀ buffer,
     encodeNumeric text buffer = Ok (buffer ++ numericGroups (digitsOf text)))
  ∧ ∀ version level bits_per_char,
      getBitsPerChar kNumeric_ version = Ok bits_per_char →
      Z.of_nat (String.length text) < 2 ^ bits_per_char →
      encodeText kNumeric_ version level text
      = terminateAndPack version level
          (bitsBE 1 4
           ++ bitsBE (Z.of_nat (String.length text)) bits_per_char
           ++ numericGroups (digitsOf text)).
Proof.
  intros Hnum.
  assert (Hseg : ∀ buffer,
            encodeNumeric text buffer = Ok (buffer ++ numericGroups (digitsOf text))).
  { intros buffer. apply isNumeric_digits in Hnum. unfold encodeNumeric, digitsOf.
    apply (numeric_loop _ [] buffer Hnum); [constructor | simpl; lia]. }
  split; [exact Hseg|]. intros version level bits_per_char Hbpc Hlen.
  assert (Hrange : 0 <= bits_per_char <= 31).
  { unfold getBitsPerChar in Hbpc.
    repeat match type of Hbpc with
           | (if ?c then _ else _) = _ => destruct c
           end; inversion Hbpc; simpl; lia. }
  unfold encodeText. change (getEncodingMode kNumeric_) with 1.
  change (appendBits [] (uint32_of_size_t 1) 4) with (Ok (bitsBE 1 4)).
  cbn [mbind outcome_bind]. rewrite Hbpc. cbn [mbind outcome_bind].
  assert (Hcount : uint32_of_size_t (Z.of_nat (String.length text))
                   = Z.of_nat (String.length text)).
  { unfold uint32_of_size_t. apply Z.mod_small. split; [lia|].
    apply (Z.lt_le_trans _ (2 ^ bits_per_char)); [exact Hlen|].
    apply Z.pow_le_mono_r; lia. }
  rewrite Hcount, appendBits_Ok by lia.
  cbn [mbind outcome_bind]. change (1 =? 1) with true. cbv iota.
  rewrite Hseg. cbn [mbind outcome_bind]. rewrite <- app_assoc. reflexivity.
Qed.

Lemma encodeNumeric_groups_witness :
  isNumeric "01234567" = true
  ∧ encodeNumeric "01234567" []
    = Ok (bitsBE 12 10 ++ bitsBE 345 10 ++ bitsBE 67 7)
  ∧ encodeText kNumeric_ 1 kMedium "01234567"
    = Ok [16; 32; 12; 86; 97; 128; 236; 17; 236; 17; 236; 17; 236; 17; 236; 17].
Proof.
  split; [reflexivity|].
  destruct (encodeNumeric_groups "01234567") as [Hseg Htext]; [reflexivity|].
  split.
  - rewrite Hseg. reflexivity.
  - rewrite (Htext 1 kMedium 10); [vm_compute; reflexivity | reflexivity | simpl; lia].
Defined.

(** ** The length of the encoded text *)

Lemma length_downto (hi lo : Z) : length (downto hi lo) = Z.to_nat (hi - lo + 1).
Proof. unfold downto. rewrite length_reverse. apply length_seqZ. Qed.

Lemma length_upto (lo hi : Z) : length (upto lo hi) = Z.to_nat (hi - lo).
Proof. unfold upto. apply length_seqZ. Qed.

Lemma appendBits_size (buffer out : BitBuffer) (val len : Z) :
  appendBits buffer val len = Ok out →
  bsize out = bsize buffer + len ∧ 0 <= len <= 31.
Proof.
  unfold appendBits. destruct (Z.ltb_spec len 0); [discriminate|].
  destruct (Z.ltb_spec 31 len); [discriminate|].
  destruct (negb _); [discriminate|]. simpl. intros [= <-].
  unfold bsize. rewrite length_app, length_map, length_downto. lia.
Qed.

(** The fuel of [padLoop] does not matter once it covers the bits that
    are missing. *)
Lemma padLoop_fuel (fuel1 fuel2 : nat) (capacity byte : Z) (buffer : BitBuffer) :
  capacity - bsize buffer <= Z.of_nat fuel1 →
  capacity - bsize buffer <= Z.of_nat fuel2 →
  padLoop fuel1 capacity byte buffer = padLoop fuel2 capacity byte buffer.
Proof.
  revert fuel2 byte buffer.
  induction fuel1 as [|fuel1 IH]; intros [|fuel2] byte buffer H1 H2; simpl;
    destruct (Z.ltb_spec (bsize buffer) capacity); try reflexivity; try lia.
  destruct (appendBits buffer byte 8) as [out| |] eqn:Hout; simpl; [|reflexivity ..].
  apply appendBits_size in Hout as [Hout _]. apply IH; lia.
Qed.

(** Padding a buffer that lacks whole bytes fills it up to the capacity. *)
Lemma padLoop_size (fuel : nat) (capacity byte : Z) (buffer out : BitBuffer) (k : Z) :
  0 <= k → capacity - bsize buffer = 8 * k →
  capacity - bsize buffer <= Z.of_nat fuel →
  padLoop fuel capacity byte buffer = Ok out →
  bsize out = capacity.
Proof.
  revert byte buffer k.
  induction fuel as [|fuel IH]; intros byte buffer k Hk Hmiss Hfuel H; simpl in H;
    destruct (Z.ltb_spec (bsize buffer) capacity).
  - lia.
  - injection H as <-. lia.
  - apply bind_Ok in H as (b' & Hb' & H). apply appendBits_size in Hb' as [Hb' _].
    apply (IH (Z.lxor byte (Z.lxor 236 17)) b' (k - 1)); [lia | lia | lia | exact H].
  - injection H as <-. lia.
Qed.

Lemma packBits_length (buffer : BitBuffer) (out : list Z) :
  packBits buffer = Ok out → bsize out = Z.quot (bsize buffer) 8.
Proof.
  unfold packBits. intros H.
  assert (Hlen : length out = Z.to_nat (Z.quot (bsize buffer) 8)).
  { revert H. apply (for_each_invariant
      (fun l => length l = Z.to_nat (Z.quot (bsize buffer) 8))).
    - intros i a b _ Ha Hb. inv_bind. apply vset_length in Hb. congruence.
    - apply length_replicate. }
  unfold bsize in *. rewrite Hlen.
  pose proof (Z.quot_pos (Z.of_nat (length buffer)) 8). lia.
Qed.

(** A loop that appends at most [k] bits a turn. *)
Lemma for_each_size_bound {I S} (size : S → Z) (k : Z)
    (body : I → S → outcome S) (idx : list I) (s s' : S) :
  (∀ i a b, body i a = Ok b → size b <= size a + k) →
  for_each body idx s = Ok s' →
  size s' <= size s + k * bsize idx.
Proof.
  intros Hbody. revert s. unfold bsize.
  induction idx as [|i idx IH]; intros s H; simpl in H.
  - injection H as <-. simpl. lia.
  - inv_bind. apply Hbody in Ha. apply IH in H. simpl length. lia.
Qed.

Lemma length_list_ascii_of_string (text : string) :
  length (list_ascii_of_string text) = String.length text.
Proof. induction text as [|ch text IH]; simpl; congruence. Qed.

Lemma encodeNumeric_size (text : string) (buffer out : BitBuffer) :
  encodeNumeric text buffer = Ok out →
  bsize out <= bsize buffer + 10 * Z.of_nat (String.length text) + 31.
Proof.
  unfold encodeNumeric. intros H. apply bind_Ok in H as ([[g m] b] & Hloop & Htail).
  apply (for_each_size_bound (fun s => bsize s.2) 10) in Hloop.
  - simpl in Hloop. unfold bsize in Hloop at 3.
    rewrite length_list_ascii_of_string in Hloop.
    unfold numericTail in Htail. destruct (0 <? m).
    + apply appendBits_size in Htail. lia.
    + injection Htail as <-. lia.
  - clear. intros ch [[g m] b] [[g' m'] b'] H. unfold numericBody in H.
    destruct (_ || _); [discriminate H|]. destruct (_ =? 3).
    + inv_bind. subst. simpl.
      match goal with Hx : appendBits _ _ _ = Ok _ |- _ =>
        apply appendBits_size in Hx end. lia.
    + injection H as <- <- <-. simpl. lia.
Qed.

Lemma encodeAlphanumeric_size (text : string) (buffer out : BitBuffer) :
  encodeAlphanumeric text buffer = Ok out →
  bsize out <= bsize buffer + 11 * Z.of_nat (String.length text) + 31.
Proof.
  unfold encodeAlphanumeric. intros H.
  apply bind_Ok in H as ([[g m] b] & Hloop & Htail).
  apply (for_each_size_bound (fun s => bsize s.2) 11) in Hloop.
  - simpl in Hloop. unfold bsize in Hloop at 3.
    rewrite length_list_ascii_of_string in Hloop.
    destruct (0 <? m).
    + apply appendBits_size in Htail. lia.
    + injection Htail as <-. lia.
  - clear. intros ch [[g m] b] [[g' m'] b'] H. destruct (_ =? 2).
    + inv_bind. subst. simpl.
      match goal with Hx : appendBits _ _ _ = Ok _ |- _ =>
        apply appendBits_size in Hx end. lia.
    + injection H as <- <- <-. simpl. lia.
Qed.

Lemma encodeByte_size (text : string) (buffer out : BitBuffer) :
  encodeByte text buffer = Ok out →
  bsize out <= bsize buffer + 8 * Z.of_nat (String.length text).
Proof.
  unfold encodeByte. intros H.
  apply (for_each_size_bound bsize 8) in H.
  - unfold bsize in H at 3. rewrite length_list_ascii_of_string in H. exact H.
  - intros ch a b Hb. apply appendBits_size in Hb. lia.
Qed.

Lemma int_of_size_t_wrap (z : Z) :
  - 2 ^ 31 <= z < 2 ^ 31 → int_of_size_t (size_t_wrap z) = z.
Proof.
  intros Hz. unfold int_of_size_t, size_t_wrap.
  rewrite (Z.mod_mod_divide z (2 ^ 64) (2 ^ 32)) by (exists (2 ^ 32); reflexivity).
  destruct (Z.neg_nonneg_cases z) as [Hneg|Hpos].
  - replace (z mod 2 ^ 32) with (z + 2 ^ 32).
    + destruct (Z.ltb_spec (z + 2 ^ 32) (2 ^ 31)); lia.
    + apply (Z.mod_unique_pos _ _ (-1)); lia.
  - rewrite Z.mod_small by lia. destruct (Z.ltb_spec z (2 ^ 31)); lia.
Qed.

(** When [encodeText] returns, it returns exactly the data codewords of
    the version and level: the input of the block split. *)
Lemma encodeText_length (enc : Encoding) (version : Z) (level : ErrCor)
    (text : string) (data : list Z) (n : Z) :
  Z.of_nat (String.length text) < 2 ^ 24 → 0 <= n < 2 ^ 24 →
  getTotalCodewords version level = Ok n →
  encodeText enc version level text = Ok data →
  bsize data = n.
Proof.
  intros Htext Hn Htotal H. unfold encodeText, terminateAndPack in H.
  rewrite Htotal in H.
  apply bind_Ok in H as (b0 & Hb0 & H). apply bind_Ok in H as (bpc & _ & H).
  apply bind_Ok in H as (b1 & Hb1 & H). apply bind_Ok in H as (b2 & Hb2 & H).
  cbn [mbind outcome_bind] in H.
  apply bind_Ok in H as (b3 & Hb3 & H). apply bind_Ok in H as (b4 & Hb4 & H).
  apply bind_Ok in H as (b5 & Hb5 & H).
  apply appendBits_size in Hb0 as [Hb0 _]. apply appendBits_size in Hb1 as [Hb1 Hbpc].
  change (bsize []) with 0 in Hb0.
  assert (Hseg : bsize b2 <= bsize b1 + 11 * Z.of_nat (String.length text) + 31).
  { destruct (_ =? 1); [apply encodeNumeric_size in Hb2; lia|].
    destruct (_ =? 2); [apply encodeAlphanumeric_size in Hb2; lia|].
    destruct (_ =? 4); [apply encodeByte_size in Hb2; lia|].
    injection Hb2 as <-. lia. }
  assert (Hcap : size_t_wrap (size_t_wrap n * 8) = 8 * n).
  { unfold size_t_wrap. rewrite (Z.mod_small n) by lia. rewrite Z.mod_small; lia. }
  rewrite Hcap in *.
  assert (Hb2pos : 0 <= bsize b2) by (unfold bsize; lia).
  rewrite int_of_size_t_wrap in Hb3 by lia.
  apply appendBits_size in Hb3 as [Hb3 Hterm].
  apply appendBits_size in Hb4 as [Hb4 Halign].
  pose proof (Z.rem_bound_pos (bsize b3) 8 ltac:(unfold bsize; lia) ltac:(lia)) as Hr.
  pose proof (Z.quot_rem' (bsize b3) 8) as Hqr.
  assert (Hb4size : ∃ k, 0 <= k ∧ 8 * n - bsize b4 = 8 * k).
  { destruct (Z.eq_dec (Z.rem (bsize b3) 8) 0) as [Hz|Hnz].
    - rewrite Hz in Hb4. change (Z.rem (8 - 0) 8) with 0 in Hb4.
      exists (n - Z.quot (bsize b3) 8). lia.
    - rewrite Z.rem_small in Hb4 by lia.
      exists (n - Z.quot (bsize b3) 8 - 1). lia. }
  destruct Hb4size as (k & Hk & Hmiss).
  apply (padLoop_size _ _ _ _ _ k Hk Hmiss) in Hb5; [|lia].
  apply packBits_length in H. rewrite H, Hb5.
  rewrite Z.mul_comm, Z.quot_mul; lia.
Qed.

(** ** GF(256): the generated tables *)

Section GeneratedTables.
Variable t : RsTables.
Hypothesis Ht : rsGenerateLogExp initialTables = Ok t.

Lemma generated_log_exp_inverse : forallb (log_exp_inverse t) (upto 1 256) = true.
Proof using Ht. vm_compute in Ht. injection Ht as <-. vm_compute. reflexivity. Qed.

Lemma generated_log_one : vat (rsLog_ t) 1 = Ok 0.
Proof using Ht. vm_compute in Ht. injection Ht as <-. vm_compute. reflexivity. Qed.

Lemma generated_exp_size : bsize (rsExp_ t) = 256.
Proof using Ht. vm_compute in Ht. injection Ht as <-. vm_compute. reflexivity. Qed.

Lemma generated_log (y : Z) :
  0 < y < 256 →
  ∃ ly, vat (rsLog_ t) y = Ok ly ∧ 0 <= ly < 255 ∧ vat (rsExp_ t) ly = Ok y.
Proof using Ht.
  intros Hy.
  pose proof (forallb_upto _ 1 256 y generated_log_exp_inverse ltac:(lia)) as H.
  unfold log_exp_inverse in H.
  destruct (vat (rsLog_ t) y) as [ly| |]; try discriminate H.
  exists ly. apply andb_prop in H as [H1 H2]. apply andb_prop in H1 as [H0 H1].
  destruct (vat (rsExp_ t) ly) as [e| |]; try discriminate H2.
  apply Z.eqb_eq in H2. subst e. repeat split; lia.
Qed.

Lemma generated_exp (k : Z) : 0 <= k < 256 → ∃ e, vat (rsExp_ t) k = Ok e.
Proof using Ht. intros Hk. apply vat_in_range. rewrite generated_exp_size. lia. Qed.

(** With these tables the division adds the logarithms like the
    product does: on non-zero bytes the two routines agree. *)
Lemma reedSolomonDiv_is_Mult (x y : Z) :
  0 < x < 256 → 0 < y < 256 →
  reedSolomonDiv t x y = reedSolomonMult t x y.
Proof.
  intros Hx Hy. unfold reedSolomonDiv, reedSolomonMult.
  destruct (Z.eqb_spec x 0); [lia|]. destruct (Z.eqb_spec y 0); [lia|].
  reflexivity.
Qed.

Lemma reedSolomonDiv_one (y : Z) : 0 < y < 256 → reedSolomonDiv t 1 y = Ok y.
Proof using Ht.
  intros Hy. destruct (generated_log y Hy) as (ly & Hl & Hr & He).
  unfold reedSolomonDiv. rewrite generated_log_one, Hl. simpl.
  rewrite Z.rem_small by lia. exact He.
Qed.

Lemma reedSolomonDiv_total (x y : Z) :
  0 < x < 256 → 0 < y < 256 → ∃ q, reedSolomonDiv t x y = Ok q.
Proof using Ht.
  intros Hx Hy.
  destruct (generated_log x Hx) as (lx & Hlx & Hrx & _).
  destruct (generated_log y Hy) as (ly & Hly & Hry & _).
  unfold reedSolomonDiv. rewrite Hlx, Hly. simpl.
  apply generated_exp.
  pose proof (Z.rem_bound_pos (lx + ly) 255). lia.
Qed.
End GeneratedTables.

(** C4. On the generated tables, for all non-zero bytes [x] and [y],
    [multiply(x, divide(1, y))] equals [divide(x, y)], and both are
    defined. *)
Theorem reedSolomon_mult_div_roundtrip (t : RsTables) (x y : Z) :
  rsGenerateLogExp initialTables = Ok t →
  0 < x < 256 → 0 < y < 256 →
  ∃ q, reedSolomonDiv t x y = Ok q
       ∧ (d ← reedSolomonDiv t 1 y; reedSolomonMult t x d) = Ok q.
Proof.
  intros Ht Hx Hy.
  destruct (reedSolomonDiv_total t Ht x y Hx Hy) as [q Hq].
  exists q. split; [exact Hq|].
  rewrite (reedSolomonDiv_one t Ht y Hy). simpl.
  rewrite <- (reedSolomonDiv_is_Mult t x y Hx Hy). exact Hq.
Qed.

Lemma reedSolomon_mult_div_roundtrip_witness :
  ∃ t, rsGenerateLogExp initialTables = Ok t
       ∧ ∃ q, reedSolomonDiv t 7 29 = Ok q
              ∧ (d ← reedSolomonDiv t 1 29; reedSolomonMult t 7 d) = Ok q.
Proof.
  destruct (rsGenerateLogExp initialTables) as [t| |] eqn:Ht;
    [| vm_compute in Ht; discriminate Ht ..].
  exists t. split; [reflexivity|].
  apply (reedSolomon_mult_div_roundtrip t 7 29 Ht); lia.
Defined.

(** ** Polynomial remainder *)

Lemma xorInto_length (remainder subtr out : list Z) :
  xorInto remainder subtr = Ok out → length out = length remainder.
Proof.
  unfold xorInto.
  apply (for_each_invariant (fun l => length l = length remainder)); [|reflexivity].
  intros i a b _ Ha Hb. inv_bind. apply vset_length in Hb. congruence.
Qed.

(** A turn of the division loop removes exactly one coefficient. *)
Lemma polyDivStep_length (t : RsTables) (divisor remainder out : list Z) :
  polyDivStep t divisor remainder = Ok out →
  bsize remainder = bsize out + 1.
Proof.
  unfold polyDivStep. intros H. apply bind_Ok in H as (r0 & Hr0 & H).
  assert (Hne : (0 < length remainder)%nat).
  { destruct remainder; [discriminate Hr0 | simpl; lia]. }
  destruct (negb (r0 =? 0)).
  - inv_bind. subst out.
    match goal with Hx : xorInto _ _ = Ok _ |- _ => apply xorInto_length in Hx end.
    unfold bsize. rewrite length_drop. lia.
  - inv_bind. subst out. unfold bsize. rewrite length_drop. lia.
Qed.

Lemma polyDivLoop_length (t : RsTables) (count : nat) (divisor remainder out : list Z) :
  polyDivLoop t count divisor remainder = Ok out →
  bsize remainder = bsize out + Z.of_nat count.
Proof.
  revert remainder. induction count as [|count IH]; intros remainder H; simpl in H.
  - injection H as ->. lia.
  - inv_bind. apply polyDivStep_length in Ha. apply IH in H. lia.
Qed.

(** Whenever the division of [p] by [g] returns,
    with [len(p) >= len(g) >= 1], the result has [len(g) - 1]
    coefficients. *)
Lemma reedSolomonPolyDiv_length (t : RsTables) (p g r : list Z) :
  1 <= bsize g <= bsize p →
  reedSolomonPolyDiv t p g = Ok r →
  bsize r = bsize g - 1.
Proof.
  intros Hlen H. unfold reedSolomonPolyDiv in H.
  destruct (Z.leb_spec (bsize g) (bsize p + 1)); [|lia].
  apply polyDivLoop_length in H. lia.
Qed.

(** C3. The remainder routine divides by the leading coefficient of the
    divisor with [reedSolomonDiv], which multiplies. For the divisor
    [g = {2, 1}], the polynomial [p = {1, 0}] and [r = {0}], the product
    [p·g] is [{2, 1, 0}] and the routine applied to [p·g + r] returns
    [{10}], not [r]. *)
Theorem reedSolomonPolyDiv_nonmonic_divisor :
  (t ← rsGenerateLogExp initialTables;
   pg ← reedSolomonPolyMult t [1; 0] [2; 1];
   r ← reedSolomonPolyDiv t (polyAdd pg [0]) [2; 1];
   Ok (pg, r)) = Ok ([2; 1; 0], [10]).
Proof. vm_compute. reflexivity. Qed.

(** With a divisor whose leading coefficient is 1, as the generator
    polynomials have, the same identity holds on this sample. *)
Example reedSolomonPolyDiv_monic_sample :
  (t ← rsGenerateLogExp initialTables;
   pg ← reedSolomonPolyMult t [3; 7] [1; 5; 9];
   reedSolomonPolyDiv t (polyAdd pg [4; 2]) [1; 5; 9]) = Ok [4; 2].
Proof. vm_compute. reflexivity. Qed.

(** ** The polynomial routines return on bytes *)

Lemma lxor_byte (a b : Z) : is_byte a → is_byte b → is_byte (Z.lxor a b).
Proof.
  unfold is_byte. intros Ha Hb.
  assert (Hnn : 0 <= Z.lxor a b) by (apply Z.lxor_nonneg; lia).
  split; [exact Hnn|]. change 256 with (2 ^ 8).
  apply Z.bounded_iff_bits_nonneg; [lia | exact Hnn|].
  intros l Hl. rewrite Z.lxor_spec.
  rewrite (proj1 (Z.bounded_iff_bits_nonneg 8 a ltac:(lia) ltac:(lia))) by (simpl; lia).
  rewrite (proj1 (Z.bounded_iff_bits_nonneg 8 b ltac:(lia) ltac:(lia))) by (simpl; lia).
  reflexivity.
Qed.

Lemma generated_tables_ok (t : RsTables) :
  rsGenerateLogExp initialTables = Ok t → tables_ok t = true.
Proof. intros Ht. vm_compute in Ht. injection Ht as <-. vm_compute. reflexivity. Qed.

Section ByteArithmetic.
Variable t : RsTables.
Hypothesis Hok : tables_ok t = true.

Lemma tables_log (x : Z) :
  is_byte x → ∃ lx, vat (rsLog_ t) x = Ok lx ∧ 0 <= lx < 255.
Proof using Hok.
  intros Hx. unfold tables_ok in Hok.
  repeat (apply andb_prop in Hok as [Hok ?]). apply Z.eqb_eq in Hok.
  destruct (vat_in_range (rsLog_ t) x) as [lx Hlx]; [unfold is_byte in Hx; lia|].
  exists lx. split; [exact Hlx|].
  apply vat_Ok in Hlx as [_ Hlx].
  match goal with Hf : forallb _ (rsLog_ t) = true |- _ =>
    apply Is_true_true, forallb_True in Hf;
    apply (Forall_lookup_1 _ _ _ _ Hf) in Hlx end.
  apply Is_true_true in Hlx. lia.
Qed.

Lemma tables_exp (k : Z) :
  0 <= k < 256 → ∃ e, vat (rsExp_ t) k = Ok e ∧ is_byte e.
Proof using Hok.
  intros Hk. unfold tables_ok in Hok.
  repeat (apply andb_prop in Hok as [Hok ?]).
  destruct (vat_in_range (rsExp_ t) k) as [e He]; [lia|].
  exists e. split; [exact He|].
  apply vat_Ok in He as [_ He].
  match goal with Hf : forallb _ (rsExp_ t) = true |- _ =>
    apply Is_true_true, forallb_True in Hf;
    apply (Forall_lookup_1 _ _ _ _ Hf) in He end.
  apply Is_true_true in He. unfold is_byte. lia.
Qed.

Lemma reedSolomonDiv_byte (x y : Z) :
  is_byte x → is_byte y → ∃ q, reedSolomonDiv t x y = Ok q ∧ is_byte q.
Proof using Hok.
  intros Hx Hy. unfold reedSolomonDiv.
  destruct (tables_log x Hx) as (lx & -> & Hlx).
  destruct (tables_log y Hy) as (ly & -> & Hly). simpl.
  apply tables_exp. pose proof (Z.rem_bound_pos (lx + ly) 255). lia.
Qed.

Lemma reedSolomonMult_byte (x y : Z) :
  is_byte x → is_byte y → ∃ m, reedSolomonMult t x y = Ok m ∧ is_byte m.
Proof using Hok.
  intros Hx Hy. unfold reedSolomonMult.
  destruct (negb (x =? 0) && negb (y =? 0)).
  - apply (reedSolomonDiv_byte x y Hx Hy).
  - exists 0. split; [reflexivity | unfold is_byte; lia].
Qed.

Lemma vat_byte (l : list Z) (i : Z) :
  Forall is_byte l → 0 <= i < bsize l → ∃ a, vat l i = Ok a ∧ is_byte a.
Proof.
  intros Hl Hi. destruct (vat_in_range l i Hi) as [a Ha]. exists a.
  split; [exact Ha|]. apply vat_Ok in Ha as [_ Ha].
  apply (Forall_lookup_1 _ _ _ _ Hl Ha).
Qed.

Lemma vset_byte (l : list Z) (i a : Z) :
  Forall is_byte l → 0 <= i < bsize l → is_byte a →
  ∃ l', vset l i a = Ok l' ∧ Forall is_byte l' ∧ bsize l' = bsize l.
Proof.
  intros Hl Hi Ha. exists (<[Z.to_nat i := a]> l). split.
  - apply vset_Ok. auto.
  - split; [apply Forall_insert; assumption|].
    unfold bsize. rewrite length_insert. reflexivity.
Qed.

Lemma replicate_byte (n : nat) : Forall is_byte (replicate n 0).
Proof. apply Forall_replicate. unfold is_byte. lia. Qed.

Lemma bsize_replicate {A} (n : Z) (a : A) :
  0 <= n → bsize (replicate (Z.to_nat n) a) = n.
Proof. intros Hn. unfold bsize. rewrite length_replicate. lia. Qed.

Lemma reedSolomonPolyMult_byte (poly1 poly2 : list Z) :
  Forall is_byte poly1 → Forall is_byte poly2 →
  1 <= bsize poly1 → 1 <= bsize poly2 →
  ∃ out, reedSolomonPolyMult t poly1 poly2 = Ok out
         ∧ Forall is_byte out
         ∧ bsize out = bsize poly1 + bsize poly2 - 1.
Proof using Hok.
  intros H1 H2 Hn1 Hn2. unfold reedSolomonPolyMult.
  destruct (Z.eqb_spec (bsize poly1 + bsize poly2) 0) as [Hz|_]; [lia|].
  set (n := bsize poly1 + bsize poly2 - 1).
  destruct (for_each_total
              (fun l => Forall is_byte l ∧ bsize l = n) (fun k => 0 <= k < n)
              (fun index coeffs =>
                 coeff ← for_each (fun p1index coeff =>
                     let p2index := index - p1index in
                     if (p1index <? bsize poly1) && (p2index <? bsize poly2)
                     then a ← vat poly1 p1index; b ← vat poly2 p2index;
                          m ← reedSolomonMult t a b; Ok (Z.lxor coeff m)
                     else Ok coeff)
                   (upto 0 (index + 1)) 0;
                 vset coeffs index coeff)
              (upto 0 n) (replicate (Z.to_nat n) 0))
    as (out & Hout & Hbytes & Hlen).
  - intros index coeffs Hindex [Hc Hcl].
    destruct (for_each_total is_byte (fun i => 0 <= i <= index)
                (fun p1index coeff =>
                   let p2index := index - p1index in
                   if (p1index <? bsize poly1) && (p2index <? bsize poly2)
                   then a ← vat poly1 p1index; b ← vat poly2 p2index;
                        m ← reedSolomonMult t a b; Ok (Z.lxor coeff m)
                   else Ok coeff)
                (upto 0 (index + 1)) 0) as (coeff & Hcoeff & Hcb).
    + intros i c Hi Hc'. cbv zeta.
      destruct (Z.ltb_spec i (bsize poly1)); [|eauto].
      destruct (Z.ltb_spec (index - i) (bsize poly2)); [|eauto]. simpl.
      destruct (vat_byte poly1 i H1) as (a & -> & Ha); [lia|].
      destruct (vat_byte poly2 (index - i) H2) as (b & -> & Hb); [lia|]. simpl.
      destruct (reedSolomonMult_byte a b Ha Hb) as (m & -> & Hm). simpl.
      eexists. split; [reflexivity|]. apply lxor_byte; assumption.
    + apply Forall_upto. intros; lia.
    + unfold is_byte. lia.
    + rewrite Hcoeff. simpl.
      destruct (vset_byte coeffs index coeff Hc ltac:(lia) Hcb) as (l' & -> & Hl' & Hll).
      eexists. split; [reflexivity|]. split; [exact Hl' | lia].
  - apply Forall_upto. intros; lia.
  - split; [apply replicate_byte | apply bsize_replicate; unfold n; lia].
  - exists out. auto.
Qed.

Lemma xorInto_byte (remainder subtr : list Z) :
  Forall is_byte remainder → Forall is_byte subtr →
  bsize subtr = bsize remainder →
  ∃ out, xorInto remainder subtr = Ok out
         ∧ Forall is_byte out ∧ bsize out = bsize remainder.
Proof.
  intros Hr Hs Hlen. unfold xorInto.
  apply (for_each_total
           (fun l => Forall is_byte l ∧ bsize l = bsize remainder)
           (fun k => 0 <= k < bsize remainder));
    [| apply Forall_upto; intros; lia | auto].
  intros index l Hindex [Hl Hll].
  destruct (vat_byte l index Hl) as (r & -> & Hrb); [lia|]. simpl.
  destruct (vat_byte subtr index Hs) as (s & -> & Hsb); [lia|]. simpl.
  destruct (vset_byte l index (Z.lxor r s) Hl ltac:(lia) (lxor_byte r s Hrb Hsb))
    as (l' & -> & Hl' & Hll').
  eexists. split; [reflexivity|]. split; [exact Hl' | lia].
Qed.

Lemma polyDivStep_byte (divisor remainder : list Z) :
  Forall is_byte divisor → Forall is_byte remainder →
  1 <= bsize divisor <= bsize remainder →
  ∃ out, polyDivStep t divisor remainder = Ok out
         ∧ Forall is_byte out ∧ bsize out = bsize remainder - 1.
Proof using Hok.
  intros Hd Hr Hlen. unfold polyDivStep.
  destruct (vat_byte remainder 0 Hr) as (r0 & Hr0 & Hr0b); [lia|].
  assert (Hraw : raw_at remainder 0 = Ok r0).
  { apply vat_Ok in Hr0 as [_ Hr0]. unfold raw_at. simpl in *. rewrite Hr0. reflexivity. }
  rewrite Hraw. simpl.
  assert (Hdrop : ∀ l, Forall is_byte l → bsize l = bsize remainder →
            Forall is_byte (drop 1 l) ∧ bsize (drop 1 l) = bsize remainder - 1).
  { intros l Hl Hll. split; [apply Forall_drop, Hl|].
    unfold bsize in *. rewrite length_drop. lia. }
  destruct (negb (r0 =? 0)).
  - rewrite Hr0. simpl.
    destruct (vat_byte divisor 0 Hd) as (d0 & -> & Hd0b); [lia|]. simpl.
    destruct (reedSolomonDiv_byte r0 d0 Hr0b Hd0b) as (factor & -> & Hfb). simpl.
    destruct (reedSolomonPolyMult_byte divisor [factor] Hd)
      as (product & -> & Hpb & Hpl);
      [apply Forall_singleton; exact Hfb | lia | unfold bsize; simpl; lia |].
    simpl. change (bsize [factor]) with 1 in Hpl.
    unfold copyInto.
    assert (Hrep : bsize (replicate (length remainder) 0) = bsize remainder)
      by (unfold bsize; rewrite length_replicate; reflexivity).
    rewrite Hrep.
    destruct (Z.ltb_spec (bsize remainder) (bsize product)); [lia|]. simpl.
    destruct (xorInto_byte remainder
                (product ++ drop (length product) (replicate (length remainder) 0)))
      as (out & -> & Hob & Hol).
    + exact Hr.
    + apply Forall_app. split; [exact Hpb | apply Forall_drop, replicate_byte].
    + unfold bsize in *. rewrite length_app, length_drop, length_replicate. lia.
    + simpl. eexists. split; [reflexivity|]. apply Hdrop; assumption.
  - eexists. split; [reflexivity|]. apply Hdrop; [exact Hr | reflexivity].
Qed.

(** On byte polynomials with [len(p) >= len(g) >= 1] the division returns,
    and its result has [len(g) - 1] coefficients. *)
Lemma reedSolomonPolyDiv_returns (p g : list Z) :
  Forall is_byte p → Forall is_byte g → 1 <= bsize g <= bsize p →
  ∃ r, reedSolomonPolyDiv t p g = Ok r
       ∧ Forall is_byte r ∧ bsize r = bsize g - 1.
Proof using Hok.
  intros Hp Hg Hlen. unfold reedSolomonPolyDiv.
  destruct (Z.leb_spec (bsize g) (bsize p + 1)); [|lia].
  assert (Hloop : ∀ (count : nat) (remainder : list Z),
            Forall is_byte remainder →
            bsize remainder = bsize g - 1 + Z.of_nat count →
            ∃ r, polyDivLoop t count g remainder = Ok r
                 ∧ Forall is_byte r ∧ bsize r = bsize g - 1).
  { induction count as [|count IH]; intros remainder Hr Hrl; simpl.
    - exists remainder. split; [reflexivity|]. split; [exact Hr | lia].
    - destruct (polyDivStep_byte g remainder Hg Hr) as (out & -> & Hob & Hol); [lia|].
      simpl. apply IH; [exact Hob | lia]. }
  apply Hloop; [exact Hp | lia].
Qed.
End ByteArithmetic.

(** ** Block split *)

Lemma vrange_Ok (data : list Z) (j len : Z) :
  0 <= j → 0 <= len → j + len <= bsize data →
  vrange data j (j + len)
  = Ok (take (Z.to_nat len) (drop (Z.to_nat j) data)).
Proof.
  intros Hj Hlen Hend. unfold vrange.
  destruct (Z.leb_spec 0 j); [|lia].
  destruct (Z.leb_spec j (j + len)); [|lia].
  destruct (Z.leb_spec (j + len) (bsize data)); [|lia].
  simpl. do 2 f_equal. lia.
Qed.

Section Split.
Variables (g : BlockGeometry) (data : list Z).
Hypothesis Hblocks : 1 <= num_blocks g.
Hypothesis Hdata : 0 <= short_block_len g - ECC_per_block g.
Hypothesis Hshort : 1 <= num_short_blocks g <= num_blocks g.
Hypothesis Hsize :
  bsize data = num_blocks g * (short_block_len g - ECC_per_block g)
               + (num_blocks g - num_short_blocks g).

Lemma blockOffset_succ (i : Z) : blockOffset g (i + 1) = blockOffset g i + blockLen g i.
Proof. unfold blockOffset, blockLen. destruct (Z.ltb_spec i (num_short_blocks g)); lia. Qed.

Lemma blockOffset_bound (i : Z) :
  0 <= i <= num_blocks g → 0 <= blockOffset g i <= bsize data.
Proof using Hdata Hshort Hsize. unfold blockOffset. rewrite Hsize. nia. Qed.

Lemma blockLen_nonneg (i : Z) : 0 <= blockLen g i.
Proof using Hdata. unfold blockLen. destruct (i <? num_short_blocks g); lia. Qed.

Lemma dataBlocks_lengths :
  ∃ blocks,
    dataBlocks g data = Ok blocks
    ∧ bsize blocks = num_blocks g
    ∧ concat blocks = data
    ∧ ∀ (i : nat) block, blocks !! i = Some block →
        bsize block = blockLen g (Z.of_nat i).
Proof using Hblocks Hdata Hshort Hsize.
  unfold dataBlocks.
  destruct (for_each_upto_total
              (fun i '(j, blocks) =>
                 j = blockOffset g i ∧ bsize blocks = i
                 ∧ concat blocks = take (Z.to_nat j) data
                 ∧ ∀ (k : nat) block, blocks !! k = Some block →
                     bsize block = blockLen g (Z.of_nat k))
              (fun i '(j, blocks) =>
                 block ← cutBlock g data i j;
                 Ok (j + bsize block, blocks ++ [block]))
              0 (num_blocks g) (0, []))
    as ([j blocks] & Hrun & Hj & Hn & Hcat & Hlen).
  - lia.
  - repeat split; [unfold blockOffset; lia | intros k block Hk; discriminate Hk].
  - intros i [j blocks] Hi (Hj & Hn & Hcat & Hlen).
    pose proof (blockOffset_bound i ltac:(lia)) as Hb.
    pose proof (blockOffset_bound (i + 1) ltac:(lia)) as Hb'.
    pose proof (blockLen_nonneg i) as Hl.
    rewrite blockOffset_succ in Hb'.
    unfold cutBlock. fold (blockLen g i).
    replace (j + short_block_len g - ECC_per_block g
             + (if i <? num_short_blocks g then 0 else 1))
      with (j + blockLen g i) by (unfold blockLen; lia).
    rewrite vrange_Ok by lia. simpl.
    set (block := take (Z.to_nat (blockLen g i)) (drop (Z.to_nat j) data)).
    assert (Hsz : bsize block = blockLen g i).
    { unfold block, bsize. rewrite length_take, length_drop.
      unfold bsize in Hb'. lia. }
    eexists. split; [reflexivity|]. simpl. repeat split.
    + rewrite blockOffset_succ. lia.
    + unfold bsize in Hn |- *. rewrite length_app. simpl. lia.
    + rewrite concat_app, Hcat, Hsz. simpl. rewrite app_nil_r. unfold block.
      rewrite take_take_drop. f_equal. lia.
    + intros k blk Hk. apply lookup_app_Some in Hk as [Hk|[Hge Hk]].
      * apply Hlen, Hk.
      * apply list_lookup_singleton_Some in Hk as [Hk0 <-].
        rewrite Hsz. f_equal. unfold bsize in Hn. lia.
  - exists blocks. rewrite Hrun. simpl. split; [reflexivity|].
    split; [exact Hn|]. split; [|exact Hlen].
    rewrite Hcat, Hj. apply take_ge.
    pose proof (blockOffset_bound (num_blocks g) ltac:(lia)).
    unfold blockOffset in *. unfold bsize in *. lia.
Qed.
End Split.

Lemma geometry_ok_all (version : Z) (level : ErrCor) :
  1 <= version <= 40 → geometry_ok version level = true.
Proof.
  intros Hv.
  assert (Hall : forallb (fun v => forallb (geometry_ok v) levels) (upto 1 41) = true)
    by (vm_compute; reflexivity).
  apply (forallb_upto _ 1 41 version) in Hall; [|lia].
  apply Is_true_true, forallb_True in Hall. rewrite Forall_forall in Hall.
  apply Is_true_true, Hall. unfold levels. destruct level; repeat constructor.
Qed.

(** C2, amended. For every version from 1 to 40 and every level, the data
    codewords are cut into [B] consecutive blocks that make up the whole
    data; block [i] has [short_len - E] bytes when
    [i < B - (total_codewords mod B)] and one more otherwise: the first
    [B - (total_codewords mod B)] blocks are the short ones. *)
Theorem dataBlocks_short_first (version : Z) (level : ErrCor) (data : list Z) :
  1 <= version <= 40 →
  getTotalCodewords version level = Ok (bsize data) →
  ∃ g blocks,
    blockGeometry version level = Ok g
    ∧ dataBlocks g data = Ok blocks
    ∧ bsize blocks = num_blocks g
    ∧ concat blocks = data
    ∧ short_block_len g = Z.quot (total_codewords g) (num_blocks g)
    ∧ ∀ (i : nat) block, blocks !! i = Some block →
        bsize block
        = short_block_len g - ECC_per_block g
          + (if Z.of_nat i <? num_blocks g - Z.rem (total_codewords g) (num_blocks g)
             then 0 else 1).
Proof.
  intros Hv Hn. pose proof (geometry_ok_all version level Hv) as Hok.
  unfold geometry_ok in Hok. rewrite Hn in Hok.
  destruct (blockGeometry version level) as [g| |]; try discriminate Hok.
  repeat (apply andb_prop in Hok as [Hok ?]).
  destruct (dataBlocks_lengths g data) as (blocks & Hrun & Hcount & Hcat & Hlen);
    try lia.
  exists g, blocks. repeat split; try assumption; [lia|].
  intros i block Hi. rewrite (Hlen i block Hi). unfold blockLen.
  replace (num_short_blocks g)
    with (num_blocks g - Z.rem (total_codewords g) (num_blocks g)) by lia.
  reflexivity.
Qed.

Lemma dataBlocks_short_first_witness :
  ∃ g blocks,
    blockGeometry 5 kQuartile = Ok g
    ∧ dataBlocks g (replicate 62 0) = Ok blocks
    ∧ map bsize blocks = [15; 15; 16; 16].
Proof.
  destruct (dataBlocks_short_first 5 kQuartile (replicate 62 0))
    as (g & blocks & Hg & Hrun & _); [lia | reflexivity |].
  exists g, blocks. split; [exact Hg|]. split; [exact Hrun|].
  vm_compute in Hg. injection Hg as <-.
  vm_compute in Hrun. injection Hrun as <-. reflexivity.
Defined.

(** With the short blocks last, as the claim is stated, the lengths are
    wrong: version 5 at level Quartile has 62 data codewords in four
    blocks, two of them short, and the last block has 16 data bytes where
    a short block has 15. *)
Lemma dataBlocks_short_last_fails :
  getTotalCodewords 5 kQuartile = Ok 62
  ∧ (∃ g blocks block,
       blockGeometry 5 kQuartile = Ok g
       ∧ dataBlocks g (replicate 62 0) = Ok blocks
       ∧ num_blocks g = 4 ∧ num_short_blocks g = 2
       ∧ blocks !! 3%nat = Some block
       ∧ bsize block = 16
       ∧ blockLenShortLast g 3 = 15)
  ∧ ¬ split_lengths blockLenShortLast 5 kQuartile (replicate 62 0).
Proof.
  split; [reflexivity|]. split.
  - eexists _, _, _. split; [vm_compute; reflexivity|].
    split; [vm_compute; reflexivity|]. repeat split.
  - intros (g & blocks & Hg & Hrun & _ & Hlen).
    vm_compute in Hg. injection Hg as <-.
    vm_compute in Hrun. injection Hrun as <-.
    specialize (Hlen 3%nat _ eq_refl). vm_compute in Hlen. discriminate Hlen.
Qed.

Lemma for_each_upto_sim {S1 S2} (R : Z → S1 → S2 → Prop)
    (body1 : Z → S1 → outcome S1) (body2 : Z → S2 → outcome S2)
    (lo hi : Z) (s1 s1' : S1) (s2 : S2) :
  lo <= hi → R lo s1 s2 →
  (∀ i a1 a2 b1, lo <= i < hi → R i a1 a2 → body1 i a1 = Ok b1 →
     ∃ b2, body2 i a2 = Ok b2 ∧ R (i + 1) b1 b2) →
  for_each body1 (upto lo hi) s1 = Ok s1' →
  ∃ s2', for_each body2 (upto lo hi) s2 = Ok s2' ∧ R hi s1' s2'.
Proof.
  intros Hle. remember (Z.to_nat (hi - lo)) as n eqn:Hn. revert lo s1 s2 Hle Hn.
  induction n as [|n IH]; intros lo s1 s2 Hle Hn Hs Hbody H.
  - rewrite upto_nil in H |- * by lia. simpl in H. injection H as <-.
    replace hi with lo by lia. simpl. eauto.
  - rewrite upto_cons in H |- * by lia. simpl in H. simpl. inv_bind.
    destruct (Hbody lo s1 s2 a) as (b2 & -> & Hb2); [lia | exact Hs | exact Ha |].
    simpl. apply (IH (lo + 1) a b2); [lia | lia | exact Hb2 | | exact H].
    intros i x y z Hi. apply Hbody. lia.
Qed.

(** [dataBlocks] is the loop of [splitBlocks] without the error-correction
    bytes: block [i] of the source loop is data block [i], the padding
    byte of a short block, and the bytes of [generateEDC]. *)
Lemma splitBlocks_dataBlocks (t : RsTables) (g : BlockGeometry)
    (data : list Z) (split_blocks : list (list Z)) :
  splitBlocks t g data = Ok split_blocks →
  ∃ blocks,
    dataBlocks g data = Ok blocks
    ∧ length split_blocks = length blocks
    ∧ ∀ (i : nat) b, split_blocks !! i = Some b →
        ∃ block edc,
          blocks !! i = Some block
          ∧ b = (if Z.of_nat i <? num_short_blocks g then block ++ [0] else block)
                ++ edc.
Proof.
  unfold splitBlocks, dataBlocks. intros H.
  apply bind_Ok in H as ([j sb] & Hrun & H). injection H as ->.
  destruct (Z.le_gt_cases 0 (num_blocks g)) as [Hle|Hgt].
  - eapply (for_each_upto_sim
              (fun i '(j1, sb) '(j2, dbs) =>
                 j1 = j2 ∧ bsize sb = i ∧ bsize dbs = i
                 ∧ ∀ (k : nat) b, sb !! k = Some b →
                     ∃ block edc, dbs !! k = Some block
                       ∧ b = (if Z.of_nat k <? num_short_blocks g
                              then block ++ [0] else block) ++ edc)
              _ _ 0 (num_blocks g) (0, []) _ (0, [])) in Hrun.
    + destruct Hrun as ([j2 dbs] & Hrun2 & _ & Hn1 & Hn2 & Hrel).
      exists dbs. rewrite Hrun2. simpl. split; [reflexivity|].
      split; [unfold bsize in *; lia | exact Hrel].
    + exact Hle.
    + repeat split. intros k b Hk. discriminate Hk.
    + intros i [j1 sb1] [j2 dbs] [j1' sb1'] Hi (<- & Hn1 & Hn2 & Hrel) Hstep.
      inv_bind. subst. eexists. match goal with Hc : cutBlock _ _ _ _ = Ok ?blk |- _ =>
        rewrite Hc; simpl; split; [reflexivity|] end.
      repeat split.
      * unfold bsize in *. rewrite length_app. simpl. lia.
      * unfold bsize in *. rewrite length_app. simpl. lia.
      * intros k b Hk. apply lookup_app_Some in Hk as [Hk|[Hge Hk]].
        -- destruct (Hrel k b Hk) as (block & edc & Hb & ->).
           exists block, edc. split; [|reflexivity].
           apply lookup_app_l_Some, Hb.
        -- apply list_lookup_singleton_Some in Hk as [Hk0 <-].
           assert (Z.of_nat k = bsize sb1) as -> by (unfold bsize in *; lia).
           eexists _, _. split; [|reflexivity].
           rewrite lookup_app_r by (unfold bsize in *; lia).
           replace (k - length dbs)%nat with 0%nat by (unfold bsize in *; lia).
           reflexivity.
  - rewrite upto_nil in Hrun |- * by lia. simpl in Hrun. injection Hrun as _ <-.
    exists []. simpl. repeat split. intros i b Hi. discriminate Hi.
Qed.


(** The codewords that [encodeText] packs for a version from 1 to 40 are
    split with the short blocks first. *)
Lemma encodeText_split (enc : Encoding) (version : Z) (level : ErrCor)
    (text : string) (data : list Z) :
  1 <= version <= 40 → Z.of_nat (String.length text) < 2 ^ 24 →
  encodeText enc version level text = Ok data →
  split_lengths blockLen version level data.
Proof.
  intros Hv Htext Hdata. pose proof (geometry_ok_all version level Hv) as Hok.
  unfold geometry_ok in Hok. unfold split_lengths.
  destruct (blockGeometry version level) as [g| |]; try discriminate Hok.
  destruct (getTotalCodewords version level) as [n| |] eqn:Hn; try discriminate Hok.
  repeat (apply andb_prop in Hok as [Hok ?]).
  assert (Hlen : bsize data = n)
    by (apply (encodeText_length enc version level text data n); [lia | lia | assumption ..]).
  destruct (dataBlocks_lengths g data) as (blocks & Hrun & Hcount & _ & Hlens);
    try lia.
  exists g, blocks. repeat split; assumption.
Qed.

(** ** Matrices *)

Lemma mat_set_Ok (m m' : Matrix) (y x : Z) (b : bool) :
  mat_set m y x b = Ok m' →
  ∃ row, vat m y = Ok row ∧ 0 <= x < bsize row
         ∧ m' = <[Z.to_nat y := <[Z.to_nat x := b]> row]> m.
Proof.
  unfold mat_set. intros H. inv_bind.
  apply vset_Ok in Ha0 as [Hx ->]. apply vset_Ok in H as [Hy ->]. eauto.
Qed.

(** Reading a matrix after a write. *)
Lemma mat_at_set (m m' : Matrix) (y x : Z) (b : bool) (y0 x0 : Z) :
  mat_set m y x b = Ok m' →
  mat_at m' y0 x0
  = if (y0 =? y) && (x0 =? x) then Ok b else mat_at m y0 x0.
Proof.
  unfold mat_set, mat_at. intros H. inv_bind.
  rewrite (vat_vset _ _ _ y0 _ H). destruct (Z.eqb_spec y0 y) as [->|Hy]; simpl.
  - rewrite (vat_vset _ _ _ x0 _ Ha0), Ha. simpl.
    destruct (x0 =? x); reflexivity.
  - reflexivity.
Qed.

Lemma mat_at_set_other (m m' : Matrix) (y x : Z) (b : bool) (y0 x0 : Z) :
  mat_set m y x b = Ok m' → (y0, x0) ≠ (y, x) →
  mat_at m' y0 x0 = mat_at m y0 x0.
Proof.
  intros H Hne. rewrite (mat_at_set _ _ _ _ _ _ _ H).
  destruct (Z.eqb_spec y0 y) as [->|]; [|reflexivity].
  destruct (Z.eqb_spec x0 x) as [->|]; [congruence | reflexivity].
Qed.

Lemma mat_set_square (size : Z) (m m' : Matrix) (y x : Z) (b : bool) :
  square size m → mat_set m y x b = Ok m' → square size m'.
Proof.
  intros [Hn Hrows] H. apply mat_set_Ok in H as (row & Hrow & Hx & ->).
  apply vat_Ok in Hrow as [Hy Hrow]. split.
  - unfold bsize in *. rewrite length_insert. exact Hn.
  - apply Forall_insert; [exact Hrows|].
    unfold bsize. rewrite length_insert.
    apply (Forall_lookup_1 _ _ _ _ Hrows Hrow).
Qed.

Lemma mat_at_square (size : Z) (m : Matrix) (y x : Z) :
  square size m → 0 <= y < size → 0 <= x < size → ∃ b, mat_at m y x = Ok b.
Proof.
  intros [Hn Hrows] Hy Hx. unfold mat_at.
  destruct (vat_in_range m y) as [row Hrow]; [lia|]. rewrite Hrow. simpl.
  apply vat_in_range. apply vat_Ok in Hrow as [_ Hrow].
  rewrite (Forall_lookup_1 _ _ _ _ Hrows Hrow). exact Hx.
Qed.

Lemma mat_set_total (size : Z) (m : Matrix) (y x : Z) (b : bool) :
  square size m → 0 <= y < size → 0 <= x < size →
  ∃ m', mat_set m y x b = Ok m' ∧ square size m'.
Proof.
  intros Hsq Hy Hx. pose proof Hsq as [Hn Hrows]. unfold mat_set.
  destruct (vat_in_range m y) as [row Hrow]; [lia|].
  assert (Hlen : bsize row = size).
  { apply vat_Ok in Hrow as [_ Hrow]. apply (Forall_lookup_1 _ _ _ _ Hrows Hrow). }
  assert (Hset : mat_set m y x b = Ok (<[Z.to_nat y := <[Z.to_nat x := b]> row]> m)).
  { unfold mat_set. rewrite Hrow. simpl.
    destruct (vat_in_range row x) as [c Hc]; [lia|].
    unfold vset. rewrite Hc. simpl.
    destruct (vat_in_range m y) as [r' Hr']; [lia|]. rewrite Hr'. reflexivity. }
  fold (mat_set m y x b). rewrite Hset. eexists. split; [reflexivity|].
  apply (mat_set_square size m _ y x b Hsq Hset).
Qed.

(** ** Reserved cells: codeword placement and mask *)

Section Frame.
Variables (size : Z) (func : Matrix) (blocks0 : Matrix).

Lemma drawColumnPair_frame (data : list Z) (right : Z) (st st' : Matrix * Z) :
  keeps_reserved func blocks0 st.1 →
  drawColumnPair size func data right st = Ok st' →
  keeps_reserved func blocks0 st'.1.
Proof.
  unfold drawColumnPair. intros Hst.
  apply (for_each_invariant (fun s => keeps_reserved func blocks0 s.1)); [|exact Hst].
  intros vert a b _ Ha.
  apply (for_each_invariant (fun s => keeps_reserved func blocks0 s.1)); [|exact Ha].
  clear. intros j [blocks i] [blocks' i'] _ Hkeep Hstep. simpl in *.
  apply bind_Ok in Hstep as (f & Hf & Hstep).
  destruct (negb f && (i <? bsize data * 8)) eqn:Hcond.
  - inv_bind. subst. intros y0 x0 Hres.
    apply andb_prop in Hcond as [Hnf _]. apply negb_true_iff in Hnf. subst f.
    rewrite <- (Hkeep y0 x0 Hres).
    eapply mat_at_set_other; [eassumption|].
    intros [= -> ->]. congruence.
  - injection Hstep as <- <-. exact Hkeep.
Qed.

Lemma drawColumns_frame (fuel : nat) (data : list Z) (right : Z)
    (st st' : Matrix * Z) :
  keeps_reserved func blocks0 st.1 →
  drawColumns size fuel func data right st = Ok st' →
  keeps_reserved func blocks0 st'.1.
Proof.
  revert right st. induction fuel as [|fuel IH]; intros right st Hst H; simpl in H.
  - destruct (1 <=? right); injection H as <-; exact Hst.
  - destruct (1 <=? right); [|injection H as <-; exact Hst].
    inv_bind. eapply IH; [|exact H].
    eapply drawColumnPair_frame; [exact Hst | exact Ha].
Qed.

Lemma mask_frame (m : Z) (g g' : Grid) :
  mask size m g = Ok g' →
  funcBlock_ g' = funcBlock_ g
  ∧ keeps_reserved (funcBlock_ g) (blocks_ g) (blocks_ g').
Proof.
  unfold mask. destruct ((m <? 0) || (7 <? m)); [discriminate|].
  intros H. inv_bind. subst g'. simpl. split; [reflexivity|].
  revert Ha.
  apply (for_each_invariant (fun b => keeps_reserved (funcBlock_ g) (blocks_ g) b));
    [|intros y x _; reflexivity].
  intros y b1 b2 _ Hkeep.
  apply (for_each_invariant (fun b => keeps_reserved (funcBlock_ g) (blocks_ g) b));
    [|exact Hkeep].
  clear. intros x blocks blocks' _ Hkeep Hstep. inv_bind.
  intros y0 x0 Hres. rewrite <- (Hkeep y0 x0 Hres).
  rewrite (mat_at_set _ _ _ _ _ y0 x0 Hstep).
  destruct (Z.eqb_spec y0 y) as [->|]; [|reflexivity].
  destruct (Z.eqb_spec x0 x) as [->|]; [|reflexivity]. simpl.
  match goal with Hf : mat_at (funcBlock_ g) y x = Ok ?f |- _ =>
    rewrite Hres in Hf; injection Hf as <- end.
  match goal with Hb : mat_at blocks y x = Ok ?b |- _ => rewrite Hb end.
  rewrite andb_false_r, xorb_false_r. reflexivity.
Qed.
End Frame.

Lemma drawCodewords_frame (size : Z) (data : list Z) (g g' : Grid) :
  drawCodewords size data g = Ok g' →
  funcBlock_ g' = funcBlock_ g
  ∧ keeps_reserved (funcBlock_ g) (blocks_ g) (blocks_ g').
Proof.
  unfold drawCodewords. intros H. apply bind_Ok in H as ([blocks i] & Hrun & H).
  injection H as <-. simpl. split; [reflexivity|].
  apply (drawColumns_frame size (funcBlock_ g) (blocks_ g) (Z.to_nat (size - 1))
           data (size - 1) (blocks_ g, 0) (blocks, i));
    [intros y x _; reflexivity | exact Hrun].
Qed.

(** ** Codeword placement and mask on a well-formed grid *)

Section Placement.
Variables (size : Z) (func : Matrix) (data : list Z).
Hypothesis Hfunc : square size func.

Lemma drawColumnPair_total (right : Z) (st : Matrix * Z) :
  1 <= right <= size - 1 → square size st.1 → 0 <= st.2 →
  ∃ st', drawColumnPair size func data right st = Ok st'
         ∧ square size st'.1 ∧ 0 <= st'.2.
Proof using Hfunc.
  intros Hright Hsq Hi. unfold drawColumnPair.
  apply (for_each_total (fun s => square size s.1 ∧ 0 <= s.2)
           (fun vert => 0 <= vert < size));
    [| apply Forall_upto; intros; lia | auto].
  intros vert a Hvert Ha.
  apply (for_each_total (fun s => square size s.1 ∧ 0 <= s.2)
           (fun j => 0 <= j < 2));
    [| apply Forall_upto; intros; lia | exact Ha].
  clear a Ha. intros j [blocks i] Hj [Hb Hi']. simpl in Hb, Hi'.
  set (y := if Z.land (right + 1) 2 =? 0 then size - 1 - vert else vert).
  assert (Hy : 0 <= y < size) by (unfold y; destruct (_ =? 0); lia).
  destruct (mat_at_square size func y (right - j) Hfunc Hy) as [f Hf]; [lia|].
  rewrite Hf. simpl.
  destruct (negb f && (i <? bsize data * 8)) eqn:Hcond.
  - apply andb_prop in Hcond as [_ Hlt]. apply Z.ltb_lt in Hlt.
    destruct (vat_in_range data (Z.shiftr i 3)) as [d Hd].
    { rewrite Z.shiftr_div_pow2 by lia. change (2 ^ 3) with 8.
      split; [apply Z.div_pos; lia | apply Z.div_lt_upper_bound; lia]. }
    rewrite Hd. simpl.
    destruct (mat_set_total size blocks y (right - j)
                (negb (Z.land (Z.shiftr d (7 - Z.land i 7)) 1 =? 0)) Hb Hy)
      as (blocks' & Hset & Hsq'); [lia|].
    rewrite Hset. simpl. eexists. split; [reflexivity|]. simpl. split; [exact Hsq' | lia].
  - eexists. split; [reflexivity|]. simpl. auto.
Qed.

Lemma drawColumns_total (fuel : nat) (right : Z) (st : Matrix * Z) :
  right <= size - 1 → square size st.1 → 0 <= st.2 →
  ∃ st', drawColumns size fuel func data right st = Ok st'
         ∧ square size st'.1.
Proof using Hfunc.
  revert right st. induction fuel as [|fuel IH]; intros right st Hright Hsq Hi; simpl.
  - destruct (1 <=? right); eauto.
  - destruct (Z.leb_spec 1 right); [|eauto].
    destruct (drawColumnPair_total (if right =? 6 then 5 else right) st)
      as (st1 & Hst1 & Hsq1 & Hi1); [destruct (Z.eqb_spec right 6); lia | assumption ..|].
    rewrite Hst1. simpl. apply IH; [destruct (Z.eqb_spec right 6); lia | assumption ..].
Qed.

(** The fuel of [drawColumns] does not matter once it covers [right]. *)
Lemma drawColumns_fuel (fuel1 fuel2 : nat) (right : Z) (st : Matrix * Z) :
  right <= Z.of_nat fuel1 → right <= Z.of_nat fuel2 →
  drawColumns size fuel1 func data right st
  = drawColumns size fuel2 func data right st.
Proof.
  revert fuel2 right st.
  induction fuel1 as [|fuel1 IH]; intros [|fuel2] right st H1 H2; simpl;
    destruct (Z.leb_spec 1 right); try reflexivity; try lia.
  destruct (drawColumnPair size func data (if right =? 6 then 5 else right) st);
    simpl; [|reflexivity ..].
  apply IH; destruct (Z.eqb_spec right 6); lia.
Qed.
End Placement.

Lemma maskSwap_total (m x y : Z) : 0 <= m <= 7 → ∃ swap, maskSwap m x y = Ok swap.
Proof.
  intros Hm.
  assert (m = 0 ∨ m = 1 ∨ m = 2 ∨ m = 3 ∨ m = 4 ∨ m = 5 ∨ m = 6 ∨ m = 7)
    as [->|[->|[->|[->|[->|[->|[->| ->]]]]]]] by lia; simpl; eauto.
Qed.

Lemma drawCodewords_total (size : Z) (data : list Z) (g : Grid) :
  wf_grid size g →
  ∃ g', drawCodewords size data g = Ok g' ∧ wf_grid size g'.
Proof.
  intros [Hb Hf]. unfold drawCodewords.
  destruct (drawColumns_total size (funcBlock_ g) data Hf (Z.to_nat (size - 1))
              (size - 1) (blocks_ g, 0)) as ([blocks i] & Hrun & Hsq);
    [lia | exact Hb | simpl; lia |].
  rewrite Hrun. simpl. eexists. split; [reflexivity|]. split; assumption.
Qed.

Lemma mask_total (size m : Z) (g : Grid) :
  wf_grid size g → 0 <= size < 2 ^ 64 → 0 <= m <= 7 →
  ∃ g', mask size m g = Ok g' ∧ wf_grid size g'.
Proof.
  intros [Hb Hf] Hsize Hm. unfold mask.
  destruct (Z.ltb_spec m 0); [lia|]. destruct (Z.ltb_spec 7 m); [lia|]. simpl.
  unfold size_t_wrap. rewrite Z.mod_small by lia.
  destruct (for_each_total (square size) (fun y => 0 <= y < size)
              (fun y => for_each (fun x blocks =>
                   swap ← maskSwap m x y;
                   b ← mat_at blocks y x;
                   f ← mat_at (funcBlock_ g) y x;
                   mat_set blocks y x (xorb b (swap && negb f)))
                 (upto 0 size))
              (upto 0 size) (blocks_ g)) as (blocks & Hrun & Hsq);
    [| apply Forall_upto; intros; lia | exact Hb |].
  - intros y a Hy Ha.
    apply (for_each_total (square size) (fun x => 0 <= x < size));
      [| apply Forall_upto; intros; lia | exact Ha].
    clear a Ha. intros x blocks Hx Hsq.
    destruct (maskSwap_total m x y Hm) as [swap ->]. simpl.
    destruct (mat_at_square size blocks y x Hsq Hy Hx) as [b ->]. simpl.
    destruct (mat_at_square size (funcBlock_ g) y x Hf Hy Hx) as [f ->]. simpl.
    apply mat_set_total; assumption.
  - rewrite Hrun. simpl. eexists. split; [reflexivity|]. split; assumption.
Qed.

(** C8. On a well-formed grid, codeword placement and the mask step (for
    every mask index from 0 to 7) return, leave the reservation mask as it
    is, and leave every reserved cell with the value it had before, for
    whatever data is placed. *)
Theorem reserved_cells_unchanged (size : Z) (data : list Z) (m : Z) (g : Grid) :
  wf_grid size g → 0 <= size < 2 ^ 64 → 0 <= m <= 7 →
  (∃ g', drawCodewords size data g = Ok g'
         ∧ funcBlock_ g' = funcBlock_ g
         ∧ ∀ y x, mat_at (funcBlock_ g) y x = Ok true →
                  mat_at (blocks_ g') y x = mat_at (blocks_ g) y x)
  ∧ (∃ g', mask size m g = Ok g'
           ∧ funcBlock_ g' = funcBlock_ g
           ∧ ∀ y x, mat_at (funcBlock_ g) y x = Ok true →
                    mat_at (blocks_ g') y x = mat_at (blocks_ g) y x).
Proof.
  intros Hwf Hsize Hm. split.
  - destruct (drawCodewords_total size data g Hwf) as (g' & Hrun & _).
    exists g'. split; [exact Hrun|]. apply (drawCodewords_frame size data g g' Hrun).
  - destruct (mask_total size m g Hwf Hsize Hm) as (g' & Hrun & _).
    exists g'. split; [exact Hrun|]. apply (mask_frame size m g g' Hrun).
Qed.

Lemma reserved_cells_unchanged_witness :
  ∃ g, emptyGrid 21 ≫= drawPatterns 1 21 kQuartile 0 = Ok g
       ∧ wf_grid 21 g
       ∧ mat_at (funcBlock_ g) 6 8 = Ok true
       ∧ (∃ g', drawCodewords 21 [32; 91; 11] g = Ok g'
                ∧ mat_at (blocks_ g') 6 8 = mat_at (blocks_ g) 6 8)
       ∧ (∃ g', mask 21 3 g = Ok g'
                ∧ mat_at (blocks_ g') 6 8 = mat_at (blocks_ g) 6 8).
Proof.
  destruct (emptyGrid 21 ≫= drawPatterns 1 21 kQuartile 0) as [g| |] eqn:Hg;
    [| vm_compute in Hg; discriminate Hg ..].
  exists g. split; [reflexivity|].
  assert (Hwf : wf_grid 21 g).
  { vm_compute in Hg. injection Hg as <-. repeat split; repeat constructor. }
  assert (Hres : mat_at (funcBlock_ g) 6 8 = Ok true).
  { vm_compute in Hg. injection Hg as <-. reflexivity. }
  destruct (reserved_cells_unchanged 21 [32; 91; 11] 3 g Hwf ltac:(lia) ltac:(lia))
    as [(g1 & H1 & _ & Hk1) (g2 & H2 & _ & Hk2)].
  split; [exact Hwf|]. split; [exact Hres|]. split.
  - exists g1. split; [exact H1 | apply Hk1, Hres].
  - exists g2. split; [exact H2 | apply Hk2, Hres].
Defined.

(** ** Function patterns and the timing lines *)

Lemma drawPatterns_split (version size : Z) (level : ErrCor) (m : Z) (g : Grid) :
  drawPatterns version size level m g
  = (g ← drawFixedPatterns version size g;
     g ← drawFormat size level m g;
     drawVersion version size g).
Proof.
  unfold drawPatterns, drawFixedPatterns.
  destruct (for_each _ (upto 0 size) g) as [g1| |]; simpl; [|reflexivity ..].
  destruct (setFinderBlocks size 3 3 g1) as [g2| |]; simpl; [|reflexivity ..].
  destruct (setFinderBlocks size (size - 4) 3 g2) as [g3| |]; simpl; [|reflexivity ..].
  destruct (setFinderBlocks size 3 (size - 4) g3) as [g4| |]; simpl; reflexivity.
Qed.

Lemma same_lines_refl (g : Grid) : same_lines g g.
Proof. intros y x _. split; reflexivity. Qed.

Lemma same_lines_trans (g1 g2 g3 : Grid) :
  same_lines g1 g2 → same_lines g2 g3 → same_lines g1 g3.
Proof.
  intros H12 H23 y x Hyx. destruct (H12 y x Hyx) as [<- <-]. apply H23, Hyx.
Qed.

(** A function cell off row 6 and off column 6 leaves both lines alone. *)
Lemma setFuncBlocks_off_lines (x y : Z) (b : bool) (g g' : Grid) :
  x ≠ 6 → y ≠ 6 → setFuncBlocks x y b g = Ok g' → same_lines g g'.
Proof.
  unfold setFuncBlocks. intros Hx Hy H. inv_bind. subst g'. simpl.
  intros y0 x0 Hyx. split; eapply mat_at_set_other; try eassumption;
    intros [= -> ->]; lia.
Qed.

Lemma for_each_same_lines {I} (body : I → Grid → outcome Grid)
    (idx : list I) (g g' : Grid) :
  (∀ i a b, i ∈ idx → body i a = Ok b → same_lines a b) →
  for_each body idx g = Ok g' → same_lines g g'.
Proof.
  intros Hbody. apply (for_each_invariant (same_lines g)); [|apply same_lines_refl].
  intros i a b Hi Ha Hb. eapply same_lines_trans; [exact Ha|]. eapply Hbody; eassumption.
Qed.

Lemma drawFormat_lines (size : Z) (level : ErrCor) (m : Z) (g g' : Grid) :
  21 <= size → drawFormat size level m g = Ok g' → same_lines g g'.
Proof.
  intros Hsize. unfold drawFormat. intros H.
  apply bind_Ok in H as (g1 & H1 & H). apply bind_Ok in H as (g2 & H2 & H).
  apply bind_Ok in H as (g3 & H3 & H). apply bind_Ok in H as (g4 & H4 & H).
  apply bind_Ok in H as (g5 & H5 & H6).
  apply (same_lines_trans g g1); [|apply (same_lines_trans g1 g2);
    [|apply (same_lines_trans g2 g3); [|apply (same_lines_trans g3 g4);
      [|apply (same_lines_trans g4 g5)]]]].
  - revert H1. apply for_each_same_lines. intros i a b Hi%elem_of_upto Hstep.
    destruct (Z.leb_spec i 5).
    + revert Hstep. apply setFuncBlocks_off_lines; lia.
    + destruct (Z.eqb_spec i 6).
      * injection Hstep as <-. apply same_lines_refl.
      * revert Hstep. apply setFuncBlocks_off_lines; lia.
  - revert H2. apply setFuncBlocks_off_lines; lia.
  - revert H3. apply for_each_same_lines. intros i a b Hi%elem_of_upto.
    apply setFuncBlocks_off_lines; lia.
  - revert H4. apply for_each_same_lines. intros i a b Hi%elem_of_upto.
    apply setFuncBlocks_off_lines; lia.
  - revert H5. apply for_each_same_lines. intros i a b Hi%elem_of_upto.
    apply setFuncBlocks_off_lines; lia.
  - revert H6. apply setFuncBlocks_off_lines; lia.
Qed.

Lemma drawVersion_lines (version size : Z) (g g' : Grid) :
  21 <= size → drawVersion version size g = Ok g' → same_lines g g'.
Proof.
  intros Hsize. unfold drawVersion. destruct (version <? 7).
  - intros [= <-]. apply same_lines_refl.
  - apply for_each_same_lines. intros i a b Hi%elem_of_upto Hstep.
    apply bind_Ok in Hstep as (a' & H1 & H2).
    assert (0 <= Z.quot i 3 <= 5 ∧ 0 <= Z.rem i 3 <= 2) as [Hq Hr].
    { pose proof (Z.quot_rem' i 3). pose proof (Z.rem_bound_pos i 3). lia. }
    apply (same_lines_trans a a').
    + revert H1. apply setFuncBlocks_off_lines; lia.
    + revert H2. apply setFuncBlocks_off_lines; lia.
Qed.

Lemma cell_is_true (m : Matrix) (y x : Z) (b : bool) :
  cell_is m y x b = true → mat_at m y x = Ok b.
Proof.
  unfold cell_is. destruct (mat_at m y x) as [c| |]; try discriminate.
  intros H. apply Bool.eqb_prop in H. congruence.
Qed.

(** After the timing lines, the finders and the alignment patterns, the
    cells of row 6 and column 6 between the finders alternate, starting
    dark, and are reserved; by evaluation for the 40 versions. *)
Lemma drawFixedPatterns_timing (version : Z) (g0 g : Grid) (p : Z) :
  1 <= version <= 40 →
  emptyGrid (4 * version + 17) = Ok g0 →
  drawFixedPatterns version (4 * version + 17) g0 = Ok g →
  timing_range (4 * version + 17) p →
  timing_at g 6 p p ∧ timing_at g p 6 p.
Proof.
  intros Hv Hg0 Hg Hp.
  assert (Hall : forallb fixed_patterns_ok (upto 1 41) = true)
    by (vm_compute; reflexivity).
  apply (forallb_upto _ 1 41 version) in Hall; [|lia].
  unfold fixed_patterns_ok in Hall. rewrite Hg0 in Hall. simpl in Hall.
  rewrite Hg in Hall.
  apply (forallb_upto _ _ _ p) in Hall; [|unfold timing_range in Hp; lia].
  unfold timing_cell_ok in Hall.
  repeat (apply andb_prop in Hall as [Hall ?]).
  unfold timing_at. repeat split; apply cell_is_true; assumption.
Qed.

Lemma timing_at_same_lines (g g' : Grid) (y x p : Z) :
  y = 6 ∨ x = 6 → same_lines g g' → timing_at g y x p → timing_at g' y x p.
Proof.
  intros Hyx Hsame [Hb Hf]. destruct (Hsame y x Hyx) as [Hb' Hf'].
  split; congruence.
Qed.

Lemma timing_at_reserved (g g' : Grid) (y x p : Z) :
  funcBlock_ g' = funcBlock_ g →
  keeps_reserved (funcBlock_ g) (blocks_ g) (blocks_ g') →
  timing_at g y x p → timing_at g' y x p.
Proof.
  intros Hf Hkeep [Hb Hres]. split.
  - rewrite (Hkeep y x Hres). exact Hb.
  - rewrite Hf. exact Hres.
Qed.

(** The timing cells of a constructed symbol. *)
Lemma constructSteps_timing (text : string) (err : ErrCor) (msk : Z)
    (q : QRCode) (p : Z) :
  constructSteps text err msk = Ok q →
  timing_range (size_ q) p →
  timing_at (grid_ q) 6 p p ∧ timing_at (grid_ q) p 6 p.
Proof.
  unfold constructSteps. intros H Hp.
  destruct (determineEncoding text) as [enc|] eqn:Henc; [|discriminate H].
  apply determineEncoding_supported in Henc.
  apply bind_Ok in H as ([v lvl] & Hsel & H).
  apply bind_Ok in H as (g0 & Hg0 & H). apply bind_Ok in H as (g1 & Hg1 & H).
  apply bind_Ok in H as (d & Hd & H). apply bind_Ok in H as ([t d'] & Hedc & H).
  apply bind_Ok in H as (g2 & Hg2 & H). apply bind_Ok in H as (g3 & Hg3 & H).
  injection H as <-. cbn [size_ grid_] in *.
  pose proof (setVersionAndErrorLevel_range _ _ _ _ _ _ Henc Hsel) as Hv.
  rewrite drawPatterns_split in Hg1.
  apply bind_Ok in Hg1 as (ga & Hga & Hg1). apply bind_Ok in Hg1 as (gb & Hgb & Hg1).
  apply drawFormat_lines in Hgb; [|lia]. apply drawVersion_lines in Hg1; [|lia].
  destruct (drawFixedPatterns_timing v g0 ga p Hv Hg0 Hga Hp) as [Hrow Hcol].
  apply drawCodewords_frame in Hg2 as [Hf2 Hk2].
  apply mask_frame in Hg3 as [Hf3 Hk3].
  split.
  - apply (timing_at_reserved g2 g3 _ _ _ Hf3 Hk3).
    apply (timing_at_reserved g1 g2 _ _ _ Hf2 Hk2).
    apply (timing_at_same_lines gb g1); [auto | exact Hg1|].
    apply (timing_at_same_lines ga gb); [auto | exact Hgb | exact Hrow].
  - apply (timing_at_reserved g2 g3 _ _ _ Hf3 Hk3).
    apply (timing_at_reserved g1 g2 _ _ _ Hf2 Hk2).
    apply (timing_at_same_lines gb g1); [auto | exact Hg1|].
    apply (timing_at_same_lines ga gb); [auto | exact Hgb | exact Hcol].
Qed.

(** C7. In every constructed symbol, the cells of row 6 and of column 6
    that lie outside the three finders (positions 7 to size - 8 along the
    line) are dark exactly when the position is even; this covers the
    cells under alignment patterns and next to the format strips. *)
Theorem timing_pattern_in_symbol (mem : Storage) (text : string) (err : ErrCor)
    (msk : Z) (q : QRCode) (p : Z) :
  construct mem text err msk = Ok q →
  timing_range (size_ q) p →
  mat_at (blocks_ (grid_ q)) 6 p = Ok (p mod 2 =? 0)
  ∧ mat_at (blocks_ (grid_ q)) p 6 = Ok (p mod 2 =? 0).
Proof.
  rewrite construct_steps. intros H Hp.
  destruct (constructSteps_timing text err msk q p H Hp) as [[Hrow _] [Hcol _]].
  split; assumption.
Qed.

Lemma timing_pattern_in_symbol_witness :
  ∃ q, construct zeroStorage "HELLO WORLD" kQuartile 0 = Ok q
       ∧ timing_range (size_ q) 8
       ∧ mat_at (blocks_ (grid_ q)) 6 8 = Ok true
       ∧ mat_at (blocks_ (grid_ q)) 8 6 = Ok true.
Proof.
  destruct (construct zeroStorage "HELLO WORLD" kQuartile 0) as [q| |] eqn:H;
    [| vm_compute in H; discriminate H ..].
  exists q. split; [reflexivity|].
  assert (Hsize : size_ q = 21).
  { pose proof H as H'. vm_compute in H'. injection H' as <-. reflexivity. }
  assert (Hp : timing_range (size_ q) 8) by (rewrite Hsize; unfold timing_range; lia).
  split; [exact Hp|].
  apply (timing_pattern_in_symbol zeroStorage "HELLO WORLD" kQuartile 0 q 8 H Hp).
Defined.

(** ** Mask index *)

Lemma clampMask_out_of_range (msk : Z) : msk < 0 ∨ 7 < msk → clampMask msk = 0.
Proof.
  intros H. unfold clampMask.
  destruct (Z.ltb_spec msk 0); [reflexivity|].
  destruct (Z.ltb_spec 7 msk); [reflexivity | lia].
Qed.

Lemma constructSteps_mask (text : string) (err : ErrCor) (msk : Z) (q : QRCode) :
  constructSteps text err msk = Ok q → mask_ q = clampMask msk.
Proof.
  unfold constructSteps. intros H.
  destruct (determineEncoding text) as [enc|]; [|discriminate H].
  inv_bind. subst q. reflexivity.
Qed.

(** C9. A mask index outside 0..7 given to the constructor is replaced by
    0 at entry: the construction is the one for mask 0, and a symbol it
    yields reports mask 0. The mask routine itself, called with such an
    index, throws. *)
Theorem mask_index_out_of_range (mem : Storage) (text : string) (err : ErrCor)
    (msk : Z) :
  msk < 0 ∨ 7 < msk →
  construct mem text err msk = construct mem text err 0
  ∧ (∀ q, construct mem text err msk = Ok q → getMask q = 0)
  ∧ ∀ size g, mask size msk g = Throw (LogicError "Invalid mask.").
Proof.
  intros Hmsk. pose proof (clampMask_out_of_range msk Hmsk) as Hclamp.
  split; [|split].
  - rewrite !construct_steps. unfold constructSteps. rewrite Hclamp. reflexivity.
  - intros q. rewrite construct_steps. intros H%constructSteps_mask.
    unfold getMask. congruence.
  - intros size g. unfold mask.
    destruct (Z.ltb_spec msk 0); [reflexivity|].
    destruct (Z.ltb_spec 7 msk); [reflexivity | lia].
Qed.

Lemma mask_index_out_of_range_witness :
  ∃ q, construct zeroStorage "HELLO WORLD" kHigh 9 = Ok q
       ∧ construct zeroStorage "HELLO WORLD" kHigh 0 = Ok q
       ∧ getMask q = 0
       ∧ mask 21 9 (grid_ q) = Throw (LogicError "Invalid mask.").
Proof.
  destruct (mask_index_out_of_range zeroStorage "HELLO WORLD" kHigh 9
              ltac:(right; lia)) as (Heq & Hmask & Hthrow).
  destruct (construct zeroStorage "HELLO WORLD" kHigh 9) as [q| |] eqn:H;
    [| vm_compute in H; discriminate H ..].
  exists q. split; [reflexivity|]. split; [symmetry; exact Heq|].
  split; [apply Hmask; reflexivity | apply Hthrow].
Defined.

(** ** Determinism *)

(** The outcome of the constructor does not depend on what the storage of
    the object held. *)
Lemma construct_storage (mem1 mem2 : Storage) (text : string) (err : ErrCor)
    (msk : Z) :
  construct mem1 text err msk = construct mem2 text err msk.
Proof. rewrite !construct_steps. reflexivity. Qed.

(** C10. Two runs of the constructor on the same text, minimum level and
    mask index, from whatever the storage held before, yield symbols with
    the same module matrix, reservation mask, version, level, encoding
    and mask index. *)
Theorem construct_deterministic (mem1 mem2 : Storage) (text : string)
    (err : ErrCor) (msk : Z) (q1 q2 : QRCode) :
  construct mem1 text err msk = Ok q1 →
  construct mem2 text err msk = Ok q2 →
  blocks_ (grid_ q1) = blocks_ (grid_ q2)
  ∧ funcBlock_ (grid_ q1) = funcBlock_ (grid_ q2)
  ∧ getVersion q1 = getVersion q2
  ∧ correctionLevel_ q1 = correctionLevel_ q2
  ∧ getEncoding q1 = getEncoding q2
  ∧ getMask q1 = getMask q2.
Proof.
  rewrite (construct_storage mem1 mem2). intros H1 H2.
  rewrite H1 in H2. injection H2 as <-. repeat split.
Qed.

Lemma construct_deterministic_witness :
  ∃ q1 q2,
    construct zeroStorage "HELLO WORLD" kQuartile 0 = Ok q1
    ∧ construct usedStorage "HELLO WORLD" kQuartile 0 = Ok q2
    ∧ blocks_ (grid_ q1) = blocks_ (grid_ q2)
    ∧ getVersion q1 = getVersion q2.
Proof.
  destruct (construct zeroStorage "HELLO WORLD" kQuartile 0) as [q1| |] eqn:H1;
    [| vm_compute in H1; discriminate H1 ..].
  destruct (construct usedStorage "HELLO WORLD" kQuartile 0) as [q2| |] eqn:H2;
    [| vm_compute in H2; discriminate H2 ..].
  exists q1, q2. split; [reflexivity|]. split; [reflexivity|].
  destruct (construct_deterministic zeroStorage usedStorage "HELLO WORLD"
              kQuartile 0 q1 q2 H1 H2) as (Hb & _ & Hv & _).
  split; assumption.
Defined.

(** ** The scenarios of the specification *)

(** Version 7 has an alignment pattern centred on row 6 at column 22: its
    cells on the row continue the timing pattern. *)
Example alignment_on_timing_row :
  (g ← emptyGrid 45 ≫= drawPatterns 7 45 kHigh 5;
   row ← vat (blocks_ g) 6;
   Ok (take 5 (drop 20 row)))
  = Ok [true; false; true; false; true].
Proof. vm_compute. reflexivity. Qed.

Example scenario_hello_world :
  construct zeroStorage "HELLO WORLD" kQuartile 0 ≫= metadata
  = Ok (1, 2, 21, 0, kQuartile).
Proof. vm_compute. reflexivity. Qed.

Example scenario_digits :
  construct zeroStorage "01234567" kMedium 2 ≫= metadata
  = Ok (1, 1, 21, 2, kHigh).
Proof. vm_compute. reflexivity. Qed.

Example scenario_lowercase :
  construct zeroStorage "a" kLow 0 ≫= metadata = Ok (1, 4, 21, 0, kHigh).
Proof. vm_compute. reflexivity. Qed.

Example scenario_41_digits :
  construct zeroStorage "01234567890123456789012345678901234567890" kLow 0
    ≫= metadata
  = Ok (1, 1, 21, 0, kLow).
Proof. vm_compute. reflexivity. Qed.

Example scenario_42_digits :
  construct zeroStorage "012345678901234567890123456789012345678901" kLow 0
    ≫= metadata
  = Ok (2, 1, 25, 0, kQuartile).
Proof. vm_compute. reflexivity. Qed.

Example scenario_empty :
  construct zeroStorage EmptyString kLow 0 ≫= metadata = Ok (1, 1, 21, 0, kHigh).
Proof. vm_compute. reflexivity. Qed.

(** 300 digits at level High need version 11, which carries version
    information and alignment patterns on the timing lines. *)
Example scenario_version_11 :
  construct zeroStorage (repeatText 30 "0123456789") kHigh 5 ≫= metadata
  = Ok (11, 1, 61, 5, kHigh).
Proof. vm_compute. reflexivity. Qed.

(** The codewords of the standard example, data then error correction. *)
Example hello_world_codewords :
  (d ← encodeText kAlpha_ 1 kQuartile "HELLO WORLD";
   '(_, out) ← addEDCInterleave initialTables 1 kQuartile d;
   Ok out)
  = Ok [32; 91; 11; 120; 209; 114; 220; 77; 67; 64; 236; 17; 236;
        168; 72; 22; 82; 217; 54; 156; 0; 46; 15; 180; 122; 16].
Proof. vm_compute. reflexivity. Qed.

(** ** Reading a bit buffer back *)

Lemma forallb_elem {A} (f : A → bool) (l : list A) (x : A) :
  forallb f l = true → x ∈ l → f x = true.
Proof.
  intros H Hx. induction Hx as [x l|x y l _ IH]; cbn [forallb] in H;
    apply andb_prop in H as [H1 H2]; [exact H1 | exact (IH H2)].
Qed.

Lemma elem_of_levels (l : ErrCor) : l ∈ levels.
Proof. unfold levels. destruct l; repeat constructor. Qed.

(** ** Reading a bit buffer back *)

Lemma bitsValue_app (l1 l2 : list bool) :
  bitsValue (l1 ++ l2) = bitsValue l1 * 2 ^ bsize l2 + bitsValue l2.
Proof.
  unfold bitsValue, bsize. revert l1.
  induction l2 as [|b l2 IH] using rev_ind; intros l1.
  - simpl. rewrite app_nil_r. lia.
  - rewrite app_assoc, (fold_left_app _ (l1 ++ l2)), (fold_left_app _ l2).
    simpl. rewrite IH.
    rewrite length_app. simpl length.
    replace (Z.of_nat (length l2 + 1)) with (Z.of_nat (length l2) + 1) by lia.
    rewrite Z.pow_add_r by lia.
    set (r := fold_left _ l2 0). lia.
Qed.

Lemma downto_snoc (hi lo : Z) :
  lo <= hi → downto hi lo = downto hi (lo + 1) ++ [lo].
Proof.
  intros H. unfold downto.
  replace (hi - lo + 1) with (1 + (hi - (lo + 1) + 1)) by lia.
  rewrite seqZ_app by lia. simpl seqZ at 1.
  change (seqZ lo 1) with [lo].
  replace (lo + 1) with (lo + 1) by lia.
  rewrite reverse_app. simpl. f_equal.
Qed.

Lemma map_downto_shift {A} (f : Z → A) (hi lo : Z) :
  map f (downto (hi + 1) (lo + 1)) = map (fun i => f (i + 1)) (downto hi lo).
Proof.
  unfold downto. replace (hi + 1 - (lo + 1) + 1) with (hi - lo + 1) by lia.
  replace (lo + 1) with (1 + lo) by lia.
  rewrite <- (fmap_add_seqZ 1 lo).
  change (map ?g ?l) with (g <$> l).
  rewrite <- !fmap_reverse, <- list_fmap_compose.
  apply list_fmap_ext. intros _ i _. simpl. f_equal. lia.
Qed.

Lemma bitsValue_bitsBE (val len : Z) :
  0 <= len → 0 <= val → bitsValue (bitsBE val len) = val mod 2 ^ len.
Proof.
  intros Hlen Hval. revert val Hval.
  pattern len. apply natlike_ind; [| |exact Hlen]; clear len Hlen.
  - intros val _. unfold bitsBE. rewrite downto_nil by lia. simpl.
    rewrite Z.mod_1_r. reflexivity.
  - intros len Hlen IH val Hval. unfold bitsBE.
    replace (Z.succ len - 1) with len by lia.
    rewrite (downto_snoc len 0) by lia. rewrite map_app. cbn [map].
    rewrite bitsValue_app.
    assert (Hhigh : map (Z.testbit val) (downto len (0 + 1))
                    = bitsBE (Z.shiftr val 1) len).
    { unfold bitsBE. replace len with (len - 1 + 1) at 1 by lia.
      rewrite map_downto_shift. apply map_ext_in. intros i Hi.
      apply list_elem_of_In, elem_of_downto in Hi.
      rewrite Z.shiftr_spec by lia. reflexivity. }
    rewrite Hhigh, IH by (apply Z.shiftr_nonneg; lia).
    assert (Hb : bitsValue [Z.testbit val 0] = val mod 2).
    { unfold bitsValue. cbn [fold_left]. rewrite <- Z.bit0_mod.
      destruct (Z.testbit val 0); reflexivity. }
    rewrite Hb. change (bsize [Z.testbit val 0]) with 1.
    rewrite Z.shiftr_div_pow2 by lia. change (2 ^ 1) with 2.
    rewrite Z.pow_succ_r by lia.
    rewrite Z.rem_mul_r by lia. lia.
Qed.

Lemma bsize_bitsBE (val len : Z) : 0 <= len → bsize (bitsBE val len) = len.
Proof.
  intros H. unfold bsize, bitsBE. rewrite length_map, length_downto. lia.
Qed.

Lemma appendBits_throws (buffer : BitBuffer) (val len : Z) :
  0 <= val → ¬ (0 <= len <= 31 ∧ val < 2 ^ len) →
  appendBits buffer val len = Throw (LogicError "Out of range").
Proof.
  intros Hval Hno. unfold appendBits.
  destruct (Z.ltb_spec len 0) as [|Hlen]; [reflexivity|].
  destruct (Z.ltb_spec 31 len) as [|Hlen']; [reflexivity|].
  destruct (Z.eqb_spec (Z.shiftr val len) 0) as [Hz|]; [|reflexivity].
  exfalso. apply Hno. split; [lia|].
  rewrite Z.shiftr_div_pow2 in Hz by lia.
  apply Z.div_small_iff in Hz; lia.
Qed.

(** [appendBits(val, len)] on an unsigned [val]: for [0 <= len <= 31] and
    [val < 2^len] it appends exactly [len] bits, which spell [val] most
    significant bit first; in every other case it throws. *)
Theorem appendBits_value (buffer : BitBuffer) (val len : Z) :
  0 <= val →
  (0 <= len <= 31 ∧ val < 2 ^ len →
     ∃ bits, appendBits buffer val len = Ok (buffer ++ bits)
             ∧ bsize bits = len ∧ bitsValue bits = val)
  ∧ (¬ (0 <= len <= 31 ∧ val < 2 ^ len) →
     appendBits buffer val len = Throw (LogicError "Out of range")).
Proof.
  intros Hval. split.
  - intros [Hlen Hlt]. exists (bitsBE val len). split; [|split].
    + apply appendBits_Ok; lia.
    + apply bsize_bitsBE. lia.
    + rewrite bitsValue_bitsBE by lia. apply Z.mod_small. lia.
  - apply appendBits_throws. exact Hval.
Qed.

Lemma appendBits_value_witness :
  ∃ bits, appendBits [true] 5 4 = Ok ([true] ++ bits)
          ∧ bsize bits = 4 ∧ bitsValue bits = 5.
Proof.
  apply (appendBits_value [true] 5 4); [lia|]. split; [lia | reflexivity].
Defined.

(** ** Packing the bits into bytes *)

Lemma for_each_app {I S} (body : I → S → outcome S) (l1 l2 : list I) (s : S) :
  for_each body (l1 ++ l2) s = for_each body l1 s ≫= for_each body l2.
Proof.
  revert s. induction l1 as [|i l1 IH]; intros s; simpl; [reflexivity|].
  destruct (body i s); simpl; [apply IH | reflexivity ..].
Qed.

Lemma upto_split (lo mid hi : Z) :
  lo <= mid <= hi → upto lo hi = upto lo mid ++ upto mid hi.
Proof.
  intros H. unfold upto.
  replace (hi - lo) with ((mid - lo) + (hi - mid)) by lia.
  rewrite seqZ_app by lia. do 2 f_equal; lia.
Qed.

Lemma bit_at_lookup (buffer : BitBuffer) (i : Z) (b : bool) :
  vat buffer i = Ok b → bit_at buffer i = b.
Proof. intros H. apply vat_Ok in H as [_ H]. unfold bit_at. rewrite H. reflexivity. Qed.

Lemma shiftr3 (i : Z) : 0 <= i → Z.shiftr i 3 = i / 8 ∧ Z.land i 7 = i mod 8.
Proof.
  intros H. split.
  - rewrite Z.shiftr_div_pow2 by lia. reflexivity.
  - change 7 with (Z.ones 3). rewrite Z.land_ones by lia. reflexivity.
Qed.

Lemma testbit_bit (a : bool) (n : Z) :
  n ≠ 0 → Z.testbit (if a then 1 else 0) n = false.
Proof.
  intros Hn. destruct a; [|apply Z.bits_0].
  destruct n as [|p|p]; [congruence | destruct p; reflexivity | reflexivity].
Qed.

(** The bits that the first [i] turns of the loop of lines 472-474 have
    set in byte [j]. *)
Lemma packBits_invariant (buffer : BitBuffer) (k : Z) (out : list Z) :
  bsize buffer = 8 * k →
  packBits buffer = Ok out →
  bsize out = k
  ∧ ∀ j c, 0 <= j → out !! Z.to_nat j = Some c →
      0 <= c ∧ ∀ b, 0 <= b →
        Z.testbit c b = (b <? 8) && bit_at buffer (8 * j + 7 - b).
Proof.
  intros Hn H. unfold packBits in H. rewrite Hn in H.
  assert (Hk : 0 <= k) by (unfold bsize in Hn; lia).
  replace (Z.quot (8 * k) 8) with k in H
    by (rewrite Z.quot_div_nonneg, (Z.mul_comm 8 k), Z.div_mul; lia).
  pose (P := fun (i : Z) (cw : list Z) =>
    bsize cw = k
    ∧ ∀ j c, 0 <= j → cw !! Z.to_nat j = Some c →
        0 <= c ∧ ∀ b, 0 <= b →
          Z.testbit c b
          = (b <? 8) && (8 * j + 7 - b <? i) && bit_at buffer (8 * j + 7 - b)).
  assert (HP : P (8 * k) out).
  { revert H. apply (for_each_upto_invariant P); [lia | |].
    - split; [apply bsize_replicate; lia|].
      intros j c Hj Hc. apply lookup_replicate in Hc as [-> _].
      split; [lia|]. intros b Hb. rewrite Z.bits_0.
      destruct (Z.ltb_spec b 8); [|reflexivity].
      destruct (Z.ltb_spec (8 * j + 7 - b) 0); [lia|reflexivity].
    - intros i cw cw' Hi [Hlen Hcw] Hstep. inv_bind.
      destruct (shiftr3 i) as [E3 E7]; [lia|]. rewrite E3, E7 in *.
      apply bit_at_lookup in Ha.
      apply vat_Ok in Ha0 as [_ Ha0].
      apply vset_Ok in Hstep as [Hr ->].
      pose proof (Z.div_mod i 8 ltac:(lia)) as Hdm.
      pose proof (Z.mod_pos_bound i 8 ltac:(lia)) as Hmod.
      split; [unfold bsize in *; rewrite length_insert; exact Hlen|].
      intros j c Hj Hc.
      destruct (Z.eq_dec j (i / 8)) as [->|Hne].
      + rewrite list_lookup_insert_eq in Hc by (unfold bsize in Hr; lia).
        injection Hc as <-.
        destruct (Hcw _ _ Hj Ha0) as [Hc0 Hbits].
        split.
        * apply Z.lor_nonneg. split; [exact Hc0|].
          apply Z.shiftl_nonneg. destruct a; lia.
        * intros b Hb. rewrite Z.lor_spec, Hbits by lia.
          rewrite Z.shiftl_spec by lia.
          destruct (Z.ltb_spec b 8) as [Hb8|Hb8]; simpl.
          -- destruct (Z.eq_dec b (7 - i mod 8)) as [->|Hbne].
             ++ replace (8 * (i / 8) + 7 - (7 - i mod 8)) with i by lia.
                rewrite Z.ltb_irrefl, Z.sub_diag.
                destruct (Z.ltb_spec i (i + 1)); [|lia]. simpl.
                rewrite Ha. destruct a; reflexivity.
             ++ rewrite testbit_bit, orb_false_r by lia.
                destruct (Z.ltb_spec (8 * (i / 8) + 7 - b) i),
                         (Z.ltb_spec (8 * (i / 8) + 7 - b) (i + 1));
                  try reflexivity; lia.
          -- rewrite testbit_bit by lia. reflexivity.
      + rewrite list_lookup_insert_ne in Hc by lia.
        destruct (Hcw _ _ Hj Hc) as [Hc0 Hbits]. split; [exact Hc0|].
        intros b Hb. rewrite Hbits by lia.
        destruct (Z.ltb_spec b 8) as [Hb8|Hb8]; [|reflexivity]. simpl.
        destruct (Z.ltb_spec (8 * j + 7 - b) i),
                 (Z.ltb_spec (8 * j + 7 - b) (i + 1));
          try reflexivity; lia. }
  destruct HP as [Hlen Hout]. split; [exact Hlen|].
  intros j c Hj Hc. destruct (Hout _ _ Hj Hc) as [Hc0 Hbits].
  split; [exact Hc0|]. intros b Hb. rewrite Hbits by lia.
  destruct (Z.ltb_spec b 8) as [Hb8|Hb8]; [|reflexivity]. simpl.
  assert (Z.to_nat j < length out)%nat by (apply lookup_lt_is_Some; eauto).
  unfold bsize in Hlen.
  destruct (Z.ltb_spec (8 * j + 7 - b) (8 * k)); [reflexivity|lia].
Qed.

(** One turn of the packing loop returns while [i >> 3] is inside the
    vector of bytes. *)
Lemma packBits_step (buffer : BitBuffer) (k i : Z) (cw : list Z) :
  0 <= i < bsize buffer → i < 8 * k → bsize cw = k →
  ∃ cw',
    (b ← vat buffer i;
     c ← vat cw (Z.shiftr i 3);
     vset cw (Z.shiftr i 3)
          (Z.lor c (Z.shiftl (if b : bool then 1 else 0) (7 - Z.land i 7))))
    = Ok cw' ∧ bsize cw' = k.
Proof.
  intros Hi Hik Hlen.
  destruct (vat_in_range buffer i Hi) as [b Hb]. rewrite Hb. simpl.
  destruct (shiftr3 i) as [E3 _]; [lia|]. rewrite E3.
  assert (Hr : 0 <= i / 8 < bsize cw).
  { rewrite Hlen. split; [apply Z.div_pos; lia|].
    apply Z.div_lt_upper_bound; lia. }
  destruct (vat_in_range cw (i / 8) Hr) as [c Hc]. rewrite Hc. simpl.
  eexists. split.
  - apply vset_Ok. split; [exact Hr | reflexivity].
  - unfold bsize in *. rewrite length_insert. exact Hlen.
Qed.

Lemma packBits_total (buffer : BitBuffer) (k : Z) :
  bsize buffer = 8 * k → ∃ out, packBits buffer = Ok out.
Proof.
  intros Hn. unfold packBits.
  assert (Hk : 0 <= k) by (unfold bsize in Hn; lia).
  destruct (for_each_upto_total (fun _ cw => bsize cw = Z.quot (bsize buffer) 8)
    (fun i codewords =>
      b ← vat buffer i;
      c ← vat codewords (Z.shiftr i 3);
      vset codewords (Z.shiftr i 3)
           (Z.lor c (Z.shiftl (if b : bool then 1 else 0) (7 - Z.land i 7))))
    0 (bsize buffer) (replicate (Z.to_nat (Z.quot (bsize buffer) 8)) 0))
    as (out & Hout & _).
  - unfold bsize. lia.
  - apply bsize_replicate. apply Z.quot_pos; unfold bsize; lia.
  - intros i cw Hi Hlen. apply (packBits_step buffer _ i cw Hi); [|exact Hlen].
    replace (Z.quot (bsize buffer) 8) with k; [lia|].
    rewrite Hn, Z.quot_div_nonneg, (Z.mul_comm 8 k), Z.div_mul; lia.
  - exists out. exact Hout.
Qed.

Lemma bitsBE_8 (c : Z) :
  bitsBE c 8
  = [Z.testbit c 7; Z.testbit c 6; Z.testbit c 5; Z.testbit c 4;
     Z.testbit c 3; Z.testbit c 2; Z.testbit c 1; Z.testbit c 0].
Proof. reflexivity. Qed.

Lemma bit_at_cons (b : bool) (buffer : BitBuffer) (p : Z) :
  0 <= p → bit_at (b :: buffer) (p + 1) = bit_at buffer p.
Proof.
  intros Hp. unfold bit_at. replace (Z.to_nat (p + 1)) with (S (Z.to_nat p)) by lia.
  reflexivity.
Qed.

Lemma bytesBits_unpack (out : list Z) (buffer : BitBuffer) :
  bsize buffer = 8 * bsize out →
  (∀ j c, 0 <= j → out !! Z.to_nat j = Some c →
     ∀ b, 0 <= b < 8 → Z.testbit c b = bit_at buffer (8 * j + 7 - b)) →
  bytesBits out = buffer.
Proof.
  revert buffer. induction out as [|c out IH]; intros buffer Hlen Hbits.
  - destruct buffer; [reflexivity|]. unfold bsize in Hlen. simpl in Hlen. lia.
  - unfold bsize in Hlen. simpl length in Hlen.
    do 8 (destruct buffer as [|? buffer]; [simpl in Hlen; lia|]).
    unfold bytesBits. cbn [map concat]. rewrite bitsBE_8.
    pose proof (Hbits 0 c ltac:(lia) eq_refl) as H0.
    rewrite (H0 7), (H0 6), (H0 5), (H0 4), (H0 3), (H0 2), (H0 1), (H0 0) by lia.
    cbn [app]. unfold bit_at at 1 2 3 4 5 6 7 8. simpl default.
    do 8 f_equal. apply IH.
    + unfold bsize. simpl length in Hlen. lia.
    + intros j c' Hj Hc' pos Hpos.
      rewrite (Hbits (j + 1) c') by
        (try lia; replace (Z.to_nat (j + 1)) with (S (Z.to_nat j)) by lia; exact Hc').
      replace (8 * (j + 1) + 7 - pos)
        with (8 * j + 7 - pos + 1 + 1 + 1 + 1 + 1 + 1 + 1 + 1) by lia.
      rewrite !bit_at_cons by lia. reflexivity.
Qed.

Lemma testbit_byte (c : Z) :
  0 <= c → (∀ b, 8 <= b → Z.testbit c b = false) → c < 256.
Proof.
  intros Hc Hhigh.
  destruct (Z.lt_ge_cases c 256) as [|Hge]; [assumption|exfalso].
  pose proof (Z.log2_le_mono 256 c Hge) as Hlog. change (Z.log2 256) with 8 in Hlog.
  pose proof (Z.bit_log2 c ltac:(lia)) as Hbit.
  rewrite Hhigh in Hbit by lia. discriminate Hbit.
Qed.

Lemma packBits_bytes (buffer : BitBuffer) (k : Z) :
  bsize buffer = 8 * k →
  ∃ out, packBits buffer = Ok out ∧ bsize out = k
         ∧ Forall is_byte out ∧ bytesBits out = buffer.
Proof.
  intros Hn.
  destruct (packBits_total buffer _ Hn) as [out Hout].
  destruct (packBits_invariant buffer _ out Hn Hout) as [Hlen Hbits].
  exists out. split; [exact Hout|]. split; [exact Hlen|]. split.
  - apply Forall_forall. intros c Hc.
    apply list_elem_of_lookup in Hc as [j Hj].
    destruct (Hbits (Z.of_nat j) c ltac:(lia)) as [Hc0 Hb];
      [rewrite Nat2Z.id; exact Hj|].
    split; [exact Hc0|]. apply testbit_byte; [exact Hc0|].
    intros b Hb8. rewrite Hb by lia.
    destruct (Z.ltb_spec b 8); [lia | reflexivity].
  - apply bytesBits_unpack; [lia|].
    intros j c Hj Hc b Hb. destruct (Hbits j c Hj Hc) as [_ Hcb].
    rewrite Hcb by lia. destruct (Z.ltb_spec b 8); [reflexivity | lia].
Qed.

(** Lines 471-474 on a buffer of whole bytes: the loop returns one byte for
    every 8 bits, and reading the bytes most significant bit first gives
    the buffer back. *)
Theorem packBits_roundtrip (buffer : BitBuffer) :
  bsize buffer mod 8 = 0 →
  ∃ out, packBits buffer = Ok out
         ∧ 8 * bsize out = bsize buffer
         ∧ Forall is_byte out
         ∧ bytesBits out = buffer.
Proof.
  intros Hmod.
  assert (Hn : bsize buffer = 8 * (bsize buffer / 8)).
  { pose proof (Z.div_mod (bsize buffer) 8 ltac:(lia)). lia. }
  destruct (packBits_bytes buffer _ Hn) as (out & Hout & Hlen & Hbytes & Hbits).
  exists out. repeat split; try assumption. lia.
Qed.

Lemma packBits_roundtrip_witness :
  ∃ out, packBits (bitsBE 0x41 8 ++ bitsBE 0xEC 8) = Ok out
         ∧ 8 * bsize out = bsize (bitsBE 0x41 8 ++ bitsBE 0xEC 8)
         ∧ Forall is_byte out
         ∧ bytesBits out = bitsBE 0x41 8 ++ bitsBE 0xEC 8.
Proof. apply packBits_roundtrip. reflexivity. Defined.

Lemma for_each_Throw {I S} (body : I → S → outcome S) (l1 l2 : list I)
    (i : I) (s s1 : S) (e : exn) :
  for_each body l1 s = Ok s1 → body i s1 = Throw e →
  for_each body (l1 ++ i :: l2) s = Throw e.
Proof.
  intros H1 Hi. rewrite for_each_app, H1. simpl. rewrite Hi. reflexivity.
Qed.

(** Lines 471-474 on a buffer that does not end on a byte: the vector has
    one byte for every 8 whole bits, and the first bit after them makes
    [codewords.at(i >> 3)] throw. *)
Theorem packBits_ragged (buffer : BitBuffer) :
  bsize buffer mod 8 ≠ 0 → packBits buffer = Throw OutOfRange.
Proof.
  intros Hmod. unfold packBits.
  assert (Hn0 : 0 <= bsize buffer) by (unfold bsize; lia).
  pose proof (Z.div_mod (bsize buffer) 8 ltac:(lia)) as Hdm.
  pose proof (Z.mod_pos_bound (bsize buffer) 8 ltac:(lia)) as Hmb.
  rewrite (Z.quot_div_nonneg (bsize buffer) 8) by lia.
  assert (Hk : 0 <= bsize buffer / 8) by (apply Z.div_pos; lia).
  revert Hmod Hn0 Hdm Hmb Hk.
  generalize (bsize buffer / 8) as k. generalize (bsize buffer mod 8) as r.
  intros r k Hmod Hn0 Hdm Hmb Hk.
  rewrite (upto_split 0 (8 * k) (bsize buffer)) by lia.
  rewrite (upto_cons (8 * k) (bsize buffer)) by lia.
  destruct (for_each_upto_total (fun _ cw => bsize cw = k)
    (fun i codewords =>
      b ← vat buffer i;
      c ← vat codewords (Z.shiftr i 3);
      vset codewords (Z.shiftr i 3)
           (Z.lor c (Z.shiftl (if b : bool then 1 else 0) (7 - Z.land i 7))))
    0 (8 * k) (replicate (Z.to_nat k) 0))
    as (cw & Hcw & Hlen).
  - lia.
  - apply bsize_replicate. exact Hk.
  - intros i a Hi Ha. apply (packBits_step buffer k i a); [lia|lia|exact Ha].
  - apply (for_each_Throw _ _ _ _ _ cw); [exact Hcw|].
    destruct (vat_in_range buffer (8 * k)) as [b Hb].
    { lia. }
    rewrite Hb. simpl.
    destruct (shiftr3 (8 * k)) as [E3 _]; [lia|]. rewrite E3.
    replace (8 * k / 8) with k by (rewrite (Z.mul_comm 8 k), Z.div_mul; lia).
    rewrite vat_out_of_range by lia. reflexivity.
Qed.

Lemma packBits_ragged_witness :
  packBits [true; false; true] = Throw OutOfRange.
Proof. apply packBits_ragged. discriminate. Defined.

(** ** The Alphanumeric segment *)

Lemma find_from_index (s : list ascii) (ch : ascii) (pos : Z) :
  ch ∈ s →
  pos <= find_from s ch pos < pos + bsize s
  ∧ s !! Z.to_nat (find_from s ch pos - pos) = Some ch.
Proof.
  revert pos. induction s as [|c s IH]; intros pos Hin; [inversion Hin|].
  unfold bsize. simpl length. cbn [find_from].
  destruct (Ascii.eqb_spec c ch) as [->|Hne].
  - split; [lia|]. rewrite Z.sub_diag. reflexivity.
  - apply elem_of_cons in Hin as [Heq|Hin]; [congruence|].
    destruct (IH (pos + 1) Hin) as [Hr Hl]. unfold bsize in Hr.
    split; [lia|].
    replace (Z.to_nat (find_from s ch (pos + 1) - pos))
      with (S (Z.to_nat (find_from s ch (pos + 1) - (pos + 1)))) by lia.
    exact Hl.
Qed.

Lemma alnum_code (ch : ascii) :
  in_alphabet ch →
  0 <= string_find kAlphanumericChar_ ch < 45
  ∧ list_ascii_of_string kAlphanumericChar_
      !! Z.to_nat (string_find kAlphanumericChar_ ch) = Some ch.
Proof.
  intros Hin. unfold string_find.
  destruct (find_from_index _ ch 0 Hin) as [Hr Hl].
  change (bsize (list_ascii_of_string kAlphanumericChar_)) with 45 in Hr.
  rewrite Z.sub_0_r in Hl. split; [lia | exact Hl].
Qed.

Lemma uint32_small (z : Z) : 0 <= z < 2 ^ 32 → uint32_of_size_t z = z.
Proof. intros H. unfold uint32_of_size_t. apply Z.mod_small. exact H. Qed.

Lemma alnum_loop (chars : list ascii) :
  Forall in_alphabet chars →
  let body := fun (ch : ascii) '(group, max, buffer) =>
    let index := string_find kAlphanumericChar_ ch in
    let group := int_of_size_t (size_t_wrap (group * 45 + index)) in
    let max := max + 1 in
    if max =? 2
    then buffer ← appendBits buffer (uint32_of_size_t group) 11; Ok (0, 0, buffer)
    else Ok (group, max, buffer) in
  let tail := fun '(group, max, buffer) =>
    if 0 <? max then appendBits buffer (uint32_of_size_t group) 6 else Ok buffer in
  ∀ buffer : BitBuffer,
    for_each body chars (0, 0, buffer) ≫= tail
    = Ok (buffer ++ alnumGroups (map (string_find kAlphanumericChar_) chars))
    ∧ ∀ a, 0 <= a < 45 →
        for_each body chars (a, 1, buffer) ≫= tail
        = Ok (buffer ++ alnumGroups (a :: map (string_find kAlphanumericChar_) chars)).
Proof.
  intros Hchars body tail.
  induction Hchars as [|ch chars Hch _ IH]; intros buffer.
  - split.
    + simpl. rewrite app_nil_r. reflexivity.
    + intros a Ha. simpl. rewrite uint32_small by lia.
      apply appendBits_Ok; lia.
  - destruct (alnum_code ch Hch) as [Hc _].
    set (c := string_find kAlphanumericChar_ ch) in *.
    split.
    + assert (Hstep : body ch (0, 0, buffer) = Ok (c, 1, buffer)).
      { unfold body. cbn beta iota zeta. fold c.
        rewrite int_of_size_t_wrap by lia. simpl Z.eqb. cbv iota.
        reflexivity. }
      cbn [for_each map]. rewrite Hstep. cbn [mbind outcome_bind].
      apply (proj2 (IH buffer)). exact Hc.
    + intros a Ha.
      assert (Hstep : body ch (a, 1, buffer)
                      = Ok (0, 0, buffer ++ bitsBE (a * 45 + c) 11)).
      { unfold body. cbn beta iota zeta. fold c.
        rewrite int_of_size_t_wrap by lia. simpl Z.eqb. cbv iota.
        rewrite uint32_small by lia. rewrite appendBits_Ok by lia.
        reflexivity. }
      cbn [for_each map]. rewrite Hstep. cbn [mbind outcome_bind].
      etransitivity; [apply (proj1 (IH _))|].
      cbn [alnumGroups]. rewrite <- app_assoc. reflexivity.
Qed.

(** Lines 429-446 on a text of the alphanumeric set: every pair of
    characters is appended in 11 bits holding 45 times the first position
    plus the second, a last single character in 6 bits; the positions are
    those of the characters in [kAlphanumericChar_], from 0 to 44. *)
Theorem encodeAlphanumeric_groups (text : string) (buffer : BitBuffer) :
  isAlphanumeric text = true →
  encodeAlphanumeric text buffer = Ok (buffer ++ alnumGroups (alnumCodes text))
  ∧ Forall2 (fun ch code =>
        0 <= code < 45
        ∧ list_ascii_of_string kAlphanumericChar_ !! Z.to_nat code = Some ch)
      (list_ascii_of_string text) (alnumCodes text).
Proof.
  intros H. apply isAlphanumeric_alphabet in H. split.
  - apply (alnum_loop _ H).
  - unfold alnumCodes. apply Forall2_fmap_r, Forall_Forall2_diag.
    eapply Forall_impl; [exact H|]. intros ch Hch. apply alnum_code, Hch.
Qed.

Lemma encodeAlphanumeric_groups_witness :
  encodeAlphanumeric "AC-42" [] = Ok (bitsBE 462 11 ++ bitsBE 1849 11 ++ bitsBE 2 6).
Proof.
  destruct (encodeAlphanumeric_groups "AC-42" []) as [H _]; [reflexivity|].
  rewrite H. reflexivity.
Defined.

(** ** The Byte segment *)

Lemma encodeByte_step (ch : ascii) (buffer : BitBuffer) :
  appendBits buffer (uint32_of_size_t (char_val ch)) 8
  = if Z.of_N (N_of_ascii ch) <? 128
    then Ok (buffer ++ bitsBE (Z.of_N (N_of_ascii ch)) 8)
    else Throw (LogicError "Out of range").
Proof.
  unfold char_val. pose proof (N_ascii_bounded ch) as Hb.
  destruct (Z.ltb_spec (Z.of_N (N_of_ascii ch)) 128) as [Hlow|Hhigh].
  - rewrite uint32_small by lia. apply appendBits_Ok; lia.
  - unfold uint32_of_size_t.
    replace ((Z.of_N (N_of_ascii ch) - 256) mod 2 ^ 32)
      with (Z.of_N (N_of_ascii ch) - 256 + 2 ^ 32).
    + apply appendBits_throws; lia.
    + apply Z.mod_unique with (-1); lia.
Qed.

(** Lines 450-452: a text of 7-bit characters is appended with 8 bits a
    character, holding the character code; a character from 0x80 on is
    a negative [char], whose conversion to [std::uint32_t] does not fit 8
    bits, and [appendBits] throws. *)
Theorem encodeByte_bytes (text : string) (buffer : BitBuffer) :
  (Forall (fun ch => Z.of_N (N_of_ascii ch) < 128) (list_ascii_of_string text) →
   encodeByte text buffer = Ok (buffer ++ bytesBits (byteCodes text)))
  ∧ (Exists (fun ch => 128 <= Z.of_N (N_of_ascii ch)) (list_ascii_of_string text) →
     encodeByte text buffer = Throw (LogicError "Out of range")).
Proof.
  unfold encodeByte, byteCodes. revert buffer.
  induction (list_ascii_of_string text) as [|ch chars IH]; intros buffer.
  - split.
    + intros _. simpl. rewrite app_nil_r. reflexivity.
    + intros H. inversion H.
  - cbn [for_each]. rewrite encodeByte_step.
    destruct (Z.ltb_spec (Z.of_N (N_of_ascii ch)) 128) as [Hlow|Hhigh].
    + cbn [mbind outcome_bind]. split.
      * intros H. apply Forall_cons in H as [_ H].
        rewrite (proj1 (IH _) H). unfold bytesBits. cbn [map concat].
        rewrite <- app_assoc. reflexivity.
      * intros H. apply Exists_cons in H as [H|H]; [lia|].
        apply (proj2 (IH _) H).
    + split; [|reflexivity].
      intros H. apply Forall_cons in H as [H _]. lia.
Qed.

Lemma encodeByte_bytes_witness :
  encodeByte "a~" [] = Ok (bitsBE 0x61 8 ++ bitsBE 0x7E 8).
Proof.
  destruct (encodeByte_bytes "a~" []) as [H _]. rewrite H; [reflexivity|].
  repeat constructor.
Defined.

(** ** Capacity against the size of the segment *)

Lemma list_ind3 {A} (P : list A → Prop) :
  P [] → (∀ a, P [a]) → (∀ a b, P [a; b]) →
  (∀ a b c l, P l → P (a :: b :: c :: l)) → ∀ l, P l.
Proof.
  intros H0 H1 H2 H3 l.
  assert (H : P l ∧ (∀ a, P (a :: l)) ∧ ∀ a b, P (a :: b :: l)).
  { induction l as [|x l (IH0 & IH1 & IH2)]; [auto|].
    split; [apply IH1|]. split; [intros a; apply IH2|].
    intros a b. apply H3, IH0. }
  apply H.
Qed.

Lemma numericGroups_size (digits : list Z) :
  ∃ q r, bsize digits = 3 * q + r ∧ 0 <= q ∧ 0 <= r < 3
         ∧ bsize (numericGroups digits)
           = 10 * q + (if r =? 0 then 0 else if r =? 1 then 4 else 7).
Proof.
  induction digits as [| | |a b c l (q & r & Hl & Hq & Hr & Hs)] using list_ind3.
  - exists 0, 0. repeat split; reflexivity || lia.
  - exists 0, 1. repeat split; reflexivity || lia.
  - exists 0, 2. repeat split; reflexivity || lia.
  - exists (q + 1), r. cbn [numericGroups]. unfold bsize in *.
    rewrite length_app. simpl length.
    pose proof (bsize_bitsBE (a * 100 + b * 10 + c) 10 ltac:(lia)) as Hb.
    unfold bsize in Hb.
    repeat split; try lia.
Qed.

Lemma alnumGroups_size (codes : list Z) :
  ∃ q r, bsize codes = 2 * q + r ∧ 0 <= q ∧ 0 <= r < 2
         ∧ bsize (alnumGroups codes) = 11 * q + 6 * r.
Proof.
  assert (H : (∃ q r, bsize codes = 2 * q + r ∧ 0 <= q ∧ 0 <= r < 2
                 ∧ bsize (alnumGroups codes) = 11 * q + 6 * r)
              ∧ ∀ a, ∃ q r, bsize (a :: codes) = 2 * q + r ∧ 0 <= q ∧ 0 <= r < 2
                 ∧ bsize (alnumGroups (a :: codes)) = 11 * q + 6 * r).
  { induction codes as [|x l [IH0 IH1]].
    - split; [exists 0, 0 | intros a; exists 0, 1]; repeat split; reflexivity || lia.
    - split; [apply IH1|]. intros a.
      destruct IH0 as (q & r & Hl & Hq & Hr & Hs).
      exists (q + 1), r. cbn [alnumGroups]. unfold bsize in *.
      rewrite length_app. simpl length.
      pose proof (bsize_bitsBE (a * 45 + x) 11 ltac:(lia)) as Hb.
      unfold bsize in Hb. repeat split; lia. }
  apply H.
Qed.

Lemma bytesBits_size (bytes : list Z) : bsize (bytesBits bytes) = 8 * bsize bytes.
Proof.
  unfold bytesBits, bsize. induction bytes as [|c l IH]; [reflexivity|].
  cbn [map concat]. rewrite length_app. simpl length at 1 3. lia.
Qed.

Lemma numericCapacity_exact (bits : Z) (digits : list Z) :
  0 <= bits →
  bsize (numericGroups digits) <= bits ↔ bsize digits <= numericCapacity bits.
Proof.
  intros Hbits.
  destruct (numericGroups_size digits) as (q & r & -> & Hq & Hr & ->).
  unfold numericCapacity.
  rewrite Z.quot_div_nonneg, Z.rem_mod_nonneg by lia.
  pose proof (Z.div_mod bits 10 ltac:(lia)).
  pose proof (Z.mod_pos_bound bits 10 ltac:(lia)).
  destruct (Z.ltb_spec 6 (bits mod 10)), (Z.ltb_spec 3 (bits mod 10)),
           (Z.eqb_spec r 0), (Z.eqb_spec r 1); lia.
Qed.

Lemma alphanumbericCapacity_exact (bits : Z) (codes : list Z) :
  0 <= bits →
  bsize (alnumGroups codes) <= bits ↔ bsize codes <= alphanumbericCapacity bits.
Proof.
  intros Hbits.
  destruct (alnumGroups_size codes) as (q & r & -> & Hq & Hr & ->).
  unfold alphanumbericCapacity.
  rewrite Z.quot_div_nonneg, Z.rem_mod_nonneg by lia.
  pose proof (Z.div_mod bits 11 ltac:(lia)).
  pose proof (Z.mod_pos_bound bits 11 ltac:(lia)).
  destruct (Z.ltb_spec 5 (bits mod 11)); lia.
Qed.

Lemma byteCapacity_exact (bits : Z) (bytes : list Z) :
  0 <= bits →
  bsize (bytesBits bytes) <= bits ↔ bsize bytes <= byteCapacity bits.
Proof.
  intros Hbits. rewrite bytesBits_size. unfold byteCapacity.
  rewrite Z.shiftr_div_pow2 by lia. change (2 ^ 3) with 8.
  pose proof (Z.div_mod bits 8 ltac:(lia)).
  pose proof (Z.mod_pos_bound bits 8 ltac:(lia)).
  lia.
Qed.

(** The capacities of lines 183-193 are exact: a run of characters fits
    into [bits] bits of segment if and only if it has at most
    [numericCapacity(bits)] digits, [alphanumbericCapacity(bits)]
    alphanumeric characters or [byteCapacity(bits)] bytes. *)
Theorem capacity_exact (bits : Z) (codes : list Z) :
  0 <= bits →
  (bsize (numericGroups codes) <= bits ↔ bsize codes <= numericCapacity bits)
  ∧ (bsize (alnumGroups codes) <= bits
     ↔ bsize codes <= alphanumbericCapacity bits)
  ∧ (bsize (bytesBits codes) <= bits ↔ bsize codes <= byteCapacity bits).
Proof.
  intros Hbits. split; [|split].
  - apply numericCapacity_exact, Hbits.
  - apply alphanumbericCapacity_exact, Hbits.
  - apply byteCapacity_exact, Hbits.
Qed.

Lemma capacity_exact_witness :
  (bsize (numericGroups [1; 2; 3; 4]) <= 14 ↔ 4 <= numericCapacity 14)
  ∧ (bsize (alnumGroups [1; 2; 3; 4]) <= 14
     ↔ 4 <= alphanumbericCapacity 14)
  ∧ (bsize (bytesBits [1; 2; 3; 4]) <= 14 ↔ 4 <= byteCapacity 14).
Proof. apply (capacity_exact 14 [1; 2; 3; 4]). lia. Defined.

(** ** The encoded text *)

Lemma capacity_ok_all (enc : Encoding) (v : Z) (l : ErrCor) :
  enc ∈ supported → 1 <= v <= 40 → capacity_ok enc v l = true.
Proof.
  intros Henc Hv.
  assert (Hall : forallb (fun e => forallb (fun v => forallb (fun l =>
            capacity_ok e v l) levels) (upto 1 41)) supported = true)
    by (vm_compute; reflexivity).
  apply (forallb_elem _ _ enc) in Hall; [|exact Henc].
  apply (forallb_upto _ 1 41 v) in Hall; [|lia].
  apply (forallb_elem _ _ l) in Hall; [exact Hall | apply elem_of_levels].
Qed.

(** The facts about one encoding, version and level that the encoder
    relies on. *)
Lemma capacity_facts (enc : Encoding) (v : Z) (l : ErrCor) :
  enc ∈ supported → 1 <= v <= 40 →
  ∃ n bpc c,
    getTotalCodewords v l = Ok n ∧ getBitsPerChar enc v = Ok bpc
    ∧ getCapacity enc v l = Ok c
    ∧ 0 <= n < 4096 ∧ 0 <= bpc <= 16 ∧ 0 <= 8 * n - bpc - 4 ∧ c < 2 ^ bpc.
Proof.
  intros Henc Hv. pose proof (capacity_ok_all enc v l Henc Hv) as H.
  unfold capacity_ok in H.
  destruct (getTotalCodewords v l) as [n| |]; [|discriminate H ..].
  destruct (getBitsPerChar enc v) as [bpc| |]; [|discriminate H ..].
  destruct (getCapacity enc v l) as [c| |]; [|discriminate H ..].
  exists n, bpc, c.
  repeat (apply andb_prop in H as [H ?]).
  repeat split; try reflexivity; lia.
Qed.

Lemma determineEncoding_classes (text : string) (enc : Encoding) :
  determineEncoding text = Some enc →
  (enc = kNumeric_ ∧ isNumeric text = true)
  ∨ (enc = kAlpha_ ∧ isAlphanumeric text = true)
  ∨ (enc = kByte_ ∧ isByte text = true).
Proof.
  rewrite determineEncoding_cases.
  destruct (isNumeric text); [intros [= <-]; auto|].
  destruct (isAlphanumeric text); [intros [= <-]; auto|].
  destruct (isByte text); [intros [= <-]; auto|]. discriminate.
Qed.

(** The segment that [encodeText] appends for a classified text. *)
Lemma encodeText_segment (text : string) (enc : Encoding) (buffer : BitBuffer) :
  determineEncoding text = Some enc →
  (if getEncodingMode enc =? 1 then encodeNumeric text buffer
   else if getEncodingMode enc =? 2 then encodeAlphanumeric text buffer
   else if getEncodingMode enc =? 4 then encodeByte text buffer
   else Ok buffer)
  = Ok (buffer ++ segmentBits enc text).
Proof.
  intros H. unfold segmentBits.
  destruct (determineEncoding_classes text enc H) as [[-> Hc]|[[-> Hc]|[-> Hc]]];
    simpl.
  - apply isNumeric_digits in Hc. unfold encodeNumeric, digitsOf.
    apply (numeric_loop _ [] buffer Hc); [constructor | simpl; lia].
  - apply isAlphanumeric_alphabet in Hc. apply (alnum_loop _ Hc).
  - apply isByte_printable in Hc. unfold encodeByte, byteCodes.
    clear H. revert buffer.
    induction Hc as [|ch chars Hch _ IH]; intros buffer.
    + simpl. rewrite app_nil_r. reflexivity.
    + cbn [for_each]. rewrite encodeByte_step. unfold printable in Hch.
      destruct (Z.ltb_spec (Z.of_N (N_of_ascii ch)) 128); [|lia].
      cbn [mbind outcome_bind]. rewrite IH.
      unfold bytesBits. cbn [map concat]. rewrite <- app_assoc. reflexivity.
Qed.

Lemma segmentBits_fits (text : string) (enc : Encoding) (bits c : Z) :
  determineEncoding text = Some enc → 0 <= bits →
  (let mode := getEncodingMode enc in
   if mode =? 1 then Ok (numericCapacity bits)
   else if mode =? 2 then Ok (alphanumbericCapacity bits)
   else if mode =? 4 then Ok (byteCapacity bits)
   else if mode =? 7 then Ok (byteCapacity bits)
   else if mode =? 8 then Ok (kanjiCapacity bits)
   else Throw (LogicError "Invalid encoding mode.")) = Ok c →
  bsize (segmentBits enc text) <= bits ↔ Z.of_nat (String.length text) <= c.
Proof.
  intros H Hbits Hc. unfold segmentBits.
  rewrite <- length_list_ascii_of_string.
  destruct (determineEncoding_classes text enc H) as [[-> _]|[[-> _]|[-> _]]];
    simpl in Hc |- *; injection Hc as <-.
  - replace (Z.of_nat (length (list_ascii_of_string text)))
      with (bsize (digitsOf text))
      by (unfold digitsOf, bsize; rewrite length_map; reflexivity).
    apply numericCapacity_exact. exact Hbits.
  - replace (Z.of_nat (length (list_ascii_of_string text)))
      with (bsize (alnumCodes text))
      by (unfold alnumCodes, bsize; rewrite length_map; reflexivity).
    apply alphanumbericCapacity_exact. exact Hbits.
  - replace (Z.of_nat (length (list_ascii_of_string text)))
      with (bsize (byteCodes text))
      by (unfold byteCodes, bsize; rewrite length_map; reflexivity).
    apply byteCapacity_exact. exact Hbits.
Qed.

Lemma map_const {A B} (f : A → B) (b : B) (l : list A) :
  (∀ x, x ∈ l → f x = b) → map f l = replicate (length l) b.
Proof.
  induction l as [|x l IH]; intros H; [reflexivity|]. simpl.
  rewrite H by left. rewrite IH; [reflexivity|]. intros y Hy. apply H. right. exact Hy.
Qed.

Lemma bitsBE_zero (len : Z) : bitsBE 0 len = replicate (Z.to_nat len) false.
Proof.
  unfold bitsBE. rewrite (map_const _ false) by (intros; apply Z.bits_0).
  rewrite length_downto. f_equal. lia.
Qed.

(** The loop of lines 466-468 appends the bytes that are missing. *)
Lemma padLoop_bytes (m : nat) (byte : Z) (buffer : BitBuffer) (fuel : nat)
    (capacity : Z) :
  byte = 0xEC ∨ byte = 0x11 →
  capacity - bsize buffer = 8 * Z.of_nat m →
  capacity - bsize buffer <= Z.of_nat fuel →
  padLoop fuel capacity byte buffer = Ok (buffer ++ bytesBits (padding m byte)).
Proof.
  revert byte buffer fuel.
  induction m as [|m IH]; intros byte buffer fuel Hbyte Hmiss Hfuel.
  - simpl. rewrite app_nil_r.
    destruct fuel; simpl; destruct (Z.ltb_spec (bsize buffer) capacity);
      try reflexivity; lia.
  - destruct fuel as [|fuel]; [lia|]. simpl padLoop.
    destruct (Z.ltb_spec (bsize buffer) capacity); [|lia].
    rewrite appendBits_Ok by (destruct Hbyte as [-> | ->]; lia).
    cbn [mbind outcome_bind].
    rewrite (IH (Z.lxor byte (Z.lxor 236 17))).
    + cbn [padding]. unfold bytesBits. cbn [map concat].
      rewrite <- app_assoc. reflexivity.
    + destruct Hbyte as [-> | ->]; [right | left]; reflexivity.
    + unfold bsize in *. rewrite length_app.
      pose proof (bsize_bitsBE byte 8 ltac:(lia)) as Hb. unfold bsize in Hb. lia.
    + unfold bsize in *. rewrite length_app.
      pose proof (bsize_bitsBE byte 8 ltac:(lia)) as Hb. unfold bsize in Hb. lia.
Qed.

Lemma bsize_app {A} (l1 l2 : list A) : bsize (l1 ++ l2) = bsize l1 + bsize l2.
Proof. unfold bsize. rewrite length_app. lia. Qed.

Lemma bsize_padding (m : nat) (byte : Z) : bsize (padding m byte) = Z.of_nat m.
Proof.
  unfold bsize. f_equal. revert byte.
  induction m as [|m IH]; intros byte; simpl; [reflexivity | rewrite IH; reflexivity].
Qed.

Lemma size_t_small (z : Z) : 0 <= z < 2 ^ 64 → size_t_wrap z = z.
Proof. intros H. apply Z.mod_small. exact H. Qed.

(** Lines 460-476 on a buffer that fits the data codewords: up to four
    terminator bits, the bits up to the next byte, and the padding
    bytes. *)
Lemma terminateAndPack_fits (v : Z) (l : ErrCor) (n : Z) (buffer : BitBuffer) :
  getTotalCodewords v l = Ok n → 0 <= n < 4096 → bsize buffer <= 8 * n →
  ∃ data z m,
    terminateAndPack v l buffer = Ok data
    ∧ bsize data = n ∧ Forall is_byte data ∧ 0 <= z <= 11
    ∧ bytesBits data
      = buffer ++ replicate (Z.to_nat z) false ++ bytesBits (padding m 0xEC).
Proof.
  intros Hn Hr Hfit. unfold terminateAndPack. rewrite Hn.
  cbn [mbind outcome_bind].
  rewrite (size_t_small n), (size_t_small (n * 8)) by lia.
  assert (Hs : 0 <= bsize buffer) by (unfold bsize; lia).
  rewrite int_of_size_t_wrap by lia.
  set (t := Z.min 4 (n * 8 - bsize buffer)).
  assert (Ht : 0 <= t <= 4 ∧ t <= n * 8 - bsize buffer) by (unfold t; lia).
  clearbody t.
  rewrite appendBits_Ok by lia. cbn [mbind outcome_bind].
  rewrite bitsBE_zero.
  set (b1 := buffer ++ replicate (Z.to_nat t) false).
  assert (Hb1 : bsize b1 = bsize buffer + t).
  { unfold b1, bsize. rewrite length_app, length_replicate. lia. }
  assert (Eb1 : b1 = buffer ++ replicate (Z.to_nat t) false) by reflexivity.
  clearbody b1.
  rewrite (Z.rem_mod_nonneg (bsize b1) 8) by lia.
  pose proof (Z.mod_pos_bound (bsize b1) 8 ltac:(lia)) as Hm1.
  pose proof (Z.div_mod (bsize b1) 8 ltac:(lia)) as Hd1.
  rewrite Z.rem_mod_nonneg by lia.
  set (a := (8 - bsize b1 mod 8) mod 8).
  assert (Ha : 0 <= a < 8) by (apply Z.mod_pos_bound; lia).
  assert (Ha' : a = if bsize b1 mod 8 =? 0 then 0 else 8 - bsize b1 mod 8).
  { unfold a. destruct (Z.eqb_spec (bsize b1 mod 8) 0) as [->|Hne]; [reflexivity|].
    apply Z.mod_small. lia. }
  rewrite appendBits_Ok by lia. cbn [mbind outcome_bind].
  rewrite bitsBE_zero.
  set (b2 := b1 ++ replicate (Z.to_nat a) false).
  assert (Hb2 : bsize b2 = bsize b1 + a).
  { unfold b2, bsize. rewrite length_app, length_replicate. lia. }
  assert (Hk : ∃ k, bsize b2 = 8 * k ∧ 0 <= k <= n).
  { destruct (Z.eqb_spec (bsize b1 mod 8) 0) as [E|E].
    - exists (bsize b1 / 8). lia.
    - exists (bsize b1 / 8 + 1). lia. }
  destruct Hk as (k & Hk & Hkn).
  rewrite (padLoop_bytes (Z.to_nat (n - k)) 236 b2); [|left; reflexivity|lia|lia].
  cbn [mbind outcome_bind].
  destruct (packBits_bytes (b2 ++ bytesBits (padding (Z.to_nat (n - k)) 236)) n)
    as (data & Hdata & Hlen & Hbytes & Hbits).
  { rewrite bsize_app, bytesBits_size, bsize_padding. lia. }
  exists data, (t + a), (Z.to_nat (n - k)).
  split; [exact Hdata|]. split; [exact Hlen|]. split; [exact Hbytes|].
  split; [lia|].
  rewrite Hbits. unfold b2. rewrite Eb1, <- !app_assoc. do 1 f_equal.
  rewrite app_assoc. f_equal.
  rewrite Z2Nat.inj_add by lia. rewrite replicate_add. reflexivity.
Qed.

Lemma segmentBits_bound (text : string) (enc : Encoding) :
  determineEncoding text = Some enc →
  0 <= bsize (segmentBits enc text) <= 11 * Z.of_nat (String.length text).
Proof.
  intros H. split; [unfold bsize; lia|]. unfold segmentBits.
  rewrite <- length_list_ascii_of_string.
  destruct (determineEncoding_classes text enc H) as [[-> _]|[[-> _]|[-> _]]];
    simpl.
  - destruct (numericGroups_size (digitsOf text)) as (q & r & Hl & Hq & Hr & ->).
    unfold digitsOf, bsize in Hl. rewrite length_map in Hl.
    destruct (Z.eqb_spec r 0), (Z.eqb_spec r 1); lia.
  - destruct (alnumGroups_size (alnumCodes text)) as (q & r & Hl & Hq & Hr & ->).
    unfold alnumCodes, bsize in Hl. rewrite length_map in Hl. lia.
  - rewrite bytesBits_size. unfold byteCodes, bsize. rewrite length_map. lia.
Qed.

(** The header and the segment of a classified text whose length fits the
    character count field. *)
Lemma encodeText_header (text : string) (enc : Encoding) (v : Z) (l : ErrCor)
    (bpc : Z) :
  determineEncoding text = Some enc →
  getBitsPerChar enc v = Ok bpc → 0 <= bpc <= 16 →
  Z.of_nat (String.length text) < 2 ^ bpc →
  encodeText enc v l text
  = terminateAndPack v l
      (bitsBE (getEncodingMode enc) 4
       ++ bitsBE (Z.of_nat (String.length text)) bpc
       ++ segmentBits enc text).
Proof.
  intros Henc Hbpc Hr Hlen. unfold encodeText.
  assert (Hmode : appendBits [] (uint32_of_size_t (getEncodingMode enc)) 4
                  = Ok (bitsBE (getEncodingMode enc) 4)).
  { destruct (determineEncoding_classes text enc Henc) as [[-> _]|[[-> _]|[-> _]]];
      reflexivity. }
  rewrite Hmode. cbn [mbind outcome_bind]. rewrite Hbpc. cbn [mbind outcome_bind].
  assert (Hpow : 2 ^ bpc <= 2 ^ 16) by (apply Z.pow_le_mono_r; lia).
  rewrite uint32_small, appendBits_Ok by lia.
  cbn [mbind outcome_bind].
  rewrite (encodeText_segment text enc _ Henc). cbn [mbind outcome_bind].
  rewrite <- app_assoc. reflexivity.
Qed.

Lemma getCapacity_available (enc : Encoding) (v : Z) (l : ErrCor) (n bpc : Z) :
  getTotalCodewords v l = Ok n → getBitsPerChar enc v = Ok bpc →
  getCapacity enc v l
  = (let mode := getEncodingMode enc in
     if mode =? 1 then Ok (numericCapacity (8 * n - bpc - 4))
     else if mode =? 2 then Ok (alphanumbericCapacity (8 * n - bpc - 4))
     else if mode =? 4 then Ok (byteCapacity (8 * n - bpc - 4))
     else if mode =? 7 then Ok (byteCapacity (8 * n - bpc - 4))
     else if mode =? 8 then Ok (kanjiCapacity (8 * n - bpc - 4))
     else Throw (LogicError "Invalid encoding mode.")).
Proof.
  intros Hn Hbpc. unfold getCapacity. rewrite Hn. cbn [mbind outcome_bind].
  rewrite Hbpc. cbn [mbind outcome_bind].
  rewrite Z.shiftl_mul_pow2 by lia. change (2 ^ 3) with 8.
  replace (n * 8) with (8 * n) by lia. reflexivity.
Qed.

Lemma encodeText_fits (text : string) (enc : Encoding) (v : Z) (l : ErrCor)
    (c : Z) :
  determineEncoding text = Some enc → 1 <= v <= 40 →
  getCapacity enc v l = Ok c → Z.of_nat (String.length text) <= c →
  ∃ data n bpc z m,
    getTotalCodewords v l = Ok n ∧ getBitsPerChar enc v = Ok bpc
    ∧ encodeText enc v l text = Ok data
    ∧ bsize data = n ∧ Forall is_byte data ∧ 0 <= z <= 11
    ∧ bytesBits data
      = bitsBE (getEncodingMode enc) 4
        ++ bitsBE (Z.of_nat (String.length text)) bpc
        ++ segmentBits enc text
        ++ replicate (Z.to_nat z) false ++ bytesBits (padding m 0xEC).
Proof.
  intros Henc Hv Hc Hlen.
  destruct (capacity_facts enc v l (determineEncoding_supported _ _ Henc) Hv)
    as (n & bpc & c' & Hn & Hbpc & Hc' & Hnr & Hbr & Hav & Hcb).
  rewrite Hc in Hc'. injection Hc' as <-.
  rewrite (getCapacity_available enc v l n bpc Hn Hbpc) in Hc.
  pose proof (proj2 (segmentBits_fits text enc _ c Henc Hav Hc) Hlen) as Hseg.
  set (buffer := bitsBE (getEncodingMode enc) 4
                 ++ bitsBE (Z.of_nat (String.length text)) bpc
                 ++ segmentBits enc text).
  assert (Hsize : bsize buffer = 4 + bpc + bsize (segmentBits enc text)).
  { unfold buffer. rewrite !bsize_app, !bsize_bitsBE by lia. lia. }
  destruct (terminateAndPack_fits v l n buffer Hn Hnr ltac:(lia))
    as (data & z & m & Hdata & Hdlen & Hbytes & Hz & Hbits).
  exists data, n, bpc, z, m.
  split; [exact Hn|]. split; [exact Hbpc|]. split.
  - rewrite (encodeText_header text enc v l bpc Henc Hbpc Hbr) by lia. exact Hdata.
  - split; [exact Hdlen|]. split; [exact Hbytes|]. split; [exact Hz|].
    rewrite Hbits. unfold buffer. rewrite <- !app_assoc. reflexivity.
Qed.

(** [encodeText] on a classified text that is within the capacity of the
    version and level: it returns exactly the data codewords, all bytes,
    and their bits are the mode indicator in 4 bits, the character count,
    the segment, at most 11 zero bits of terminator and alignment, and
    the padding bytes 0xEC, 0x11 in turn. *)
Theorem encodeText_layout (text : string) (enc : Encoding) (v : Z) (l : ErrCor)
    (c : Z) :
  determineEncoding text = Some enc → 1 <= v <= 40 →
  getCapacity enc v l = Ok c → Z.of_nat (String.length text) <= c →
  ∃ data n bpc z m,
    getTotalCodewords v l = Ok n ∧ getBitsPerChar enc v = Ok bpc
    ∧ encodeText enc v l text = Ok data
    ∧ bsize data = n ∧ Forall is_byte data ∧ 0 <= z <= 11
    ∧ bytesBits data
      = bitsBE (getEncodingMode enc) 4
        ++ bitsBE (Z.of_nat (String.length text)) bpc
        ++ segmentBits enc text
        ++ replicate (Z.to_nat z) false ++ bytesBits (padding m 0xEC).
Proof. exact (encodeText_fits text enc v l c). Qed.

Lemma encodeText_layout_witness :
  ∃ data n bpc z m,
    getTotalCodewords 1 kQuartile = Ok n ∧ getBitsPerChar kAlpha_ 1 = Ok bpc
    ∧ encodeText kAlpha_ 1 kQuartile "HELLO WORLD" = Ok data
    ∧ bsize data = n ∧ Forall is_byte data ∧ 0 <= z <= 11
    ∧ bytesBits data
      = bitsBE (getEncodingMode kAlpha_) 4
        ++ bitsBE (Z.of_nat (String.length "HELLO WORLD")) bpc
        ++ segmentBits kAlpha_ "HELLO WORLD"
        ++ replicate (Z.to_nat z) false ++ bytesBits (padding m 0xEC).
Proof.
  apply (encodeText_layout "HELLO WORLD" kAlpha_ 1 kQuartile 16);
    [reflexivity | lia | reflexivity | simpl; lia].
Defined.

(** [encodeText] on a classified text longer than the capacity of the
    version and level: [appendBits] throws, either on a character count
    that does not fit its field or on the negative number of terminator
    bits. *)
Theorem encodeText_overflow (text : string) (enc : Encoding) (v : Z) (l : ErrCor)
    (c : Z) :
  determineEncoding text = Some enc → 1 <= v <= 40 →
  getCapacity enc v l = Ok c →
  c < Z.of_nat (String.length text) < 2 ^ 32 →
  encodeText enc v l text = Throw (LogicError "Out of range").
Proof.
  intros Henc Hv Hc Hlen.
  destruct (capacity_facts enc v l (determineEncoding_supported _ _ Henc) Hv)
    as (n & bpc & c' & Hn & Hbpc & Hc' & Hnr & Hbr & Hav & Hcb).
  rewrite Hc in Hc'. injection Hc' as <-.
  rewrite (getCapacity_available enc v l n bpc Hn Hbpc) in Hc.
  destruct (Z.lt_ge_cases (Z.of_nat (String.length text)) (2 ^ bpc)) as [Hcount|Hcount].
  - rewrite (encodeText_header text enc v l bpc Henc Hbpc Hbr Hcount).
    pose proof (segmentBits_fits text enc _ c Henc Hav Hc) as Hseg.
    pose proof (segmentBits_bound text enc Henc) as Hbound.
    assert (Hpow : 2 ^ bpc <= 2 ^ 16) by (apply Z.pow_le_mono_r; lia).
    unfold terminateAndPack. rewrite Hn. cbn [mbind outcome_bind].
    rewrite (size_t_small n), (size_t_small (n * 8)) by lia.
    rewrite !bsize_app, !bsize_bitsBE by lia.
    rewrite int_of_size_t_wrap by lia.
    rewrite appendBits_throws; [reflexivity | lia | lia].
  - unfold encodeText.
    assert (Hmode : appendBits [] (uint32_of_size_t (getEncodingMode enc)) 4
                    = Ok (bitsBE (getEncodingMode enc) 4)).
    { destruct (determineEncoding_classes text enc Henc) as [[-> _]|[[-> _]|[-> _]]];
        reflexivity. }
    rewrite Hmode. cbn [mbind outcome_bind]. rewrite Hbpc. cbn [mbind outcome_bind].
    rewrite uint32_small by lia.
    rewrite appendBits_throws; [reflexivity | lia | lia].
Qed.

Lemma encodeText_overflow_witness :
  encodeText kNumeric_ 1 kHigh "012345678901234567" = Throw (LogicError "Out of range").
Proof.
  apply (encodeText_overflow _ kNumeric_ 1 kHigh 17);
    [reflexivity | lia | reflexivity | simpl; lia].
Defined.

(** ** GF(256): the product is a field product *)

Section Field.
Variable t : RsTables.
Hypothesis Ht : rsGenerateLogExp initialTables = Ok t.

Lemma generated_exp_log_inverse : forallb (exp_log_inverse t) (upto 0 255) = true.
Proof using Ht. vm_compute in Ht. injection Ht as <-. vm_compute. reflexivity. Qed.



Lemma generated_linear : forallb (gmul_linear t) (upto 0 256) = true.
Proof using Ht. vm_compute in Ht. injection Ht as <-. vm_compute. reflexivity. Qed.



Lemma generated_power (k : Z) :
  0 <= k < 255 →
  ∃ e, vat (rsExp_ t) k = Ok e ∧ 0 < e < 256 ∧ vat (rsLog_ t) e = Ok k.
Proof using Ht.
  intros Hk.
  pose proof (forallb_upto _ 0 255 k generated_exp_log_inverse ltac:(lia)) as H.
  unfold exp_log_inverse in H.
  destruct (vat (rsExp_ t) k) as [e| |]; try discriminate H.
  exists e. apply andb_prop in H as [H1 H2]. apply andb_prop in H1 as [H0 H1].
  destruct (vat (rsLog_ t) e) as [l| |]; try discriminate H2.
  apply Z.eqb_eq in H2. subst l. repeat split; lia.
Qed.

(** The product of two non-zero bytes, through their logarithms. *)
Lemma gmul_logs (x y : Z) :
  0 < x < 256 → 0 < y < 256 →
  ∃ lx ly,
    vat (rsLog_ t) x = Ok lx ∧ vat (rsLog_ t) y = Ok ly
    ∧ 0 <= lx < 255 ∧ 0 <= ly < 255
    ∧ reedSolomonMult t x y = Ok (gmul t x y)
    ∧ vat (rsExp_ t) ((lx + ly) mod 255) = Ok (gmul t x y)
    ∧ 0 < gmul t x y < 256
    ∧ vat (rsLog_ t) (gmul t x y) = Ok ((lx + ly) mod 255).
Proof using Ht.
  intros Hx Hy.
  destruct (generated_log t Ht x Hx) as (lx & Hlx & Hrx & _).
  destruct (generated_log t Ht y Hy) as (ly & Hly & Hry & _).
  pose proof (Z.mod_pos_bound (lx + ly) 255 ltac:(lia)) as Hm.
  destruct (generated_power ((lx + ly) mod 255) Hm) as (e & He & Her & Hle).
  assert (Hmul : reedSolomonMult t x y = Ok e).
  { unfold reedSolomonMult.
    destruct (Z.eqb_spec x 0); [lia|]. destruct (Z.eqb_spec y 0); [lia|].
    simpl. rewrite Hlx, Hly. simpl. rewrite Z.rem_mod_nonneg by lia. exact He. }
  assert (Hg : gmul t x y = e) by (unfold gmul; rewrite Hmul; reflexivity).
  exists lx, ly. rewrite Hg. repeat split; try assumption; lia.
Qed.

Lemma gmul_zero_l (y : Z) : gmul t 0 y = 0.
Proof. reflexivity. Qed.

Lemma gmul_zero_r (x : Z) : gmul t x 0 = 0.
Proof. unfold gmul, reedSolomonMult. destruct (x =? 0); reflexivity. Qed.

Lemma gmul_Ok (x y : Z) :
  is_byte x → is_byte y → reedSolomonMult t x y = Ok (gmul t x y).
Proof using Ht.
  intros Hx Hy.
  destruct (reedSolomonMult_byte t (generated_tables_ok t Ht) x y Hx Hy) as (m & Hm & _).
  unfold gmul. rewrite Hm. reflexivity.
Qed.

Lemma gmul_byte (x y : Z) : is_byte x → is_byte y → is_byte (gmul t x y).
Proof using Ht.
  intros Hx Hy.
  destruct (reedSolomonMult_byte t (generated_tables_ok t Ht) x y Hx Hy) as (m & Hm & Hb).
  unfold gmul. rewrite Hm. exact Hb.
Qed.

Lemma gmul_comm (x y : Z) : gmul t x y = gmul t y x.
Proof.
  unfold gmul, reedSolomonMult. rewrite (andb_comm (negb (x =? 0))).
  destruct (negb (y =? 0) && negb (x =? 0)); [|reflexivity].
  destruct (vat (rsLog_ t) x) as [lx| |], (vat (rsLog_ t) y) as [ly| |];
    simpl; try reflexivity.
  rewrite (Z.add_comm lx ly). reflexivity.
Qed.

Lemma gmul_one_r (x : Z) : is_byte x → gmul t x 1 = x.
Proof using Ht.
  intros Hx. destruct (Z.eq_dec x 0) as [->|Hne]; [reflexivity|].
  assert (Hx' : 0 < x < 256) by (unfold is_byte in Hx; lia).
  destruct (generated_log t Ht x Hx') as (lx & Hlx & Hrx & He).
  unfold gmul, reedSolomonMult.
  destruct (Z.eqb_spec x 0); [lia|]. simpl.
  rewrite Hlx, (generated_log_one t Ht). simpl.
  rewrite Z.add_0_r, Z.rem_small by lia. rewrite He. reflexivity.
Qed.

Lemma gmul_nonzero (x y : Z) :
  is_byte x → is_byte y → gmul t x y = 0 → x = 0 ∨ y = 0.
Proof using Ht.
  intros Hx Hy H.
  destruct (Z.eq_dec x 0) as [|Hx0]; [auto|].
  destruct (Z.eq_dec y 0) as [|Hy0]; [auto|]. exfalso.
  destruct (gmul_logs x y) as (lx & ly & _ & _ & _ & _ & _ & _ & Hr & _);
    unfold is_byte in *; lia.
Qed.

Lemma gmul_assoc (x y z : Z) :
  is_byte x → is_byte y → is_byte z →
  gmul t (gmul t x y) z = gmul t x (gmul t y z).
Proof using Ht.
  intros Hx Hy Hz.
  destruct (Z.eq_dec x 0) as [->|Hx0]; [reflexivity|].
  destruct (Z.eq_dec y 0) as [->|Hy0].
  { rewrite gmul_zero_r, gmul_zero_l, gmul_zero_r. reflexivity. }
  destruct (Z.eq_dec z 0) as [->|Hz0].
  { rewrite !gmul_zero_r. reflexivity. }
  unfold is_byte in *.
  destruct (gmul_logs x y) as (lx & ly & Hlx & Hly & Hrx & Hry & _ & _ & Hxy & Hlxy);
    [lia | lia |].
  destruct (gmul_logs y z) as (ly' & lz & Hly' & Hlz & _ & Hrz & _ & _ & Hyz & Hlyz);
    [lia | lia |].
  rewrite Hly in Hly'. injection Hly' as <-.
  destruct (gmul_logs (gmul t x y) z)
    as (l1 & l2 & H1 & H2 & _ & _ & _ & He1 & _); [lia | lia |].
  destruct (gmul_logs x (gmul t y z))
    as (l3 & l4 & H3 & H4 & _ & _ & _ & He2 & _); [lia | lia |].
  rewrite Hlxy in H1. rewrite Hlz in H2. rewrite Hlx in H3. rewrite Hlyz in H4.
  injection H1 as <-. injection H2 as <-. injection H3 as <-. injection H4 as <-.
  assert (E : ((lx + ly) mod 255 + lz) mod 255 = (lx + (ly + lz) mod 255) mod 255).
  { rewrite Z.add_mod_idemp_l, Z.add_mod_idemp_r by lia. f_equal. lia. }
  rewrite E in He1. rewrite He1 in He2. injection He2 as He2. exact He2.
Qed.

(** Every non-zero byte has an inverse. *)
Lemma gmul_inverse (x : Z) :
  0 < x < 256 → ∃ y, 0 < y < 256 ∧ gmul t x y = 1.
Proof using Ht.
  intros Hx.
  destruct (generated_log t Ht x Hx) as (lx & Hlx & Hrx & He).
  destruct (generated_power ((255 - lx) mod 255)) as (y & Hy & Hyr & Hly).
  { apply Z.mod_pos_bound. lia. }
  exists y. split; [exact Hyr|].
  destruct (gmul_logs x y Hx Hyr) as (l1 & l2 & H1 & H2 & _ & _ & _ & Hexp & _).
  rewrite Hlx in H1. rewrite Hly in H2. injection H1 as <-. injection H2 as <-.
  rewrite Z.add_mod_idemp_r in Hexp by lia.
  replace (lx + (255 - lx)) with (1 * 255) in Hexp by lia.
  rewrite Z.mod_mul in Hexp by lia.
  destruct (generated_power 0 ltac:(lia)) as (e & He0 & _ & Hl0).
  assert (e = 1).
  { pose proof (generated_log_one t Ht) as Hone.
    destruct (generated_log t Ht 1 ltac:(lia)) as (l1 & Hl1 & _ & He1).
    rewrite Hone in Hl1. injection Hl1 as <-. rewrite He0 in He1. congruence. }
  subst e. rewrite He0 in Hexp. congruence.
Qed.

Lemma lxor_shuffle (m u w : Z) (p q : bool) :
  (if xorb p q then Z.lxor m (Z.lxor u w) else Z.lxor u w)
  = Z.lxor (if p then Z.lxor m u else u) (if q then Z.lxor m w else w).
Proof.
  apply Z.bits_inj'. intros n _.
  destruct p, q; simpl; rewrite ?Z.lxor_spec;
    destruct (Z.testbit m n), (Z.testbit u n), (Z.testbit w n); reflexivity.
Qed.

Lemma xorsel_lxor (row : list Z) (a b : Z) :
  xorsel row (Z.lxor a b) = Z.lxor (xorsel row a) (xorsel row b).
Proof.
  unfold xorsel. generalize (zip (upto 0 8) row) as l.
  induction l as [|[i m] l IH]; [reflexivity|].
  cbn [fold_right]. rewrite IH, Z.lxor_spec. apply lxor_shuffle.
Qed.

Lemma gmul_xorsel (x y : Z) :
  is_byte x → is_byte y → gmul t x y = xorsel (gmul_row t x) y.
Proof using Ht.
  unfold is_byte. intros Hx Hy.
  pose proof (forallb_upto _ 0 256 x generated_linear ltac:(lia)) as H.
  unfold gmul_linear in H.
  apply (forallb_upto _ 0 256 y) in H; [|lia].
  apply Z.eqb_eq in H. exact H.
Qed.

Lemma gmul_distr_r (x a b : Z) :
  is_byte x → is_byte a → is_byte b →
  gmul t x (Z.lxor a b) = Z.lxor (gmul t x a) (gmul t x b).
Proof using Ht.
  intros Hx Ha Hb.
  rewrite !gmul_xorsel by (try apply lxor_byte; assumption).
  apply xorsel_lxor.
Qed.

Lemma gmul_distr_l (a b x : Z) :
  is_byte x → is_byte a → is_byte b →
  gmul t (Z.lxor a b) x = Z.lxor (gmul t a x) (gmul t b x).
Proof using Ht.
  intros Hx Ha Hb. rewrite !(gmul_comm _ x). apply gmul_distr_r; assumption.
Qed.
End Field.

(** On the generated tables [reedSolomonMult] returns on all bytes, and the
    product it returns is that of a field with the sum [^]: it is
    commutative and associative, 1 is its unit, it distributes over [^],
    a product is 0 only when a factor is, and every non-zero byte has an
    inverse. *)
Theorem reedSolomonMult_field (t : RsTables) (x y z : Z) :
  rsGenerateLogExp initialTables = Ok t →
  is_byte x → is_byte y → is_byte z →
  ∃ xy yz,
    reedSolomonMult t x y = Ok xy ∧ is_byte xy
    ∧ reedSolomonMult t y z = Ok yz
    ∧ reedSolomonMult t y x = Ok xy
    ∧ reedSolomonMult t xy z = reedSolomonMult t x yz
    ∧ reedSolomonMult t x 1 = Ok x
    ∧ reedSolomonMult t x (Z.lxor y z)
      = (xz ← reedSolomonMult t x z; Ok (Z.lxor xy xz))
    ∧ (xy = 0 → x = 0 ∨ y = 0)
    ∧ (x ≠ 0 → ∃ i, is_byte i ∧ reedSolomonMult t x i = Ok 1).
Proof.
  intros Ht Hx Hy Hz.
  pose proof (gmul_byte t Ht x y Hx Hy) as Hxy.
  pose proof (gmul_byte t Ht y z Hy Hz) as Hyz.
  exists (gmul t x y), (gmul t y z).
  split; [apply gmul_Ok; assumption|]. split; [exact Hxy|].
  split; [apply gmul_Ok; assumption|].
  split; [rewrite (gmul_comm t x y); apply gmul_Ok; assumption|].
  split.
  { rewrite !gmul_Ok by assumption. f_equal. apply gmul_assoc; assumption. }
  split.
  { rewrite gmul_Ok by (try assumption; unfold is_byte; lia).
    f_equal. apply gmul_one_r; assumption. }
  split.
  { rewrite !gmul_Ok by (try apply lxor_byte; assumption).
    cbn [mbind outcome_bind]. f_equal. apply gmul_distr_r; assumption. }
  split; [apply gmul_nonzero; assumption|].
  intros Hx0. destruct (gmul_inverse t Ht x) as (i & Hi & Hone);
    [unfold is_byte in Hx; lia|].
  exists i. split; [unfold is_byte; lia|].
  rewrite gmul_Ok by (try assumption; unfold is_byte; lia). f_equal. exact Hone.
Qed.

Lemma reedSolomonMult_field_witness :
  ∃ t, rsGenerateLogExp initialTables = Ok t
       ∧ ∃ xy yz,
           reedSolomonMult t 3 5 = Ok xy ∧ is_byte xy
           ∧ reedSolomonMult t 5 9 = Ok yz
           ∧ reedSolomonMult t 5 3 = Ok xy
           ∧ reedSolomonMult t xy 9 = reedSolomonMult t 3 yz
           ∧ reedSolomonMult t 3 1 = Ok 3
           ∧ reedSolomonMult t 3 (Z.lxor 5 9)
             = (xz ← reedSolomonMult t 3 9; Ok (Z.lxor xy xz))
           ∧ (xy = 0 → 3 = 0 ∨ 5 = 0)
           ∧ (3 ≠ 0 → ∃ i, is_byte i ∧ reedSolomonMult t 3 i = Ok 1).
Proof.
  destruct (rsGenerateLogExp initialTables) as [t| |] eqn:Ht;
    [| vm_compute in Ht; discriminate Ht ..].
  exists t. split; [reflexivity|].
  apply (reedSolomonMult_field t 3 5 9 Ht); unfold is_byte; lia.
Defined.



(** ** Polynomials over GF(256) *)

Section Polynomials.
Variable t : RsTables.
Hypothesis Ht : rsGenerateLogExp initialTables = Ok t.

Lemma upto_snoc (lo hi : Z) : lo <= hi → upto lo (hi + 1) = upto lo hi ++ [hi].
Proof.
  intros H. rewrite (upto_split lo hi (hi + 1)) by lia.
  rewrite (upto_cons hi) by lia. rewrite (upto_nil (hi + 1)) by lia. reflexivity.
Qed.

(** The product of a polynomial with a constant. *)
Lemma reedSolomonPolyMult_scale (p : list Z) (f : Z) :
  Forall is_byte p → is_byte f → 1 <= bsize p →
  reedSolomonPolyMult t p [f] = Ok (map (fun c => gmul t c f) p).
Proof using Ht.
  intros Hp Hf Hn. unfold reedSolomonPolyMult.
  change (bsize [f]) with 1.
  destruct (Z.eqb_spec (bsize p + 1) 0); [lia|].
  replace (bsize p + 1 - 1) with (bsize p) by lia.
  pose (P := fun (i : Z) (cw : list Z) =>
    bsize cw = bsize p
    ∧ ∀ j c, 0 <= j < i → p !! Z.to_nat j = Some c →
        cw !! Z.to_nat j = Some (gmul t c f)).
  destruct (for_each_upto_total P
    (fun index coeffs =>
       coeff ← for_each (fun p1index coeff =>
           let p2index := index - p1index in
           if (p1index <? bsize p) && (p2index <? 1)
           then a ← vat p p1index; b ← vat [f] p2index;
                m ← reedSolomonMult t a b; Ok (Z.lxor coeff m)
           else Ok coeff)
         (upto 0 (index + 1)) 0;
       vset coeffs index coeff)
    0 (bsize p) (replicate (Z.to_nat (bsize p)) 0)) as (out & Hout & Hlen & Hval).
  - lia.
  - split; [apply bsize_replicate; lia | intros; lia].
  - intros i cw Hi [Hcl Hcv].
    destruct (vat_byte p i Hp Hi) as (a & Ha & Hab).
    rewrite upto_snoc, for_each_app by lia.
    destruct (for_each_upto_total (fun _ c => c = 0)
      (fun p1index coeff =>
         let p2index := i - p1index in
         if (p1index <? bsize p) && (p2index <? 1)
         then a ← vat p p1index; b ← vat [f] p2index;
              m ← reedSolomonMult t a b; Ok (Z.lxor coeff m)
         else Ok coeff) 0 i 0) as (c0 & Hc0 & ->); [lia | reflexivity | |].
    { intros j c Hj ->. exists 0. split; [|reflexivity]. cbv zeta.
      destruct (Z.ltb_spec (i - j) 1); [lia|]. rewrite andb_false_r. reflexivity. }
    rewrite Hc0. cbn [mbind outcome_bind for_each].
    destruct (Z.ltb_spec i (bsize p)); [|lia].
    rewrite Z.sub_diag. cbn [andb Z.ltb Z.compare]. rewrite Ha.
    cbn [mbind outcome_bind]. change (vat [f] 0) with (Ok f).
    cbn [mbind outcome_bind]. rewrite (gmul_Ok t Ht a f Hab Hf).
    cbn [mbind outcome_bind]. rewrite Z.lxor_0_l.
    eexists. split.
    + apply vset_Ok. split; [lia | reflexivity].
    + split; [unfold bsize in *; rewrite length_insert; exact Hcl|].
      intros j c Hj Hc.
      destruct (Z.eq_dec j i) as [->|Hne].
      * apply vat_Ok in Ha as [_ Ha]. rewrite Ha in Hc. injection Hc as <-.
        apply list_lookup_insert_eq. unfold bsize in *. lia.
      * rewrite list_lookup_insert_ne by lia. apply Hcv; [lia | exact Hc].
  - transitivity (Ok out); [exact Hout|]. f_equal. apply list_eq. intros k.
    rewrite list_lookup_fmap.
    destruct (p !! k) as [c|] eqn:Hc; simpl.
    + assert (Hk : (k < length p)%nat) by (apply lookup_lt_is_Some; eauto).
      rewrite <- (Nat2Z.id k). apply Hval; [unfold bsize; lia|].
      rewrite Nat2Z.id. exact Hc.
    + apply lookup_ge_None. apply lookup_ge_None in Hc. unfold bsize in Hlen. lia.
Qed.

(** [xorInto] adds the two polynomials coefficient by coefficient. *)
Lemma xorInto_zip (remainder subtr : list Z) :
  bsize subtr = bsize remainder →
  xorInto remainder subtr = Ok (zip_with Z.lxor remainder subtr).
Proof.
  intros Hlen. unfold xorInto.
  pose (P := fun (i : Z) (r : list Z) =>
    bsize r = bsize remainder
    ∧ ∀ j : nat,
        r !! j = if decide (Z.of_nat j < i)
                 then zip_with Z.lxor remainder subtr !! j
                 else remainder !! j).
  destruct (for_each_upto_total P
    (fun index remainder =>
       r ← vat remainder index; s ← vat subtr index;
       vset remainder index (Z.lxor r s))
    0 (bsize remainder) remainder) as (out & Hout & Hol & Hov).
  - unfold bsize. lia.
  - split; [reflexivity|]. intros j. destruct (decide (Z.of_nat j < 0)); [lia|reflexivity].
  - intros i r Hi [Hrl Hrv].
    destruct (vat_in_range r i ltac:(lia)) as [a Ha].
    destruct (vat_in_range subtr i ltac:(lia)) as [b Hb].
    rewrite Ha, Hb. cbn [mbind outcome_bind].
    eexists. split; [apply vset_Ok; split; [lia | reflexivity]|].
    split; [unfold bsize in *; rewrite length_insert; exact Hrl|].
    intros j. destruct (Nat.eq_dec j (Z.to_nat i)) as [->|Hne].
    + rewrite list_lookup_insert_eq by (unfold bsize in *; lia).
      destruct (decide (Z.of_nat (Z.to_nat i) < i + 1)); [|lia].
      apply vat_Ok in Ha as [_ Ha]. apply vat_Ok in Hb as [_ Hb].
      rewrite Hrv in Ha. destruct (decide (Z.of_nat (Z.to_nat i) < i)); [lia|].
      rewrite lookup_zip_with, Ha, Hb. reflexivity.
    + rewrite list_lookup_insert_ne by lia. rewrite Hrv.
      destruct (decide (Z.of_nat j < i)), (decide (Z.of_nat j < i + 1));
        try reflexivity; lia.
  - rewrite Hout. f_equal. apply list_eq. intros j. rewrite Hov.
    destruct (decide (Z.of_nat j < bsize remainder)) as [|Hge]; [reflexivity|].
    rewrite (proj2 (lookup_ge_None remainder j)) by (unfold bsize in Hge; lia).
    symmetry. apply lookup_ge_None. rewrite length_zip_with.
    unfold bsize in Hge. lia.
Qed.

Lemma zero_byte : is_byte 0.
Proof. unfold is_byte. lia. Qed.

Lemma horner_byte (a u : Z) (p : list Z) :
  is_byte a → is_byte u → Forall is_byte p → is_byte (horner t a u p).
Proof using Ht.
  intros Ha Hu Hp. revert u Hu. unfold horner.
  induction Hp as [|c p Hc _ IH]; intros u Hu; [exact Hu|].
  cbn [fold_left]. apply IH. apply lxor_byte; [apply gmul_byte; assumption | exact Hc].
Qed.

Lemma horner_app (a u : Z) (p q : list Z) :
  horner t a u (p ++ q) = horner t a (horner t a u p) q.
Proof. unfold horner. apply fold_left_app. Qed.

Lemma horner_zeros (a : Z) (k : nat) : horner t a 0 (replicate k 0) = 0.
Proof.
  unfold horner. induction k as [|k IH]; [reflexivity|].
  cbn [replicate fold_left]. rewrite gmul_zero_l. exact IH.
Qed.

Lemma lxor_swap (a b c d : Z) :
  Z.lxor (Z.lxor a b) (Z.lxor c d) = Z.lxor (Z.lxor a c) (Z.lxor b d).
Proof.
  rewrite !Z.lxor_assoc. f_equal.
  rewrite <- !Z.lxor_assoc. f_equal. apply Z.lxor_comm.
Qed.

(** The value of a sum is the sum of the values. *)
Lemma horner_lxor (a u w : Z) (p q : list Z) :
  is_byte a → is_byte u → is_byte w →
  Forall is_byte p → Forall is_byte q → length p = length q →
  horner t a (Z.lxor u w) (zip_with Z.lxor p q)
  = Z.lxor (horner t a u p) (horner t a w q).
Proof using Ht.
  intros Ha Hu Hw Hp. revert u w q Hu Hw.
  induction Hp as [|c p Hc _ IH]; intros u w q Hu Hw Hq Hlen.
  - destruct q; [reflexivity | discriminate Hlen].
  - destruct q as [|d q]; [discriminate Hlen|].
    apply Forall_cons in Hq as [Hd Hq]. injection Hlen as Hlen.
    unfold horner in *. cbn [zip_with fold_left].
    rewrite (gmul_distr_l t Ht u w a Ha Hu Hw), lxor_swap.
    apply IH; try assumption; apply lxor_byte; try assumption;
      apply gmul_byte; assumption.
Qed.

(** The value of a multiple is the multiple of the value. *)
Lemma horner_scale (a u f : Z) (p : list Z) :
  is_byte a → is_byte u → is_byte f → Forall is_byte p →
  horner t a (gmul t u f) (map (fun c => gmul t c f) p)
  = gmul t (horner t a u p) f.
Proof using Ht.
  intros Ha Hu Hf Hp. revert u Hu.
  induction Hp as [|c p Hc _ IH]; intros u Hu; [reflexivity|].
  unfold horner in *. cbn [map fold_left].
  replace (Z.lxor (gmul t (gmul t u f) a) (gmul t c f))
    with (gmul t (Z.lxor (gmul t u a) c) f).
  - apply IH. apply lxor_byte; [apply gmul_byte|]; assumption.
  - rewrite (gmul_distr_l t Ht) by (try apply gmul_byte; assumption).
    f_equal. rewrite !(gmul_assoc t Ht) by assumption.
    f_equal. apply gmul_comm.
Qed.

Lemma zip_lxor_zeros_r (p : list Z) (k : nat) :
  (length p <= k)%nat → zip_with Z.lxor p (replicate k 0) = p.
Proof.
  revert k. induction p as [|c p IH]; intros k Hk; [reflexivity|].
  destruct k as [|k]; [simpl in Hk; lia|]. cbn [replicate zip_with].
  rewrite Z.lxor_0_r, IH by (simpl in Hk; lia). reflexivity.
Qed.

Lemma zip_lxor_zeros_l (p : list Z) :
  zip_with Z.lxor (replicate (length p) 0) p = p.
Proof.
  induction p as [|c p IH]; [reflexivity|].
  cbn [length replicate zip_with]. rewrite Z.lxor_0_l, IH. reflexivity.
Qed.

Lemma reedSolomonDiv_by_one (x : Z) :
  0 < x < 256 → reedSolomonDiv t x 1 = Ok x.
Proof using Ht.
  intros Hx. destruct (generated_log t Ht x Hx) as (lx & Hl & Hr & He).
  unfold reedSolomonDiv. rewrite Hl, (generated_log_one t Ht).
  cbn [mbind outcome_bind]. rewrite Z.add_0_r, Z.rem_small by lia. exact He.
Qed.

(** One turn of the division by a polynomial with leading coefficient 1:
    the multiple of the divisor that cancels the first coefficient is
    added to the rest. *)
Lemma polyDivStep_monic (g rest : list Z) (r0 : Z) :
  Forall is_byte g → is_byte r0 → Forall is_byte rest →
  (length g <= length rest)%nat →
  polyDivStep t (1 :: g) (r0 :: rest)
  = Ok (zip_with Z.lxor rest
          (map (fun c => gmul t c r0) g
           ++ replicate (length rest - length g) 0)).
Proof using Ht.
  intros Hg Hr0 Hrest Hlen. unfold polyDivStep.
  change (raw_at (r0 :: rest) 0) with (Ok r0). cbn [mbind outcome_bind].
  destruct (Z.eqb_spec r0 0) as [->|Hne]; cbn [negb].
  - change (drop 1 (0 :: rest)) with rest. f_equal.
    assert (Hz : map (fun c => gmul t c 0) g = replicate (length g) 0).
    { apply map_const. intros c _. apply gmul_zero_r. }
    rewrite Hz, <- replicate_add.
    symmetry. apply zip_lxor_zeros_r. lia.
  - change (vat (r0 :: rest) 0) with (Ok r0).
    change (vat (1 :: g) 0) with (Ok 1). cbn [mbind outcome_bind].
    rewrite reedSolomonDiv_by_one by (unfold is_byte in Hr0; lia).
    cbn [mbind outcome_bind].
    rewrite reedSolomonPolyMult_scale;
      [| apply Forall_cons; split; [unfold is_byte; lia | exact Hg]
       | exact Hr0 | unfold bsize; simpl; lia].
    cbn [mbind outcome_bind map].
    rewrite (gmul_comm t 1 r0), (gmul_one_r t Ht r0 Hr0).
    unfold copyInto.
    destruct (Z.ltb_spec (bsize (replicate (length (r0 :: rest)) 0))
                (bsize (r0 :: map (fun c => gmul t c r0) g))) as [Hlt|_].
    { unfold bsize in Hlt. rewrite length_replicate in Hlt.
      simpl in Hlt. rewrite length_map in Hlt. lia. }
    cbn [mbind outcome_bind].
    rewrite xorInto_zip.
    + cbn [mbind outcome_bind]. f_equal.
      cbn [length replicate app drop zip_with]. rewrite ?drop_0.
      rewrite length_map. rewrite drop_replicate. reflexivity.
    + unfold bsize. rewrite length_app, length_drop, length_replicate.
      simpl. rewrite length_map. lia.
Qed.

Lemma zip_lxor_byte (p q : list Z) :
  Forall is_byte p → Forall is_byte q → Forall is_byte (zip_with Z.lxor p q).
Proof.
  intros Hp. revert q. induction Hp as [|c p Hc _ IH]; intros q Hq; [constructor|].
  destruct Hq as [|d q Hd Hq]; [constructor|].
  cbn [zip_with]. constructor; [apply lxor_byte; assumption | apply IH, Hq].
Qed.

Lemma peval_cons (a c : Z) (p : list Z) : peval t a (c :: p) = horner t a c p.
Proof. unfold peval, horner. cbn [fold_left]. rewrite gmul_zero_l, Z.lxor_0_l. reflexivity. Qed.

(** At a root of the divisor the division step keeps the value. *)
Lemma polyDivStep_eval (a r0 : Z) (g rest : list Z) :
  is_byte a → Forall is_byte g → is_byte r0 → Forall is_byte rest →
  (length g <= length rest)%nat →
  peval t a (1 :: g) = 0 →
  peval t a (zip_with Z.lxor rest
               (map (fun c => gmul t c r0) g
                ++ replicate (length rest - length g) 0))
  = peval t a (r0 :: rest).
Proof using Ht.
  intros Ha Hg Hr0 Hrest Hlen Hroot. rewrite peval_cons in *.
  unfold peval.
  set (S := map (fun c => gmul t c r0) g ++ replicate (length rest - length g) 0).
  assert (Hmap : Forall is_byte (map (fun c => gmul t c r0) g)).
  { apply Forall_fmap. eapply Forall_impl; [exact Hg|].
    intros c Hc. apply gmul_byte; assumption. }
  transitivity (horner t a (Z.lxor r0 r0) (zip_with Z.lxor rest S));
    [rewrite Z.lxor_nilpotent; reflexivity|].
  rewrite horner_lxor; try assumption.
  - unfold S. rewrite horner_app.
    rewrite <- (gmul_one_r t Ht r0 Hr0) at 2. rewrite (gmul_comm t r0 1).
    rewrite horner_scale by (try assumption; unfold is_byte; lia).
    rewrite Hroot, gmul_zero_l, horner_zeros. apply Z.lxor_0_r.
  - apply Forall_app. split; [exact Hmap | apply replicate_byte].
  - unfold S. rewrite length_app, length_map, length_replicate. lia.
Qed.

(** The division loop on a divisor with leading coefficient 1: it
    returns, and at every root of the divisor the remainder has the value
    of the dividend. *)
Lemma polyDivLoop_eval (g : list Z) (count : nat) (remainder : list Z) :
  Forall is_byte g → Forall is_byte remainder →
  length remainder = (count + length g)%nat →
  ∃ r, polyDivLoop t count (1 :: g) remainder = Ok r
       ∧ Forall is_byte r ∧ length r = length g
       ∧ ∀ a, is_byte a → peval t a (1 :: g) = 0 →
           peval t a r = peval t a remainder.
Proof using Ht.
  intros Hg. revert remainder.
  induction count as [|count IH]; intros remainder Hr Hlen.
  - exists remainder. split; [reflexivity|]. auto.
  - destruct remainder as [|r0 rest]; [discriminate Hlen|].
    apply Forall_cons in Hr as [Hr0 Hrest]. injection Hlen as Hlen.
    cbn [polyDivLoop].
    rewrite polyDivStep_monic by (try assumption; lia).
    cbn [mbind outcome_bind].
    set (S := map (fun c => gmul t c r0) g ++ replicate (length rest - length g) 0).
    assert (HS : Forall is_byte S).
    { apply Forall_app. split; [|apply replicate_byte].
      apply Forall_fmap. eapply Forall_impl; [exact Hg|].
      intros c Hc. apply gmul_byte; assumption. }
    assert (HSl : length S = length rest).
    { unfold S. rewrite length_app, length_map, length_replicate. lia. }
    destruct (IH (zip_with Z.lxor rest S)) as (r & Hloop & Hrb & Hrl & Heval).
    + apply zip_lxor_byte; assumption.
    + rewrite length_zip_with. lia.
    + exists r. split; [exact Hloop|]. split; [exact Hrb|]. split; [exact Hrl|].
      intros a Ha Hroot. rewrite (Heval a Ha Hroot).
      apply polyDivStep_eval; try assumption. lia.
Qed.
End Polynomials.

Lemma generated_generator (t : RsTables) :
  rsGenerateLogExp initialTables = Ok t →
  forallb (generator_ok t) (upto 0 31) = true.
Proof. intros Ht. vm_compute in Ht. injection Ht as <-. vm_compute. reflexivity. Qed.

Lemma generator_facts (t : RsTables) (degree : Z) :
  rsGenerateLogExp initialTables = Ok t → 0 <= degree <= 30 →
  ∃ g, rsGeneratePoly t degree = Ok (1 :: g)
       ∧ bsize g = degree ∧ Forall is_byte g
       ∧ ∀ i a, 0 <= i < degree → vat (rsExp_ t) i = Ok a →
           peval t a (1 :: g) = 0.
Proof.
  intros Ht Hd.
  pose proof (forallb_upto _ 0 31 degree (generated_generator t Ht) ltac:(lia)) as H.
  unfold generator_ok in H.
  destruct (rsGeneratePoly t degree) as [[|c g]| |]; try discriminate H.
  repeat (apply andb_prop in H as [H ?]).
  apply Z.eqb_eq in H. subst c. exists g. split; [reflexivity|].
  split; [lia|]. split.
  - match goal with Hf : forallb _ g = true |- _ =>
      apply Is_true_true, forallb_True in Hf;
      eapply Forall_impl; [exact Hf|] end.
    intros c Hc. apply Is_true_true in Hc. unfold is_byte. lia.
  - intros i a Hi Ha.
    match goal with Hf : forallb _ (upto 0 degree) = true |- _ =>
      apply (forallb_upto _ 0 degree i) in Hf; [|lia];
      cbv beta in Hf; rewrite Ha in Hf; apply Z.eqb_eq in Hf; exact Hf end.
Qed.

Lemma generateEDC_multiple (t : RsTables) (data : list Z) (codewords : Z) :
  rsGenerateLogExp initialTables = Ok t →
  Forall is_byte data → 0 <= codewords - bsize data <= 30 →
  ∃ edc,
    generateEDC t data codewords = Ok edc
    ∧ bsize edc = codewords - bsize data ∧ Forall is_byte edc
    ∧ ∀ i a, 0 <= i < codewords - bsize data → vat (rsExp_ t) i = Ok a →
        peval t a (data ++ edc) = 0.
Proof.
  intros Ht Hdata Hdeg. unfold generateEDC.
  assert (Hn : 0 <= bsize data) by (unfold bsize; lia).
  destruct (Z.ltb_spec codewords 0); [lia|].
  rewrite int_of_size_t_wrap by lia.
  unfold copyInto. rewrite bsize_replicate by lia.
  destruct (Z.ltb_spec codewords (bsize data)); [lia|].
  cbn [mbind outcome_bind].
  destruct (generator_facts t (codewords - bsize data) Ht Hdeg)
    as (g & -> & Hgl & Hg & Hroots).
  cbn [mbind outcome_bind].
  rewrite drop_replicate.
  set (E := codewords - bsize data) in *.
  replace (Z.to_nat codewords - length data)%nat with (Z.to_nat E)
    by (unfold E, bsize; lia).
  unfold reedSolomonPolyDiv.
  assert (Hml : bsize (data ++ replicate (Z.to_nat E) 0) = bsize data + E).
  { rewrite bsize_app, bsize_replicate by lia. reflexivity. }
  assert (Hgl' : bsize (1 :: g) = E + 1) by (unfold bsize in *; simpl; lia).
  rewrite Hml, Hgl'.
  destruct (Z.leb_spec (E + 1) (bsize data + E + 1)); [|lia].
  replace (Z.to_nat (bsize data + E - (E + 1) + 1)) with (length data)
    by (unfold bsize; lia).
  destruct (polyDivLoop_eval t Ht g (length data) (data ++ replicate (Z.to_nat E) 0))
    as (r & Hr & Hrb & Hrl & Heval).
  - exact Hg.
  - apply Forall_app. split; [exact Hdata | apply replicate_byte].
  - rewrite length_app, length_replicate. unfold bsize in Hgl. lia.
  - exists r. split; [exact Hr|]. split; [unfold bsize in *; lia|].
    split; [exact Hrb|].
    intros i a Hi Ha.
    assert (Hab : is_byte a).
    { destruct (tables_exp t (generated_tables_ok t Ht) i ltac:(lia)) as (e & He & Heb).
      rewrite Ha in He. injection He as <-. exact Heb. }
    pose proof (Heval a Hab (Hroots i a Hi Ha)) as Hsame.
    unfold peval in *. rewrite horner_app in *.
    set (u := horner t a 0 data) in *.
    assert (Hu : is_byte u) by (apply horner_byte; [exact Ht | exact Hab | apply zero_byte | exact Hdata]).
    rewrite <- (Z.lxor_0_r u), <- (zip_lxor_zeros_l r) at 1.
    rewrite (horner_lxor t Ht a u 0);
      [| exact Hab | exact Hu | apply zero_byte | apply replicate_byte | exact Hrb
       | rewrite length_replicate; reflexivity].
    replace (length r) with (Z.to_nat E) by (unfold bsize in Hgl; lia).
    rewrite <- Hsame. apply Z.lxor_nilpotent.
Qed.

(** The generator polynomial of a degree up to 30, the most a block of
    the tables needs: [rsGeneratePoly] returns [degree + 1] bytes, the
    first of them 1, and the polynomial vanishes at [rsExp_[0]], ...,
    [rsExp_[degree - 1]]. *)
Theorem rsGeneratePoly_roots (t : RsTables) (degree : Z) :
  rsGenerateLogExp initialTables = Ok t → 0 <= degree <= 30 →
  ∃ g, rsGeneratePoly t degree = Ok (1 :: g)
       ∧ bsize (1 :: g) = degree + 1 ∧ Forall is_byte g
       ∧ ∀ i a, 0 <= i < degree → vat (rsExp_ t) i = Ok a →
           peval t a (1 :: g) = 0.
Proof.
  intros Ht Hd. destruct (generator_facts t degree Ht Hd) as (g & Hg & Hl & Hb & Hr).
  exists g. split; [exact Hg|]. split; [|split; assumption].
  unfold bsize in *. simpl length. lia.
Qed.

Lemma rsGeneratePoly_roots_witness :
  ∃ t, rsGenerateLogExp initialTables = Ok t
       ∧ ∃ g, rsGeneratePoly t 2 = Ok (1 :: g)
              ∧ bsize (1 :: g) = 2 + 1 ∧ Forall is_byte g
              ∧ ∀ i a, 0 <= i < 2 → vat (rsExp_ t) i = Ok a →
                  peval t a (1 :: g) = 0.
Proof.
  destruct (rsGenerateLogExp initialTables) as [t| |] eqn:Ht;
    [| vm_compute in Ht; discriminate Ht ..].
  exists t. split; [reflexivity|].
  apply (rsGeneratePoly_roots t 2 Ht). lia.
Defined.

(** Lines 479-491 for up to 30 error correction codewords, the most a block
    of the tables has: [generateEDC] returns [codewords - data.size()]
    bytes, and the data followed by them is a multiple of the generator
    polynomial: as a polynomial over GF(256), highest coefficient first, it
    vanishes at [rsExp_[0]], ..., [rsExp_[degree - 1]]. *)
Theorem generateEDC_codeword (t : RsTables) (data : list Z) (codewords : Z) :
  rsGenerateLogExp initialTables = Ok t →
  Forall is_byte data → 0 <= codewords - bsize data <= 30 →
  ∃ edc,
    generateEDC t data codewords = Ok edc
    ∧ bsize edc = codewords - bsize data ∧ Forall is_byte edc
    ∧ ∀ i a, 0 <= i < codewords - bsize data → vat (rsExp_ t) i = Ok a →
        peval t a (data ++ edc) = 0.
Proof. exact (generateEDC_multiple t data codewords). Qed.

Lemma generateEDC_codeword_witness :
  ∃ t, rsGenerateLogExp initialTables = Ok t
       ∧ ∃ edc,
           generateEDC t helloData 26 = Ok edc
           ∧ bsize edc = 26 - bsize helloData ∧ Forall is_byte edc
           ∧ ∀ i a, 0 <= i < 26 - bsize helloData → vat (rsExp_ t) i = Ok a →
               peval t a (helloData ++ edc) = 0.
Proof.
  destruct (rsGenerateLogExp initialTables) as [t| |] eqn:Ht;
    [| vm_compute in Ht; discriminate Ht ..].
  exists t. split; [reflexivity|].
  apply (generateEDC_codeword t helloData 26 Ht).
  - repeat (constructor; [unfold is_byte; lia|]). constructor.
  - change (bsize helloData) with 13. lia.
Defined.

(** [rsGeneratePoly] outside the table of powers: the loop index is a
    [std::size_t], so that a negative degree, like a degree above 256,
    runs up to [rsExp_.at(256)], which throws. *)
Theorem rsGeneratePoly_out_of_range (t : RsTables) (degree : Z) :
  rsGenerateLogExp initialTables = Ok t →
  degree < 0 ∨ 256 < degree →
  rsGeneratePoly t degree = Throw OutOfRange.
Proof.
  intros Ht Hd. unfold rsGeneratePoly.
  set (hi := if degree <? 0 then 257 else degree).
  assert (Hhi : 257 <= hi) by (unfold hi; destruct (Z.ltb_spec degree 0); lia).
  clearbody hi.
  rewrite (upto_split 0 256 hi), (upto_cons 256 hi) by lia.
  pose proof (generated_tables_ok t Ht) as Hok.
  destruct (for_each_upto_total
    (fun i p => Forall is_byte p ∧ bsize p = i + 1)
    (fun i lastPoly => e ← vat (rsExp_ t) i; reedSolomonPolyMult t lastPoly [1; e])
    0 256 [1]) as (p & Hp & _).
  - lia.
  - split; [constructor; [unfold is_byte; lia | constructor] | reflexivity].
  - intros i q Hi [Hq Hql].
    destruct (tables_exp t Hok i ltac:(lia)) as (e & -> & He).
    cbn [mbind outcome_bind].
    destruct (reedSolomonPolyMult_byte t Hok q [1; e] Hq) as (out & Hout & Hob & Hol).
    + constructor; [unfold is_byte; lia|]. constructor; [exact He|]. constructor.
    + lia.
    + unfold bsize. simpl. lia.
    + exists out. split; [exact Hout|]. split; [exact Hob|].
      rewrite Hol. change (bsize [1; e]) with 2. lia.
  - apply (for_each_Throw _ _ _ _ _ p); [exact Hp|].
    rewrite vat_out_of_range; [reflexivity|].
    rewrite (generated_exp_size t Ht). lia.
Qed.

Lemma rsGeneratePoly_out_of_range_witness :
  ∃ t, rsGenerateLogExp initialTables = Ok t
       ∧ rsGeneratePoly t (-1) = Throw OutOfRange.
Proof.
  destruct (rsGenerateLogExp initialTables) as [t| |] eqn:Ht;
    [| vm_compute in Ht; discriminate Ht ..].
  exists t. split; [reflexivity|].
  apply (rsGeneratePoly_out_of_range t (-1) Ht). lia.
Defined.

(** ** Blocks with their error correction codewords *)

Lemma ecc_ok_all (version : Z) (level : ErrCor) :
  1 <= version <= 40 → ecc_ok version level = true.
Proof.
  intros Hv.
  assert (Hall : forallb (fun v => forallb (ecc_ok v) levels) (upto 1 41) = true)
    by (vm_compute; reflexivity).
  apply (forallb_upto _ 1 41 version) in Hall; [|lia].
  apply (forallb_elem _ _ level) in Hall; [exact Hall | apply elem_of_levels].
Qed.

Lemma vrange_size (data : list Z) (j k : Z) (block : list Z) :
  vrange data j k = Ok block →
  bsize block = k - j ∧ (Forall is_byte data → Forall is_byte block).
Proof.
  unfold vrange. intros H.
  destruct (Z.leb_spec 0 j); [|discriminate H].
  destruct (Z.leb_spec j k); [|discriminate H].
  destruct (Z.leb_spec k (bsize data)); [|discriminate H].
  injection H as <-. split.
  - unfold bsize in *. rewrite length_take, length_drop. lia.
  - intros Hd. apply Forall_take, Forall_drop, Hd.
Qed.

(** The loop of lines 506-523 next to the cut of the data: block [i] is
    data block [i], padded when short, and the bytes of [generateEDC],
    with which it is a multiple of the generator polynomial. *)
Lemma splitBlocks_multiples (t : RsTables) (g : BlockGeometry)
    (data : list Z) (blocks : list (list Z)) :
  rsGenerateLogExp initialTables = Ok t →
  Forall is_byte data → 0 <= ECC_per_block g <= 30 → 0 <= num_blocks g →
  dataBlocks g data = Ok blocks →
  ∃ split_blocks,
    splitBlocks t g data = Ok split_blocks
    ∧ bsize split_blocks = num_blocks g
    ∧ ∀ (i : nat) block, blocks !! i = Some block →
        ∃ edc,
          split_blocks !! i = Some (padBlock g (Z.of_nat i) block ++ edc)
          ∧ bsize block
            = short_block_len g - ECC_per_block g
              + (if Z.of_nat i <? num_short_blocks g then 0 else 1)
          ∧ bsize edc = ECC_per_block g
          ∧ Forall is_byte block ∧ Forall is_byte edc
          ∧ ∀ k a, 0 <= k < ECC_per_block g → vat (rsExp_ t) k = Ok a →
              peval t a (block ++ edc) = 0.
Proof.
  intros Ht Hdata HE HB Hrun. unfold dataBlocks in Hrun. unfold splitBlocks.
  apply bind_Ok in Hrun as ([j dbs] & Hrun & H). injection H as ->.
  eapply (for_each_upto_sim
    (fun i '(j1, dbs) '(j2, sbs) =>
       j1 = j2 ∧ bsize dbs = i ∧ bsize sbs = i
       ∧ ∀ (k : nat) block, dbs !! k = Some block →
           ∃ edc,
             sbs !! k = Some (padBlock g (Z.of_nat k) block ++ edc)
             ∧ bsize block
               = short_block_len g - ECC_per_block g
                 + (if Z.of_nat k <? num_short_blocks g then 0 else 1)
             ∧ bsize edc = ECC_per_block g
             ∧ Forall is_byte block ∧ Forall is_byte edc
             ∧ ∀ m a, 0 <= m < ECC_per_block g → vat (rsExp_ t) m = Ok a →
                 peval t a (block ++ edc) = 0)
    _ _ 0 (num_blocks g) (0, []) _ (0, [])) in Hrun.
  - destruct Hrun as ([j2 sbs] & Hrun2 & _ & _ & Hn2 & Hrel).
    exists sbs. rewrite Hrun2. cbn [mbind outcome_bind].
    split; [reflexivity|]. split; [exact Hn2 | exact Hrel].
  - exact HB.
  - repeat split. intros k b Hk. discriminate Hk.
  - intros i [j1 dbs1] [j2 sbs] [j1' dbs1'] Hi (<- & Hn1 & Hn2 & Hrel) Hstep.
    apply bind_Ok in Hstep as (block & Hcut & Hstep). injection Hstep as <- <-.
    rewrite Hcut. cbn [mbind outcome_bind].
    pose proof Hcut as Hsize. unfold cutBlock in Hsize.
    apply vrange_size in Hsize as [Hsize Hbytes]. specialize (Hbytes Hdata).
    destruct (generateEDC_multiple t block
                (short_block_len g + (if i <? num_short_blocks g then 0 else 1)) Ht Hbytes)
      as (edc & Hedc & Hel & Heb & Hroots).
    { rewrite Hsize. destruct (i <? num_short_blocks g); lia. }
    rewrite Hedc. cbn [mbind outcome_bind].
    eexists. split; [reflexivity|].
    assert (HEl : bsize edc = ECC_per_block g)
      by (rewrite Hel, Hsize; destruct (i <? num_short_blocks g); lia).
    split; [reflexivity|]. split; [rewrite bsize_app; change (bsize [block]) with 1; lia|].
    split; [rewrite bsize_app; unfold bsize at 2; simpl; lia|].
    intros k b Hk. apply lookup_app_Some in Hk as [Hk|[Hge Hk]].
    + destruct (Hrel k b Hk) as (edc' & Hs & Hrest).
      exists edc'. split; [apply lookup_app_l_Some, Hs | exact Hrest].
    + apply list_lookup_singleton_Some in Hk as [Hk0 <-].
      assert (Hki : Z.of_nat k = i) by (unfold bsize in *; lia).
      exists edc. rewrite Hki. split.
      * rewrite lookup_app_r by (unfold bsize in *; lia).
        replace (k - length sbs)%nat with 0%nat by (unfold bsize in *; lia).
        reflexivity.
      * split; [rewrite Hsize; destruct (i <? num_short_blocks g); lia|].
        split; [exact HEl|]. split; [exact Hbytes|]. split; [exact Heb|].
        intros m a Hm Ha. apply (Hroots m a); [lia | exact Ha].
Qed.

(** The loop of lines 527-532 on blocks of one length: every byte but the
    padding of the short blocks is appended. *)
Lemma interleave_length (g : BlockGeometry) (split_blocks : list (list Z)) :
  1 <= bsize split_blocks →
  Forall (fun b => bsize b = short_block_len g + 1 ∧ Forall is_byte b) split_blocks →
  0 <= short_block_len g - ECC_per_block g <= short_block_len g →
  0 <= num_short_blocks g <= bsize split_blocks →
  ∃ out,
    interleave g split_blocks = Ok out
    ∧ bsize out
      = (short_block_len g + 1) * bsize split_blocks - num_short_blocks g
    ∧ Forall is_byte out.
Proof.
  intros HB Hblocks Hi0 Hnsb. unfold interleave.
  destruct (vat_in_range split_blocks 0 ltac:(lia)) as [first Hfirst].
  rewrite Hfirst. cbn [mbind outcome_bind].
  assert (Hfl : bsize first = short_block_len g + 1).
  { apply vat_Ok in Hfirst as [_ Hfirst].
    apply (Forall_lookup_1 _ _ _ _ Hblocks Hfirst). }
  rewrite Hfl.
  set (B := bsize split_blocks) in *. set (i0 := short_block_len g - ECC_per_block g) in *.
  set (nsb := num_short_blocks g) in *.
  destruct (for_each_upto_total
    (fun i acc => Forall is_byte acc
                  ∧ bsize acc = i * B - (if i0 <? i then nsb else 0))
    (fun i EDC_interleave =>
       for_each (fun j EDC_interleave =>
           if negb (i =? i0) || (nsb <=? j)
           then blk ← vat split_blocks j; b ← vat blk i;
                Ok (EDC_interleave ++ [b])
           else Ok EDC_interleave)
         (upto 0 B) EDC_interleave)
    0 (short_block_len g + 1) []) as (out & Hout & Hob & Hol).
  - lia.
  - split; [constructor|]. destruct (Z.ltb_spec i0 0); [lia | reflexivity].
  - intros i acc Hi [Hacc Hal].
    destruct (for_each_upto_total
      (fun j acc' => Forall is_byte acc'
                     ∧ bsize acc'
                       = bsize acc + (if i =? i0 then Z.max 0 (j - nsb) else j))
      (fun j EDC_interleave =>
         if negb (i =? i0) || (nsb <=? j)
         then blk ← vat split_blocks j; b ← vat blk i;
              Ok (EDC_interleave ++ [b])
         else Ok EDC_interleave)
      0 B acc) as (acc' & Hacc' & Hab & Hasz).
    + lia.
    + split; [exact Hacc|]. destruct (i =? i0); lia.
    + intros j a Hj [Ha Hasz].
      destruct (vat_in_range split_blocks j ltac:(fold B; lia)) as [blk Hblk].
      assert (Hbp : bsize blk = short_block_len g + 1 ∧ Forall is_byte blk).
      { apply vat_Ok in Hblk as [_ Hblk].
        apply (Forall_lookup_1 _ _ _ _ Hblocks Hblk). }
      destruct Hbp as [Hbl Hbb].
      destruct (vat_byte blk i Hbb ltac:(lia)) as (b & Hb & Hbyte).
      destruct (Z.eqb_spec i i0) as [Ei|Ei]; cbn [negb orb].
      * destruct (Z.leb_spec nsb j).
        -- rewrite Hblk. cbn [mbind outcome_bind]. rewrite Hb. cbn [mbind outcome_bind].
           eexists. split; [reflexivity|]. split.
           ++ apply Forall_app. split; [exact Ha | constructor; [exact Hbyte | constructor]].
           ++ rewrite bsize_app. change (bsize [b]) with 1. lia.
        -- eexists. split; [reflexivity|]. split; [exact Ha | lia].
      * rewrite Hblk. cbn [mbind outcome_bind]. rewrite Hb. cbn [mbind outcome_bind].
        eexists. split; [reflexivity|]. split.
        -- apply Forall_app. split; [exact Ha | constructor; [exact Hbyte | constructor]].
        -- rewrite bsize_app. change (bsize [b]) with 1. lia.
    + exists acc'. split; [exact Hacc'|]. split; [exact Hab|].
      rewrite Hasz, Hal.
      destruct (Z.eqb_spec i i0), (Z.ltb_spec i0 i), (Z.ltb_spec i0 (i + 1)); lia.
  - exists out. split; [exact Hout|]. split; [|exact Hob].
    rewrite Hol. destruct (Z.ltb_spec i0 (short_block_len g + 1)); lia.
Qed.

(** The facts about the block sizes of one [(version, level)]. *)
Lemma geometry_facts (version : Z) (level : ErrCor) :
  1 <= version <= 40 →
  ∃ g n,
    blockGeometry version level = Ok g ∧ getTotalCodewords version level = Ok n
    ∧ 1 <= num_blocks g ∧ 1 <= ECC_per_block g <= 30
    ∧ 0 <= short_block_len g - ECC_per_block g
    ∧ 1 <= num_short_blocks g <= num_blocks g
    ∧ n = num_blocks g * (short_block_len g - ECC_per_block g)
          + (num_blocks g - num_short_blocks g)
    ∧ total_codewords g = Z.shiftr (getTotalModules version) 3
    ∧ total_codewords g
      = num_blocks g * short_block_len g + (num_blocks g - num_short_blocks g).
Proof.
  intros Hv. pose proof (geometry_ok_all version level Hv) as Hok.
  pose proof (ecc_ok_all version level Hv) as Hecc.
  unfold geometry_ok in Hok. unfold ecc_ok in Hecc.
  destruct (blockGeometry version level) as [g| |]; try discriminate Hok.
  destruct (getTotalCodewords version level) as [n| |]; try discriminate Hok.
  repeat (apply andb_prop in Hok as [Hok ?]).
  repeat (apply andb_prop in Hecc as [Hecc ?]).
  exists g, n. repeat split; try reflexivity; lia.
Qed.

Lemma generated_tables : ∃ t, rsGenerateLogExp initialTables = Ok t.
Proof. apply is_Ok_true. vm_compute. reflexivity. Qed.

(** The split of the data codewords of a version and level, with the
    error correction codewords. *)
Lemma splitBlocks_version (t : RsTables) (version : Z) (level : ErrCor)
    (data : list Z) :
  rsGenerateLogExp initialTables = Ok t →
  1 <= version <= 40 → Forall is_byte data →
  getTotalCodewords version level = Ok (bsize data) →
  ∃ g blocks split_blocks,
    blockGeometry version level = Ok g
    ∧ dataBlocks g data = Ok blocks ∧ concat blocks = data
    ∧ splitBlocks t g data = Ok split_blocks
    ∧ bsize split_blocks = num_blocks g
    ∧ ∀ (i : nat) block, blocks !! i = Some block →
        ∃ edc,
          split_blocks !! i = Some (padBlock g (Z.of_nat i) block ++ edc)
          ∧ bsize block
            = short_block_len g - ECC_per_block g
              + (if Z.of_nat i <? num_short_blocks g then 0 else 1)
          ∧ bsize edc = ECC_per_block g
          ∧ Forall is_byte block ∧ Forall is_byte edc
          ∧ ∀ k a, 0 <= k < ECC_per_block g → vat (rsExp_ t) k = Ok a →
              peval t a (block ++ edc) = 0.
Proof.
  intros Ht Hv Hdata Hn.
  destruct (geometry_facts version level Hv)
    as (g & n & Hg & Hn' & HB & HE & Hd & Hs & Hsize & _ & _).
  rewrite Hn in Hn'. injection Hn' as Hn'.
  destruct (dataBlocks_lengths g data HB Hd Hs ltac:(lia))
    as (blocks & Hblocks & _ & Hconcat & _).
  destruct (splitBlocks_multiples t g data blocks Ht Hdata ltac:(lia) ltac:(lia) Hblocks)
    as (sbs & Hsbs & Hlen & Hrel).
  exists g, blocks, sbs. repeat split; assumption.
Qed.

(** Lines 504-523 for a version and level: the data codewords are cut
    into the blocks of the split, and every block is stored with the
    padding byte of a short block and the error correction codewords of
    [generateEDC]; the block followed by these codewords is a multiple of
    the generator polynomial, vanishing at [rsExp_[0]], ...,
    [rsExp_[E - 1]]. *)
Theorem splitBlocks_codewords (t : RsTables) (version : Z) (level : ErrCor)
    (data : list Z) :
  rsGenerateLogExp initialTables = Ok t →
  1 <= version <= 40 → Forall is_byte data →
  getTotalCodewords version level = Ok (bsize data) →
  ∃ g blocks split_blocks,
    blockGeometry version level = Ok g
    ∧ dataBlocks g data = Ok blocks ∧ concat blocks = data
    ∧ splitBlocks t g data = Ok split_blocks
    ∧ bsize split_blocks = num_blocks g
    ∧ ∀ (i : nat) block, blocks !! i = Some block →
        ∃ edc,
          split_blocks !! i
          = Some ((if Z.of_nat i <? num_short_blocks g then block ++ [0] else block)
                  ++ edc)
          ∧ bsize edc = ECC_per_block g ∧ Forall is_byte edc
          ∧ ∀ k a, 0 <= k < ECC_per_block g → vat (rsExp_ t) k = Ok a →
              peval t a (block ++ edc) = 0.
Proof.
  intros Ht Hv Hdata Hn.
  destruct (splitBlocks_version t version level data Ht Hv Hdata Hn)
    as (g & blocks & sbs & Hg & Hblocks & Hconcat & Hsbs & Hlen & Hrel).
  exists g, blocks, sbs. repeat split; try assumption.
  intros i block Hi. destruct (Hrel i block Hi) as (edc & H1 & _ & H2 & _ & H3 & H4).
  exists edc. repeat split; assumption.
Qed.

Lemma splitBlocks_codewords_witness :
  ∃ t, rsGenerateLogExp initialTables = Ok t
       ∧ ∃ g blocks split_blocks,
           blockGeometry 1 kQuartile = Ok g
           ∧ dataBlocks g helloData = Ok blocks ∧ concat blocks = helloData
           ∧ splitBlocks t g helloData = Ok split_blocks
           ∧ bsize split_blocks = num_blocks g
           ∧ ∀ (i : nat) block, blocks !! i = Some block →
               ∃ edc,
                 split_blocks !! i
                 = Some ((if Z.of_nat i <? num_short_blocks g
                          then block ++ [0] else block) ++ edc)
                 ∧ bsize edc = ECC_per_block g ∧ Forall is_byte edc
                 ∧ ∀ k a, 0 <= k < ECC_per_block g → vat (rsExp_ t) k = Ok a →
                     peval t a (block ++ edc) = 0.
Proof.
  destruct (rsGenerateLogExp initialTables) as [t| |] eqn:Ht;
    [| vm_compute in Ht; discriminate Ht ..].
  exists t. split; [reflexivity|].
  apply (splitBlocks_codewords t 1 kQuartile helloData Ht).
  - lia.
  - repeat (constructor; [unfold is_byte; lia|]). constructor.
  - reflexivity.
Defined.

(** [addEDCInterleave] on the data codewords of a version and level: it
    returns, with the generated tables, as many bytes as the symbol has
    codewords, [getTotalModules(version) >> 3]. *)
Lemma addEDCInterleave_returns (version : Z) (level : ErrCor) (data : list Z) :
  1 <= version <= 40 → Forall is_byte data →
  getTotalCodewords version level = Ok (bsize data) →
  ∃ t out,
    addEDCInterleave initialTables version level data = Ok (t, out)
    ∧ rsGenerateLogExp initialTables = Ok t
    ∧ bsize out = Z.shiftr (getTotalModules version) 3
    ∧ Forall is_byte out.
Proof.
  intros Hv Hdata Hn. destruct generated_tables as [t Ht].
  destruct (splitBlocks_version t version level data Ht Hv Hdata Hn)
    as (g & blocks & sbs & Hg & Hblocks & Hconcat & Hsbs & Hlen & Hrel).
  destruct (geometry_facts version level Hv)
    as (g' & n & Hg' & _ & HB & HE & Hd & Hs & _ & Htotal & Hsum).
  rewrite Hg in Hg'. injection Hg' as <-.
  assert (Hcount : length blocks = length sbs).
  { apply bind_Ok in Hblocks as ([j dbs] & Hrun & Hb). injection Hb as ->.
    pose proof (dataBlocks_lengths g data HB Hd Hs) as Hdl.
    destruct Hdl as (blocks' & Hb' & Hbl & _).
    { destruct (geometry_facts version level Hv)
        as (g' & n' & Hg' & Hn' & _ & _ & _ & _ & Hsize & _).
      rewrite Hg in Hg'. injection Hg' as <-. rewrite Hn in Hn'. injection Hn' as ->.
      exact Hsize. }
    unfold dataBlocks in Hb'. rewrite Hrun in Hb'. injection Hb' as <-.
    unfold bsize in *. lia. }
  destruct (interleave_length g sbs) as (out & Hout & Hol & Hob).
  - lia.
  - apply Forall_forall. intros b Hb.
    apply list_elem_of_lookup in Hb as [i Hi].
    destruct (lookup_lt_is_Some_2 blocks i) as [block Hblock];
      [rewrite Hcount; apply lookup_lt_is_Some; eauto|].
    destruct (Hrel i block Hblock) as (edc & Hs' & Hbl & Hel & Hbb & Heb & _).
    rewrite Hi in Hs'. injection Hs' as ->. unfold padBlock.
    destruct (Z.of_nat i <? num_short_blocks g).
    + split.
      * rewrite !bsize_app. change (bsize [0]) with 1. lia.
      * repeat (apply Forall_app; split); try assumption.
        constructor; [apply zero_byte | constructor].
    + split.
      * rewrite !bsize_app. lia.
      * apply Forall_app; split; assumption.
  - lia.
  - lia.
  - exists t, out. split.
    + unfold addEDCInterleave. rewrite Ht. cbn [mbind outcome_bind].
      rewrite Hg. cbn [mbind outcome_bind]. rewrite Hsbs. cbn [mbind outcome_bind].
      rewrite Hout. reflexivity.
    + split; [exact Ht|]. split; [|exact Hob].
      rewrite Hol, <- Htotal, Hsum. lia.
Qed.

(** [addEDCInterleave] on the data codewords of a version and level: it
    returns as many bytes as the symbol has codewords,
    [getTotalModules(version) >> 3], and leaves the tables generated. *)
Theorem addEDCInterleave_total (version : Z) (level : ErrCor) (data : list Z) :
  1 <= version <= 40 → Forall is_byte data →
  getTotalCodewords version level = Ok (bsize data) →
  ∃ t out,
    addEDCInterleave initialTables version level data = Ok (t, out)
    ∧ rsGenerateLogExp initialTables = Ok t
    ∧ bsize out = Z.shiftr (getTotalModules version) 3
    ∧ Forall is_byte out.
Proof. exact (addEDCInterleave_returns version level data). Qed.

Lemma addEDCInterleave_total_witness :
  ∃ t out,
    addEDCInterleave initialTables 1 kQuartile helloData = Ok (t, out)
    ∧ rsGenerateLogExp initialTables = Ok t
    ∧ bsize out = Z.shiftr (getTotalModules 1) 3
    ∧ Forall is_byte out.
Proof.
  apply (addEDCInterleave_total 1 kQuartile helloData).
  - lia.
  - repeat (constructor; [unfold is_byte; lia|]). constructor.
  - reflexivity.
Defined.

(** ** The mask, cell by cell *)

Lemma mat_at_Ok (m : Matrix) (y x : Z) (b : bool) :
  mat_at m y x = Ok b ↔
  0 <= y ∧ 0 <= x ∧ ∃ row, m !! Z.to_nat y = Some row ∧ row !! Z.to_nat x = Some b.
Proof.
  unfold mat_at. split.
  - intros H. apply bind_Ok in H as (row & Hrow & H).
    apply vat_Ok in Hrow as [Hy Hrow]. apply vat_Ok in H as [Hx H]. eauto.
  - intros (Hy & Hx & row & Hrow & H).
    rewrite (proj2 (vat_Ok m y row)) by auto. cbn [mbind outcome_bind].
    apply vat_Ok. auto.
Qed.

(** Two square matrices with the same cells are equal. *)
Lemma mat_ext (size : Z) (m1 m2 : Matrix) :
  square size m1 → square size m2 →
  (∀ y x, 0 <= y < size → 0 <= x < size → mat_at m1 y x = mat_at m2 y x) →
  m1 = m2.
Proof.
  intros [Hn1 Hr1] [Hn2 Hr2] Hcells. apply list_eq_same_length with (n := length m1);
    [unfold bsize in *; lia | reflexivity|].
  intros i r1 r2 Hi H1 H2.
  pose proof (Forall_lookup_1 _ _ _ _ Hr1 H1) as Hl1.
  pose proof (Forall_lookup_1 _ _ _ _ Hr2 H2) as Hl2. cbv beta in Hl1, Hl2.
  apply list_eq_same_length with (n := length r1);
    [unfold bsize in *; lia | reflexivity|].
  intros j b1 b2 Hj Hb1 Hb2.
  assert (E1 : mat_at m1 (Z.of_nat i) (Z.of_nat j) = Ok b1).
  { apply mat_at_Ok. split; [lia|]. split; [lia|]. exists r1.
    rewrite !Nat2Z.id. auto. }
  assert (E2 : mat_at m2 (Z.of_nat i) (Z.of_nat j) = Ok b2).
  { apply mat_at_Ok. split; [lia|]. split; [lia|]. exists r2.
    rewrite !Nat2Z.id. auto. }
  rewrite Hcells in E1 by (unfold bsize in *; lia). congruence.
Qed.

(** After [mask], every cell of the grid holds the value of line 384. *)
Lemma mask_cells (size m : Z) (g g' : Grid) :
  wf_grid size g → 0 <= size < 2 ^ 64 →
  mask size m g = Ok g' →
  ∀ y x, 0 <= y < size → 0 <= x < size →
    mat_at (blocks_ g') y x = maskedCell m g y x.
Proof.
  intros [Hb Hf] Hsize. unfold mask.
  destruct ((m <? 0) || (7 <? m)); [discriminate|].
  unfold size_t_wrap. rewrite Z.mod_small by lia.
  intros H. apply bind_Ok in H as (blocks & Hrun & H). injection H as <-.
  cbn [blocks_].
  pose (P := fun (y' : Z) (bl : Matrix) =>
    square size bl
    ∧ ∀ y0 x0, 0 <= y0 < size → 0 <= x0 < size →
        mat_at bl y0 x0
        = if y0 <? y' then maskedCell m g y0 x0 else mat_at (blocks_ g) y0 x0).
  assert (HP : P size blocks).
  { revert Hrun. apply (for_each_upto_invariant P); [lia | |].
    - split; [exact Hb|]. intros y0 x0 Hy0 Hx0.
      destruct (Z.ltb_spec y0 0); [lia | reflexivity].
    - intros y a b Hy [Hsq Ha] Hrow.
      pose (Q := fun (x' : Z) (bl : Matrix) =>
        square size bl
        ∧ ∀ y0 x0, 0 <= y0 < size → 0 <= x0 < size →
            mat_at bl y0 x0
            = if (y0 <? y) || ((y0 =? y) && (x0 <? x'))
              then maskedCell m g y0 x0 else mat_at (blocks_ g) y0 x0).
      assert (HQ : Q size b).
      { revert Hrow. apply (for_each_upto_invariant Q); [lia | |].
        - split; [exact Hsq|]. intros y0 x0 Hy0 Hx0. rewrite (Ha y0 x0 Hy0 Hx0).
          destruct (Z.ltb_spec x0 0); [lia|]. rewrite andb_false_r, orb_false_r.
          reflexivity.
        - intros x c d Hx [Hsqc Hc] Hstep.
          apply bind_Ok in Hstep as (swap & Hswap & Hstep).
          apply bind_Ok in Hstep as (bv & Hbv & Hstep).
          apply bind_Ok in Hstep as (fv & Hfv & Hstep).
          split; [apply (mat_set_square size c d y x _ Hsqc Hstep)|].
          intros y0 x0 Hy0 Hx0.
          rewrite (mat_at_set _ _ _ _ _ y0 x0 Hstep), (Hc y0 x0 Hy0 Hx0).
          destruct (Z.eqb_spec y0 y) as [->|Hny];
            destruct (Z.eqb_spec x0 x) as [->|Hnx]; cbn [andb].
          + rewrite (Hc y x Hy Hx) in Hbv.
            rewrite ?Z.ltb_irrefl, ?Z.eqb_refl in Hbv. cbn [andb orb] in Hbv.
            rewrite ?Z.ltb_irrefl, ?Z.eqb_refl.
            destruct (Z.ltb_spec x (x + 1)); [|lia]. cbn [andb orb].
            unfold maskedCell. rewrite Hswap, Hbv, Hfv. reflexivity.
          + rewrite ?Z.eqb_refl. cbn [andb].
            destruct (Z.ltb_spec x0 x), (Z.ltb_spec x0 (x + 1));
              try reflexivity; lia.
          + reflexivity.
          + reflexivity. }
      destruct HQ as [Hsqb Hbq]. split; [exact Hsqb|].
      intros y0 x0 Hy0 Hx0. rewrite (Hbq y0 x0 Hy0 Hx0).
      destruct (Z.ltb_spec x0 size); [|lia]. rewrite andb_true_r.
      destruct (Z.ltb_spec y0 y), (Z.eqb_spec y0 y), (Z.ltb_spec y0 (y + 1));
        try reflexivity; lia. }
  destruct HP as [_ HP]. intros y x Hy Hx. rewrite (HP y x Hy Hx).
  destruct (Z.ltb_spec y size); [reflexivity | lia].
Qed.

(** [mask] on a well-formed grid, for a mask index from 0 to 7: it
    returns, keeps the reservation mask, and inverts exactly the cells
    that are not reserved and for which the condition of the mask pattern
    (lines 372-379) holds; every other cell keeps its value. *)
Theorem mask_inverts_unreserved (size m : Z) (g : Grid) :
  wf_grid size g → 0 <= size < 2 ^ 64 → 0 <= m <= 7 →
  ∃ g', mask size m g = Ok g'
        ∧ funcBlock_ g' = funcBlock_ g
        ∧ ∀ y x, 0 <= y < size → 0 <= x < size →
            ∃ swap b f,
              maskSwap m x y = Ok swap
              ∧ mat_at (blocks_ g) y x = Ok b
              ∧ mat_at (funcBlock_ g) y x = Ok f
              ∧ mat_at (blocks_ g') y x = Ok (xorb b (swap && negb f)).
Proof.
  intros Hwf Hsize Hm.
  destruct (mask_total size m g Hwf Hsize Hm) as (g' & Hg' & _).
  exists g'. split; [exact Hg'|]. split; [apply (mask_frame size m g g' Hg')|].
  intros y x Hy Hx.
  destruct (maskSwap_total m x y Hm) as [swap Hswap].
  destruct (mat_at_square size (blocks_ g) y x (proj1 Hwf) Hy Hx) as [b Hb].
  destruct (mat_at_square size (funcBlock_ g) y x (proj2 Hwf) Hy Hx) as [f Hf].
  exists swap, b, f. repeat split; try assumption.
  rewrite (mask_cells size m g g' Hwf Hsize Hg' y x Hy Hx).
  unfold maskedCell. rewrite Hswap, Hb, Hf. reflexivity.
Qed.

Lemma mask_inverts_unreserved_witness :
  ∃ g', mask 2 3 sampleGrid = Ok g'
        ∧ funcBlock_ g' = funcBlock_ sampleGrid
        ∧ ∀ y x, 0 <= y < 2 → 0 <= x < 2 →
            ∃ swap b f,
              maskSwap 3 x y = Ok swap
              ∧ mat_at (blocks_ sampleGrid) y x = Ok b
              ∧ mat_at (funcBlock_ sampleGrid) y x = Ok f
              ∧ mat_at (blocks_ g') y x = Ok (xorb b (swap && negb f)).
Proof.
  apply (mask_inverts_unreserved 2 3 sampleGrid); [|lia|lia].
  split; (split; [reflexivity | repeat constructor]).
Defined.

(** Applying the same mask twice gives the grid back. *)
Theorem mask_involution (size m : Z) (g : Grid) :
  wf_grid size g → 0 <= size < 2 ^ 64 → 0 <= m <= 7 →
  ∃ g', mask size m g = Ok g' ∧ mask size m g' = Ok g.
Proof.
  intros Hwf Hsize Hm.
  destruct (mask_total size m g Hwf Hsize Hm) as (g1 & Hg1 & Hwf1).
  destruct (mask_total size m g1 Hwf1 Hsize Hm) as (g2 & Hg2 & Hwf2).
  exists g1. split; [exact Hg1|]. rewrite Hg2. f_equal.
  destruct (mask_frame size m g g1 Hg1) as [Hf1 _].
  destruct (mask_frame size m g1 g2 Hg2) as [Hf2 _].
  assert (Hblocks : blocks_ g2 = blocks_ g).
  { apply (mat_ext size); [apply Hwf2 | apply Hwf|].
    intros y x Hy Hx.
    rewrite (mask_cells size m g1 g2 Hwf1 Hsize Hg2 y x Hy Hx). unfold maskedCell.
    rewrite (mask_cells size m g g1 Hwf Hsize Hg1 y x Hy Hx). unfold maskedCell.
    rewrite Hf1.
    destruct (maskSwap_total m x y Hm) as [swap ->].
    destruct (mat_at_square size (blocks_ g) y x (proj1 Hwf) Hy Hx) as [b ->].
    destruct (mat_at_square size (funcBlock_ g) y x (proj2 Hwf) Hy Hx) as [f ->].
    cbn [mbind outcome_bind]. f_equal.
    destruct b, swap, f; reflexivity. }
  destruct g as [b f], g2 as [b2 f2]. cbn [blocks_ funcBlock_] in *.
  congruence.
Qed.

Lemma mask_involution_witness :
  ∃ g', mask 2 3 sampleGrid = Ok g' ∧ mask 2 3 g' = Ok sampleGrid.
Proof.
  apply (mask_involution 2 3 sampleGrid); [|lia|lia].
  split; (split; [reflexivity | repeat constructor]).
Defined.

(** ** Format and version information, cell by cell *)

Lemma bind_assoc {A B C} (m : outcome A) (f : A → outcome B) (k : B → outcome C) :
  (m ≫= f) ≫= k = m ≫= (fun a => f a ≫= k).
Proof. destruct m; reflexivity. Qed.

Lemma for_each_map {I J S} (body : J → S → outcome S) (c : I → J)
    (l : list I) (s : S) :
  for_each (fun i => body (c i)) l s = for_each body (map c l) s.
Proof.
  revert s. induction l as [|i l IH]; intros s; [reflexivity|].
  cbn [for_each map]. destruct (body (c i) s); cbn [mbind outcome_bind];
    [apply IH | reflexivity ..].
Qed.

Lemma for_each_pairs {I J S} (body : J → S → outcome S) (c1 c2 : I → J)
    (l : list I) (s : S) :
  for_each (fun i s => s ← body (c1 i) s; body (c2 i) s) l s
  = for_each body (flat_map (fun i => [c1 i; c2 i]) l) s.
Proof.
  revert s. induction l as [|i l IH]; intros s; [reflexivity|].
  cbn [for_each flat_map app].
  destruct (body (c1 i) s) as [s1| |]; cbn [mbind outcome_bind]; [|reflexivity ..].
  destruct (body (c2 i) s1) as [s2| |]; cbn [mbind outcome_bind];
    [apply IH | reflexivity ..].
Qed.

Lemma bind_congr {A B} (m m' : outcome A) (f f' : A → outcome B) :
  m = m' → (∀ a, f a = f' a) → m ≫= f = m' ≫= f'.
Proof. intros <- H. destruct m; cbn [mbind outcome_bind]; [apply H | reflexivity ..]. Qed.

Lemma for_each_singleton {I S} (body : I → S → outcome S) (i : I) (s : S) :
  for_each body [i] s = body i s.
Proof. cbn [for_each]. destruct (body i s); reflexivity. Qed.

(** [drawFormat] writes the cells of [formatCells]. *)
Lemma drawFormat_cells (version size : Z) (level : ErrCor) (m : Z) (g : Grid) :
  drawFormat size level m g
  = drawCells (infoValue version level m) (formatCells size) g.
Proof.
  unfold drawFormat, drawCells, formatCells.
  set (body := fun '(x, y, s) => setFuncBlocks x y (infoValue version level m s)).
  rewrite for_each_app. apply bind_congr; [reflexivity|]. intros g1.
  rewrite for_each_app. apply bind_congr; [rewrite for_each_singleton; reflexivity|].
  intros g2.
  rewrite for_each_app. apply bind_congr; [rewrite <- for_each_map; reflexivity|].
  intros g3.
  rewrite for_each_app. apply bind_congr; [rewrite <- for_each_map; reflexivity|].
  intros g4.
  rewrite for_each_app. apply bind_congr; [rewrite <- for_each_map; reflexivity|].
  intros g5. rewrite for_each_singleton. reflexivity.
Qed.

(** [drawVersion] writes the cells of [versionCells]. *)
Lemma drawVersion_cells (version size : Z) (level : ErrCor) (m : Z) (g : Grid) :
  drawVersion version size g
  = drawCells (infoValue version level m) (versionCells version size) g.
Proof.
  unfold drawVersion, drawCells, versionCells.
  destruct (version <? 7); [reflexivity|].
  rewrite <- for_each_pairs. reflexivity.
Qed.

Lemma drawInfo_cells (version size : Z) (level : ErrCor) (m : Z) (g : Grid) :
  (g ← drawFormat size level m g; drawVersion version size g)
  = drawCells (infoValue version level m) (infoCells version size) g.
Proof.
  unfold infoCells, drawCells. rewrite for_each_app.
  apply bind_congr; [apply drawFormat_cells|].
  intros g1. apply drawVersion_cells.
Qed.

Lemma setFuncBlocks_spec (size x y : Z) (b : bool) (g : Grid) :
  wf_grid size g → 0 <= x < size → 0 <= y < size →
  ∃ g', setFuncBlocks x y b g = Ok g' ∧ wf_grid size g'
        ∧ ∀ y0 x0,
            mat_at (blocks_ g') y0 x0
            = (if (y0 =? y) && (x0 =? x) then Ok b else mat_at (blocks_ g) y0 x0)
            ∧ mat_at (funcBlock_ g') y0 x0
              = (if (y0 =? y) && (x0 =? x) then Ok true
                 else mat_at (funcBlock_ g) y0 x0).
Proof.
  intros [Hb Hf] Hx Hy. unfold setFuncBlocks.
  destruct (mat_set_total size (blocks_ g) y x b Hb Hy Hx) as (b' & Hb' & Hsb).
  destruct (mat_set_total size (funcBlock_ g) y x true Hf Hy Hx) as (f' & Hf' & Hsf).
  rewrite Hb', Hf'. cbn [mbind outcome_bind]. eexists. split; [reflexivity|].
  split; [split; assumption|]. intros y0 x0. cbn [blocks_ funcBlock_].
  split; apply mat_at_set; assumption.
Qed.

(** After a list of writes inside the grid, a cell holds the value of the
    last write to it, or its old value, and is reserved when written. *)
Lemma drawCells_spec (val : Info → bool) (cells : list (Z * Z * Info))
    (size : Z) (g : Grid) :
  wf_grid size g → forallb (cell_in size) cells = true →
  ∃ g', drawCells val cells g = Ok g' ∧ wf_grid size g'
        ∧ ∀ y0 x0,
            mat_at (blocks_ g') y0 x0
            = match lastAt cells y0 x0 with
              | Some s => Ok (val s)
              | None => mat_at (blocks_ g) y0 x0
              end
            ∧ mat_at (funcBlock_ g') y0 x0
              = match lastAt cells y0 x0 with
                | Some _ => Ok true
                | None => mat_at (funcBlock_ g) y0 x0
                end.
Proof.
  intros Hwf. unfold drawCells, lastAt.
  induction cells as [|[[x y] s] cells IH] using rev_ind; intros Hin.
  - exists g. split; [reflexivity|]. split; [exact Hwf|]. intros; split; reflexivity.
  - rewrite forallb_app in Hin. apply andb_prop in Hin as [Hin Hc].
    cbn [forallb cell_in] in Hc. rewrite andb_true_r in Hc.
    destruct (IH Hin) as (g1 & Hg1 & Hwf1 & Hcells).
    rewrite for_each_app, Hg1. cbn [mbind outcome_bind].
    rewrite for_each_singleton.
    destruct (setFuncBlocks_spec size x y (val s) g1 Hwf1) as (g2 & Hg2 & Hwf2 & Hset);
      [lia | lia |].
    exists g2. split; [exact Hg2|]. split; [exact Hwf2|].
    intros y0 x0. destruct (Hset y0 x0) as [Hb Hf]. destruct (Hcells y0 x0) as [Hb1 Hf1].
    rewrite Hb, Hf, Hb1, Hf1, fold_left_app. cbn [fold_left].
    rewrite (andb_comm (y0 =? y)), (Z.eqb_sym x0 x), (Z.eqb_sym y0 y).
    destruct ((x =? x0) && (y =? y0)); split; reflexivity.
Qed.

Lemma patterns_ok_all : forallb patterns_ok (upto 1 41) = true.
Proof. vm_compute. reflexivity. Qed.

Lemma lastIs_true (cells : list (Z * Z * Info)) (y x : Z) (s : Info) :
  lastIs cells y x s = true → lastAt cells y x = Some s.
Proof.
  unfold lastIs. destruct (lastAt cells y x) as [s'|]; [|discriminate].
  intros H. f_equal.
  destruct s', s; cbn [info_eqb] in H; try discriminate H;
    try reflexivity; f_equal; lia.
Qed.

Lemma squareb_true (size : Z) (m : Matrix) : squareb size m = true → square size m.
Proof.
  unfold squareb, square. intros H. apply andb_prop in H as [Hn Hrows].
  split; [lia|]. apply Is_true_true, forallb_True in Hrows.
  eapply Forall_impl; [exact Hrows|]. intros row Hrow. apply Is_true_true in Hrow. lia.
Qed.

Lemma wf_gridb_true (size : Z) (g : Grid) : wf_gridb size g = true → wf_grid size g.
Proof.
  unfold wf_gridb, wf_grid. intros H. apply andb_prop in H as [Hb Hf].
  split; apply squareb_true; assumption.
Qed.

(** The facts the evaluation gives for one version. *)
Lemma patterns_facts (version : Z) :
  1 <= version <= 40 →
  let size := 4 * version + 17 in
  let cells := infoCells version size in
  ∃ g0 g1 g2,
    emptyGrid size = Ok g0 ∧ drawFixedPatterns version size g0 = Ok g1
    ∧ wf_grid size g1 ∧ forallb (cell_in size) cells = true
    ∧ finder_ok g1 cells size = true ∧ alignment_ok g1 cells version = true
    ∧ info_ok cells version size = true
    ∧ drawCells (fun _ => false) cells g1 = Ok g2
    ∧ count_free (funcBlock_ g2) = getTotalModules version.
Proof.
  intros Hv size cells.
  pose proof (forallb_upto _ 1 41 version patterns_ok_all ltac:(lia)) as H.
  unfold patterns_ok in H. fold size in H. fold cells in H.
  unfold emptyGrid in *. destruct (Z.ltb_spec size 0); [unfold size in *; lia|].
  cbn [mbind outcome_bind] in H.
  eexists. destruct (drawFixedPatterns version size _) as [g1| |] eqn:Hg1;
    [|discriminate H ..].
  destruct (drawCells (fun _ => false) cells g1) as [g2| |] eqn:Hg2;
    [| rewrite andb_false_r in H; discriminate H ..].
  exists g1, g2.
  do 5 (apply andb_prop in H as [H ?]).
  split; [reflexivity|]. split; [exact Hg1|].
  split; [apply wf_gridb_true; assumption|].
  repeat split; try assumption. lia.
Qed.

(** The function patterns of every version, level and mask: the grid
    after [drawPatterns] holds the fixed patterns, overwritten by the
    last write of the format and version information. *)
Lemma drawPatterns_cells (version : Z) (level : ErrCor) (m : Z) (g0 g1 : Grid) :
  1 <= version <= 40 →
  let size := 4 * version + 17 in
  let cells := infoCells version size in
  emptyGrid size = Ok g0 → drawFixedPatterns version size g0 = Ok g1 →
  ∃ g, drawPatterns version size level m g0 = Ok g ∧ wf_grid size g
       ∧ ∀ y x,
           mat_at (blocks_ g) y x
           = match lastAt cells y x with
             | Some s => Ok (infoValue version level m s)
             | None => mat_at (blocks_ g1) y x
             end
           ∧ mat_at (funcBlock_ g) y x
             = match lastAt cells y x with
               | Some _ => Ok true
               | None => mat_at (funcBlock_ g1) y x
               end.
Proof.
  intros Hv size cells Hg0 Hg1.
  destruct (patterns_facts version Hv)
    as (g0' & g1' & g2 & Hg0' & Hg1' & Hwf & Hin & _).
  fold size in Hg0', Hg1', Hwf, Hin. fold cells in Hin.
  rewrite Hg0 in Hg0'. injection Hg0' as <-.
  rewrite Hg1 in Hg1'. injection Hg1' as <-.
  destruct (drawCells_spec (infoValue version level m) cells size g1 Hwf Hin)
    as (g & Hg & Hwfg & Hcells).
  exists g. split; [|split; [exact Hwfg | exact Hcells]].
  rewrite drawPatterns_split, Hg1. cbn [mbind outcome_bind].
  rewrite drawInfo_cells. exact Hg.
Qed.

(** The steps of a construction that returns. *)
Lemma construct_inv (mem : Storage) (text : string) (err : ErrCor) (msk : Z)
    (q : QRCode) :
  construct mem text err msk = Ok q →
  ∃ enc v l g0 gp d t gc,
    determineEncoding text = Some enc
    ∧ setVersionAndErrorLevel enc (getEncodingMode enc)
        (int_of_size_t (Z.of_nat (String.length text))) err = Ok (v, l)
    ∧ 1 <= v <= 40
    ∧ emptyGrid (4 * v + 17) = Ok g0
    ∧ drawPatterns v (4 * v + 17) l (clampMask msk) g0 = Ok gp
    ∧ encodeText enc v l text = Ok d
    ∧ addEDCInterleave initialTables v l d = Ok (t, data_ q)
    ∧ drawCodewords (4 * v + 17) (data_ q) gp = Ok gc
    ∧ mask (4 * v + 17) (clampMask msk) gc = Ok (grid_ q)
    ∧ version_ q = v ∧ size_ q = 4 * v + 17 ∧ mask_ q = clampMask msk
    ∧ correctionLevel_ q = l ∧ kEncoding_ q = Some enc
    ∧ plain_text_ q = text ∧ tables_ q = t.
Proof.
  rewrite construct_steps. unfold constructSteps. intros H.
  destruct (determineEncoding text) as [enc|] eqn:Henc; [|discriminate H].
  apply bind_Ok in H as ([v lvl] & Hsel & H).
  apply bind_Ok in H as (g0 & Hg0 & H). apply bind_Ok in H as (g1 & Hg1 & H).
  apply bind_Ok in H as (d & Hd & H). apply bind_Ok in H as ([t d'] & Hedc & H).
  apply bind_Ok in H as (g2 & Hg2 & H). apply bind_Ok in H as (g3 & Hg3 & H).
  injection H as <-. cbn [version_ size_ mask_ correctionLevel_ grid_ data_
                           tables_ kEncoding_ plain_text_].
  pose proof (setVersionAndErrorLevel_range _ _ _ _ _ _
                (determineEncoding_supported _ _ Henc) Hsel) as Hv.
  exists enc, v, lvl, g0, g1, d, t, g2. repeat split; try assumption; lia.
Qed.

(** Codeword placement and mask keep the cells that [drawPatterns]
    reserved. *)
Lemma reserved_to_the_end (size : Z) (data : list Z) (m : Z) (gp gc gf : Grid) :
  drawCodewords size data gp = Ok gc → mask size m gc = Ok gf →
  funcBlock_ gf = funcBlock_ gp
  ∧ ∀ y x, mat_at (funcBlock_ gp) y x = Ok true →
      mat_at (blocks_ gf) y x = mat_at (blocks_ gp) y x.
Proof.
  intros Hc Hm. apply drawCodewords_frame in Hc as [Hf1 Hk1].
  apply mask_frame in Hm as [Hf2 Hk2]. split; [congruence|].
  intros y x Hres. rewrite Hk2 by (rewrite Hf1; exact Hres). apply Hk1, Hres.
Qed.

(** The function patterns of a constructed symbol: a cell of the format
    or version information holds its bit, a cell of the fixed patterns
    that the information does not touch holds its value, and both are
    reserved. *)
Lemma symbol_cells (mem : Storage) (text : string) (err : ErrCor) (msk : Z)
    (q : QRCode) :
  construct mem text err msk = Ok q →
  let v := version_ q in
  let size := 4 * v + 17 in
  let cells := infoCells v size in
  1 <= v <= 40 ∧ size_ q = size ∧ mask_ q = clampMask msk
  ∧ ∃ g0 g1,
      emptyGrid size = Ok g0 ∧ drawFixedPatterns v size g0 = Ok g1
      ∧ (∀ y x s, lastAt cells y x = Some s →
           mat_at (blocks_ (grid_ q)) y x
           = Ok (infoValue v (correctionLevel_ q) (mask_ q) s)
           ∧ mat_at (funcBlock_ (grid_ q)) y x = Ok true)
      ∧ (∀ y x dark, fixed_cell_ok g1 cells y x dark = true →
           mat_at (blocks_ (grid_ q)) y x = Ok dark
           ∧ mat_at (funcBlock_ (grid_ q)) y x = Ok true)
      ∧ ∀ y x,
          mat_at (funcBlock_ (grid_ q)) y x
          = match lastAt cells y x with
            | Some _ => Ok true
            | None => mat_at (funcBlock_ g1) y x
            end.
Proof.
  intros H.
  destruct (construct_inv mem text err msk q H)
    as (enc & v & l & g0 & gp & d & t & gc & _ & _ & Hv & Hg0 & Hgp & _ & _
        & Hgc & Hgf & Hver & Hsize & Hmask & Hlvl & _).
  rewrite Hver. cbv zeta. split; [exact Hv|]. split; [exact Hsize|].
  split; [exact Hmask|].
  destruct (patterns_facts v Hv) as (g0' & g1 & g2 & Hg0' & Hg1 & _).
  rewrite Hg0 in Hg0'. injection Hg0' as <-.
  destruct (drawPatterns_cells v l (clampMask msk) g0 g1 Hv Hg0 Hg1)
    as (gp' & Hgp' & Hwf & Hcells).
  rewrite Hgp in Hgp'. injection Hgp' as <-.
  destruct (reserved_to_the_end _ _ _ gp gc (grid_ q) Hgc Hgf) as [Hfunc Hkeep].
  exists g0, g1. split; [exact Hg0|]. split; [exact Hg1|]. split; [|split].
  - intros y x s Hs. destruct (Hcells y x) as [Hb Hf]. rewrite Hs in Hb, Hf.
    rewrite Hfunc, (Hkeep y x Hf), Hlvl, Hmask. split; assumption.
  - intros y x dark Hok. unfold fixed_cell_ok in Hok.
    apply andb_prop in Hok as [Hok Hlast]. apply andb_prop in Hok as [Hb1 Hf1].
    apply cell_is_true in Hb1, Hf1. destruct (Hcells y x) as [Hb Hf].
    unfold untouched in Hlast.
    destruct (lastAt (infoCells v (4 * v + 17)) y x) as [s|]; [discriminate Hlast|].
    rewrite Hf1 in Hf. rewrite Hb1 in Hb.
    rewrite Hfunc, (Hkeep y x Hf). split; assumption.
  - intros y x. rewrite Hfunc. apply Hcells.
Qed.

(** ** The function patterns of a constructed symbol *)

(** A symbol with known metadata. *)
Lemma metadata_inv (o : outcome QRCode) (v mode size m : Z) (l : ErrCor) :
  o ≫= metadata = Ok (v, mode, size, m, l) →
  ∃ q, o = Ok q ∧ getVersion q = v ∧ getSize q = size ∧ getMask q = m
       ∧ correctionLevel_ q = l.
Proof.
  intros H. apply bind_Ok in H as (q & Hq & H). exists q. split; [exact Hq|].
  unfold metadata in H. apply bind_Ok in H as (mode' & _ & H).
  injection H as -> _ -> -> ->. repeat split.
Qed.

(** In every constructed symbol the three corners hold a finder pattern
    with its separator: counted from the corner, the cell [(dx, dy)] of
    the 8x8 square is dark exactly at the distances 0, 1 and 3 from the
    centre [(3, 3)], and it is reserved. Neither the alignment patterns,
    the format and version information, the codewords nor the mask change
    it. *)
Theorem finder_patterns_in_symbol (mem : Storage) (text : string) (err : ErrCor)
    (msk : Z) (q : QRCode) (dy dx : Z) :
  construct mem text err msk = Ok q →
  0 <= dy <= 7 → 0 <= dx <= 7 →
  let size := getSize q in
  let grid := grid_ q in
  (mat_at (blocks_ grid) dy dx = Ok (finderDark dy dx)
   ∧ mat_at (funcBlock_ grid) dy dx = Ok true)
  ∧ (mat_at (blocks_ grid) dy (size - 1 - dx) = Ok (finderDark dy dx)
     ∧ mat_at (funcBlock_ grid) dy (size - 1 - dx) = Ok true)
  ∧ (mat_at (blocks_ grid) (size - 1 - dy) dx = Ok (finderDark dy dx)
     ∧ mat_at (funcBlock_ grid) (size - 1 - dy) dx = Ok true).
Proof.
  intros H Hdy Hdx. cbv zeta. unfold getSize.
  destruct (symbol_cells mem text err msk q H)
    as (Hv & Hsize & _ & g0 & g1 & Hg0 & Hg1 & _ & Hfixed & _).
  destruct (patterns_facts (version_ q) Hv)
    as (g0' & g1' & g2 & Hg0' & Hg1' & _ & _ & Hfinder & _).
  rewrite Hg0 in Hg0'. injection Hg0' as <-.
  rewrite Hg1 in Hg1'. injection Hg1' as <-.
  unfold finder_ok in Hfinder.
  apply (forallb_upto _ 0 8 dy) in Hfinder; [|lia].
  apply (forallb_upto _ 0 8 dx) in Hfinder; [|lia].
  apply andb_prop in Hfinder as [Hfinder H3]. apply andb_prop in Hfinder as [H1 H2].
  rewrite Hsize.
  split; [|split]; apply Hfixed; assumption.
Qed.

Lemma finder_patterns_in_symbol_witness :
  ∃ q, construct zeroStorage "HELLO WORLD" kQuartile 0 = Ok q
       ∧ mat_at (blocks_ (grid_ q)) 3 3 = Ok true
       ∧ mat_at (blocks_ (grid_ q)) 7 (getSize q - 1 - 0) = Ok false.
Proof.
  destruct (metadata_inv _ _ _ _ _ _ scenario_hello_world) as (q & H & _).
  exists q. split; [exact H|]. split.
  - apply (finder_patterns_in_symbol zeroStorage "HELLO WORLD" kQuartile 0 q 3 3 H);
      lia.
  - apply (finder_patterns_in_symbol zeroStorage "HELLO WORLD" kQuartile 0 q 7 0 H);
      lia.
Defined.

(** In every constructed symbol both copies of the format information
    hold the 15 bits of [formatWord] for the level and the mask of the
    symbol, bit [i] at [formatPos1 i] and at [formatPos2 size i], and the
    block at [(8, size - 8)] is dark; the cells are reserved. The version
    information, the codewords and the mask do not change them. *)
Theorem format_information_in_symbol (mem : Storage) (text : string)
    (err : ErrCor) (msk : Z) (q : QRCode) (i : Z) :
  construct mem text err msk = Ok q →
  0 <= i < 15 →
  let bit := bit_of (formatWord (correctionLevel_ q) (getMask q)) i in
  let grid := grid_ q in
  let '(x1, y1) := formatPos1 i in
  let '(x2, y2) := formatPos2 (getSize q) i in
  (mat_at (blocks_ grid) y1 x1 = Ok bit ∧ mat_at (funcBlock_ grid) y1 x1 = Ok true)
  ∧ (mat_at (blocks_ grid) y2 x2 = Ok bit
     ∧ mat_at (funcBlock_ grid) y2 x2 = Ok true)
  ∧ (mat_at (blocks_ grid) (getSize q - 8) 8 = Ok true
     ∧ mat_at (funcBlock_ grid) (getSize q - 8) 8 = Ok true).
Proof.
  intros H Hi. cbv zeta. unfold getSize, getMask.
  destruct (symbol_cells mem text err msk q H)
    as (Hv & Hsize & _ & g0 & g1 & _ & _ & Hinfo & _ & _).
  destruct (patterns_facts (version_ q) Hv)
    as (_ & _ & _ & _ & _ & _ & _ & _ & _ & Hok & _).
  unfold info_ok in Hok. apply andb_prop in Hok as [Hok _].
  apply andb_prop in Hok as [Hbits Hdark].
  apply (forallb_upto _ 0 15 i) in Hbits; [|lia]. cbv beta in Hbits.
  rewrite Hsize.
  destruct (formatPos1 i) as [x1 y1], (formatPos2 (4 * version_ q + 17) i) as [x2 y2].
  apply andb_prop in Hbits as [H1 H2].
  apply lastIs_true in H1, H2, Hdark.
  split; [apply (Hinfo _ _ _ H1)|]. split; [apply (Hinfo _ _ _ H2)|].
  apply (Hinfo _ _ _ Hdark).
Qed.

Lemma format_information_in_symbol_witness :
  ∃ q, construct zeroStorage "HELLO WORLD" kQuartile 0 = Ok q
       ∧ mat_at (blocks_ (grid_ q)) 3 8
         = Ok (bit_of (formatWord (correctionLevel_ q) (getMask q)) 3)
       ∧ mat_at (blocks_ (grid_ q)) (getSize q - 8) 8 = Ok true.
Proof.
  destruct (metadata_inv _ _ _ _ _ _ scenario_hello_world) as (q & H & _).
  exists q. split; [exact H|].
  pose proof (format_information_in_symbol zeroStorage "HELLO WORLD" kQuartile 0 q 3 H
                ltac:(lia)) as Hf.
  cbv zeta in Hf. change (formatPos1 3) with (8, 3) in Hf.
  destruct (formatPos2 (getSize q) 3) as [x2 y2].
  destruct Hf as [[Hb _] [_ [Hd _]]]. split; assumption.
Defined.

(** In every constructed symbol of version 7 or more both copies of the
    version information hold the 18 bits of [versionWord], bit [i] at
    [versionPos1 size i] and at [versionPos2 size i]; the cells are
    reserved, and the codewords and the mask do not change them. *)
Theorem version_information_in_symbol (mem : Storage) (text : string)
    (err : ErrCor) (msk : Z) (q : QRCode) (i : Z) :
  construct mem text err msk = Ok q →
  7 <= getVersion q → 0 <= i < 18 →
  let bit := bit_of (versionWord (getVersion q)) i in
  let grid := grid_ q in
  let '(x1, y1) := versionPos1 (getSize q) i in
  let '(x2, y2) := versionPos2 (getSize q) i in
  (mat_at (blocks_ grid) y1 x1 = Ok bit ∧ mat_at (funcBlock_ grid) y1 x1 = Ok true)
  ∧ (mat_at (blocks_ grid) y2 x2 = Ok bit
     ∧ mat_at (funcBlock_ grid) y2 x2 = Ok true).
Proof.
  intros H Hver Hi. cbv zeta. unfold getSize, getVersion in *.
  destruct (symbol_cells mem text err msk q H)
    as (Hv & Hsize & _ & g0 & g1 & _ & _ & Hinfo & _ & _).
  destruct (patterns_facts (version_ q) Hv)
    as (_ & _ & _ & _ & _ & _ & _ & _ & _ & Hok & _).
  unfold info_ok in Hok. apply andb_prop in Hok as [_ Hbits].
  destruct (Z.ltb_spec (version_ q) 7); [lia|].
  apply (forallb_upto _ 0 18 i) in Hbits; [|lia]. cbv beta in Hbits.
  rewrite Hsize.
  destruct (versionPos1 (4 * version_ q + 17) i) as [x1 y1],
           (versionPos2 (4 * version_ q + 17) i) as [x2 y2].
  apply andb_prop in Hbits as [H1 H2].
  apply lastIs_true in H1, H2.
  split; [apply (Hinfo _ _ _ H1) | apply (Hinfo _ _ _ H2)].
Qed.

Lemma version_information_in_symbol_witness :
  ∃ q, construct zeroStorage (repeatText 30 "0123456789") kHigh 5 = Ok q
       ∧ mat_at (blocks_ (grid_ q)) 0 (getSize q - 11)
         = Ok (bit_of (versionWord (getVersion q)) 0).
Proof.
  destruct (metadata_inv _ _ _ _ _ _ scenario_version_11) as (q & H & Hver & _).
  exists q. split; [exact H|].
  pose proof (version_information_in_symbol zeroStorage _ kHigh 5 q 0 H
                ltac:(lia) ltac:(lia)) as Hf.
  cbv zeta in Hf. unfold versionPos1, versionPos2 in Hf.
  change (Z.rem 0 3) with 0 in Hf. change (Z.quot 0 3) with 0 in Hf.
  rewrite Z.add_0_r in Hf. destruct Hf as [[Hb _] _]. exact Hb.
Defined.

(** In every constructed symbol every alignment pattern that line 231
    draws is whole: around the centre [(x, y)], taken from
    [determineAlignmentPos], the 25 cells are dark except for the ring at
    distance 1, and they are reserved. This holds also where a pattern
    lies on a timing line. *)
Theorem alignment_patterns_in_symbol (mem : Storage) (text : string)
    (err : ErrCor) (msk : Z) (q : QRCode) (pos : list Z) (i j x y dy dx : Z) :
  construct mem text err msk = Ok q →
  determineAlignmentPos (getVersion q) = Ok pos →
  alignmentDrawn (bsize pos) i j = true →
  vat pos i = Ok x → vat pos j = Ok y →
  -2 <= dy <= 2 → -2 <= dx <= 2 →
  mat_at (blocks_ (grid_ q)) (y + dy) (x + dx) = Ok (alignmentDark dy dx)
  ∧ mat_at (funcBlock_ (grid_ q)) (y + dy) (x + dx) = Ok true.
Proof.
  intros H Hpos Hdrawn Hx Hy Hdy Hdx. unfold getVersion in *.
  destruct (symbol_cells mem text err msk q H)
    as (Hv & Hsize & _ & g0 & g1 & Hg0 & Hg1 & _ & Hfixed & _).
  destruct (patterns_facts (version_ q) Hv)
    as (g0' & g1' & g2 & Hg0' & Hg1' & _ & _ & _ & Hal & _).
  rewrite Hg0 in Hg0'. injection Hg0' as <-.
  rewrite Hg1 in Hg1'. injection Hg1' as <-.
  unfold alignment_ok in Hal. rewrite Hpos in Hal.
  assert (Hi : 0 <= i < bsize pos).
  { apply vat_Ok in Hx as [Hi0 Hx]. apply lookup_lt_Some in Hx. unfold bsize. lia. }
  assert (Hj : 0 <= j < bsize pos).
  { apply vat_Ok in Hy as [Hj0 Hy]. apply lookup_lt_Some in Hy. unfold bsize. lia. }
  apply (forallb_upto _ 0 _ i) in Hal; [|lia].
  apply (forallb_upto _ 0 _ j) in Hal; [|lia]. cbv beta in Hal.
  rewrite Hdrawn, Hx, Hy in Hal.
  apply (forallb_upto _ (-2) 3 dy) in Hal; [|lia].
  apply (forallb_upto _ (-2) 3 dx) in Hal; [|lia].
  apply Hfixed, Hal.
Qed.

Lemma alignment_patterns_in_symbol_witness :
  ∃ q, construct zeroStorage (repeatText 30 "0123456789") kHigh 5 = Ok q
       ∧ mat_at (blocks_ (grid_ q)) (6 + 0) (30 + 1) = Ok false.
Proof.
  destruct (metadata_inv _ _ _ _ _ _ scenario_version_11) as (q & H & Hver & _).
  exists q. split; [exact H|].
  apply (alignment_patterns_in_symbol zeroStorage _ kHigh 5 q [6; 30; 54] 1 0 30 6 0 1 H);
    try reflexivity; try lia.
  rewrite Hver. reflexivity.
Defined.

(** In every constructed symbol the number of cells that are not
    reserved is [getTotalModules(version)], the number from which the
    capacity and the block sizes are derived. *)
Theorem free_cells_count (mem : Storage) (text : string) (err : ErrCor) (msk : Z)
    (q : QRCode) :
  construct mem text err msk = Ok q →
  count_free (funcBlock_ (grid_ q)) = getTotalModules (getVersion q).
Proof.
  intros H. unfold getVersion.
  destruct (symbol_cells mem text err msk q H)
    as (Hv & Hsize & _ & g0 & g1 & Hg0 & Hg1 & _ & _ & Hfunc).
  destruct (patterns_facts (version_ q) Hv)
    as (g0' & g1' & g2 & Hg0' & Hg1' & Hwf & Hin & _ & _ & _ & Hg2 & Hcount).
  rewrite Hg0 in Hg0'. injection Hg0' as <-.
  rewrite Hg1 in Hg1'. injection Hg1' as <-.
  destruct (drawCells_spec (fun _ => false) _ _ g1 Hwf Hin) as (g2' & Hg2' & Hwf2 & Hcells).
  rewrite Hg2 in Hg2'. injection Hg2' as <-.
  rewrite <- Hcount. f_equal.
  destruct (construct_inv mem text err msk q H)
    as (enc & v & l & g0' & gp & d & t & gc & _ & _ & _ & Hg0' & Hgp & _ & _
        & Hgc & Hgf & Hver & _).
  subst v.
  destruct (drawPatterns_cells (version_ q) l (clampMask msk) g0 g1 Hv Hg0 Hg1)
    as (gp' & Hgp' & Hwfp & _).
  rewrite Hg0 in Hg0'. injection Hg0' as <-.
  rewrite Hgp in Hgp'. injection Hgp' as <-.
  destruct (reserved_to_the_end _ _ _ gp gc (grid_ q) Hgc Hgf) as [Hfe _].
  apply (mat_ext (4 * version_ q + 17)).
  - rewrite Hfe. apply Hwfp.
  - apply Hwf2.
  - intros y x _ _. rewrite Hfunc. symmetry. apply Hcells.
Qed.

Lemma free_cells_count_witness :
  ∃ q, construct zeroStorage "HELLO WORLD" kQuartile 0 = Ok q
       ∧ count_free (funcBlock_ (grid_ q)) = getTotalModules (getVersion q).
Proof.
  destruct (metadata_inv _ _ _ _ _ _ scenario_hello_world) as (q & H & _).
  exists q. split; [exact H|].
  apply (free_cells_count zeroStorage "HELLO WORLD" kQuartile 0 q H).
Defined.

(** ** The outcome of the constructor *)

Lemma clampMask_range (msk : Z) : 0 <= clampMask msk <= 7.
Proof.
  unfold clampMask. destruct (Z.ltb_spec msk 0); [simpl; lia|].
  destruct (Z.ltb_spec 7 msk); simpl; lia.
Qed.

(** The constructor on a classified text of less than 2^31 characters
    for which the selection finds a version. *)
Lemma constructSteps_returns (text : string) (err : ErrCor) (msk : Z)
    (enc : Encoding) (v : Z) (l : ErrCor) :
  determineEncoding text = Some enc →
  Z.of_nat (String.length text) < 2 ^ 31 →
  setVersionAndErrorLevel enc (getEncodingMode enc)
    (int_of_size_t (Z.of_nat (String.length text))) err = Ok (v, l) →
  fits enc (Z.of_nat (String.length text)) v l →
  ∃ q, constructSteps text err msk = Ok q
       ∧ version_ q = v ∧ correctionLevel_ q = l
       ∧ size_ q = 4 * v + 17 ∧ wf_grid (4 * v + 17) (grid_ q)
       ∧ bsize (data_ q) = Z.shiftr (getTotalModules v) 3
       ∧ Forall is_byte (data_ q).
Proof.
  intros Henc Hlen Hsel (c & Hc & Hfit).
  pose proof (setVersionAndErrorLevel_range _ _ _ _ _ _
                (determineEncoding_supported _ _ Henc) Hsel) as Hv.
  destruct (patterns_facts v Hv) as (g0 & g1 & _ & Hg0 & Hg1 & _).
  destruct (drawPatterns_cells v l (clampMask msk) g0 g1 Hv Hg0 Hg1)
    as (gp & Hgp & Hwfp & _).
  destruct (encodeText_fits text enc v l c Henc Hv Hc Hfit)
    as (d & n & bpc & z & m & Hn & _ & Hd & Hdl & Hdb & _).
  destruct (addEDCInterleave_returns v l d Hv Hdb) as (t & d' & Hedc & _ & Hl' & Hb');
    [rewrite Hdl; exact Hn|].
  destruct (drawCodewords_total (4 * v + 17) d' gp Hwfp) as (gc & Hgc & Hwfc).
  destruct (mask_total (4 * v + 17) (clampMask msk) gc Hwfc)
    as (gf & Hgf & Hwff); [lia | apply clampMask_range|].
  unfold constructSteps. rewrite Henc, Hsel. cbn [mbind outcome_bind].
  rewrite Hg0. cbn [mbind outcome_bind]. rewrite Hgp. cbn [mbind outcome_bind].
  rewrite Hd. cbn [mbind outcome_bind]. rewrite Hedc. cbn [mbind outcome_bind].
  rewrite Hgc. cbn [mbind outcome_bind]. rewrite Hgf. cbn [mbind outcome_bind].
  eexists. split; [reflexivity|].
  cbn [version_ correctionLevel_ size_ grid_ data_].
  split; [reflexivity|]. split; [reflexivity|]. split; [reflexivity|].
  split; [exact Hwff|]. split; [exact Hl' | exact Hb'].
Qed.

(** The constructor on a classified text of less than 2^31 characters
    either returns or throws "String too long!". It returns exactly when
    some version from 1 to 40 and some level from the requested one up
    have the capacity for the text; the symbol it returns is a square of
    [4 * version + 17] cells a side and carries
    [getTotalModules(version) >> 3] codewords. *)
Theorem construct_returns (mem : Storage) (text : string) (enc : Encoding)
    (err : ErrCor) (msk : Z) :
  determineEncoding text = Some enc →
  Z.of_nat (String.length text) < 2 ^ 31 →
  (∃ q, construct mem text err msk = Ok q
        ∧ candidate err (getVersion q) (correctionLevel_ q)
        ∧ fits enc (Z.of_nat (String.length text)) (getVersion q) (correctionLevel_ q)
        ∧ getSize q = 4 * getVersion q + 17
        ∧ wf_grid (getSize q) (grid_ q)
        ∧ bsize (data_ q) = Z.shiftr (getTotalModules (getVersion q)) 3
        ∧ Forall is_byte (data_ q))
  ∨ (construct mem text err msk = Throw (LogicError "String too long!")
     ∧ ∀ v l, candidate err v l → ¬ fits enc (Z.of_nat (String.length text)) v l).
Proof.
  intros Henc Hlen. rewrite construct_steps.
  pose proof (int_of_size_t_small (Z.of_nat (String.length text)) ltac:(lia)) as Hint.
  destruct (selection_first_fit enc (getEncodingMode enc)
              (int_of_size_t (Z.of_nat (String.length text))) err
              (determineEncoding_supported _ _ Henc))
    as [(v & l & Hsel & Hcand & Hfit & _)|[Hthrow Hnone]].
  - left. rewrite Hint in Hfit.
    destruct (constructSteps_returns text err msk enc v l Henc Hlen Hsel Hfit)
      as (q & Hq & Hqv & Hql & Hqs & Hwf & Hdl & Hdb).
    exists q. unfold getVersion, getSize. rewrite Hqv, Hql, Hqs.
    split; [exact Hq|]. split; [exact Hcand|]. split; [exact Hfit|].
    split; [reflexivity|]. split; [exact Hwf|]. split; [exact Hdl | exact Hdb].
  - right. rewrite Hint in Hnone. split; [|exact Hnone].
    apply (constructSteps_too_long text err msk enc _ Henc Hthrow).
Qed.

Lemma construct_returns_witness :
  (∃ q, construct zeroStorage "HELLO WORLD" kQuartile 0 = Ok q
        ∧ candidate kQuartile (getVersion q) (correctionLevel_ q)
        ∧ fits kAlpha_ (Z.of_nat (String.length "HELLO WORLD")) (getVersion q)
            (correctionLevel_ q)
        ∧ getSize q = 4 * getVersion q + 17
        ∧ wf_grid (getSize q) (grid_ q)
        ∧ bsize (data_ q) = Z.shiftr (getTotalModules (getVersion q)) 3
        ∧ Forall is_byte (data_ q))
  ∨ (construct zeroStorage "HELLO WORLD" kQuartile 0
     = Throw (LogicError "String too long!")
     ∧ ∀ v l, candidate kQuartile v l →
         ¬ fits kAlpha_ (Z.of_nat (String.length "HELLO WORLD")) v l).
Proof.
  apply (construct_returns zeroStorage "HELLO WORLD" kAlpha_ kQuartile 0);
    [reflexivity | simpl; lia].
Defined.

(** Every constructed symbol has a version from 1 to 40 and a level from
    the requested one up, is a square of [4 * version + 17] cells a side
    in both matrices, and keeps the text and the mask index it was given,
    the latter set to 0 when outside 0..7. *)
Theorem construct_invariants (mem : Storage) (text : string) (err : ErrCor)
    (msk : Z) (q : QRCode) :
  construct mem text err msk = Ok q →
  1 <= getVersion q <= 40
  ∧ ErrCor_to_int err <= ErrCor_to_int (correctionLevel_ q)
  ∧ getSize q = 4 * getVersion q + 17
  ∧ wf_grid (getSize q) (grid_ q)
  ∧ 0 <= getMask q <= 7 ∧ (0 <= msk <= 7 → getMask q = msk)
  ∧ getText q = text
  ∧ determineEncoding text = kEncoding_ q.
Proof.
  intros H. unfold getVersion, getSize, getMask, getText.
  destruct (construct_inv mem text err msk q H)
    as (enc & v & l & g0 & gp & d & t & gc & Henc & Hsel & Hv & Hg0 & Hgp & _ & _
        & Hgc & Hgf & Hver & Hsize & Hmask & Hlvl & Hk & Htext & _).
  rewrite Hver, Hsize, Hmask, Hlvl, Htext, Hk.
  destruct (patterns_facts v Hv) as (g0' & g1 & _ & Hg0' & Hg1 & _).
  rewrite Hg0 in Hg0'. injection Hg0' as <-.
  destruct (drawPatterns_cells v l (clampMask msk) g0 g1 Hv Hg0 Hg1)
    as (gp' & Hgp' & Hwfp & _).
  rewrite Hgp in Hgp'. injection Hgp' as <-.
  destruct (drawCodewords_total (4 * v + 17) (data_ q) gp Hwfp) as (gc' & Hgc' & Hwfc).
  rewrite Hgc in Hgc'. injection Hgc' as <-.
  destruct (mask_total (4 * v + 17) (clampMask msk) gc Hwfc)
    as (gf & Hgf' & Hwff); [lia | apply clampMask_range|].
  rewrite Hgf in Hgf'. injection Hgf' as <-.
  split; [exact Hv|]. split.
  { destruct (selection_first_fit enc (getEncodingMode enc)
                (int_of_size_t (Z.of_nat (String.length text))) err
                (determineEncoding_supported _ _ Henc))
      as [(v' & l' & Hsel' & Hcand & _)|[Hthrow _]].
    - rewrite Hsel in Hsel'. injection Hsel' as <- <-. apply Hcand.
    - rewrite Hsel in Hthrow. discriminate Hthrow. }
  split; [reflexivity|]. split; [exact Hwff|].
  split; [apply clampMask_range|]. split; [|split; [reflexivity | exact Henc]].
  intros Hm. unfold clampMask.
  destruct (Z.ltb_spec msk 0); [lia|]. destruct (Z.ltb_spec 7 msk); [lia|]. reflexivity.
Qed.

Lemma construct_invariants_witness :
  ∃ q, construct zeroStorage "HELLO WORLD" kQuartile 0 = Ok q
       ∧ 1 <= getVersion q <= 40
       ∧ ErrCor_to_int kQuartile <= ErrCor_to_int (correctionLevel_ q)
       ∧ getSize q = 4 * getVersion q + 17
       ∧ wf_grid (getSize q) (grid_ q)
       ∧ 0 <= getMask q <= 7 ∧ (0 <= 0 <= 7 → getMask q = 0)
       ∧ getText q = "HELLO WORLD"%string
       ∧ determineEncoding "HELLO WORLD" = kEncoding_ q.
Proof.
  destruct (metadata_inv _ _ _ _ _ _ scenario_hello_world) as (q & H & _).
  exists q. split; [exact H|].
  apply (construct_invariants zeroStorage "HELLO WORLD" kQuartile 0 q H).
Defined.

(** ** Capacity across versions and levels *)

Lemma capacity_levels (enc : Encoding) (v : Z) (l l' : ErrCor) :
  enc ∈ supported → 1 <= v <= 40 → ErrCor_to_int l <= ErrCor_to_int l' →
  ∃ c c', getCapacity enc v l = Ok c ∧ getCapacity enc v l' = Ok c' ∧ c' <= c.
Proof.
  intros Henc Hv Hl.
  assert (Hall : forallb (fun e => forallb (capacity_antitone e) (upto 1 41))
                   supported = true) by (vm_compute; reflexivity).
  apply (forallb_elem _ _ enc) in Hall; [|exact Henc].
  apply (forallb_upto _ 1 41 v) in Hall; [|lia].
  clear Henc. rename Hall into Henc. unfold capacity_antitone in Henc.
  destruct (getCapacity enc v kLow) as [a| |] eqn:Ea; [|discriminate Henc ..].
  destruct (getCapacity enc v kMedium) as [b| |] eqn:Eb; [|discriminate Henc ..].
  destruct (getCapacity enc v kQuartile) as [c| |] eqn:Ec; [|discriminate Henc ..].
  destruct (getCapacity enc v kHigh) as [d| |] eqn:Ed; [|discriminate Henc ..].
  apply andb_prop in Henc as [Henc Hba]. apply andb_prop in Henc as [Hdc Hcb].
  apply Z.leb_le in Hba, Hdc, Hcb.
  destruct l, l'; cbn [ErrCor_to_int] in Hl; try (exfalso; clear - Hl; lia);
    rewrite ?Ea, ?Eb, ?Ec, ?Ed;
    eexists _, _; (split; [reflexivity|]); (split; [reflexivity|]);
    clear - Hba Hdc Hcb; lia.
Qed.

Lemma capacity_next (enc : Encoding) (v : Z) (l : ErrCor) :
  enc ∈ supported → 1 <= v <= 39 →
  ∃ c c', getCapacity enc v l = Ok c ∧ getCapacity enc (v + 1) l = Ok c' ∧ c < c'.
Proof.
  intros Henc Hv.
  assert (Hall : forallb (fun e => forallb (fun v => forallb (capacity_grows e v)
                   levels) (upto 1 40)) supported = true) by (vm_compute; reflexivity).
  apply (forallb_elem _ _ enc) in Hall; [|exact Henc].
  apply (forallb_upto _ 1 40 v) in Hall; [|lia].
  apply (forallb_elem _ _ l) in Hall; [|apply elem_of_levels].
  rename Hall into Hl. unfold capacity_grows in Hl.
  destruct (getCapacity enc v l) as [a| |]; [|discriminate Hl ..].
  destruct (getCapacity enc (v + 1) l) as [b| |]; [|discriminate Hl ..].
  exists a, b. split; [reflexivity|]. split; [reflexivity | lia].
Qed.

Lemma capacity_versions (enc : Encoding) (l : ErrCor) (n : nat) (v : Z) :
  enc ∈ supported → 1 <= v → v + Z.of_nat n <= 40 →
  ∃ c c', getCapacity enc v l = Ok c
          ∧ getCapacity enc (v + Z.of_nat n) l = Ok c'
          ∧ c + Z.of_nat n <= c'.
Proof.
  intros Henc Hv. induction n as [|n IH]; intros Hn.
  - destruct (capacity_levels enc v l l Henc ltac:(lia) ltac:(lia)) as (c & _ & Hc & _).
    exists c, c. rewrite Z.add_0_r. split; [exact Hc|]. split; [exact Hc | lia].
  - destruct IH as (c & c1 & Hc & Hc1 & Hle); [lia|].
    destruct (capacity_next enc (v + Z.of_nat n) l Henc ltac:(lia))
      as (c1' & c2 & Hc1' & Hc2 & Hlt).
    rewrite Hc1 in Hc1'. injection Hc1' as <-.
    exists c, c2. split; [exact Hc|].
    replace (v + Z.of_nat (S n)) with (v + Z.of_nat n + 1) by lia.
    split; [exact Hc2 | lia].
Qed.

Lemma capacity_order (enc : Encoding) (v v' : Z) (l l' : ErrCor) :
  enc ∈ supported → 1 <= v → v <= v' → v' <= 40 →
  ErrCor_to_int l <= ErrCor_to_int l' →
  ∃ c c', getCapacity enc v l' = Ok c ∧ getCapacity enc v' l = Ok c'
          ∧ c + (v' - v) <= c'.
Proof.
  intros Henc H1 Hvv H40 Hl.
  destruct (capacity_levels enc v l l' Henc ltac:(lia) Hl) as (a & b & Ha & Hb & Hba).
  destruct (capacity_versions enc l (Z.to_nat (v' - v)) v Henc H1 ltac:(lia))
    as (a' & c' & Ha' & Hc' & Hle).
  rewrite Ha in Ha'. injection Ha' as <-.
  replace (v + Z.of_nat (Z.to_nat (v' - v))) with v' in Hc' by lia.
  exists b, c'. split; [exact Hb|]. split; [exact Hc' | lia].
Qed.

(** The capacity grows with the version and does not grow with the
    level: a version at least as high with a level at most as high holds
    at least as many characters, and at least one more for every version
    in between. *)
Theorem getCapacity_monotone (enc : Encoding) (v v' : Z) (l l' : ErrCor) :
  enc ∈ supported → 1 <= v → v <= v' → v' <= 40 →
  ErrCor_to_int l <= ErrCor_to_int l' →
  ∃ c c', getCapacity enc v l' = Ok c ∧ getCapacity enc v' l = Ok c'
          ∧ c + (v' - v) <= c'.
Proof. exact (capacity_order enc v v' l l'). Qed.

Lemma getCapacity_monotone_witness :
  ∃ c c', getCapacity kAlpha_ 1 kHigh = Ok c ∧ getCapacity kAlpha_ 3 kLow = Ok c'
          ∧ c + (3 - 1) <= c'.
Proof.
  apply (getCapacity_monotone kAlpha_ 1 3 kLow kHigh);
    [unfold supported; repeat constructor | lia | lia | lia | simpl; lia].
Defined.

(** The pair [(v, l)] that the selection returns is a pair of the range
    whose capacity holds the length; [v] is the smallest version whose
    capacity at the requested level holds the length, and [l] is the
    highest level of that version whose capacity holds it. *)
Theorem selection_smallest_version (enc : Encoding) (mode length : Z)
    (min_err_cor : ErrCor) (v : Z) (l : ErrCor) :
  enc ∈ supported →
  setVersionAndErrorLevel enc mode length min_err_cor = Ok (v, l) →
  1 <= v <= 40
  ∧ ErrCor_to_int min_err_cor <= ErrCor_to_int l
  ∧ (∃ c, getCapacity enc v l = Ok c ∧ length <= c)
  ∧ (∃ c, getCapacity enc v min_err_cor = Ok c ∧ length <= c)
  ∧ (∀ v' c, 1 <= v' < v → getCapacity enc v' min_err_cor = Ok c → c < length)
  ∧ (∀ l' c, ErrCor_to_int l < ErrCor_to_int l' →
       getCapacity enc v l' = Ok c → c < length).
Proof.
  intros Henc Hsel.
  destruct (selection_first_fit enc mode length min_err_cor Henc)
    as [(v0 & l0 & Hsel0 & [Hv Hl] & (c & Hc & Hfit) & Hfirst)|[Hthrow _]];
    [|rewrite Hsel in Hthrow; discriminate Hthrow].
  rewrite Hsel in Hsel0. injection Hsel0 as <- <-.
  split; [exact Hv|]. split; [exact Hl|].
  split; [exists c; split; [exact Hc | exact Hfit]|].
  split; [|split].
  - destruct (capacity_order enc v v min_err_cor l Henc ltac:(lia) ltac:(lia)
                ltac:(lia) Hl) as (c1 & c2 & Hc1 & Hc2 & Hle).
    rewrite Hc in Hc1. injection Hc1 as <-. exists c2. split; [exact Hc2 | lia].
  - intros v' c' Hv' Hc'. destruct (Z.lt_ge_cases c' length) as [|Hge]; [assumption|].
    exfalso. apply (Hfirst v' min_err_cor).
    + split; [lia|]. lia.
    + left. lia.
    + exists c'. split; [exact Hc' | lia].
  - intros l' c' Hl' Hc'. destruct (Z.lt_ge_cases c' length) as [|Hge]; [assumption|].
    exfalso. apply (Hfirst v l').
    + split; [lia|]. lia.
    + right. split; [reflexivity | lia].
    + exists c'. split; [exact Hc' | lia].
Qed.

Lemma selection_smallest_version_witness :
  1 <= 2 <= 40
  ∧ ErrCor_to_int kLow <= ErrCor_to_int kQuartile
  ∧ (∃ c, getCapacity kNumeric_ 2 kQuartile = Ok c ∧ 42 <= c)
  ∧ (∃ c, getCapacity kNumeric_ 2 kLow = Ok c ∧ 42 <= c)
  ∧ (∀ v' c, 1 <= v' < 2 → getCapacity kNumeric_ v' kLow = Ok c → c < 42)
  ∧ (∀ l' c, ErrCor_to_int kQuartile < ErrCor_to_int l' →
       getCapacity kNumeric_ 2 l' = Ok c → c < 42).
Proof.
  apply (selection_smallest_version kNumeric_ 1 42 kLow 2 kQuartile);
    [unfold supported; repeat constructor | vm_compute; reflexivity].
Defined.

(** ** The format and version words as codes *)

Lemma formatWord_ok_all (l l' : ErrCor) (m m' : Z) :
  0 <= m <= 7 → 0 <= m' <= 7 → formatWord_ok l m l' m' = true.
Proof.
  intros Hm Hm'.
  assert (Hall : forallb (fun l => forallb (fun m => forallb (fun l' =>
            forallb (fun m' => formatWord_ok l m l' m') (upto 0 8)) levels)
            (upto 0 8)) levels = true) by (vm_compute; reflexivity).
  apply (forallb_elem _ _ l) in Hall; [|apply elem_of_levels].
  apply (forallb_upto _ 0 8 m) in Hall; [|lia].
  apply (forallb_elem _ _ l') in Hall; [|apply elem_of_levels].
  apply (forallb_upto _ 0 8 m') in Hall; [|lia]. exact Hall.
Qed.

(** The format word of a level and a mask index from 0 to 7 has 15 bits;
    with the constant 0x5412 taken off, its top five bits are the code of
    the level and the mask index. The words of two different pairs of
    level and mask differ in at least 7 of the 15 bits. *)
Theorem formatWord_code (l l' : ErrCor) (m m' : Z) :
  0 <= m <= 7 → 0 <= m' <= 7 →
  0 <= formatWord l m < 2 ^ 15
  ∧ Z.shiftr (Z.lxor (formatWord l m) 0x5412) 10 = formatBits l * 8 + m
  ∧ ((l, m) ≠ (l', m') →
     7 <= differingBits 15 (formatWord l m) (formatWord l' m')).
Proof.
  intros Hm Hm'. pose proof (formatWord_ok_all l l' m m' Hm Hm') as H.
  unfold formatWord_ok in H. cbv zeta in H.
  apply andb_prop in H as [H Hd]. apply andb_prop in H as [H Hs].
  apply andb_prop in H as [H0 H15].
  split; [lia|]. split; [lia|]. intros Hne.
  apply orb_prop in Hd as [Hd|Hd]; [|lia].
  apply andb_prop in Hd as [Hl Hmm]. exfalso. apply Hne.
  f_equal; [|lia]. destruct l, l'; cbn [ErrCor_to_int] in Hl; try reflexivity; lia.
Qed.

Lemma formatWord_code_witness :
  0 <= formatWord kQuartile 0 < 2 ^ 15
  ∧ Z.shiftr (Z.lxor (formatWord kQuartile 0) 0x5412) 10 = formatBits kQuartile * 8 + 0
  ∧ ((kQuartile, 0) ≠ (kHigh, 5) →
     7 <= differingBits 15 (formatWord kQuartile 0) (formatWord kHigh 5)).
Proof. apply (formatWord_code kQuartile kHigh 0 5); lia. Defined.

Lemma versionWord_ok_all (v v' : Z) :
  7 <= v <= 40 → 7 <= v' <= 40 → versionWord_ok v v' = true.
Proof.
  intros Hv Hv'.
  assert (Hall : forallb (fun v => forallb (versionWord_ok v) (upto 7 41))
                   (upto 7 41) = true) by (vm_compute; reflexivity).
  apply (forallb_upto _ 7 41 v) in Hall; [|lia].
  apply (forallb_upto _ 7 41 v') in Hall; [|lia]. exact Hall.
Qed.

(** The version word of a version from 7 to 40 has 18 bits of which the
    top six are the version. The words of two different versions differ
    in at least 8 of the 18 bits. *)
Theorem versionWord_code (v v' : Z) :
  7 <= v <= 40 → 7 <= v' <= 40 →
  0 <= versionWord v < 2 ^ 18
  ∧ Z.shiftr (versionWord v) 12 = v
  ∧ (v ≠ v' → 8 <= differingBits 18 (versionWord v) (versionWord v')).
Proof.
  intros Hv Hv'. pose proof (versionWord_ok_all v v' Hv Hv') as H.
  unfold versionWord_ok in H. cbv zeta in H.
  apply andb_prop in H as [H Hd]. apply andb_prop in H as [H Hs].
  apply andb_prop in H as [H0 H18].
  split; [lia|]. split; [lia|]. intros Hne.
  apply orb_prop in Hd as [Hd|Hd]; lia.
Qed.

Lemma versionWord_code_witness :
  0 <= versionWord 7 < 2 ^ 18
  ∧ Z.shiftr (versionWord 7) 12 = 7
  ∧ (7 ≠ 11 → 8 <= differingBits 18 (versionWord 7) (versionWord 11)).
Proof. apply (versionWord_code 7 11); lia. Defined.

(** ** The order in which the codewords are placed *)

Lemma for_each_ext {I S} (body body' : I → S → outcome S) (l : list I) (s : S) :
  (∀ i s, body i s = body' i s) → for_each body l s = for_each body' l s.
Proof.
  intros H. revert s. induction l as [|i l IH]; intros s; [reflexivity|].
  cbn [for_each]. rewrite H. apply bind_congr; [reflexivity | exact IH].
Qed.

Lemma for_each_flat_map {I J S} (body : J → S → outcome S) (c : I → list J)
    (l : list I) (s : S) :
  for_each (fun i => for_each body (c i)) l s = for_each body (flat_map c l) s.
Proof.
  revert s. induction l as [|i l IH]; intros s; [reflexivity|].
  cbn [for_each flat_map]. rewrite for_each_app.
  apply bind_congr; [reflexivity | exact IH].
Qed.

(** [drawColumnPair] visits the cells of [pairCells]. *)
Lemma drawColumnPair_cells (size : Z) (func : Matrix) (data : list Z) (right : Z)
    (st : Matrix * Z) :
  drawColumnPair size func data right st
  = for_each (placeBit func data) (pairCells size right) st.
Proof.
  unfold drawColumnPair, pairCells. rewrite <- for_each_flat_map.
  apply for_each_ext. intros vert s. rewrite <- for_each_map.
  apply for_each_ext. intros j [blocks i]. reflexivity.
Qed.

(** [drawColumns] visits the cells of the pairs of [columnPairs]. *)
Lemma drawColumns_cells (size : Z) (func : Matrix) (data : list Z) (fuel : nat)
    (right : Z) (st : Matrix * Z) :
  drawColumns size fuel func data right st
  = for_each (placeBit func data)
      (flat_map (pairCells size) (columnPairs fuel right)) st.
Proof.
  revert right st. induction fuel as [|fuel IH]; intros right st;
    cbn [drawColumns columnPairs]; destruct (1 <=? right); try reflexivity.
  cbv zeta. cbn [flat_map]. rewrite for_each_app, drawColumnPair_cells.
  apply bind_congr; [reflexivity|]. intros st'. apply IH.
Qed.

Lemma columnPairs_range (fuel : nat) (right r : Z) :
  r ∈ columnPairs fuel right → 1 <= r <= right.
Proof.
  revert right. induction fuel as [|fuel IH]; intros right; cbn [columnPairs];
    destruct (Z.leb_spec 1 right) as [H1|H1]; try (intros H; inversion H; fail).
  cbv zeta. intros H. apply elem_of_cons in H as [->|H].
  - destruct (Z.eqb_spec right 6); lia.
  - apply IH in H. destruct (Z.eqb_spec right 6); lia.
Qed.

Lemma elem_of_flat_map {A B} (f : A → list B) (l : list A) (b : B) :
  b ∈ flat_map f l ↔ ∃ a, a ∈ l ∧ b ∈ f a.
Proof.
  rewrite list_elem_of_In, in_flat_map. split; intros (a & Ha & Hb); exists a;
    [rewrite !list_elem_of_In | rewrite <- !list_elem_of_In]; auto.
Qed.

Lemma elem_of_pairCells (size right y x : Z) :
  (y, x) ∈ pairCells size right ↔
  ∃ vert, 0 <= vert < size
    ∧ y = (if Z.land (right + 1) 2 =? 0 then size - 1 - vert else vert)
    ∧ (x = right ∨ x = right - 1).
Proof.
  unfold pairCells. rewrite elem_of_flat_map. split.
  - intros (vert & Hv & H). apply elem_of_upto in Hv. exists vert.
    split; [exact Hv|]. change (upto 0 2) with [0; 1] in H. cbn [map] in H.
    apply elem_of_cons in H as [H|H]; [injection H as -> ->; split; [reflexivity | lia]|].
    apply elem_of_cons in H as [H|H]; [injection H as -> ->; split; [reflexivity | lia]|].
    inversion H.
  - intros (vert & Hv & -> & Hx). exists vert. split; [apply elem_of_upto; exact Hv|].
    change (upto 0 2) with [0; 1]. cbn [map].
    destruct Hx as [->| ->]; [rewrite Z.sub_0_r; left | right; left].
Qed.

Lemma pairCells_NoDup (size right : Z) : NoDup (pairCells size right).
Proof.
  unfold pairCells. change (upto 0 2) with [0; 1]. cbn [map].
  set (yf := fun vert => if Z.land (right + 1) 2 =? 0 then size - 1 - vert else vert).
  assert (Hinj : ∀ a b, yf a = yf b → a = b).
  { intros a b. unfold yf. destruct (Z.land (right + 1) 2 =? 0); lia. }
  change (NoDup (flat_map (fun vert => [(yf vert, right - 0); (yf vert, right - 1)])
                   (upto 0 size))).
  pose proof (NoDup_seqZ 0 (size - 0)) as Hnd. fold (upto 0 size) in Hnd.
  induction (upto 0 size) as [|v l IH]; [constructor|].
  apply NoDup_cons in Hnd as [Hv Hl]. specialize (IH Hl).
  cbn [flat_map app]. constructor; [|constructor; [|exact IH]].
  - intros H. apply elem_of_cons in H as [H|H]; [injection H; lia|].
    apply elem_of_flat_map in H as (v' & Hv' & H). apply Hv.
    apply elem_of_cons in H as [H|H]; [|apply elem_of_cons in H as [H|H]];
      [| |inversion H]; apply (f_equal fst) in H; cbn [fst] in H;
      apply Hinj in H; subst; exact Hv'.
  - intros H. apply elem_of_flat_map in H as (v' & Hv' & H). apply Hv.
    apply elem_of_cons in H as [H|H]; [|apply elem_of_cons in H as [H|H]];
      [| |inversion H]; apply (f_equal fst) in H; cbn [fst] in H;
      apply Hinj in H; subst; exact Hv'.
Qed.

Lemma columns_NoDup (size : Z) (fuel : nat) (right : Z) :
  NoDup (flat_map (pairCells size) (columnPairs fuel right)).
Proof.
  revert right. induction fuel as [|fuel IH]; intros right; cbn [columnPairs];
    destruct (Z.leb_spec 1 right) as [H1|H1]; try constructor.
  cbv zeta. cbn [flat_map]. apply NoDup_app. split; [apply pairCells_NoDup|].
  split; [|apply IH].
  intros [y x] Hc Hrest. apply elem_of_pairCells in Hc as (_ & _ & _ & Hx).
  apply elem_of_flat_map in Hrest as (r & Hr & Hc).
  apply columnPairs_range in Hr.
  apply elem_of_pairCells in Hc as (_ & _ & _ & Hx'). lia.
Qed.

Lemma zigzag_NoDup (size : Z) : NoDup (zigzag size).
Proof. apply columns_NoDup. Qed.

Lemma zigzag_in_range (size y x : Z) :
  (y, x) ∈ zigzag size → 0 <= y < size ∧ 0 <= x < size.
Proof.
  unfold zigzag. intros H. apply elem_of_flat_map in H as (r & Hr & Hc).
  apply columnPairs_range in Hr.
  apply elem_of_pairCells in Hc as (vert & Hv & -> & Hx).
  destruct (Z.land (r + 1) 2 =? 0); lia.
Qed.

Lemma elem_of_free (func : Matrix) (cells : list (Z * Z)) (c : Z * Z) :
  c ∈ List.filter (isFree func) cells ↔ c ∈ cells ∧ isFree func c = true.
Proof. rewrite !list_elem_of_In. apply filter_In. Qed.

(** Bit [i] of the bytes, first bit the highest of the first byte. *)
Lemma bit_at_bytesBits (data : list Z) (i d : Z) :
  0 <= i → data !! Z.to_nat (i / 8) = Some d →
  bit_at (bytesBits data) i = Z.testbit d (7 - i mod 8).
Proof.
  revert i. induction data as [|c rest IH]; intros i Hi Hd; [discriminate Hd|].
  unfold bytesBits. cbn [map concat]. fold (bytesBits rest). unfold bit_at.
  destruct (Z.lt_ge_cases i 8) as [Hlt|Hge].
  - rewrite Z.div_small in Hd by lia. injection Hd as ->.
    rewrite Z.mod_small by lia.
    rewrite lookup_app_l by (rewrite bitsBE_8; cbn [length]; lia).
    rewrite bitsBE_8.
    assert (Hcases : i = 0 ∨ i = 1 ∨ i = 2 ∨ i = 3 ∨ i = 4 ∨ i = 5 ∨ i = 6 ∨ i = 7)
      by lia.
    destruct Hcases as [->|[->|[->|[->|[->|[->|[->| ->]]]]]]]; reflexivity.
  - assert (Hlen : length (bitsBE c 8) = 8%nat) by (rewrite bitsBE_8; reflexivity).
    rewrite lookup_app_r by lia. rewrite Hlen.
    replace (Z.to_nat i - 8)%nat with (Z.to_nat (i - 8)) by lia.
    fold (bit_at (bytesBits rest) (i - 8)).
    assert (Hq : i / 8 = (i - 8) / 8 + 1).
    { replace i with ((i - 8) + 1 * 8) at 1 by lia. apply Z.div_add. lia. }
    assert (Hr : i mod 8 = (i - 8) mod 8).
    { replace i with ((i - 8) + 1 * 8) at 1 by lia. apply Z.mod_add. lia. }
    rewrite Hr. apply IH; [lia|].
    rewrite Hq in Hd. assert (0 <= (i - 8) / 8) by (apply Z.div_pos; lia).
    replace (Z.to_nat ((i - 8) / 8 + 1)) with (S (Z.to_nat ((i - 8) / 8))) in Hd by lia.
    exact Hd.
Qed.

(** The three cases of lines 275-278. *)
Lemma placeBit_reserved (func : Matrix) (data : list Z) (y x : Z) (st : Matrix * Z) :
  mat_at func y x = Ok true → placeBit func data (y, x) st = Ok st.
Proof. destruct st as [blocks i]. unfold placeBit. cbn [fst snd]. intros ->. reflexivity. Qed.

Lemma placeBit_full (func : Matrix) (data : list Z) (y x : Z) (blocks : Matrix)
    (i : Z) :
  mat_at func y x = Ok false → 8 * bsize data <= i →
  placeBit func data (y, x) (blocks, i) = Ok (blocks, i).
Proof.
  unfold placeBit. cbn [fst snd]. intros -> Hi. cbn [mbind outcome_bind negb andb].
  destruct (Z.ltb_spec i (bsize data * 8)); [lia | reflexivity].
Qed.

Lemma placeBit_free (size : Z) (func : Matrix) (data : list Z) (y x : Z)
    (blocks : Matrix) (i : Z) :
  square size blocks → 0 <= y < size → 0 <= x < size →
  mat_at func y x = Ok false → 0 <= i < 8 * bsize data →
  ∃ blocks',
    placeBit func data (y, x) (blocks, i) = Ok (blocks', i + 1)
    ∧ mat_set blocks y x (bit_at (bytesBits data) i) = Ok blocks'
    ∧ square size blocks'.
Proof.
  intros Hsq Hy Hx Hf Hi. unfold placeBit. cbn [fst snd]. rewrite Hf.
  cbn [mbind outcome_bind negb andb].
  destruct (Z.ltb_spec i (bsize data * 8)); [|lia].
  destruct (shiftr3 i ltac:(lia)) as [-> ->].
  assert (Hq : 0 <= i / 8 < bsize data).
  { split; [apply Z.div_pos; lia | apply Z.div_lt_upper_bound; lia]. }
  destruct (lookup_lt_is_Some_2 data (Z.to_nat (i / 8))) as [d Hd];
    [unfold bsize in Hq; lia|].
  rewrite (proj2 (vat_Ok data (i / 8) d)) by (split; [lia | exact Hd]).
  cbn [mbind outcome_bind].
  rewrite bit_test by (pose proof (Z.mod_pos_bound i 8); lia).
  rewrite <- (bit_at_bytesBits data i d) by (lia || exact Hd).
  destruct (mat_set_total size blocks y x (bit_at (bytesBits data) i) Hsq Hy Hx)
    as (blocks' & Hset & Hsq').
  exists blocks'. rewrite Hset. cbn [mbind outcome_bind]. auto.
Qed.

(** [drawCodewords] over any list of distinct cells of the matrix, from
    the index [i0]: the free cells take the bits of the data from [i0] on
    in the order of the list until the data ends, and nothing else
    changes. *)
Lemma placeBits_spec (size : Z) (func : Matrix) (data : list Z)
    (cells : list (Z * Z)) :
  square size func → NoDup cells →
  (∀ y x, (y, x) ∈ cells → 0 <= y < size ∧ 0 <= x < size) →
  ∀ blocks0 i0, square size blocks0 → 0 <= i0 <= 8 * bsize data →
  ∃ blocks i,
    for_each (placeBit func data) cells (blocks0, i0) = Ok (blocks, i)
    ∧ square size blocks
    ∧ i = Z.min (i0 + bsize (List.filter (isFree func) cells)) (8 * bsize data)
    ∧ (∀ k y x, List.filter (isFree func) cells !! k = Some (y, x) →
         mat_at blocks y x
         = if i0 + Z.of_nat k <? 8 * bsize data
           then Ok (bit_at (bytesBits data) (i0 + Z.of_nat k))
           else mat_at blocks0 y x)
    ∧ (∀ y x, (y, x) ∉ List.filter (isFree func) cells →
         mat_at blocks y x = mat_at blocks0 y x).
Proof.
  intros Hfunc Hnd Hin. induction cells as [|[y x] cells IH]; intros blocks0 i0 Hsq Hi0.
  - exists blocks0, i0. split; [reflexivity|]. split; [exact Hsq|].
    split; [cbn [List.filter]; unfold bsize in *; cbn [length]; lia|].
    split; [intros k y x Hk; discriminate Hk | reflexivity].
  - apply NoDup_cons in Hnd as [Hc Hnd].
    assert (Hin' : ∀ y x, (y, x) ∈ cells → 0 <= y < size ∧ 0 <= x < size).
    { intros y' x' H. apply Hin. right. exact H. }
    specialize (IH Hnd Hin').
    destruct (Hin y x ltac:(left)) as [Hy Hx].
    destruct (mat_at_square size func y x Hfunc Hy Hx) as [f Hf].
    assert (Hfilter : List.filter (isFree func) ((y, x) :: cells)
                      = if f then List.filter (isFree func) cells
                        else (y, x) :: List.filter (isFree func) cells).
    { cbn [List.filter]. unfold isFree at 1. cbn [fst snd]. unfold cell_is.
      rewrite Hf. destruct f; reflexivity. }
    rewrite Hfilter. clear Hfilter. cbn [for_each].
    assert (Hnot : (y, x) ∉ List.filter (isFree func) cells).
    { intros H. apply elem_of_free in H as [H _]. exact (Hc H). }
    destruct f.
    + rewrite (placeBit_reserved func data y x _ Hf). cbn [mbind outcome_bind].
      apply IH; assumption.
    + destruct (Z.lt_ge_cases i0 (8 * bsize data)) as [Hlt|Hge].
      * destruct (placeBit_free size func data y x blocks0 i0 Hsq Hy Hx Hf ltac:(lia))
          as (blocks1 & Hstep & Hset & Hsq1).
        rewrite Hstep. cbn [mbind outcome_bind].
        destruct (IH blocks1 (i0 + 1) Hsq1 ltac:(lia))
          as (blocks & i & Hrun & Hsqb & Hi & Hbits & Hrest).
        exists blocks, i. split; [exact Hrun|]. split; [exact Hsqb|].
        split; [rewrite Hi; unfold bsize in *; cbn [length]; lia|]. split.
        -- intros [|k] y' x' Hk.
           ++ injection Hk as <- <-. rewrite (Hrest y x Hnot).
              rewrite (mat_at_set _ _ _ _ _ y x Hset), !Z.eqb_refl. cbn [andb].
              rewrite Z.add_0_r. destruct (Z.ltb_spec i0 (8 * bsize data)); [reflexivity | lia].
           ++ cbn [lookup list_lookup] in Hk. rewrite (Hbits k y' x' Hk).
              replace (i0 + 1 + Z.of_nat k) with (i0 + Z.of_nat (S k)) by lia.
              destruct (i0 + Z.of_nat (S k) <? 8 * bsize data); [reflexivity|].
              rewrite (mat_at_set _ _ _ _ _ y' x' Hset).
              destruct (Z.eqb_spec y' y) as [->|]; [|reflexivity].
              destruct (Z.eqb_spec x' x) as [->|]; [|reflexivity].
              exfalso. apply Hnot. exact (list_elem_of_lookup_2 _ _ _ Hk).
        -- intros y' x' H. apply not_elem_of_cons in H as [Hne H].
           rewrite (Hrest y' x' H), (mat_at_set _ _ _ _ _ y' x' Hset).
           destruct (Z.eqb_spec y' y) as [->|]; [|reflexivity].
           destruct (Z.eqb_spec x' x) as [->|]; [|reflexivity]. congruence.
      * rewrite (placeBit_full func data y x blocks0 i0 Hf Hge). cbn [mbind outcome_bind].
        destruct (IH blocks0 i0 Hsq Hi0) as (blocks & i & Hrun & Hsqb & Hi & Hbits & Hrest).
        exists blocks, i. split; [exact Hrun|]. split; [exact Hsqb|].
        split; [rewrite Hi; unfold bsize in *; cbn [length]; lia|]. split.
        -- intros [|k] y' x' Hk.
           ++ injection Hk as <- <-. rewrite (Hrest y x Hnot).
              destruct (Z.ltb_spec (i0 + Z.of_nat 0) (8 * bsize data)); [lia | reflexivity].
           ++ cbn [lookup list_lookup] in Hk. rewrite (Hbits k y' x' Hk).
              destruct (Z.ltb_spec (i0 + Z.of_nat k) (8 * bsize data)); [lia|].
              destruct (Z.ltb_spec (i0 + Z.of_nat (S k)) (8 * bsize data)); [lia|].
              reflexivity.
        -- intros y' x' H. apply not_elem_of_cons in H as [_ H]. apply Hrest, H.
Qed.

Lemma placement_ok_all : forallb placement_ok (upto 1 41) = true.
Proof. vm_compute. reflexivity. Qed.

Lemma countFree_length (func : Matrix) (cells : list (Z * Z)) :
  countFree func cells = bsize (List.filter (isFree func) cells).
Proof.
  unfold countFree.
  assert (H : ∀ a, fold_left (fun n c => if isFree func c then n + 1 else n) cells a
                   = a + bsize (List.filter (isFree func) cells)).
  { induction cells as [|c cells IH]; intros a; cbn [fold_left List.filter].
    - unfold bsize. cbn [length]. lia.
    - rewrite IH. destruct (isFree func c); unfold bsize; cbn [length]; lia. }
  rewrite H. lia.
Qed.

Lemma blank_free_cell (g : Grid) (y x : Z) :
  blank_free g = true → mat_at (funcBlock_ g) y x = Ok false →
  ∀ b, mat_at (blocks_ g) y x = Ok b → b = false.
Proof.
  unfold blank_free. intros Hall Hf b Hb.
  apply mat_at_Ok in Hf as (Hy & Hx & frow & Hfrow & Hfx).
  apply mat_at_Ok in Hb as (_ & _ & brow & Hbrow & Hbx).
  assert (Hrow : (brow, frow) ∈ zip (blocks_ g) (funcBlock_ g)).
  { apply (list_elem_of_lookup_2 _ (Z.to_nat y)).
    rewrite lookup_zip_with, Hbrow. cbn [mbind option_bind]. rewrite Hfrow. reflexivity. }
  apply (forallb_elem _ _ _ Hall) in Hrow.
  assert (Hcell : (b, false) ∈ zip brow frow).
  { apply (list_elem_of_lookup_2 _ (Z.to_nat x)).
    rewrite lookup_zip_with, Hbx. cbn [mbind option_bind]. rewrite Hfx. reflexivity. }
  apply (forallb_elem _ _ _ Hrow) in Hcell. destruct b; [discriminate Hcell | reflexivity].
Qed.

(** The facts the evaluation gives for one version. *)
Lemma placement_facts (version : Z) :
  1 <= version <= 40 →
  let size := 4 * version + 17 in
  ∃ g0 g1 g2,
    emptyGrid size = Ok g0 ∧ drawFixedPatterns version size g0 = Ok g1
    ∧ drawCells (fun _ => false) (infoCells version size) g1 = Ok g2
    ∧ blank_free g2 = true
    ∧ bsize (freeCells (funcBlock_ g2) size) = getTotalModules version.
Proof.
  intros Hv size.
  pose proof (forallb_upto _ 1 41 version placement_ok_all ltac:(lia)) as H.
  unfold placement_ok in H. fold size in H.
  unfold emptyGrid in *. destruct (Z.ltb_spec size 0); [unfold size in *; lia|].
  cbn [mbind outcome_bind] in H.
  eexists. destruct (drawFixedPatterns version size _) as [g1| |] eqn:Hg1;
    [|discriminate H ..].
  destruct (drawCells (fun _ => false) (infoCells version size) g1) as [g2| |] eqn:Hg2;
    [|discriminate H ..].
  exists g1, g2. apply andb_prop in H as [Hblank Hcount].
  split; [reflexivity|]. split; [exact Hg1|]. split; [exact Hg2|].
  split; [exact Hblank|]. unfold freeCells. rewrite <- countFree_length. lia.
Qed.

(** [drawCodewords] on a square grid. *)
Lemma drawCodewords_placed (size : Z) (data : list Z) (g : Grid) :
  wf_grid size g →
  ∃ g',
    drawCodewords size data g = Ok g'
    ∧ wf_grid size g'
    ∧ funcBlock_ g' = funcBlock_ g
    ∧ (∀ k y x, freeCells (funcBlock_ g) size !! k = Some (y, x) →
         mat_at (blocks_ g') y x
         = if Z.of_nat k <? 8 * bsize data
           then Ok (bit_at (bytesBits data) (Z.of_nat k))
           else mat_at (blocks_ g) y x)
    ∧ (∀ y x, (y, x) ∉ freeCells (funcBlock_ g) size →
         mat_at (blocks_ g') y x = mat_at (blocks_ g) y x).
Proof.
  intros [Hb Hf]. unfold drawCodewords. rewrite drawColumns_cells. fold (zigzag size).
  assert (Hn : 0 <= 8 * bsize data) by (unfold bsize; lia).
  destruct (placeBits_spec size (funcBlock_ g) data (zigzag size) Hf
              (zigzag_NoDup size) (zigzag_in_range size) (blocks_ g) 0 Hb ltac:(lia))
    as (blocks & i & Hrun & Hsq & _ & Hbits & Hrest).
  rewrite Hrun. cbn [mbind outcome_bind]. eexists. split; [reflexivity|].
  cbn [blocks_ funcBlock_]. split; [split; assumption|]. split; [reflexivity|]. split.
  - intros k y x Hk. rewrite (Hbits k y x Hk). rewrite !Z.add_0_l. reflexivity.
  - exact Hrest.
Qed.

(** [drawCodewords] places the bits of the codewords, the highest bit of
    the first codeword first, on the cells that are not reserved, in the
    order in which its loops visit them: two columns at a time from the
    right, upwards and downwards in turn, column 6 left out. Free cells
    beyond the last bit and all other cells keep their value. *)
Theorem drawCodewords_zigzag (size : Z) (data : list Z) (g : Grid) :
  wf_grid size g →
  ∃ g',
    drawCodewords size data g = Ok g'
    ∧ funcBlock_ g' = funcBlock_ g
    ∧ (∀ k y x, freeCells (funcBlock_ g) size !! k = Some (y, x) →
         mat_at (blocks_ g') y x
         = if Z.of_nat k <? 8 * bsize data
           then Ok (bit_at (bytesBits data) (Z.of_nat k))
           else mat_at (blocks_ g) y x)
    ∧ (∀ y x, (y, x) ∉ freeCells (funcBlock_ g) size →
         mat_at (blocks_ g') y x = mat_at (blocks_ g) y x).
Proof.
  intros Hwf. destruct (drawCodewords_placed size data g Hwf)
    as (g' & Hrun & _ & Hfunc & Hbits & Hrest).
  exists g'. auto.
Qed.

Lemma drawCodewords_zigzag_witness :
  ∃ g',
    drawCodewords 2 [160] sampleGrid = Ok g'
    ∧ funcBlock_ g' = funcBlock_ sampleGrid
    ∧ (∀ k y x, freeCells (funcBlock_ sampleGrid) 2 !! k = Some (y, x) →
         mat_at (blocks_ g') y x
         = if Z.of_nat k <? 8 * bsize [160]
           then Ok (bit_at (bytesBits [160]) (Z.of_nat k))
           else mat_at (blocks_ sampleGrid) y x)
    ∧ (∀ y x, (y, x) ∉ freeCells (funcBlock_ sampleGrid) 2 →
         mat_at (blocks_ g') y x = mat_at (blocks_ sampleGrid) y x).
Proof.
  apply (drawCodewords_zigzag 2 [160] sampleGrid).
  split; (split; [reflexivity | repeat constructor]).
Defined.

(** The cells of a constructed symbol that are not reserved, read in the
    order of [drawCodewords], are [getTotalModules(version)] many and
    hold the bits of the codewords of [data_], then zeros, each inverted
    where the mask pattern of the symbol says so. *)
Theorem codewords_in_symbol (mem : Storage) (text : string) (err : ErrCor)
    (msk : Z) (q : QRCode) :
  construct mem text err msk = Ok q →
  let free := freeCells (funcBlock_ (grid_ q)) (getSize q) in
  bsize free = getTotalModules (getVersion q)
  ∧ ∀ k y x, free !! k = Some (y, x) →
      ∃ swap,
        maskSwap (getMask q) x y = Ok swap
        ∧ mat_at (blocks_ (grid_ q)) y x
          = Ok (xorb (bit_at (bytesBits (data_ q)) (Z.of_nat k)) swap).
Proof.
  intros H. cbv zeta. unfold getSize, getVersion, getMask.
  destruct (construct_inv mem text err msk q H)
    as (enc & v & l & g0 & gp & d & t & gc & _ & _ & Hv & Hg0 & Hgp & _ & _
        & Hgc & Hgf & Hver & Hsize & Hmask & _).
  rewrite Hver, Hsize, Hmask.
  destruct (placement_facts v Hv) as (g0' & g1 & g2 & Hg0' & Hg1 & Hg2 & Hblank & Hcount).
  rewrite Hg0 in Hg0'. injection Hg0' as <-.
  destruct (patterns_facts v Hv)
    as (g0' & g1' & g3 & Hg0' & Hg1' & Hwf1 & Hin & _ & _ & _ & _ & _).
  rewrite Hg0 in Hg0'. injection Hg0' as <-.
  rewrite Hg1 in Hg1'. injection Hg1' as <-. clear g3.
  destruct (drawCells_spec (fun _ => false) _ _ g1 Hwf1 Hin) as (g2' & Hg2' & Hwf2 & Hcells).
  rewrite Hg2 in Hg2'. injection Hg2' as <-.
  destruct (drawPatterns_cells v l (clampMask msk) g0 g1 Hv Hg0 Hg1)
    as (gp' & Hgp' & Hwfp & Hpat).
  rewrite Hgp in Hgp'. injection Hgp' as <-.
  assert (Hfp : funcBlock_ gp = funcBlock_ g2).
  { apply (mat_ext (4 * v + 17)); [apply Hwfp | apply Hwf2|].
    intros y x _ _. rewrite (proj2 (Hpat y x)), (proj2 (Hcells y x)). reflexivity. }
  destruct (drawCodewords_placed (4 * v + 17) (data_ q) gp Hwfp)
    as (gc' & Hgc' & Hwfc & Hfc & Hbits & _).
  rewrite Hgc in Hgc'. injection Hgc' as <-.
  pose proof (mask_frame _ _ _ _ Hgf) as [Hff _].
  rewrite Hff, Hfc, Hfp. split; [exact Hcount|].
  intros k y x Hk.
  assert (Hcell : (y, x) ∈ zigzag (4 * v + 17) ∧ isFree (funcBlock_ g2) (y, x) = true).
  { apply elem_of_free. exact (list_elem_of_lookup_2 _ _ _ Hk). }
  destruct Hcell as [Hzz Hfree]. apply zigzag_in_range in Hzz as [Hy Hx].
  unfold isFree in Hfree. cbn [fst snd] in Hfree. apply cell_is_true in Hfree.
  assert (Hblock : mat_at (blocks_ gc) y x
                   = Ok (bit_at (bytesBits (data_ q)) (Z.of_nat k))).
  { rewrite (Hbits k y x) by (rewrite Hfp; exact Hk).
    destruct (Z.ltb_spec (Z.of_nat k) (8 * bsize (data_ q))) as [|Hge]; [reflexivity|].
    assert (Hnone : bit_at (bytesBits (data_ q)) (Z.of_nat k) = false).
    { unfold bit_at. rewrite lookup_ge_None_2; [reflexivity|].
      pose proof (bytesBits_size (data_ q)) as Hlen. unfold bsize in *. lia. }
    rewrite Hnone.
    destruct (mat_at_square _ _ y x (proj1 Hwfp) Hy Hx) as [b Hb]. rewrite Hb. f_equal.
    assert (Hb2 : mat_at (blocks_ g2) y x = Ok b).
    { rewrite (proj1 (Hcells y x)). rewrite (proj1 (Hpat y x)) in Hb.
      pose proof (proj2 (Hcells y x)) as Hf2. rewrite Hfree in Hf2.
      destruct (lastAt (infoCells v (4 * v + 17)) y x); [discriminate Hf2 | exact Hb]. }
    exact (blank_free_cell g2 y x Hblank Hfree b Hb2). }
  rewrite (mask_cells (4 * v + 17) (clampMask msk) gc (grid_ q) Hwfc ltac:(lia) Hgf y x Hy Hx).
  unfold maskedCell. rewrite Hblock, Hfc, Hfp, Hfree.
  pose proof (clampMask_range msk) as Hm.
  destruct (maskSwap_total (clampMask msk) x y Hm) as [swap Hswap].
  exists swap. split; [exact Hswap|]. rewrite Hswap. cbn [mbind outcome_bind negb].
  rewrite andb_true_r. reflexivity.
Qed.

Lemma codewords_in_symbol_witness :
  ∃ q, construct zeroStorage "HELLO WORLD" kQuartile 0 = Ok q
       ∧ bsize (freeCells (funcBlock_ (grid_ q)) (getSize q))
         = getTotalModules (getVersion q)
       ∧ ∀ k y x, freeCells (funcBlock_ (grid_ q)) (getSize q) !! k = Some (y, x) →
           ∃ swap,
             maskSwap (getMask q) x y = Ok swap
             ∧ mat_at (blocks_ (grid_ q)) y x
               = Ok (xorb (bit_at (bytesBits (data_ q)) (Z.of_nat k)) swap).
Proof.
  destruct (metadata_inv _ _ _ _ _ _ scenario_hello_world) as (q & H & _).
  exists q. split; [exact H|].
  apply (codewords_in_symbol zeroStorage "HELLO WORLD" kQuartile 0 q H).
Defined.

(** ** A text whose length does not fit [int] *)

(** The padding loop on a buffer that has reached the capacity. *)
Lemma padLoop_full (fuel : nat) (capacity byte : Z) (buffer : BitBuffer) :
  capacity <= bsize buffer → padLoop fuel capacity byte buffer = Ok buffer.
Proof.
  intros H. destruct fuel; cbn [padLoop];
    destruct (Z.ltb_spec (bsize buffer) capacity); reflexivity || lia.
Qed.

(** [encodeText] on 2^33 + 1 digits at version 1, level High: the
    character count is written as 1, the terminator length
    [static_cast<int>(capacity - buffer.size())] wraps to a positive
    number, and every bit of the text is packed. *)
Lemma encodeText_narrowed (text : string) :
  determineEncoding text = Some kNumeric_ →
  Z.of_nat (String.length text) = 2 ^ 33 + 1 →
  ∃ d, encodeText kNumeric_ 1 kHigh text = Ok d
       ∧ Forall is_byte d ∧ bsize d = 3579139416.
Proof.
  intros Henc Hlen. unfold encodeText.
  assert (Hmode : appendBits [] (uint32_of_size_t (getEncodingMode kNumeric_)) 4
                  = Ok (bitsBE 1 4)) by reflexivity.
  rewrite Hmode. cbn [mbind outcome_bind].
  assert (Hbpc : getBitsPerChar kNumeric_ 1 = Ok 10) by reflexivity.
  rewrite Hbpc. cbn [mbind outcome_bind]. rewrite Hlen.
  assert (Hcount : appendBits (bitsBE 1 4) (uint32_of_size_t (2 ^ 33 + 1)) 10
                   = Ok (bitsBE 1 4 ++ bitsBE 1 10)) by reflexivity.
  rewrite Hcount. cbn [mbind outcome_bind].
  rewrite (encodeText_segment text kNumeric_ _ Henc). cbn [mbind outcome_bind].
  assert (Hseg : bsize (segmentBits kNumeric_ text) = 28633115310).
  { change (segmentBits kNumeric_ text) with (numericGroups (digitsOf text)).
    destruct (numericGroups_size (digitsOf text)) as (q & r & Hl & Hq & Hr & ->).
    unfold digitsOf, bsize in Hl. rewrite length_map in Hl.
    rewrite length_list_ascii_of_string in Hl. rewrite Hlen in Hl.
    assert (r = 0 ∧ q = 2863311531) as [-> ->] by lia. reflexivity. }
  set (buffer := (bitsBE 1 4 ++ bitsBE 1 10) ++ segmentBits kNumeric_ text).
  assert (Hsize : bsize buffer = 28633115324).
  { unfold buffer. rewrite !bsize_app, Hseg. reflexivity. }
  clearbody buffer. unfold terminateAndPack.
  assert (Htotal : getTotalCodewords 1 kHigh = Ok 9) by reflexivity.
  rewrite Htotal. cbn [mbind outcome_bind]. rewrite Hsize.
  assert (Hterm : Z.min 4 (int_of_size_t (size_t_wrap
                    (size_t_wrap (size_t_wrap 9 * 8) - 28633115324))) = 4)
    by reflexivity.
  rewrite Hterm.
  rewrite (appendBits_Ok buffer 0 4) by lia. cbn [mbind outcome_bind].
  assert (Hsize4 : bsize (buffer ++ bitsBE 0 4) = 28633115328).
  { rewrite bsize_app, Hsize. reflexivity. }
  rewrite Hsize4.
  assert (Halign : Z.rem (8 - Z.rem 28633115328 8) 8 = 0) by reflexivity.
  rewrite Halign.
  rewrite (appendBits_Ok _ 0 0) by lia. cbn [mbind outcome_bind].
  change (bitsBE 0 0) with (@nil bool). rewrite app_nil_r, Hsize4.
  rewrite padLoop_full by (rewrite Hsize4; vm_compute; discriminate).
  cbn [mbind outcome_bind].
  destruct (packBits_bytes (buffer ++ bitsBE 0 4) 3579139416)
    as (d & Hd & Hn & Hbytes & _); [rewrite Hsize4; reflexivity|].
  exists d. auto.
Qed.

(** Line 511 reads the data codewords of the symbol only: at version 1,
    level High, the first 9 bytes. *)
Lemma addEDCInterleave_prefix (t : RsTables) (data : list Z) :
  9 <= bsize data →
  addEDCInterleave t 1 kHigh data = addEDCInterleave t 1 kHigh (take 9 data).
Proof.
  intros Hn. unfold addEDCInterleave.
  apply bind_congr; [reflexivity|]. intros t'.
  assert (Hg : blockGeometry 1 kHigh = Ok (mkGeometry 1 17 26 1 26)) by reflexivity.
  rewrite Hg. cbn [mbind outcome_bind].
  assert (Hcut : cutBlock (mkGeometry 1 17 26 1 26) data 0 0
                 = cutBlock (mkGeometry 1 17 26 1 26) (take 9 data) 0 0).
  { unfold cutBlock, vrange. cbn [short_block_len ECC_per_block num_short_blocks].
    change (0 + 26 - 17 + (if 0 <? 1 then 0 else 1)) with 9.
    assert (Hlen : bsize (take 9 data) = 9).
    { unfold bsize in *. rewrite length_take. lia. }
    rewrite Hlen.
    destruct (Z.leb_spec 9 (bsize data)); [|lia].
    change ((0 <=? 0) && (0 <=? 9) && true) with true.
    change ((0 <=? 0) && (0 <=? 9) && (9 <=? 9)) with true. cbv iota.
    change (Z.to_nat (9 - 0)) with 9%nat. change (Z.to_nat 0) with 0%nat.
    rewrite !drop_0, take_take. reflexivity. }
  assert (Hsplit : splitBlocks t' (mkGeometry 1 17 26 1 26) data
                   = splitBlocks t' (mkGeometry 1 17 26 1 26) (take 9 data)).
  { unfold splitBlocks. cbn [num_blocks]. change (upto 0 1) with [0].
    cbn [for_each]. rewrite Hcut. reflexivity. }
  rewrite Hsplit. reflexivity.
Qed.

Lemma capacity_below_field (enc : Encoding) (v : Z) (l : ErrCor) (c : Z) :
  enc ∈ supported → 1 <= v <= 40 → getCapacity enc v l = Ok c → c < 2 ^ 16.
Proof.
  intros Henc Hv Hc.
  destruct (capacity_facts enc v l Henc Hv) as (n & bpc & c' & _ & _ & Hc' & _ & Hb & _ & Hlt).
  rewrite Hc in Hc'. injection Hc' as <-.
  assert (2 ^ bpc <= 2 ^ 16) by (apply Z.pow_le_mono_r; lia). lia.
Qed.

(** The constructor on a text of 2^33 + 1 digits. *)
Lemma constructSteps_narrowed (text : string) (err : ErrCor) (msk : Z) :
  determineEncoding text = Some kNumeric_ →
  Z.of_nat (String.length text) = 2 ^ 33 + 1 →
  ∃ q, constructSteps text err msk = Ok q
       ∧ version_ q = 1 ∧ correctionLevel_ q = kHigh ∧ size_ q = 21
       ∧ bsize (data_ q) = 26.
Proof.
  intros Henc Hlen.
  assert (Hsel : setVersionAndErrorLevel kNumeric_ (getEncodingMode kNumeric_)
                   (int_of_size_t (Z.of_nat (String.length text))) err
                 = Ok (1, kHigh)).
  { rewrite Hlen. destruct err; reflexivity. }
  assert (Hv : 1 <= 1 <= 40) by lia.
  destruct (patterns_facts 1 Hv) as (g0 & g1 & _ & Hg0 & Hg1 & _).
  destruct (drawPatterns_cells 1 kHigh (clampMask msk) g0 g1 Hv Hg0 Hg1)
    as (gp & Hgp & Hwfp & _).
  destruct (encodeText_narrowed text Henc Hlen) as (d & Hd & Hbytes & Hn).
  assert (Hn9 : bsize (take 9 d) = 9).
  { unfold bsize in *. rewrite length_take. lia. }
  destruct (addEDCInterleave_returns 1 kHigh (take 9 d) Hv ltac:(apply Forall_take; exact Hbytes))
    as (t & d' & Hedc & _ & Hl' & Hb'); [rewrite Hn9; reflexivity|].
  rewrite <- addEDCInterleave_prefix in Hedc by lia.
  destruct (drawCodewords_total (4 * 1 + 17) d' gp Hwfp) as (gc & Hgc & Hwfc).
  destruct (mask_total (4 * 1 + 17) (clampMask msk) gc Hwfc)
    as (gf & Hgf & Hwff); [lia | apply clampMask_range|].
  unfold constructSteps. rewrite Henc, Hsel. cbn [mbind outcome_bind].
  rewrite Hg0. cbn [mbind outcome_bind]. rewrite Hgp. cbn [mbind outcome_bind].
  rewrite Hd. cbn [mbind outcome_bind]. rewrite Hedc. cbn [mbind outcome_bind].
  rewrite Hgc. cbn [mbind outcome_bind]. rewrite Hgf. cbn [mbind outcome_bind].
  eexists. split; [reflexivity|].
  cbn [version_ correctionLevel_ size_ data_].
  split; [reflexivity|]. split; [reflexivity|]. split; [reflexivity|]. exact Hl'.
Qed.

(** C1. The constructor passes [text.length()], a [std::size_t], to the
    [int] parameter of [setVersionAndErrorLevel]. For a text that has
    2^33 + 1 digits the selection therefore sees the length 1: no version
    from 1 to 40 has the capacity for the text at any level, and the
    constructor does not fail but returns a symbol of version 1 and level
    High. *)
Theorem construct_narrowed_length (mem : Storage) (text : string)
    (err : ErrCor) (msk : Z) :
  determineEncoding text = Some kNumeric_ →
  Z.of_nat (String.length text) = 2 ^ 33 + 1 →
  (∀ v l, candidate err v l →
     ¬ fits kNumeric_ (Z.of_nat (String.length text)) v l)
  ∧ int_of_size_t (Z.of_nat (String.length text)) = 1
  ∧ ∃ q, construct mem text err msk = Ok q
         ∧ getVersion q = 1 ∧ correctionLevel_ q = kHigh ∧ getSize q = 21.
Proof.
  intros Henc Hlen. split; [|split].
  - intros v l [Hv _] (c & Hc & Hfit).
    pose proof (capacity_below_field kNumeric_ v l c
                  (determineEncoding_supported _ _ Henc) Hv Hc) as Hlt.
    rewrite Hlen in Hfit. lia.
  - rewrite Hlen. reflexivity.
  - rewrite construct_steps.
    destruct (constructSteps_narrowed text err msk Henc Hlen)
      as (q & Hq & Hver & Hlvl & Hsize & _).
    exists q. unfold getVersion, getSize. auto.
Qed.

Lemma zeros_numeric (n : nat) :
  determineEncoding (repeatText n "0") = Some kNumeric_
  ∧ String.length (repeatText n "0") = n.
Proof.
  assert (H : isNumeric (repeatText n "0") = true
              ∧ String.length (repeatText n "0") = n).
  { induction n as [|n [IH1 IH2]]; [split; reflexivity|].
    cbn [repeatText append String.length]. split; [|f_equal; exact IH2].
    unfold isNumeric in *. cbn [list_ascii_of_string forallb].
    rewrite IH1. reflexivity. }
  destruct H as [H1 H2]. split; [|exact H2].
  rewrite determineEncoding_cases, H1. reflexivity.
Qed.

Lemma construct_narrowed_length_witness :
  let text := repeatText (Z.to_nat (2 ^ 33 + 1)) "0" in
  (∀ v l, candidate kLow v l →
     ¬ fits kNumeric_ (Z.of_nat (String.length text)) v l)
  ∧ int_of_size_t (Z.of_nat (String.length text)) = 1
  ∧ ∃ q, construct zeroStorage text kLow 0 = Ok q
         ∧ getVersion q = 1 ∧ correctionLevel_ q = kHigh ∧ getSize q = 21.
Proof.
  intros text.
  apply (construct_narrowed_length zeroStorage text kLow 0).
  - apply zeros_numeric.
  - unfold text. rewrite (proj2 (zeros_numeric _)). apply Z2Nat.id. lia.
Defined.
